(* ===== verification/_CoqProject ===== *)
-Q . S2P
Prelude.v
Ints.v
GoIO.v
GoImage.v
Stbi.v
Registry.v
BmpConfig.v
JpegConfig.v
Contracts.v
StbJpeg.v
Formats.v
GoBuild.v
Goroutines.v
ReadTrees.v
