(* ===== verification/Prelude.v ===== *)
(** * go-stbi: a verification library for the image codecs and bindings

    The repository binds the C library stb_image to Go and registers
    codecs with Go's [image] package.  Four source files:

    - [src/bmp/bmp.go]: the BMP codec.  [DecodeConfig] reads the 18-byte
      file header with [binary.Read], checks the magic "BM", branches on the
      DIB-header size (12: two little-endian uint16; 40, 56, 108, 124: two
      little-endian int32; anything else: ErrInvalid), and reports the
      magnitude of a negative height.  [Decode] calls [stbi.LoadReader]
      with a nil channel pointer; [init] registers both.
    - [src/jpeg/jpeg.go]: the JPEG codec.  [DecodeConfig] checks the magic
      FF D8 and then walks the marker segments: a 4-byte segment header
      (sentinel, marker, big-endian length), a start-of-frame marker
      (C0, C1, C2) ends the walk with the dimensions, any other marker is
      skipped by reading [Length - 2] bytes into a scratch buffer.
    - [src/jpeg/stbjpeg.go]: a second JPEG codec whose [DecodeConfig] wraps
      the standard library's and overrides the colour model, registered
      under the same name and magic.
    - [src/stbi.go]: [Load], [LoadFile], [LoadMemory], [LoadReader] call the
      C decoder through cgo and wrap its buffer in an [image.RGBA];
      [SetFlipVerticallyOnLoad] sets the decoder's global flag.  The
      comment in front of [import "C"] compiles the decoder of
      [stb_image.h] into this package.

    A caller reaches the codecs through [image.DecodeConfig] and
    [image.Decode], which compare the first bytes of the stream with the
    registered magic prefixes and call the entry found.

    ** Files of the development, in dependency order

    - [Prelude] (this file): bytes as [Byte.byte] with their value in [Z],
      the [outcome] of a Go call (returned, panicked, faulted, or out of
      fuel), the class [Typed] of the values a Go type has, the scope
      [go_scope] and
      its bind notation, the hint databases [go] and the tactics the
      component files share.
    - [Ints]: Go's fixed-width integers as [Z] with the wrap-around written
      out; little- and big-endian decoding as [encoding/binary] does it
      ([Z.lor], [Z.shiftl]); the matching encoders and their round trips;
      the platform's [int] width as the class [Arch]; the ranges [int_ok]
      and [int32_ok].
    - [GoIO]: Go's [error] values; [io.Reader] as the class [Stream]
      ([readFull] is [io.ReadFull] and [readAll] is [ioutil.ReadAll] over
      the reader, [view] what the reader still has to deliver) with the
      laws [StreamLaws]; its two instances, [Reader] (the bytes still to
      come and the error behind them) and [Chunked] (a device that hands
      over pieces, read by the loops of [io.ReadAtLeast] and
      [ioutil.ReadAll]); [Peek], and [binary.Read] for
      fixed-size data (class [Binary], with [BinaryEnc] and [BinaryLaws]
      for the encoders of the specification side).
    - [GoImage]: [image.Config], [color.Model], [image.RGBA] with its
      rectangle, stride and pixel offset, and their [Typed] instances.
    - [Stbi], Module [Stbi]: the five functions of [src/stbi.go] over a
      [World] (the flip flag and the failure reason of the C library, the
      live C allocations, the Go cells behind [*int32], the files).  The C
      decoder is the class [Engine] with the laws [EngineLaws]; the lines
      the three loaders share are [finish]; [defer] is written out, and
      runs when the function returns and when it panics, so a panic
      carries the world the deferred calls leave; a path reaches C as the
      C string [c_str] gives.  A program over the bindings is a list of
      [call]s, run by [run].
    - [Registry], Module [Registry]: the format table of the [image]
      package as the specification describes it: [RegisterFormat], the loop
      [sniff] with [list_find] as its reference, [Sniff], [Decode],
      [DecodeConfig].
    - [BmpConfig], Module [Bmp]: [bmpHeader], [Header], [ErrInvalid],
      [DecodeConfig] (over any [Stream]), [Decode] and [init] of
      [src/bmp/bmp.go], with an encoder of BMP headers as the
      specification side of the round trip.
    - [JpegConfig], Module [Jpeg]: [segmentHeader], [Header], [ErrInvalid],
      the loop of [DecodeConfig] of [src/jpeg/jpeg.go] (over any [Stream])
      in three forms: the fuelled function [segments], the relation
      [loops], and the transition [lap] on [run]s with the reachable runs
      [reached]; the abstract segment walker [scan] the loop refines, the
      encoder of segment streams, and [init].
    - [Contracts], Module [Contract]: the specification side of the two
      parsers.  The algorithms of sections 4.2 and 4.3 of the specification
      are written as functions of what a stream holds, over the errors of
      section 7 ([failure]) and the answers a parser gives ([verdict]: an
      ImageConfig, a failure, or nothing the specification fixes):
      [FixedHeaderParser], and [SegmentWalkingParser] in the two readings
      the specification allows ([ByRecord]: the segment header of section
      3, four bytes, in every iteration; [ByMarker]: the steps of section
      4.3, a two-byte marker record followed at once by the frame fields
      or by the length).  The loop of section 4.3 has no bound and is
      defined by well-founded recursion on the bytes left ([walker],
      library Equations).  [implements] relates the outcome of a call of
      the code to a verdict.  None of this is translated from [src/], the
      constants included ([bitmap_magic], [start_of_image],
      [start_of_frame] are written out as the formats define them); the
      theorems relate it to [Bmp.DecodeConfig] and [Jpeg.DecodeConfig],
      which are.
    - [StbJpeg], Module [StbJpeg]: [DecodeConfig] and [init] of
      [src/jpeg/stbjpeg.go] over the class [StdJpeg].
    - [Formats], Module [Formats]: the tables the [init] functions build
      and what [image.DecodeConfig] and [image.Decode] do with them.
      Start-up is a transition system: a [process] is the format table
      and the packages whose [init] has run, a step of [boot] runs the
      [init] of a linked package that has not been initialised, and the
      process is [ready] when every linked package has been; [start]
      runs the [init] functions in a given order.
    - [GoBuild], Module [Build]: the calls between the packages.  The
      signatures of the exported functions are data ([LoadReader_type],
      [Decode_type], ...); a call between packages is a call expression
      over Go values (nil, untyped constants, typed values), type-checked
      by [check_call] and elaborated to a [call] of [Stbi] by [denote];
      [bmp_Decode], [jpeg_Decode] and [stbjpeg_Decode] are the bodies of
      the three [Decode] functions.
    - [Goroutines], Module [Sched]: two goroutines calling the bindings on
      one [World].  A loader is two steps, as it makes two calls into C
      that read and write the globals of the library: [enter] runs it to
      the return of the decoder's call, [resume] from [if data == nil] on
      (the fetch of the failure reason, or the copy by [C.GoBytes] with
      the count read through [channelsInFile], and the deferred
      releases).  A [goroutine] keeps what its call holds between the two
      ([inflight]); [tick] is one step of a goroutine and [sched] runs two
      goroutines under a schedule of steps.  [interleaving] is a schedule
      of whole calls, run by [Stbi.run].
    - [ReadTrees], Module [Tree]: [bmp.DecodeConfig] and
      [jpeg.DecodeConfig] once more, as interaction trees (library ITree)
      over the event [ReadFullE]: a node is a call of [io.ReadFull] with
      the rest of the function as its continuation, and the [for] loop of
      the JPEG parser is [ITree.iter], without fuel.  [run] answers the
      requests from a reader.  Several calls side by side are tasks (the
      handle of a reader and what is left of a tree) that take turns, one
      request each ([turn], [sched]).

    ** What the theorems show

    - [Ints]: decoders are bounded by their width, decode after encode is
      the value wrapped to the width (round trips), two's complement is
      inverted by the signed reading, and [int] negation overflows only at
      the minimum of a 32-bit [int].
    - [GoIO]: [ReadFull] returns exactly the next [n] bytes or fails and
      leaves the reader drained; readers only move forward (the bytes left
      are a suffix of the bytes before); the loops over a reader in pieces
      compute [ReadFull] and [ReadAll] of its bytes, whatever the capacity
      the buffer of [ioutil.ReadAll] starts with and however it grows, so
      [Chunked] keeps [StreamLaws];
      [binary.Read] on any reader that keeps the laws is [binary.Read] on
      its view.
    - [Bmp]: the result of [DecodeConfig] on every branch (short header,
      wrong magic, each header variant, unknown variant, short dimension
      block); decode of an encoded header returns its dimensions; the
      height returned is never negative on a 64-bit [int] and is negative
      for exactly one input on a 32-bit [int], the only input on which
      the two platforms differ; the width is passed through with its
      sign; no branch panics; errors carry zero dimensions
      ([bmp_error_zero_config]); no call takes more than 26 bytes
      ([bmp_reads_at_most_26]); the result is the same on every reader
      that keeps [StreamLaws].  [Decode] is characterised on every stream
      and never returns an image.
    - [Jpeg]: [DecodeConfig] always returns or panics within the chosen
      fuel, and more fuel never changes the result; it refines the abstract
      walker, so the scratch buffer has no influence on the result; for an
      encoded stream of skippable segments followed by a start-of-frame
      segment it returns that frame's width and height and leaves the
      reader just behind the frame's dimensions; it panics exactly when a
      skipped segment declares a length below 2, with the reader just
      behind that segment's header; the result does not
      depend on the width of [int]; the fuelled loop computes the loop
      taken as a relation ([Jpeg.loops]); the loop is left after at most
      one passage for every four pending bytes and one more; along every
      reachable run, returning or panicking, the scratch buffer stays
      below 2^16 bytes and the reader only moves forward; the result is
      the same on every reader that keeps [StreamLaws].
    - [Contract]: [bmp.DecodeConfig] implements [FixedHeaderParser] on a
      stream, read through any reader that keeps [StreamLaws], exactly
      when the height the contract promises is a value of [int]
      ([bmp_meets_contract]: always on 64 bits, and on 32 bits for every
      stored height but -2^31); as the contract has its own constants,
      this fixes the magic, the four sizes of the info header and the
      three start-of-frame markers of the code; [jpeg.DecodeConfig] implements
      [SegmentWalkingParser ByRecord] on every stream and panics exactly
      where that contract fixes nothing ([jpeg_meets_contract]); on every
      well-formed file the steps of section 4.3 taken to the letter
      return the frame's height as the width and two bytes of length and
      precision as the height, so the code follows them on no file but
      those where these coincide ([jpeg_contract_frame_shift]).  The
      examples run the stream of the specification's section 8, a marker
      cut short, a length of 1, a negative width and the height -2^31
      through contract and code.
    - [Stbi]: the image, the stored channel count and the world a loader
      returns for a decode; conversely, what every return of [LoadMemory]
      says of the decoder and the world ([LoadMemory_sound]); the failure
      path; the nil channel pointer; the read past the decoder's buffer
      when fewer channels are requested than the file has; the byte count
      that wraps on the 32-bit [int] of C; the layout of the returned
      [image.RGBA]; the flip flag reaching the decoder; and, for every
      call and every program of calls, returning or panicking, which C
      allocations are left behind (one stream for each [LoadFile] on an
      open descriptor, nothing else: the deferred calls run when a call
      panics) and which part of the world is as it was.
    - [Registry] and [Formats]: [sniff] finds the first matching entry; in
      a table in which no stream matches two entries, the order of
      registration does not matter; along start-up no [init] runs twice
      and the table holds the entry of each initialised package, in the
      order of initialisation ([boot_invariant]); the processes of
      start-up are the runs of [start] ([boot_start_iff]) and start-up
      comes to an end ([ready_start]); in a process that is ready with
      the BMP and JPEG codecs linked, in whichever order they were
      initialised, [image.DecodeConfig] hands a stream to the parser of
      its magic and refuses the others untouched; with [bmp] alone a JPEG
      stream is unrecognised; of two entries with the JPEG magic the one
      registered first gets every JPEG stream ([first_jpeg_wins]).
    - [Build]: the type check of a call decides the rule of the language
      (arguments assignable to the parameters, one by one, the rest to the
      variadic parameter); [denote] is defined exactly on the calls that
      rule accepts; the call of [jpeg.Decode] (and of [Decode] in
      [stbjpeg.go]) is refused by the [LoadReader] of [src/stbi.go] with
      two arguments missing, that of [bmp.Decode] accepted, and a
      [LoadReader] that took both would have to be variadic
      ([Decode_calls_need_variadic]).
    - [Sched]: the two steps of a call made back to back are the call
      ([exec_phases]), and every schedule of whole calls is a schedule of
      steps with the same results ([interleaving_sched]);
      [interleavings] lists exactly the schedules of whole calls.  The
      theorems exhibit schedules in which one goroutine changes what
      another is handed: the flip flag set between another's
      [SetFlipVerticallyOnLoad] and its load ([flip_race]), a failing
      decode between another's failing decode and its fetch of the reason
      ([failure_reason_race]), a decode given the same [channelsInFile]
      between another's decode and its copy of the pixels
      ([channel_count_race]).  They are statements of existence: the Go
      scheduler can switch at more points than the model's, which adds
      schedules and takes none away.  No theorem says that goroutines do
      not disturb each other.
    - [Tree]: the trees, run on a reader, terminate with the result and
      the reader the functions of [Bmp] and [Jpeg] give ([bmp_refines],
      [jpeg_refines]); for the loop this is the loop without fuel against
      the fuelled one ([jpeg_loop_tree]).  Two calls of
      [bmp.DecodeConfig] on one reader each parse the stream without the
      bytes the other took (for a 640 by 480 file: one reports 0 by 0 and
      no error, the other no BMP); a call of [bmp.DecodeConfig] has
      returned after two turns of its own, whatever the others do.

    ** Bounds and fuel

    The JPEG loop has no bound in the source.  Each iteration that
    continues has consumed a 4-byte segment header, so [segments] is given
    [S (length bytes / 4)] iterations of fuel ([Jpeg.loop_fuel]), where
    [bytes] are the bytes left after the magic: [Jpeg.loop_fuel_enough] and
    [Jpeg.scan_fuel_enough] show this never runs out,
    [Jpeg.scan_fuel_mono] that any larger fuel gives the same outcome, and
    [Jpeg.jpeg_loop_leaves] that the loop is left within that many
    passages.  [Tree.jpeg_loop_tree] shows the same loop written without
    fuel to terminate with the same result, and [Contract.walker], the loop
    of the specification, needs none: it recurses on the length of the
    bytes left, which every passage that goes round makes smaller
    ([Contract.segment_shrinks]).  On a reader of another type
    the fuel is taken from its [view].  The loop of [ioutil.ReadAll] over a reader in pieces gets one
    iteration for every byte and every piece and one more ([pieces]): each
    [Read] hands over a piece or a part of one, and [ReadAll_chunks_spec]
    shows the fuel is never used up.  Integers keep their width: the dimensions are uint16 or int32
    read from the stream and converted to [int], and the pixel count of a
    loaded image is a product of C [int]s; the negation of the height and
    that product are the places where the width matters.  Every
    conversion of the model wraps to the width of its Go type, so that
    values stay in range ([Typed]) holds by the way the model is built.
    Input slices are taken to be shorter than 2^31 bytes where a
    theorem needs the C [int] length to be exact.

    ** Not modelled

    The C decoder behind cgo ([stb_image.h]) is an interface: nothing is
    said of the pixels it produces beyond [EngineLaws], and of the cgo
    preamble only that it puts the decoder into package [stbi].  [Decode]
    of [src/jpeg/jpeg.go] and of [src/jpeg/stbjpeg.go] are modelled as the
    call expressions they are ([Build]); the first denotes nothing against
    [src/stbi.go] and the second calls another module, so the two [init]
    functions take the full decoder they register as an argument.  The
    format table is Go's, outside [src/], and follows the specification,
    also where Go's [image] package differs from it: a stream too short
    for any prefix is ErrTruncatedInput here and [image.ErrFormat] in
    Go.
    The contract of the parsers covers what they answer, not where they
    leave the reader (that is [Bmp.bmp_sound], [Jpeg.jpeg_sound] and the
    theorems on encoded streams), and where the specification gives the
    fixed header as 14 bytes while naming fields of 18, the contract reads
    the fields.
    Of the Go language only the typing of calls is modelled; package
    clauses, import paths and the other things the go tool reads are
    not (the files under [src/] do not form one build: [src/jpeg] holds
    two package clauses and package [stbi] is imported under three
    paths).  Of the Go runtime only that
    every [init] function of a linked package runs once before [main], in
    an order the sources do not fix: [Formats.boot] allows every order.
    Files are their descriptor and their bytes; permissions and the other
    errors of the file system are not modelled.  A reader handed to
    [LoadReader] is a value: the call drains it and does not return it,
    so a second call on the same reader, in the same goroutine or in
    another, is not modelled.  Goroutines are interleaved at the two
    steps of a call of the bindings and, for the parsers, at whole calls
    of [io.ReadFull]: a schedule that switches inside the C decoder,
    between the other calls into C ([C.CString], [fdopen], [C.free]) or
    inside a [Read] of the underlying reader (a data race on the
    reader's own fields) is not modelled, nor is a data race on the
    table of the [image] package, which is written by the [init]
    functions only.  Readers that return
    no byte and no error for ever are
    left out ([io.ReadFull] and [ioutil.ReadAll] do not return on them),
    and a reader holds finitely many bytes: a stream of skippable
    segments that never ends, on which the loop of [jpeg.DecodeConfig]
    does not end either, cannot be written down, and termination is a
    theorem about finite streams.
    Where a file's offset stands after the C library has read
    it is not tracked.  A read outside a C allocation ([Fault]) leaves no
    state: nothing is said of the program after it. *)

From Stdlib Require Export ZArith Lia.
From Stdlib Require Strings.Byte.
From stdpp Require Export base tactics option list numbers strings sets.

#[export] Set Warnings "-clear-no-such-hyp".
#[global] Open Scope Z_scope.

Declare Scope go_scope.
Delimit Scope go_scope with go.

(** ** Bytes *)

Abbreviation byte := Byte.byte.

#[export] Instance byte_eq_dec : EqDecision byte := Byte.byte_eq_dec.

Definition byte_to_Z (b : byte) : Z := Z.of_N (Byte.to_N b).

Definition Z_to_byte (z : Z) : byte :=
  default Byte.x00 (Byte.of_N (Z.to_N (z mod 256))).

(** Test vectors are written as lists of numbers. *)
Definition bytes_of (zs : list Z) : list byte := Z_to_byte <$> zs.

(** ** Outcomes of a Go call

    A call returns a value and the state it leaves, panics, faults, or
    (for a fuelled loop) runs out of fuel.  A panic of the Go runtime
    unwinds the stack: the deferred calls run, and the state they leave is
    the one a caller that recovers finds.  A [fault] is no panic: it is a
    read of [n] bytes from a C allocation of [len] bytes, after which
    nothing is known of the program. *)

Inductive panic : Type :=
| slice_bounds_out_of_range (hi : Z)
| index_out_of_range (i len : Z)
| nil_pointer_dereference
| gobytes_length_out_of_range (n : Z).

Inductive fault : Type :=
| read_out_of_bounds (n len : Z).

Inductive outcome (S A : Type) : Type :=
| Done (a : A) (s : S)
| Panic (p : panic) (s : S)
| Fault (f : fault)
| Timeout.

Arguments Done {S A} a s.
Arguments Panic {S A} p s.
Arguments Fault {S A} f.
Arguments Timeout {S A}.

#[export] Instance panic_eq_dec : EqDecision panic.
Proof. solve_decision. Defined.

#[export] Instance fault_eq_dec : EqDecision fault.
Proof. solve_decision. Defined.

Definition obind {S A B} (o : outcome S A) (k : A → S → outcome S B) : outcome S B :=
  match o with
  | Done a s => k a s
  | Panic p s => Panic p s
  | Fault f => Fault f
  | Timeout => Timeout
  end.

(** The same outcome over another presentation of the state. *)
Definition on_state {S S' A} (f : S → S') (o : outcome S A) : outcome S' A :=
  match o with
  | Done a s => Done a (f s)
  | Panic p s => Panic p (f s)
  | Fault e => Fault e
  | Timeout => Timeout
  end.

(** The state a call leaves, where it leaves one. *)
Definition state_of {S A} (o : outcome S A) : option S :=
  match o with
  | Done _ s | Panic _ s => Some s
  | Fault _ | Timeout => None
  end.

(** What a call answers, without the state it leaves. *)
Definition answer {S A} (o : outcome S A) : outcome unit A := on_state (λ _, ()) o.

Definition returned {S A} (o : outcome S A) : Prop :=
  match o with Done _ _ => True | _ => False end.

Definition panicked {S A} (o : outcome S A) : Prop :=
  match o with Panic _ _ => True | _ => False end.

#[export] Instance returned_dec {S A} (o : outcome S A) : Decision (returned o).
Proof. destruct o; simpl; apply _. Defined.

#[export] Instance panicked_dec {S A} (o : outcome S A) : Decision (panicked o).
Proof. destruct o; simpl; apply _. Defined.

Notation "'let*' x 'at' s := o 'in' k" := (obind o (λ x s, k))
  (at level 10, x name, s name, o at level 100, k at level 200) : go_scope.

(** ** Values of Go types

    The model keeps every integer as a [Z].  [typed x] says that [x] is a
    value of the Go type it stands for: each integer inside it is in the
    range of its type.  The components give the instances for their
    records; a call that panics returns no value and leaves a state, a
    call that faults or runs out of fuel leaves nothing. *)
Class Typed (T : Type) : Type := typed : T → Prop.
#[export] Hint Mode Typed ! : typeclass_instances.

#[export] Instance option_Typed {T} `{Typed T} : Typed (option T) :=
  λ o, match o with Some x => typed x | None => True end.

#[export] Instance prod_Typed {A B} `{Typed A, Typed B} : Typed (A * B) :=
  λ p, typed p.1 ∧ typed p.2.

#[export] Instance outcome_Typed {S A} `{Typed S, Typed A} : Typed (outcome S A) :=
  λ o, match o with
       | Done v s => typed v ∧ typed s
       | Panic _ s => typed s
       | Fault _ | Timeout => True
       end.

(** ** Hint databases and tactics *)

Create HintDb go discriminated.
Create Rewrite HintDb go.

(** [go_len] closes the side conditions on lengths that reads produce. *)
Ltac go_len :=
  repeat first
    [ rewrite length_app | rewrite length_take | rewrite length_drop
    | rewrite length_fmap | rewrite length_replicate | rewrite length_cons ];
  simpl; try lia.

(** [case_pair e] destructs a read's result pair, keeping its equation. *)
Ltac case_pair e :=
  let x := fresh "res" in
  let r := fresh "r" in
  let E := fresh "E" in
  destruct e as [x r] eqn:E.

(** [by_decide] proves a closed decidable proposition by evaluating its
    decision procedure. *)
Ltac by_decide := apply (bool_decide_unpack _); vm_compute; exact I.

(** [list_cases l] turns a list whose length is a known numeral into its
    elements. *)
Ltac list_cases l :=
  repeat match goal with
  | H : length l = _ |- _ => destruct l; simpl in H; try discriminate H
  | H : S (length ?l') = S _ |- _ => apply Nat.succ_inj in H; list_cases l'
  | H : length ?l' = 0%nat |- _ => apply nil_length_inv in H; subst l'
  end.

(** ** Lemmas on bytes *)

Lemma byte_to_Z_range b : 0 ≤ byte_to_Z b < 256.
Proof. unfold byte_to_Z. pose proof (Byte.to_N_bounded b). lia. Qed.

Lemma byte_to_Z_inj b1 b2 : byte_to_Z b1 = byte_to_Z b2 → b1 = b2.
Proof.
  unfold byte_to_Z. intros H%N2Z.inj.
  pose proof (Byte.of_to_N b1) as H1. rewrite H, Byte.of_to_N in H1. congruence.
Qed.

Lemma byte_to_Z_to_byte z : byte_to_Z (Z_to_byte z) = z mod 256.
Proof.
  unfold Z_to_byte, byte_to_Z.
  destruct (Byte.of_N (Z.to_N (z mod 256))) as [b|] eqn:E; simpl.
  - apply Byte.to_of_N in E. rewrite E. apply Z2N.id.
    pose proof (Z.mod_pos_bound z 256). lia.
  - apply Byte.of_N_None_iff in E.
    pose proof (Z.mod_pos_bound z 256). lia.
Qed.

Lemma Z_to_byte_to_Z b : Z_to_byte (byte_to_Z b) = b.
Proof.
  apply byte_to_Z_inj. rewrite byte_to_Z_to_byte.
  apply Z.mod_small, byte_to_Z_range.
Qed.

Lemma byte_to_Z_small z : 0 ≤ z < 256 → byte_to_Z (Z_to_byte z) = z.
Proof. intros. rewrite byte_to_Z_to_byte. by apply Z.mod_small. Qed.

Lemma length_bytes_of zs : length (bytes_of zs) = length zs.
Proof. apply length_fmap. Qed.

(** ** Lemmas on outcomes *)

Lemma obind_Done {S A B} (a : A) (s : S) (k : A → S → outcome S B) :
  obind (Done a s) k = k a s.
Proof. done. Qed.

Lemma obind_returned {S A B} (o : outcome S A) (k : A → S → outcome S B) :
  returned (obind o k) ↔ ∃ a s, o = Done a s ∧ returned (k a s).
Proof.
  destruct o; simpl; split; try done; try (by intros (? & ? & ? & ?)).
  - by exists a, s.
  - by intros (? & ? & [= <- <-] & ?).
Qed.

Lemma Done_state {S A} (o : outcome S A) v s : o = Done v s → state_of o = Some s.
Proof. by intros ->. Qed.

Lemma Panic_state {S A} (o : outcome S A) p s : o = Panic p s → state_of o = Some s.
Proof. by intros ->. Qed.

Lemma state_of_on_state {S S' A} (f : S → S') (o : outcome S A) :
  state_of (on_state f o) = f <$> state_of o.
Proof. by destruct o. Qed.

Lemma obind_state {S A B} (o : outcome S A) (k : A → S → outcome S B) s' :
  state_of (obind o k) = Some s' →
  (∃ a s, o = Done a s ∧ state_of (k a s) = Some s') ∨ (∃ p, o = Panic p s').
Proof. destruct o; simpl; naive_solver. Qed.

Lemma answer_on_state {S S' A} (f : S → S') (o : outcome S A) :
  answer (on_state f o) = answer o.
Proof. by destruct o. Qed.

Lemma answer_Done {S A} (o : outcome S A) v : answer o = Done v () → ∃ s, o = Done v s.
Proof. destruct o as [v' s| | |]; try done. intros [= ->]. by exists s. Qed.

(** The concatenation of a list of lists, up to the order of the lists. *)
#[export] Instance concat_Permutation {A} : Proper ((≡ₚ) ==> (≡ₚ)) (@concat A).
Proof.
  induction 1 as [|x l l' _ IH|x y l|l1 l2 l3 _ IH1 _ IH2]; simpl.
  - done.
  - by rewrite IH.
  - by rewrite !app_assoc, (Permutation_app_comm x y).
  - by etrans.
Qed.

Lemma obind_assoc {S A B C} (o : outcome S A)
    (k : A → S → outcome S B) (h : B → S → outcome S C) :
  obind (obind o k) h = obind o (λ a s, obind (k a s) h).
Proof. by destruct o. Qed.

#[export] Hint Rewrite @obind_Done : go.
#[export] Hint Rewrite byte_to_Z_to_byte Z_to_byte_to_Z : go.
#[export] Hint Resolve byte_to_Z_range : go.
