(* ===== verification/Ints.v ===== *)
(** * Ints: Go's fixed-width integers and [encoding/binary]'s byte orders

    Integers are [Z] with the wrap-around of their width written out.
    [uint_of] is what [binary.LittleEndian] and [binary.BigEndian] compute
    from a byte slice ([b[0] | b[1]<<8 | ...]), [int_of] the
    reinterpretation of that value as a signed integer ([int32(u)]),
    [bytes_of_uint] the encoder used as the specification side of the
    round trips.  The class [Arch] fixes the width of Go's [int];
    [int_ok] and [int32_ok] are the ranges of [int] and of [int32]. *)

From S2P Require Import Prelude.

(** ** Wrap-around *)

Definition wrap_unsigned (bits z : Z) : Z := z mod 2 ^ bits.

Definition wrap_signed (bits z : Z) : Z :=
  (z + 2 ^ (bits - 1)) mod 2 ^ bits - 2 ^ (bits - 1).

(** ** Byte orders *)

Inductive ByteOrder : Type := LittleEndian | BigEndian.

#[export] Instance ByteOrder_eq_dec : EqDecision ByteOrder.
Proof. solve_decision. Defined.

(** Little endian: [b[0] | b[1]<<8 | b[2]<<16 | ...]. *)
Fixpoint le_uint (bs : list byte) : Z :=
  match bs with
  | [] => 0
  | b :: bs' => Z.lor (byte_to_Z b) (Z.shiftl (le_uint bs') 8)
  end.

(** Big endian: the most significant byte first. *)
Definition be_uint (bs : list byte) : Z :=
  fold_left (λ acc b, Z.lor (Z.shiftl acc 8) (byte_to_Z b)) bs 0.

Definition uint_of (o : ByteOrder) (bs : list byte) : Z :=
  match o with LittleEndian => le_uint bs | BigEndian => be_uint bs end.

(** [int32(order.Uint32(bs))]: the same bits read as two's complement. *)
Definition int_of (o : ByteOrder) (bs : list byte) : Z :=
  wrap_signed (8 * Z.of_nat (length bs)) (uint_of o bs).

(** Encoders: the [n] low bytes of [z]. *)
Fixpoint le_bytes (n : nat) (z : Z) : list byte :=
  match n with
  | O => []
  | S n' => Z_to_byte z :: le_bytes n' (z / 256)
  end.

Definition bytes_of_uint (o : ByteOrder) (n : nat) (z : Z) : list byte :=
  match o with
  | LittleEndian => le_bytes n z
  | BigEndian => reverse (le_bytes n z)
  end.

(** ** The width of [int] *)

Inductive Arch : Type := Arch32 | Arch64.
Existing Class Arch.

#[export] Instance Arch_eq_dec : EqDecision Arch.
Proof. solve_decision. Defined.

Definition intSize {a : Arch} : Z :=
  match a with Arch32 => 32 | Arch64 => 64 end.

Definition int_min {a : Arch} : Z := - 2 ^ (intSize - 1).
Definition int_max {a : Arch} : Z := 2 ^ (intSize - 1) - 1.

(** [-x] on [int]: Go's arithmetic wraps. *)
Definition int_neg {a : Arch} (x : Z) : Z := wrap_signed intSize (- x).

(** [x - y] on [int]. *)
Definition int_sub {a : Arch} (x y : Z) : Z := wrap_signed intSize (x - y).

(** [C.int] and Go's [int32] product. *)
Definition int32_mul (x y : Z) : Z := wrap_signed 32 (x * y).

(** [C.int(x)]: conversion to the 32-bit [int] of C. *)
Definition C_int (x : Z) : Z := wrap_signed 32 x.

(** The values of [int], and of [int32] and [C.int]. *)
Definition int_ok {a : Arch} (x : Z) : Prop := int_min ≤ x ≤ int_max.
Definition int32_ok (x : Z) : Prop := - 2 ^ 31 ≤ x < 2 ^ 31.

#[export] Instance int_ok_dec {a : Arch} x : Decision (int_ok x).
Proof. unfold int_ok. apply _. Defined.

#[export] Instance int32_ok_dec x : Decision (int32_ok x).
Proof. unfold int32_ok. apply _. Defined.

(** ** Wrap-around lemmas *)

Lemma wrap_unsigned_range bits z : 0 ≤ bits → 0 ≤ wrap_unsigned bits z < 2 ^ bits.
Proof. intros. apply Z.mod_pos_bound. by apply Z.pow_pos_nonneg. Qed.

Lemma wrap_unsigned_small bits z : 0 ≤ z < 2 ^ bits → wrap_unsigned bits z = z.
Proof. apply Z.mod_small. Qed.

Lemma wrap_signed_range bits z :
  0 < bits → - 2 ^ (bits - 1) ≤ wrap_signed bits z < 2 ^ (bits - 1).
Proof.
  intros Hb. unfold wrap_signed.
  assert (2 ^ bits = 2 * 2 ^ (bits - 1)) as Hp.
  { rewrite <- Z.pow_succ_r by lia. f_equal. lia. }
  pose proof (Z.mod_pos_bound (z + 2 ^ (bits - 1)) (2 ^ bits)) as Hm.
  assert (0 < 2 ^ (bits - 1)) by (apply Z.pow_pos_nonneg; lia). lia.
Qed.

Lemma wrap_signed_small bits z :
  0 < bits → - 2 ^ (bits - 1) ≤ z < 2 ^ (bits - 1) → wrap_signed bits z = z.
Proof.
  intros Hb Hz. unfold wrap_signed.
  assert (2 ^ bits = 2 * 2 ^ (bits - 1)) as Hp.
  { rewrite <- Z.pow_succ_r by lia. f_equal. lia. }
  rewrite Z.mod_small by lia. lia.
Qed.

(** One modulus above the range, the value comes back reduced by it. *)
Lemma wrap_signed_above bits z :
  0 < bits → 2 ^ (bits - 1) ≤ z < 2 ^ bits + 2 ^ (bits - 1) →
  wrap_signed bits z = z - 2 ^ bits.
Proof.
  intros Hb Hz. unfold wrap_signed.
  assert (2 ^ bits = 2 * 2 ^ (bits - 1)) as Hp.
  { rewrite <- Z.pow_succ_r by lia. f_equal. lia. }
  replace (z + 2 ^ (bits - 1)) with (z - 2 ^ bits + 2 ^ (bits - 1) + 1 * 2 ^ bits) by lia.
  rewrite Z_mod_plus_full, Z.mod_small by lia. lia.
Qed.

Lemma wrap_signed_unsigned bits z :
  0 < bits → wrap_signed bits (wrap_unsigned bits z) = wrap_signed bits z.
Proof.
  intros Hb. unfold wrap_signed, wrap_unsigned.
  by rewrite Zplus_mod_idemp_l.
Qed.

(** Reading an unsigned value as signed: below the sign bit nothing
    changes, above it the modulus is subtracted. *)
Lemma wrap_signed_of_unsigned bits u :
  0 < bits → 0 ≤ u < 2 ^ bits →
  wrap_signed bits u = if decide (u < 2 ^ (bits - 1)) then u else u - 2 ^ bits.
Proof.
  intros Hb Hu. unfold wrap_signed.
  assert (2 ^ bits = 2 * 2 ^ (bits - 1)) as Hp.
  { rewrite <- Z.pow_succ_r by lia. f_equal. lia. }
  case_decide.
  - rewrite Z.mod_small by lia. lia.
  - replace (u + 2 ^ (bits - 1)) with (u - 2 ^ (bits - 1) + 1 * 2 ^ bits) by lia.
    rewrite Z_mod_plus_full, Z.mod_small by lia. lia.
Qed.

(** ** Decoders *)

Lemma lor_shiftl_add a b n :
  0 ≤ n → 0 ≤ a < 2 ^ n → Z.lor a (Z.shiftl b n) = a + b * 2 ^ n.
Proof.
  intros Hn Ha. rewrite <- Z.shiftl_mul_pow2 by done.
  symmetry. apply Z.add_nocarry_lor, Z.bits_inj'. intros m Hm.
  rewrite Z.land_spec, Z.bits_0.
  destruct (decide (m < n)).
  - by rewrite Z.shiftl_spec_low, andb_false_r.
  - rewrite (proj1 (Z.bounded_iff_bits_nonneg n a Hn (proj1 Ha)) (proj2 Ha)) by lia.
    done.
Qed.

Lemma le_uint_cons b bs : le_uint (b :: bs) = byte_to_Z b + 256 * le_uint bs.
Proof.
  simpl. rewrite (lor_shiftl_add _ _ 8); [lia | lia |].
  apply byte_to_Z_range.
Qed.

Lemma le_uint_range bs : 0 ≤ le_uint bs < 2 ^ (8 * Z.of_nat (length bs)).
Proof.
  induction bs as [|b bs IH]; [done|].
  rewrite le_uint_cons, length_cons, Nat2Z.inj_succ.
  replace (8 * Z.succ (Z.of_nat (length bs))) with (8 + 8 * Z.of_nat (length bs)) by lia.
  rewrite Z.pow_add_r by lia. pose proof (byte_to_Z_range b). lia.
Qed.

Lemma le_uint_app bs1 bs2 :
  le_uint (bs1 ++ bs2) = le_uint bs1 + 2 ^ (8 * Z.of_nat (length bs1)) * le_uint bs2.
Proof.
  induction bs1 as [|b bs1 IH]; [simpl; lia|].
  rewrite <- app_comm_cons, !le_uint_cons, IH, length_cons, Nat2Z.inj_succ.
  replace (8 * Z.succ (Z.of_nat (length bs1))) with (8 + 8 * Z.of_nat (length bs1)) by lia.
  rewrite Z.pow_add_r by lia. lia.
Qed.

Lemma be_uint_snoc bs b : be_uint (bs ++ [b]) = 256 * be_uint bs + byte_to_Z b.
Proof.
  unfold be_uint. rewrite fold_left_app. simpl.
  rewrite Z.lor_comm, (lor_shiftl_add _ _ 8); [lia | lia |].
  apply byte_to_Z_range.
Qed.

Lemma be_uint_reverse bs : be_uint (reverse bs) = le_uint bs.
Proof.
  induction bs as [|b bs IH]; [done|].
  rewrite reverse_cons, be_uint_snoc, IH, le_uint_cons. lia.
Qed.

Lemma be_uint_le_uint bs : be_uint bs = le_uint (reverse bs).
Proof. by rewrite <- be_uint_reverse, reverse_involutive. Qed.

Lemma uint_of_range o bs : 0 ≤ uint_of o bs < 2 ^ (8 * Z.of_nat (length bs)).
Proof.
  destruct o; simpl; [apply le_uint_range|].
  rewrite be_uint_le_uint, <- (length_reverse bs). apply le_uint_range.
Qed.

Lemma int_of_range o bs :
  bs ≠ [] →
  - 2 ^ (8 * Z.of_nat (length bs) - 1) ≤ int_of o bs < 2 ^ (8 * Z.of_nat (length bs) - 1).
Proof.
  intros Hbs. apply wrap_signed_range.
  destruct bs; [done|]. rewrite length_cons. lia.
Qed.

(** The two-byte and four-byte forms the parsers use, as arithmetic. *)
Lemma le_uint_2 b0 b1 : le_uint [b0; b1] = byte_to_Z b0 + 256 * byte_to_Z b1.
Proof. rewrite !le_uint_cons. simpl. lia. Qed.

Lemma be_uint_2 b0 b1 : be_uint [b0; b1] = 256 * byte_to_Z b0 + byte_to_Z b1.
Proof. rewrite be_uint_le_uint. change (reverse [b0; b1]) with [b1; b0]. rewrite le_uint_2. lia. Qed.

Lemma le_uint_4 b0 b1 b2 b3 :
  le_uint [b0; b1; b2; b3] =
  byte_to_Z b0 + 256 * byte_to_Z b1 + 65536 * byte_to_Z b2 + 16777216 * byte_to_Z b3.
Proof. rewrite !le_uint_cons. simpl. lia. Qed.

(** ** Encoders and round trips *)

Lemma length_le_bytes n z : length (le_bytes n z) = n.
Proof. revert z. induction n; intros; simpl; by f_equal. Qed.

Lemma length_bytes_of_uint o n z : length (bytes_of_uint o n z) = n.
Proof. destruct o; simpl; rewrite ?length_reverse; apply length_le_bytes. Qed.

Lemma le_uint_le_bytes n z : le_uint (le_bytes n z) = z mod 2 ^ (8 * Z.of_nat n).
Proof.
  revert z. induction n as [|n IH]; intros z.
  - simpl. by rewrite Z.mod_1_r.
  - cbn [le_bytes]. rewrite le_uint_cons, IH, byte_to_Z_to_byte, Nat2Z.inj_succ.
    replace (8 * Z.succ (Z.of_nat n)) with (8 + 8 * Z.of_nat n) by lia.
    rewrite Z.pow_add_r by lia. change (2 ^ 8) with 256.
    assert (0 < 2 ^ (8 * Z.of_nat n)) by (apply Z.pow_pos_nonneg; lia).
    rewrite Z.rem_mul_r by lia. lia.
Qed.

Lemma le_bytes_le_uint bs : le_bytes (length bs) (le_uint bs) = bs.
Proof.
  induction bs as [|b bs IH]; [done|].
  rewrite length_cons, le_uint_cons. cbn [le_bytes]. pose proof (byte_to_Z_range b).
  f_equal.
  - apply byte_to_Z_inj. rewrite byte_to_Z_to_byte.
    replace (byte_to_Z b + 256 * le_uint bs) with (byte_to_Z b + le_uint bs * 256) by lia.
    rewrite Z_mod_plus_full. by apply Z.mod_small.
  - replace (byte_to_Z b + 256 * le_uint bs) with (byte_to_Z b + le_uint bs * 256) by lia.
    rewrite Z_div_plus_full, Z.div_small by lia. done.
Qed.

(** Round trip: decoding the [n]-byte encoding of [z] gives [z] wrapped to
    [8 * n] bits, in either byte order. *)
Lemma uint_of_bytes_of_uint o n z :
  uint_of o (bytes_of_uint o n z) = wrap_unsigned (8 * Z.of_nat n) z.
Proof.
  destruct o; simpl; [|rewrite be_uint_reverse]; apply le_uint_le_bytes.
Qed.

Lemma uint_of_bytes_of_uint_small o n z :
  0 ≤ z < 2 ^ (8 * Z.of_nat n) → uint_of o (bytes_of_uint o n z) = z.
Proof. intros. rewrite uint_of_bytes_of_uint. by apply wrap_unsigned_small. Qed.

Lemma bytes_of_uint_uint_of o bs : bytes_of_uint o (length bs) (uint_of o bs) = bs.
Proof.
  destruct o; simpl; [apply le_bytes_le_uint|].
  rewrite be_uint_le_uint, <- (length_reverse bs), le_bytes_le_uint.
  apply reverse_involutive.
Qed.

Lemma bytes_of_uint_uint_of' o n bs :
  length bs = n → bytes_of_uint o n (uint_of o bs) = bs.
Proof. intros <-. apply bytes_of_uint_uint_of. Qed.

(** Two's complement: a signed value survives encoding and signed
    decoding when it fits the width. *)
Lemma int_of_bytes_of_uint o n z :
  (0 < n)%nat → - 2 ^ (8 * Z.of_nat n - 1) ≤ z < 2 ^ (8 * Z.of_nat n - 1) →
  int_of o (bytes_of_uint o n z) = z.
Proof.
  intros Hn Hz. unfold int_of.
  rewrite length_bytes_of_uint, uint_of_bytes_of_uint, wrap_signed_unsigned by lia.
  apply wrap_signed_small; lia.
Qed.

(** ** [int] *)

Lemma intSize_pos {a : Arch} : 0 < intSize.
Proof. by destruct a. Qed.

Lemma int_neg_range {a : Arch} x : int_min ≤ int_neg x ≤ int_max.
Proof.
  unfold int_neg, int_min, int_max.
  pose proof (wrap_signed_range intSize (- x) intSize_pos). lia.
Qed.

(** Negation is exact except at the minimum, where it wraps to itself. *)
Lemma int_neg_exact {a : Arch} x : int_min < x ≤ int_max → int_neg x = - x.
Proof.
  unfold int_neg, int_min, int_max. intros.
  apply wrap_signed_small; [apply intSize_pos | lia].
Qed.

Lemma int_neg_min {a : Arch} : int_neg int_min = int_min.
Proof. by destruct a. Qed.

Lemma int_sub_exact {a : Arch} x y : - 2 ^ 31 ≤ x - y < 2 ^ 31 → int_sub x y = x - y.
Proof.
  intros. apply wrap_signed_small; [apply intSize_pos|].
  destruct a; simpl; lia.
Qed.

Lemma C_int_small x : - 2 ^ 31 ≤ x < 2 ^ 31 → C_int x = x.
Proof. intros. by apply wrap_signed_small. Qed.

Lemma int32_fits_int {a : Arch} x : - 2 ^ 31 ≤ x < 2 ^ 31 → int_min ≤ x ≤ int_max.
Proof. unfold int_min, int_max. destruct a; simpl; lia. Qed.

(** Every arithmetic operation of the model ends in a wrap, so its result
    is a value of its type. *)
Lemma wrap_signed_int_ok {a : Arch} x : int_ok (wrap_signed intSize x).
Proof.
  unfold int_ok, int_min, int_max.
  pose proof (wrap_signed_range intSize x intSize_pos). lia.
Qed.

Lemma wrap_signed_int32_ok x : int32_ok (wrap_signed 32 x).
Proof. unfold int32_ok. pose proof (wrap_signed_range 32 x). lia. Qed.

Lemma int32_ok_int_ok {a : Arch} x : int32_ok x → int_ok x.
Proof. apply int32_fits_int. Qed.

Lemma int_ok_0 {a : Arch} : int_ok 0.
Proof. by apply int32_ok_int_ok. Qed.

#[export] Hint Rewrite length_le_bytes length_bytes_of_uint : go.
#[export] Hint Rewrite uint_of_bytes_of_uint_small using (simpl; lia) : go.
#[export] Hint Resolve uint_of_range le_uint_range : go.
#[export] Hint Resolve wrap_signed_int_ok wrap_signed_int32_ok int32_ok_int_ok int_ok_0 : go.

Arguments le_uint : simpl never.
Arguments be_uint : simpl never.
