(* ===== verification/GoIO.v ===== *)
(** * GoIO: errors, readers, [io.ReadFull] and [binary.Read]

    A Go [error] is a value of [error]; a nil error is [None] of
    [option error].  A [Reader] is a reader as what it still delivers: the
    bytes [pending] and the error [final] that every [Read] returns once
    they are used up ([io.EOF] for a finite stream, anything else for a
    failing device); [ReadFull] is [io.ReadFull] on it.  The interface
    [io.Reader] is the class [Stream], whose laws [StreamLaws] relate a
    reader of any type to the [Reader] that is its [view].  [binary_Read]
    is [binary.Read] of a value of fixed size, whose layout a [Binary]
    instance gives, from any [Stream].  [Chunked] is a reader that
    delivers its bytes in pieces, one piece a [Read]: the loops of
    [io.ReadAtLeast] and [ioutil.ReadAll] over it compute [ReadFull] and
    [ReadAll] of the bytes, which makes it a [Stream] that keeps the
    laws. *)

From S2P Require Import Prelude Ints.

(** ** Errors *)

Inductive error : Type :=
| io_EOF
| io_ErrUnexpectedEOF
| errors_New (msg : string)
| io_failure (code : N).

#[export] Instance error_eq_dec : EqDecision error.
Proof. solve_decision. Defined.

(** The two errors that mean "the stream ended too early". *)
Definition truncation (e : error) : Prop :=
  e = io_EOF ∨ e = io_ErrUnexpectedEOF.

#[export] Instance truncation_dec e : Decision (truncation e).
Proof. unfold truncation. apply _. Defined.

(** ** Readers *)

Record Reader : Type := mkReader { pending : list byte; final : error }.

#[export] Instance Reader_eq_dec : EqDecision Reader.
Proof. solve_decision. Defined.

(** Errors and readers hold no integer of a bounded type. *)
#[export] Instance error_Typed : Typed error := λ _, True.
#[export] Instance Reader_Typed : Typed Reader := λ _, True.

(** A reader over a byte slice, as [bytes.NewReader] gives. *)
Definition NewReader (bs : list byte) : Reader := mkReader bs io_EOF.

(** [r'] is [r] after some reads: fewer bytes, the same end. *)
Definition advances (r r' : Reader) : Prop :=
  pending r' `suffix_of` pending r ∧ final r' = final r.

Definition consumed (r r' : Reader) : nat :=
  (length (pending r) - length (pending r'))%nat.

(** [io.ReadAtLeast]'s last lines: with no byte read the reader's error is
    returned as it is, after a partial read [io.EOF] becomes
    [io.ErrUnexpectedEOF]. *)
Definition short_read_error (got : nat) (e : error) : error :=
  if decide (got = 0%nat) then e
  else if decide (e = io_EOF) then io_ErrUnexpectedEOF else e.

(** [io.ReadFull(r, buf)] with [len(buf) = n]: the next [n] bytes, or the
    error and a drained reader.  With [n = 0] no [Read] is issued. *)
Definition ReadFull (n : nat) (r : Reader) : (list byte + error) * Reader :=
  if decide (n ≤ length (pending r))%nat
  then (inl (take n (pending r)), mkReader (drop n (pending r)) (final r))
  else (inr (short_read_error (length (pending r)) (final r)),
        mkReader [] (final r)).

(** [ioutil.ReadAll(r)]: everything up to the end of the stream; [io.EOF]
    is the end and no error, any other error is returned with the bytes
    read before it. *)
Definition ReadAll (r : Reader) : (list byte * option error) * Reader :=
  (pending r, if decide (final r = io_EOF) then None else Some (final r),
   mkReader [] (final r)).

(** ** [io.Reader] as an interface

    The codecs and [stbi.LoadReader] take any [io.Reader]; what they do
    with it is [io.ReadFull] (inside [binary.Read]) and [ioutil.ReadAll].
    The class [Stream] is a type of readers with these operations.
    [view] is what a reader still has to deliver, the bytes and the error
    behind them: the model uses it to give the loops their fuel, and
    [StreamLaws] says that reading from the reader is reading from its
    view. *)
Class Stream (R : Type) : Type := {
  readFull : nat → R → (list byte + error) * R;
  readAll : R → (list byte * option error) * R;
  view : R → Reader;
}.

#[export] Hint Mode Stream ! : typeclass_instances.

Class StreamLaws (R : Type) `{Stream R} : Prop := {
  readFull_view : ∀ n (r : R),
    ReadFull n (view r) = ((readFull n r).1, view (readFull n r).2);
  readAll_view : ∀ r : R, ReadAll (view r) = ((readAll r).1, view (readAll r).2);
}.

#[export] Instance Reader_Stream : Stream Reader :=
  {| readFull := ReadFull; readAll := ReadAll; view := id |}.

#[export] Instance Reader_StreamLaws : StreamLaws Reader.
Proof. split; [intros n r; cbn; unfold id; by destruct (ReadFull n r)|done]. Qed.

(** ** [binary.Read]

    A type that [binary.Read] can fill: its zero value ([var x T]), its
    size in bytes ([binary.Size]) and the value its bytes decode to. *)
Class Binary (T : Type) : Type := {
  zero : T;
  dataSize : nat;
  decode : ByteOrder → list byte → T;
}.

(** [err := binary.Read(r, order, &data)]: on an error [data] keeps the
    value it had. *)
Definition binary_Read {R} `{Stream R} {T} `{Binary T} (o : ByteOrder) (data : T) (r : R)
    : (T * option error) * R :=
  match readFull dataSize r with
  | (inl bs, r') => (decode o bs, None, r')
  | (inr e, r') => (data, Some e, r')
  end.

(** [err := binary.Read(r, order, buf[:n])] into a byte slice: the bytes
    read overwrite the first [n] bytes of [buf]. *)
Definition binary_Read_slice {R} `{Stream R} (n : nat) (buf : list byte) (r : R)
    : (list byte * option error) * R :=
  match readFull n r with
  | (inl bs, r') => (bs ++ drop n buf, None, r')
  | (inr e, r') => (buf, Some e, r')
  end.

(** The specification side of a layout: an encoder that [decode] inverts
    on the values that fit their fields. *)
Class BinaryEnc (T : Type) : Type := {
  fits : T → Prop;
  encode : ByteOrder → T → list byte;
}.

Class BinaryLaws (T : Type) `{Binary T, BinaryEnc T} : Prop := {
  encode_length : ∀ o x, fits x → length (encode o x) = dataSize;
  decode_encode : ∀ o x, fits x → decode o (encode o x) = x;
}.

(** A field of a layout: [len] bytes at offset [off], read unsigned or
    signed. *)
Definition uint_at (o : ByteOrder) (off len : nat) (bs : list byte) : Z :=
  uint_of o (take len (drop off bs)).

Definition int_at (o : ByteOrder) (off len : nat) (bs : list byte) : Z :=
  int_of o (take len (drop off bs)).

(** [[n]byte]: an array of bytes decodes to itself. *)
Definition byte_array (n : nat) : Type := list byte.

#[export] Instance byte_array_Binary n : Binary (byte_array n) := {|
  zero := replicate n Byte.x00;
  dataSize := n;
  decode := λ _ bs, bs;
|}.

(** ** Readers that deliver their bytes in pieces

    A reader as a device presents it: each [Read(p)] returns at most one
    piece, and at most [len(p)] bytes of it.  [ReadFull_chunks] is the loop
    of [io.ReadAtLeast] over such a reader, one [Read] an iteration; the
    theorem [ReadFull_chunks_flat] shows that [ReadFull] above is what it
    computes, whatever the pieces. *)
Record Chunked : Type := mkChunked { chunks : list (list byte); cfinal : error }.

Definition flat (c : Chunked) : Reader := mkReader (concat (chunks c)) (cfinal c).

(** [n, err := r.Read(p)] with [len(p) = n]. *)
Definition Read (n : nat) (c : Chunked) : (list byte * option error) * Chunked :=
  match chunks c with
  | [] => ([], Some (cfinal c), c)
  | ch :: rest =>
    if decide (length ch ≤ n)%nat then (ch, None, mkChunked rest (cfinal c))
    else (take n ch, None, mkChunked (drop n ch :: rest) (cfinal c))
  end.

(** [for n < min && err == nil { nn, err = r.Read(buf[n:]); n += nn }] with
    [need] bytes still missing and [got] already read. *)
Fixpoint ReadFull_chunks (need : nat) (got : list byte) (chs : list (list byte))
    (e : error) : (list byte + error) * Chunked :=
  match need with
  | O => (inl got, mkChunked chs e)
  | S _ =>
    match chs with
    | [] => (inr (short_read_error (length got) e), mkChunked [] e)
    | ch :: rest =>
      if decide (length ch ≤ need)%nat
      then ReadFull_chunks (need - length ch) (got ++ ch) rest e
      else (inl (got ++ take need ch), mkChunked (drop need ch :: rest) e)
    end
  end.

(** [ioutil.ReadAll] over such a reader: [Read] into the free part of a
    buffer [b] of capacity [cap] until an error comes, [io.EOF] being the
    end and no error; a buffer that is full is given the capacity
    [more cap] by [append].  Every [Read] hands over a piece or part of
    one, so one iteration for every byte and every piece is fuel enough
    ([pieces]). *)
Fixpoint ReadAll_chunks (fuel : nat) (more : nat → nat) (cap : nat) (b : list byte)
    (c : Chunked) : (list byte * option error) * Chunked :=
  match fuel with
  | O => (b, None, c)
  | S fuel' =>
    let '(bs, err, c') := Read (cap - length b) c in
    match err with
    | Some e => (b ++ bs, if decide (e = io_EOF) then None else Some e, c')
    | None =>
      ReadAll_chunks fuel' more
        (if decide (length (b ++ bs) = cap) then more cap else cap) (b ++ bs) c'
    end
  end.

Definition pieces (c : Chunked) : nat :=
  (length (concat (chunks c)) + length (chunks c))%nat.

#[export] Instance Chunked_Stream : Stream Chunked := {|
  readFull := λ n c, ReadFull_chunks n [] (chunks c) (cfinal c);
  readAll := λ c, ReadAll_chunks (S (pieces c)) (Nat.mul 2) 512 [] c;
  view := flat;
|}.

(** ** Peeking *)

(** Method [Peek(n)] of [bufio.Reader]: the next [n] bytes without moving
    the reader, or the bytes there are and the reader's error. *)
Definition Peek (n : nat) (r : Reader) : list byte * option error :=
  if decide (n ≤ length (pending r))%nat then (take n (pending r), None)
  else (pending r, Some (final r)).

(** ** [advances] is a preorder *)

#[export] Instance advances_PreOrder : PreOrder advances.
Proof.
  split.
  - by intros r.
  - intros r1 r2 r3 [H12 E12] [H23 E23]. split; [by etrans | congruence].
Qed.

Lemma advances_length r r' : advances r r' → (length (pending r') ≤ length (pending r))%nat.
Proof. intros [H _]. by apply suffix_length. Qed.

Lemma advances_consumed r r' :
  advances r r' → pending r = take (consumed r r') (pending r) ++ pending r'.
Proof.
  intros [[k Hk] _]. unfold consumed. rewrite Hk, length_app.
  replace (length k + length (pending r') - length (pending r'))%nat with (length k) by lia.
  by rewrite take_app_length.
Qed.

(** ** [ReadFull] *)

Section read_full.
Context (n : nat) (r : Reader).

Lemma ReadFull_enough :
  (n ≤ length (pending r))%nat →
  ReadFull n r = (inl (take n (pending r)), mkReader (drop n (pending r)) (final r)).
Proof. intros. unfold ReadFull. by rewrite decide_True. Qed.

Lemma ReadFull_short :
  (length (pending r) < n)%nat →
  ReadFull n r =
    (inr (short_read_error (length (pending r)) (final r)), mkReader [] (final r)).
Proof. intros. unfold ReadFull. by rewrite decide_False by lia. Qed.

Lemma ReadFull_ok_inv bs r' :
  ReadFull n r = (inl bs, r') →
  pending r = bs ++ pending r' ∧ length bs = n ∧ final r' = final r.
Proof.
  unfold ReadFull. case_decide; intros [= <- <-]; simpl.
  by rewrite take_drop, length_take_le.
Qed.

Lemma ReadFull_err_inv e r' :
  ReadFull n r = (inr e, r') →
  (length (pending r) < n)%nat ∧ r' = mkReader [] (final r) ∧
  e = short_read_error (length (pending r)) (final r).
Proof. unfold ReadFull. case_decide; intros [= <- <-]. split; [lia | done]. Qed.

Lemma ReadFull_advances : advances r (ReadFull n r).2.
Proof.
  unfold ReadFull. case_decide; simpl; (split; [|done]); simpl.
  - apply suffix_drop.
  - apply suffix_nil.
Qed.

End read_full.

Lemma ReadFull_app bs rest e :
  ReadFull (length bs) (mkReader (bs ++ rest) e) = (inl bs, mkReader rest e).
Proof.
  rewrite ReadFull_enough by (simpl; rewrite length_app; lia). simpl.
  by rewrite take_app_length, drop_app_length.
Qed.

Lemma ReadFull_app' n bs rest e :
  length bs = n → ReadFull n (mkReader (bs ++ rest) e) = (inl bs, mkReader rest e).
Proof. intros <-. apply ReadFull_app. Qed.

Lemma ReadFull_0 r : ReadFull 0 r = (inl [], r).
Proof. rewrite ReadFull_enough by lia. by destruct r. Qed.

(** A short read of a finite stream reports a truncation: [io.EOF] when
    nothing was left, [io.ErrUnexpectedEOF] otherwise. *)
Lemma short_read_error_EOF got :
  short_read_error got io_EOF = if decide (got = 0%nat) then io_EOF else io_ErrUnexpectedEOF.
Proof. unfold short_read_error. by repeat case_decide. Qed.

Lemma short_read_error_truncation got e :
  truncation e → truncation (short_read_error got e).
Proof. unfold short_read_error, truncation. repeat case_decide; naive_solver. Qed.

Lemma short_read_error_other got e :
  ¬ truncation e → short_read_error got e = e.
Proof. unfold short_read_error, truncation. repeat case_decide; naive_solver. Qed.

(** ** Fields of a layout *)

Section fields.
Context (o : ByteOrder).

Lemma uint_at_here len f rest :
  length f = len → uint_at o 0 len (f ++ rest) = uint_of o f.
Proof. intros <-. unfold uint_at. by rewrite drop_0, take_app_length. Qed.

Lemma uint_at_all len f : length f = len → uint_at o 0 len f = uint_of o f.
Proof. intros <-. unfold uint_at. by rewrite drop_0, firstn_all. Qed.

Lemma int_at_all len f : length f = len → int_at o 0 len f = int_of o f.
Proof. intros <-. unfold int_at. by rewrite drop_0, firstn_all. Qed.

Lemma uint_at_skip n off len f rest :
  length f = n → (n ≤ off)%nat →
  uint_at o off len (f ++ rest) = uint_at o (off - n) len rest.
Proof. intros <- Hn. unfold uint_at. by rewrite drop_app_ge. Qed.

Lemma int_at_here len f rest :
  length f = len → int_at o 0 len (f ++ rest) = int_of o f.
Proof. intros <-. unfold int_at. by rewrite drop_0, take_app_length. Qed.

Lemma int_at_skip n off len f rest :
  length f = n → (n ≤ off)%nat →
  int_at o off len (f ++ rest) = int_at o (off - n) len rest.
Proof. intros <- Hn. unfold int_at. by rewrite drop_app_ge. Qed.

Lemma uint_at_range off len bs : 0 ≤ uint_at o off len bs < 2 ^ (8 * Z.of_nat len).
Proof.
  unfold uint_at. pose proof (uint_of_range o (take len (drop off bs))) as Hr.
  assert (length (take len (drop off bs)) ≤ len)%nat by (rewrite length_take; lia).
  split; [lia|]. eapply Z.lt_le_trans; [apply Hr|].
  apply Z.pow_le_mono_r; lia.
Qed.

Lemma int_at_range off len bs :
  (0 < len)%nat →
  - 2 ^ (8 * Z.of_nat len - 1) ≤ int_at o off len bs < 2 ^ (8 * Z.of_nat len - 1).
Proof.
  intros Hlen. unfold int_at, int_of.
  set (l := take len (drop off bs)).
  assert (length l ≤ len)%nat by (unfold l; rewrite length_take; lia).
  destruct (decide (length l = 0%nat)) as [Hz|Hz].
  - rewrite Hz. destruct l; [|done]. destruct o; vm_compute uint_of;
      unfold wrap_signed; simpl; rewrite Z.mod_1_r;
      assert (0 < 2 ^ (8 * Z.of_nat len - 1)) by (apply Z.pow_pos_nonneg; lia); lia.
  - pose proof (wrap_signed_range (8 * Z.of_nat (length l)) (uint_of o l)) as Hr.
    assert (2 ^ (8 * Z.of_nat (length l) - 1) ≤ 2 ^ (8 * Z.of_nat len - 1))
      by (apply Z.pow_le_mono_r; lia).
    lia.
Qed.

End fields.

(** [field_simpl] locates each field of a decoded encoding. *)
Ltac field_len := autorewrite with go; first [eassumption | reflexivity].

Ltac field_simpl :=
  repeat first
    [ rewrite uint_at_here by field_len
    | rewrite int_at_here by field_len
    | rewrite uint_at_all by field_len
    | rewrite int_at_all by field_len
    | erewrite uint_at_skip; [| field_len | simpl; lia]
    | erewrite int_at_skip; [| field_len | simpl; lia] ];
  simpl Nat.sub.

(** ** [binary.Read] *)

(** [binary.Read] on a [Reader], down to [ReadFull]. *)
Ltac unfold_Read :=
  unfold binary_Read, binary_Read_slice; cbn [readFull view Reader_Stream].

Section binary_read.
Context {T : Type} `{Binary T} (o : ByteOrder) (data : T).
Implicit Types (r : Reader).

Lemma binary_Read_app bs rest e :
  length bs = dataSize →
  binary_Read o data (mkReader (bs ++ rest) e) = (decode o bs, None, mkReader rest e).
Proof. intros Hl. unfold_Read. by rewrite ReadFull_app'. Qed.

Lemma binary_Read_short r :
  (length (pending r) < dataSize)%nat →
  binary_Read o data r =
    (data, Some (short_read_error (length (pending r)) (final r)), mkReader [] (final r)).
Proof. intros. unfold_Read. by rewrite ReadFull_short. Qed.

Lemma binary_Read_ok_inv x r r' :
  binary_Read o data r = (x, None, r') →
  ∃ bs, pending r = bs ++ pending r' ∧ length bs = dataSize ∧
        final r' = final r ∧ x = decode o bs.
Proof.
  unfold_Read. destruct (ReadFull dataSize r) as [[bs|e] r1] eqn:E; [|done].
  intros [= <- <-]. apply ReadFull_ok_inv in E. naive_solver.
Qed.

Lemma binary_Read_err_inv x e r r' :
  binary_Read o data r = (x, Some e, r') →
  (length (pending r) < dataSize)%nat ∧ x = data ∧ r' = mkReader [] (final r) ∧
  e = short_read_error (length (pending r)) (final r).
Proof.
  unfold_Read. destruct (ReadFull dataSize r) as [[bs|e'] r1] eqn:E; [done|].
  intros [= <- <- <-]. apply ReadFull_err_inv in E. naive_solver.
Qed.

Lemma binary_Read_advances r : advances r (binary_Read o data r).2.
Proof.
  unfold_Read. pose proof (ReadFull_advances dataSize r) as Ha.
  by destruct (ReadFull dataSize r) as [[bs|e] r1].
Qed.

End binary_read.

Lemma binary_Read_encode {T} `{BinaryLaws T} o (data x : T) rest e :
  fits x →
  binary_Read o data (mkReader (encode o x ++ rest) e) = (x, None, mkReader rest e).
Proof.
  intros Hx. rewrite binary_Read_app by by apply encode_length.
  by rewrite decode_encode.
Qed.

Section slice_read.
Context (n : nat) (buf : list byte).
Implicit Types (r : Reader).

Lemma binary_Read_slice_app bs rest e :
  length bs = n →
  binary_Read_slice n buf (mkReader (bs ++ rest) e) =
    (bs ++ drop n buf, None, mkReader rest e).
Proof. intros. unfold_Read. by rewrite ReadFull_app'. Qed.

Lemma binary_Read_slice_short r :
  (length (pending r) < n)%nat →
  binary_Read_slice n buf r =
    (buf, Some (short_read_error (length (pending r)) (final r)), mkReader [] (final r)).
Proof. intros. unfold_Read. by rewrite ReadFull_short. Qed.

Lemma binary_Read_slice_advances r : advances r (binary_Read_slice n buf r).2.
Proof.
  unfold_Read. pose proof (ReadFull_advances n r) as Ha.
  by destruct (ReadFull n r) as [[bs|e] r1].
Qed.

(** The slice keeps its length when the read fits into it. *)
Lemma binary_Read_slice_length r :
  (n ≤ length buf)%nat → length (binary_Read_slice n buf r).1.1 = length buf.
Proof.
  intros Hn. unfold_Read.
  destruct (ReadFull n r) as [[bs|e] r1] eqn:E; simpl; [|done].
  apply ReadFull_ok_inv in E as (_ & Hl & _).
  rewrite length_app, length_drop. lia.
Qed.

End slice_read.

(** ** Readers in pieces *)

(** One iteration of the loop is one [Read]. *)
Lemma ReadFull_chunks_step need got ch rest e :
  (0 < need)%nat →
  ReadFull_chunks need got (ch :: rest) e =
    let '(bs, _, c') := Read need (mkChunked (ch :: rest) e) in
    if decide (length bs < need)%nat
    then ReadFull_chunks (need - length bs) (got ++ bs) (chunks c') e
    else (inl (got ++ bs), c').
Proof.
  intros Hn. destruct need as [|need]; [lia|]. unfold Read. cbn [ReadFull_chunks chunks].
  case_decide as Hc; cbn [chunks cfinal].
  - case_decide; [done|]. assert (length ch = S need) as -> by lia.
    rewrite Nat.sub_diag. by destruct rest.
  - rewrite decide_False; [done|]. rewrite length_take. lia.
Qed.

(** The loop over the pieces computes [ReadFull] of the bytes: the same
    bytes or the same error, and the same bytes left. *)
Lemma ReadFull_chunks_spec need got chs e :
  let r := mkReader (concat chs) e in
  flat (ReadFull_chunks need got chs e).2 = (ReadFull need r).2 ∧
  (ReadFull_chunks need got chs e).1 =
    match (ReadFull need r).1 with
    | inl bs => inl (got ++ bs)
    | inr _ => inr (short_read_error (length got + length (concat chs)) e)
    end.
Proof.
  revert need got. induction chs as [|ch rest IH]; intros need got; simpl.
  - destruct need; unfold ReadFull, flat; simpl; [by rewrite app_nil_r|].
    by rewrite Nat.add_0_r.
  - destruct need as [|need]; [unfold ReadFull, flat; simpl; by rewrite app_nil_r|].
    cbn [ReadFull_chunks]. case_decide as Hc.
    + destruct (IH (S need - length ch)%nat (got ++ ch)) as [Hf Hr]. rewrite Hf, Hr.
      unfold ReadFull. simpl. rewrite !length_app.
      destruct (decide (S need - length ch ≤ length (concat rest))%nat);
        [rewrite decide_True by lia|rewrite decide_False by lia]; simpl.
      * rewrite take_app_ge, drop_app_ge by lia. by rewrite <- app_assoc.
      * split; [done|]. do 2 f_equal. lia.
    + unfold ReadFull, flat. simpl. rewrite decide_True by (rewrite length_app; lia).
      simpl. by rewrite take_app_le, drop_app_le by lia.
Qed.

Lemma ReadFull_chunks_flat n c :
  let '(res, c') := ReadFull_chunks n [] (chunks c) (cfinal c) in
  ReadFull n (flat c) = (res, flat c').
Proof.
  destruct (ReadFull_chunks_spec n [] (chunks c) (cfinal c)) as [Hf Hr].
  destruct (ReadFull_chunks _ _ _ _) as [res c']. simpl in *. subst res. rewrite Hf.
  change (flat c) with (mkReader (concat (chunks c)) (cfinal c)).
  unfold ReadFull. simpl. by case_decide.
Qed.

(** One [Read] with room for a byte hands over a piece or part of one, or
    the error at the end. *)
Lemma Read_piece n c bs c' :
  (0 < n)%nat → Read n c = (bs, None, c') →
  (pieces c' < pieces c)%nat ∧ concat (chunks c) = bs ++ concat (chunks c')
  ∧ cfinal c' = cfinal c ∧ (length bs ≤ n)%nat.
Proof.
  intros Hn. unfold Read, pieces. destruct c as [[|ch rest] e]; simpl; [done|].
  case_decide; intros [= <- <-]; simpl; rewrite ?length_app, ?length_take, ?length_drop.
  - split_and!; (done || lia).
  - rewrite app_assoc, take_drop. split_and!; (done || lia).
Qed.

Lemma Read_end n c bs e c' :
  Read n c = (bs, Some e, c') → bs = [] ∧ e = cfinal c ∧ chunks c = [] ∧ c' = c.
Proof.
  unfold Read. destruct (chunks c) as [|ch rest] eqn:Ec; [by intros [= <- <- <-]|].
  by case_decide.
Qed.

(** The loop over the pieces reads all the bytes, whatever the pieces and
    however [append] grows the buffer. *)
Lemma ReadAll_chunks_spec more fuel cap b c :
  (∀ n, 0 < n → n < more n)%nat → (pieces c < fuel)%nat → (length b < cap)%nat →
  ReadAll_chunks fuel more cap b c
  = (b ++ concat (chunks c),
     if decide (cfinal c = io_EOF) then None else Some (cfinal c),
     mkChunked [] (cfinal c)).
Proof.
  intros Hm. revert cap b c. induction fuel as [|fuel IH]; intros cap b c Hp Hb; [lia|].
  cbn [ReadAll_chunks]. destruct (Read (cap - length b) c) as [[bs [e|]] c'] eqn:Er.
  - apply Read_end in Er as (-> & -> & Hc & ->). destruct c as [chs e]. simpl in *.
    subst chs. by rewrite !app_nil_r.
  - apply Read_piece in Er as (Hp' & Hc & Hf & Hl); [|lia].
    rewrite IH; [by rewrite Hc, Hf, app_assoc|lia|]. rewrite length_app.
    case_decide; [|lia]. specialize (Hm cap). lia.
Qed.

Lemma ReadAll_chunks_flat c :
  ReadAll (flat c) = ((readAll c).1, flat (readAll c).2).
Proof.
  cbn [readAll view Chunked_Stream]. rewrite ReadAll_chunks_spec by (simpl; lia).
  by destruct c.
Qed.

#[export] Instance Chunked_StreamLaws : StreamLaws Chunked.
Proof.
  split; [|apply ReadAll_chunks_flat]. intros n c.
  pose proof (ReadFull_chunks_flat n c) as Hf. simpl.
  by destruct (ReadFull_chunks _ _ _ _).
Qed.

(** ** Any reader

    What [binary.Read] returns from a reader that keeps the laws is what
    it returns from the reader's view. *)
Section stream.
Context {R : Type} `{StreamLaws R}.

Lemma binary_Read_view {T} `{Binary T} o (data : T) (r : R) :
  binary_Read o data (view r) = ((binary_Read o data r).1, view (binary_Read o data r).2).
Proof.
  unfold binary_Read at 1. cbn [readFull Reader_Stream]. rewrite readFull_view.
  unfold binary_Read. by destruct (readFull dataSize r) as [[bs|e] r'].
Qed.

Lemma binary_Read_slice_view n buf (r : R) :
  binary_Read_slice n buf (view r)
  = ((binary_Read_slice n buf r).1, view (binary_Read_slice n buf r).2).
Proof.
  unfold binary_Read_slice at 1. cbn [readFull Reader_Stream]. rewrite readFull_view.
  unfold binary_Read_slice. by destruct (readFull n r) as [[bs|e] r'].
Qed.

End stream.

(** ** [ReadAll] and [Peek] *)

Lemma ReadAll_NewReader bs : ReadAll (NewReader bs) = (bs, None, NewReader []).
Proof. done. Qed.

Lemma ReadAll_advances r : advances r (ReadAll r).2.
Proof. split; [apply suffix_nil|done]. Qed.

Lemma ReadAll_error r bs e r' :
  ReadAll r = (bs, Some e, r') → e = final r ∧ e ≠ io_EOF.
Proof. unfold ReadAll. case_decide; naive_solver. Qed.

Lemma Peek_app bs rest e : Peek (length bs) (mkReader (bs ++ rest) e) = (bs, None).
Proof.
  unfold Peek. simpl. rewrite decide_True by (rewrite length_app; lia).
  by rewrite take_app_length.
Qed.

Lemma Peek_ok_inv n r bs :
  Peek n r = (bs, None) → length bs = n ∧ ∃ rest, pending r = bs ++ rest.
Proof.
  unfold Peek. case_decide; [|done]. intros [= <-]. split.
  - rewrite length_take. lia.
  - exists (drop n (pending r)). by rewrite take_drop.
Qed.

#[export] Hint Resolve ReadFull_advances binary_Read_advances
  binary_Read_slice_advances ReadAll_advances : go.
#[export] Hint Rewrite ReadFull_0 : go.
