(* ===== verification/GoImage.v ===== *)
(** * GoImage: [image.Config], [color.Model] and [image.RGBA]

    The values the codecs return through Go's [image] package: the colour
    models of [image/color] as an enumeration (with the nil model of a zero
    [image.Config]), [image.Config] as a record whose [Width] and [Height]
    are Go [int]s, and [image.RGBA] with its rectangle, its stride and the
    offset [PixOffset] at which its methods find a pixel.  The [Typed]
    instances say when such a record is a value of its Go type. *)

From S2P Require Import Prelude Ints.

Inductive Model : Type :=
| nilModel
| RGBAModel | RGBA64Model | NRGBAModel | NRGBA64Model
| AlphaModel | Alpha16Model | GrayModel | Gray16Model
| YCbCrModel | CMYKModel.

#[export] Instance Model_eq_dec : EqDecision Model.
Proof. solve_decision. Defined.

Record Config : Type := mkConfig {
  ColorModel : Model;
  Width : Z;
  Height : Z;
}.

#[export] Instance Config_eq_dec : EqDecision Config.
Proof. solve_decision. Defined.

(** [cfg.Width, cfg.Height = w, h] *)
Definition set_size (cfg : Config) (w h : Z) : Config :=
  {| ColorModel := ColorModel cfg; Width := w; Height := h |}.

(** [cfg.Height = h] *)
Definition set_Height (cfg : Config) (h : Z) : Config :=
  {| ColorModel := ColorModel cfg; Width := Width cfg; Height := h |}.

(** [cfg.ColorModel = m] *)
Definition set_ColorModel (cfg : Config) (m : Model) : Config :=
  {| ColorModel := m; Width := Width cfg; Height := Height cfg |}.

(** [int(x)]: conversion of an integer to Go's [int]. *)
Definition to_int {a : Arch} (x : Z) : Z := wrap_signed intSize x.

(** What a caller may rely on in a returned [image.Config]. *)
Definition Config_ok (cfg : Config) : Prop := 0 ≤ Width cfg ∧ 0 ≤ Height cfg.

#[export] Instance Config_ok_dec cfg : Decision (Config_ok cfg).
Proof. unfold Config_ok. apply _. Defined.

(** ** [image.Rectangle] and [image.RGBA] *)

Record Rectangle : Type := mkRectangle { MinX : Z; MinY : Z; MaxX : Z; MaxY : Z }.

#[export] Instance Rectangle_eq_dec : EqDecision Rectangle.
Proof. solve_decision. Defined.

(** [image.Rect(x0, y0, x1, y1)]: the corners are put in order. *)
Definition image_Rect (x0 y0 x1 y1 : Z) : Rectangle :=
  let '(x0, x1) := if decide (x0 > x1) then (x1, x0) else (x0, x1) in
  let '(y0, y1) := if decide (y0 > y1) then (y1, y0) else (y0, y1) in
  mkRectangle x0 y0 x1 y1.

Definition Dx (r : Rectangle) : Z := MaxX r - MinX r.
Definition Dy (r : Rectangle) : Z := MaxY r - MinY r.

(** [(image.Point{x, y}).In(r)] *)
Definition In_rect (r : Rectangle) (x y : Z) : Prop :=
  MinX r ≤ x < MaxX r ∧ MinY r ≤ y < MaxY r.

#[export] Instance In_rect_dec r x y : Decision (In_rect r x y).
Proof. unfold In_rect. apply _. Defined.

Record RGBA : Type := mkRGBA { Pix : list byte; Stride : Z; Rect : Rectangle }.

#[export] Instance RGBA_eq_dec : EqDecision RGBA.
Proof. solve_decision. Defined.

(** Method [PixOffset] of [image.RGBA]: where the four bytes of a pixel start. *)
Definition PixOffset (m : RGBA) (x y : Z) : Z :=
  (y - MinY (Rect m)) * Stride m + (x - MinX (Rect m)) * 4.

(** An image as [image.NewRGBA] makes it: rows of four bytes a pixel, one
    after the other. *)
Definition RGBA_ok (m : RGBA) : Prop :=
  Stride m = 4 * Dx (Rect m) ∧ Z.of_nat (length (Pix m)) = Stride m * Dy (Rect m).

#[export] Instance RGBA_ok_dec m : Decision (RGBA_ok m).
Proof. unfold RGBA_ok. apply _. Defined.

(** Method [RGBAAt(x, y)] of [image.RGBA]: the zero colour outside the rectangle,
    otherwise the four bytes at the pixel's offset, an index out of range
    when [Pix] is too short for them. *)
Definition RGBAAt (m : RGBA) (x y : Z) : panic + list byte :=
  if decide (In_rect (Rect m) x y) then
    let i := PixOffset m x y in
    if decide (0 ≤ i ∧ i + 3 < Z.of_nat (length (Pix m)))
    then inr (take 4 (drop (Z.to_nat i) (Pix m)))
    else inl (index_out_of_range (i + 3) (Z.of_nat (length (Pix m))))
  else inr (replicate 4 Byte.x00).

(** ** The values of these types

    An [image.Config] holds two [int]s; an [image.RGBA] a stride and four
    corner coordinates that are [int]s, and a slice whose length is one. *)
#[export] Instance Config_Typed {a : Arch} : Typed Config :=
  λ cfg, int_ok (Width cfg) ∧ int_ok (Height cfg).

#[export] Instance Rectangle_Typed {a : Arch} : Typed Rectangle :=
  λ r, int_ok (MinX r) ∧ int_ok (MinY r) ∧ int_ok (MaxX r) ∧ int_ok (MaxY r).

#[export] Instance RGBA_Typed {a : Arch} : Typed RGBA :=
  λ m, int_ok (Z.of_nat (length (Pix m))) ∧ int_ok (Stride m) ∧ typed (Rect m).

#[export] Instance Config_Typed_dec {a : Arch} (cfg : Config) : Decision (typed cfg).
Proof. unfold typed, Config_Typed. apply _. Defined.

#[export] Instance RGBA_Typed_dec {a : Arch} (m : RGBA) : Decision (typed m).
Proof. unfold typed, RGBA_Typed, typed, Rectangle_Typed. apply _. Defined.

Lemma image_Rect_origin x y :
  0 ≤ x → 0 ≤ y → image_Rect 0 0 x y = mkRectangle 0 0 x y.
Proof. intros. unfold image_Rect. by rewrite !decide_False by lia. Qed.

(** In a well-formed image every pixel of the rectangle has its four
    bytes inside [Pix], and two pixels never share a byte. *)
Lemma RGBA_ok_in_bounds m x y :
  RGBA_ok m → In_rect (Rect m) x y →
  0 ≤ PixOffset m x y ∧ PixOffset m x y + 4 ≤ Z.of_nat (length (Pix m)).
Proof.
  unfold RGBA_ok, In_rect, PixOffset, Dx, Dy. intros [-> ->] [??]. nia.
Qed.

Lemma RGBA_ok_injective m x y x' y' :
  RGBA_ok m → In_rect (Rect m) x y → In_rect (Rect m) x' y' →
  PixOffset m x y = PixOffset m x' y' → x = x' ∧ y = y'.
Proof.
  unfold RGBA_ok, In_rect, PixOffset, Dx, Dy. intros [-> _] [??] [??] Ho.
  assert (y = y') by nia. subst. split; [nia|done].
Qed.

Lemma RGBAAt_ok m x y :
  RGBA_ok m → In_rect (Rect m) x y → ∃ px, RGBAAt m x y = inr px ∧ length px = 4%nat.
Proof.
  intros Hm Hi. destruct (RGBA_ok_in_bounds m x y Hm Hi). unfold RGBAAt.
  rewrite !decide_True by (done || lia). eexists; split; [done|].
  rewrite length_take, length_drop. lia.
Qed.

(** Conversions from the field types of the headers are exact at both
    widths of [int]. *)
Lemma to_int_int32 {a : Arch} x : - 2 ^ 31 ≤ x < 2 ^ 31 → to_int x = x.
Proof.
  intros Hx. apply wrap_signed_small; [apply intSize_pos|].
  destruct a; simpl; lia.
Qed.

Lemma to_int_uint16 {a : Arch} x : 0 ≤ x < 2 ^ 16 → to_int x = x.
Proof. intros. apply to_int_int32. lia. Qed.

Lemma to_int_0 {a : Arch} : to_int 0 = 0.
Proof. by apply to_int_int32. Qed.

Lemma to_int_ok {a : Arch} x : int_ok (to_int x).
Proof. apply wrap_signed_int_ok. Qed.

(** [image.Rect] only reorders its arguments. *)
Lemma image_Rect_typed {a : Arch} x0 y0 x1 y1 :
  int_ok x0 → int_ok y0 → int_ok x1 → int_ok y1 → typed (image_Rect x0 y0 x1 y1).
Proof. intros. unfold image_Rect. by repeat case_decide. Qed.

Lemma set_size_typed {a : Arch} cfg w h : int_ok w → int_ok h → typed (set_size cfg w h).
Proof. by split. Qed.

#[export] Hint Rewrite @to_int_0 : go.
#[export] Hint Resolve to_int_ok image_Rect_typed set_size_typed : go.
