(* ===== verification/Stbi.v ===== *)
(** * Stbi: the bindings of [src/stbi.go]

    Module [Stbi] models [Load], [LoadFile], [LoadMemory], [LoadReader] and
    [SetFlipVerticallyOnLoad].  The C library behind cgo is an interface:
    the class [Engine] is the decoder of stb_image as a function of the
    flip flag, the bytes and the requested channel count, [EngineLaws] is
    what its documentation promises of a result.  The state the functions
    act on is a [World]: the two globals of the C library (the flip flag
    and the failure reason), the C allocations that are live, the Go cells
    a [*int32] may point to, and the files [fopen] finds.  A nil pointer is
    [None].  A call that panics leaves a world as well: the deferred calls
    have run on it ([defer]).  The theorems give the result of a load on
    each path, the layout of the image returned, the byte count where it
    wraps, the C allocations left behind by a call and by a program of
    calls ([run]), returning or panicking, and the part of the world a
    call leaves alone ([frame]).

    The reader handed to [LoadReader] is the nil interface (on which
    [ioutil.ReadAll] panics), a file, or a reader of any type of the class
    [Stream]; it is drained by [ioutil.ReadAll] or moved by the
    C library, and no function of this file looks at it again, so it is
    not part of the state returned. *)

From stdpp Require Import functions.
From S2P Require Import Prelude Ints GoIO GoImage.

Module Stbi.
#[local] Open Scope go_scope.

(** ** The C side *)

(** A successful decode: [*x], [*y], [*channels_in_file] and the buffer
    [stbi_load] returns. *)
Record decoded : Type := mkDecoded {
  img_x : Z;
  img_y : Z;
  img_n : Z;
  img_data : list byte;
}.

(** The decoder: from the flip flag, the bytes of the file and [req_comp]
    to the failure reason or the image. *)
Class Engine : Type := {
  stbi_decode : bool → list byte → Z → string + decoded;
}.

(** The channels of the buffer: [req_comp] unless it is 0. *)
Definition out_channels (req n : Z) : Z := if decide (req = 0) then n else req.

(** What stb_image.h documents of a result: [req_comp] is 0 to 4, the file
    has 1 to 4 channels, and the buffer holds [x * y] pixels of
    [out_channels] bytes, a size that fits a C [int]. *)
Record decoded_ok (req : Z) (d : decoded) : Prop := {
  ok_req : 0 ≤ req ≤ 4;
  ok_x : 0 < img_x d;
  ok_y : 0 < img_y d;
  ok_n : 1 ≤ img_n d ≤ 4;
  ok_size : Z.of_nat (length (img_data d)) = img_x d * img_y d * out_channels req (img_n d);
  ok_fits : img_x d * img_y d * out_channels req (img_n d) < 2 ^ 31;
}.

Class EngineLaws `{Engine} : Prop := {
  stbi_decode_ok : ∀ flip bs req d, stbi_decode flip bs req = inr d → decoded_ok req d;
}.

(** What C has allocated and not yet released. *)
Inductive resource : Type :=
| CStr (s : string)
| Pixels (data : list byte)
| Stream (fd : Z).

#[export] Instance resource_eq_dec : EqDecision resource.
Proof. solve_decision. Defined.

Record World : Type := mkWorld {
  flip : bool;
  reason : string;
  live : list resource;
  heap : nat → Z;
  fs : string → option (list byte);
}.

Definition set_flip (b : bool) (w : World) : World :=
  mkWorld b (reason w) (live w) (heap w) (fs w).

Definition set_reason (msg : string) (w : World) : World :=
  mkWorld (flip w) msg (live w) (heap w) (fs w).

Definition set_live (l : list resource) (w : World) : World :=
  mkWorld (flip w) (reason w) l (heap w) (fs w).

(** [*p = v] done by C: nothing for a null pointer. *)
Definition store (p : option nat) (v : Z) (w : World) : World :=
  match p with
  | None => w
  | Some i => mkWorld (flip w) (reason w) (live w) (<[i:=v]> (heap w)) (fs w)
  end.

Definition malloc (x : resource) (w : World) : World := set_live (x :: live w) w.

Fixpoint remove1 (x : resource) (l : list resource) : list resource :=
  match l with
  | [] => []
  | y :: l' => if decide (x = y) then l' else y :: remove1 x l'
  end.

(** [free], [stbi_image_free]. *)
Definition free (x : resource) (w : World) : World := set_live (remove1 x (live w)) w.

(** [stbi_load_from_memory(buffer, len, &x, &y, comp, req_comp)]: NULL and
    a failure reason, or the buffer, with [*comp] written when [comp] is
    not null. *)
Definition stbi_load_from_memory `{Engine} (buffer : list byte) (len : Z)
    (comp : option nat) (req_comp : Z) (w : World) : option decoded * World :=
  match stbi_decode (flip w) (take (Z.to_nat len) buffer) req_comp with
  | inl msg => (None, set_reason msg w)
  | inr d => (Some d, malloc (Pixels (img_data d)) (store comp (img_n d) w))
  end.

(** A Go [*os.File]: its descriptor ([-1] once closed) and the bytes from
    its offset to its end. *)
Record File : Type := mkFile { Fd : Z; contents : list byte }.

(** [fdopen(fd, mode)] called in cgo's two-value form: a stream, or NULL
    and errno EBADF for a descriptor that is not open. *)
Definition EBADF : error := io_failure 9.

Definition fdopen (fd : Z) (w : World) : (option Z * option error) * World :=
  if decide (fd < 0) then (None, Some EBADF, w)
  else (Some fd, None, malloc (Stream fd) w).

(** [stbi_load_from_file(fp, ...)]: the decoder on the bytes of the
    stream. *)
Definition stbi_load_from_file `{Engine} (f : File) (comp : option nat)
    (req_comp : Z) (w : World) : option decoded * World :=
  stbi_load_from_memory (contents f) (Z.of_nat (length (contents f))) comp req_comp w.

(** What C reads behind the [char*] that [C.CString(s)] makes: the bytes
    of [s] up to its first NUL. *)
Fixpoint c_str (s : string) : string :=
  match s with
  | EmptyString => EmptyString
  | String c s' => if decide (c = Ascii.zero) then EmptyString else String c (c_str s')
  end.

(** [stbi_load(path, ...)]: [fopen], [stbi_load_from_file], [fclose]. *)
Definition stbi_load `{Engine} (path : string) (comp : option nat) (req_comp : Z)
    (w : World) : option decoded * World :=
  match fs w (c_str path) with
  | None => (None, set_reason "Unable to open file" w)
  | Some bs => stbi_load_from_memory bs (Z.of_nat (length bs)) comp req_comp w
  end.

(** [stbi_set_flip_vertically_on_load(flag)] *)
Definition stbi_set_flip_vertically_on_load (flag : Z) (w : World) : World :=
  set_flip (bool_decide (flag ≠ 0)) w.

(** [C.GoBytes(p, n)]: a copy of [n] bytes at [p]; the runtime refuses a
    negative [n], and nothing checks [n] against the allocation. *)
Definition GoBytes (data : list byte) (n : Z) (w : World) : outcome World (list byte) :=
  if decide (n < 0) then Panic (gobytes_length_out_of_range n) w
  else if decide (n ≤ Z.of_nat (length data)) then Done (take (Z.to_nat n) data) w
  else Fault (read_out_of_bounds n (Z.of_nat (length data))).

(** ** The Go side *)

Section bindings.
Context {a : Arch} {E : Engine}.

Definition result : Type := outcome World (option RGBA * option error).

(** [defer f()]: [f] runs when the function returns and when it panics. *)
Definition defer (f : World → World) (o : result) : result :=
  match o with
  | Done v w => Done v (f w)
  | Panic p w => Panic p (f w)
  | Fault e => Fault e
  | Timeout => Timeout
  end.

(** The lines the three loaders share, from [if data == nil] to the
    [return]: the failure reason as an error, or the image built from the
    buffer, which is released on the way out. *)
Definition finish (data : option decoded) (channelsInFile : option nat) (w : World)
    : result :=
  match data with
  | None => Done (None, Some (errors_New (reason w))) w
  | Some d =>
    defer (free (Pixels (img_data d)))
      match channelsInFile with
      | None => Panic nil_pointer_dereference w
      | Some p =>
        let* pix at w1 :=
          GoBytes (img_data d)
            (int32_mul (int32_mul (img_y d) (img_x d)) (C_int (heap w p))) w in
        Done (Some (mkRGBA pix 4 (image_Rect 0 0 (to_int (img_x d)) (to_int (img_y d)))),
              None) w1
      end
  end.

(** [func Load(path string, channelsInFile *int32, desiredChannels int32)] *)
Definition Load (path : string) (channelsInFile : option nat) (desiredChannels : Z)
    (w : World) : result :=
  let w1 := malloc (CStr path) w in
  defer (free (CStr path))
    (let '(data, w2) := stbi_load path channelsInFile (C_int desiredChannels) w1 in
     finish data channelsInFile w2).

(** [func LoadFile(f *os.File, channelsInFile *int32, desiredChannels int32)] *)
Definition LoadFile (f : File) (channelsInFile : option nat) (desiredChannels : Z)
    (w : World) : result :=
  let w1 := malloc (CStr "rb") w in
  defer (free (CStr "rb"))
    (let '(fp, err, w2) := fdopen (C_int (Fd f)) w1 in
     match err with
     | Some e => Done (None, Some e) w2
     | None =>
       let '(data, w3) :=
         stbi_load_from_file f channelsInFile (C_int desiredChannels) w2 in
       finish data channelsInFile w3
     end).

(** [func LoadMemory(b []byte, channelsInFile *int32, desiredChannels int32)] *)
Definition LoadMemory (b : list byte) (channelsInFile : option nat) (desiredChannels : Z)
    (w : World) : result :=
  match b with
  | [] => Panic (index_out_of_range 0 0) w
  | _ =>
    let '(data, w1) :=
      stbi_load_from_memory b (C_int (Z.of_nat (length b))) channelsInFile
        (C_int desiredChannels) w in
    finish data channelsInFile w1
  end.

(** An [io.Reader] by its dynamic type: the nil interface, an [*os.File],
    or a reader of any other type. *)
Inductive io_Reader : Type :=
| NilReader
| FileReader (f : File)
| StreamReader {R : Type} `{GoIO.Stream R} (r : R).

(** [func LoadReader(r io.Reader, channelsInFile *int32, desiredChannels int32)] *)
Definition LoadReader (r : io_Reader) (channelsInFile : option nat) (desiredChannels : Z)
    (w : World) : result :=
  match r with
  | NilReader => Panic nil_pointer_dereference w
  | FileReader f => LoadFile f channelsInFile desiredChannels w
  | StreamReader r =>
    let '(b, err, _) := readAll r in
    match err with
    | Some e => Done (None, Some e) w
    | None => LoadMemory b channelsInFile desiredChannels w
    end
  end.

(** [func SetFlipVerticallyOnLoad(flagTrueIfShouldFlip bool)] *)
Definition SetFlipVerticallyOnLoad (flagTrueIfShouldFlip : bool) (w : World) : World :=
  stbi_set_flip_vertically_on_load (if flagTrueIfShouldFlip then 1 else 0) w.

(** ** Programs

    A program over the bindings is a sequence of calls; a panic ends it. *)
Inductive call : Type :=
| CallLoad (path : string) (ci : option nat) (req : Z)
| CallLoadFile (f : File) (ci : option nat) (req : Z)
| CallLoadMemory (b : list byte) (ci : option nat) (req : Z)
| CallLoadReader (r : io_Reader) (ci : option nat) (req : Z)
| CallSetFlip (flag : bool).

Definition exec (c : call) (w : World) : result :=
  match c with
  | CallLoad path ci req => Load path ci req w
  | CallLoadFile f ci req => LoadFile f ci req w
  | CallLoadMemory b ci req => LoadMemory b ci req w
  | CallLoadReader r ci req => LoadReader r ci req w
  | CallSetFlip flag => Done (None, None) (SetFlipVerticallyOnLoad flag w)
  end.

Fixpoint run (cs : list call) (w : World)
    : outcome World (list (option RGBA * option error)) :=
  match cs with
  | [] => Done [] w
  | c :: cs' =>
    let* v at w1 := exec c w in
    let* vs at w2 := run cs' w1 in
    Done (v :: vs) w2
  end.

End bindings.

(** ** Specification side

    The image a loader hands back for a decode [d]: the first
    [x * y * channels-in-file] bytes of the buffer, a stride of 4, and the
    rectangle from the origin to [(x, y)]. *)
Definition image_of (d : decoded) : RGBA :=
  mkRGBA (take (Z.to_nat (img_x d * img_y d * img_n d)) (img_data d)) 4
         (mkRectangle 0 0 (img_x d) (img_y d)).

(** What a call may change of the world besides the allocations and the
    failure reason: nothing but the cell behind the pointer it was given. *)
Definition frame (ci : option nat) (w w' : World) : Prop :=
  flip w' = flip w ∧ fs w' = fs w ∧ ∀ q, ci ≠ Some q → heap w' q = heap w q.

(** The Go cells a [*int32] points to hold [int32] values. *)
#[export] Instance World_Typed : Typed World := λ w, ∀ p, int32_ok (heap w p).

#[export] Instance result_Typed {a : Arch} : Typed result :=
  outcome_Typed (S:=World) (A:=option RGBA * option error).

(** The C stream a call opens and never closes. *)
Definition stream_of (f : File) : list resource :=
  if decide (C_int (Fd f) < 0) then [] else [Stream (C_int (Fd f))].

Definition opened (c : call) : list resource :=
  match c with
  | CallLoadFile f _ _ | CallLoadReader (FileReader f) _ _ => stream_of f
  | _ => []
  end.

(** The flip flag after a call. *)
Definition flipped (b : bool) (c : call) : bool :=
  match c with CallSetFlip flag => flag | _ => b end.

(** The Go cell a call may write: the one its [channelsInFile] points to. *)
Definition pointer (c : call) : option nat :=
  match c with
  | CallLoad _ ci _ | CallLoadFile _ ci _ | CallLoadMemory _ ci _ | CallLoadReader _ ci _ => ci
  | CallSetFlip _ => None
  end.

(** The calls of a program that are made: all of them when every call
    returns, and those up to the first that does not otherwise. *)
Fixpoint made {a : Arch} {E : Engine} (cs : list call) (w : World) : list call :=
  match cs with
  | [] => []
  | c :: cs' => c :: match exec c w with Done _ w1 => made cs' w1 | _ => [] end
  end.

(** What the calls [l] make of a world [w]: the streams they open are
    added to the allocations, the flip flag is the last one set, and the
    files and the cells no call points to are those of [w]. *)
Definition leaves (l : list call) (w w' : World) : Prop :=
  live w' = concat (reverse (opened <$> l)) ++ live w
  ∧ flip w' = foldl flipped (flip w) l
  ∧ fs w' = fs w
  ∧ ∀ q, Forall (λ c, pointer c ≠ Some q) l → heap w' q = heap w q.

(** A result that carries an image. *)
Definition has_image (o : outcome World (option RGBA * option error)) : Prop :=
  match o with Done (Some _, _) _ => True | _ => False end.

#[export] Instance has_image_dec o : Decision (has_image o).
Proof. destruct o as [[[m|] ?] ?| | |]; simpl; apply _. Defined.

(** ** The C side: allocation and the decoder's calls *)

(** [world_eq w] proves an equation between two worlds made from [w] by
    allocations, releases and stores. *)
Ltac world_eq w :=
  destruct w; unfold free, malloc, set_reason, set_live, set_flip;
  repeat (simpl; first [rewrite decide_True by done | rewrite decide_False by done]);
  done.

Lemma remove1_head x l : remove1 x (x :: l) = l.
Proof. simpl. by rewrite decide_True. Qed.

Lemma free_malloc x w : free x (malloc x w) = w.
Proof. destruct w. unfold free, malloc, set_live. simpl. by rewrite decide_True. Qed.

Lemma live_malloc x w : live (malloc x w) = x :: live w.
Proof. done. Qed.

Lemma live_free x w : live (free x w) = remove1 x (live w).
Proof. done. Qed.

(** Releasing [x] passes over a younger allocation that is not [x]. *)
Lemma remove1_next x y l : x ≠ y → remove1 x (y :: x :: l) = y :: l.
Proof. intros. simpl. by rewrite decide_False, decide_True. Qed.

Lemma live_store p v w : live (store p v w) = live w.
Proof. by destruct p. Qed.

Lemma heap_store i v w : heap (store (Some i) v w) i = v.
Proof. simpl. apply fn_lookup_insert. Qed.

Lemma flip_store p v w : flip (store p v w) = flip w.
Proof. by destruct p. Qed.

Lemma GoBytes_take data n w :
  0 ≤ n ≤ Z.of_nat (length data) → GoBytes data n w = Done (take (Z.to_nat n) data) w.
Proof. intros. unfold GoBytes. by rewrite decide_False, decide_True by lia. Qed.

Lemma GoBytes_beyond data n w :
  Z.of_nat (length data) < n →
  GoBytes data n w = Fault (read_out_of_bounds n (Z.of_nat (length data))).
Proof. intros. unfold GoBytes. by rewrite !decide_False by lia. Qed.

Lemma GoBytes_negative data n w :
  n < 0 → GoBytes data n w = Panic (gobytes_length_out_of_range n) w.
Proof. intros. unfold GoBytes. by rewrite decide_True. Qed.

(** A call deferred around [C.GoBytes] is as good as made before it. *)
Lemma GoBytes_defer {A} data n w (f : World → World) (g : list byte → A) :
  on_state f (let* pix at w1 := GoBytes data n w in Done (g pix) w1)
  = let* pix at w1 := GoBytes data n (f w) in Done (g pix) w1.
Proof. unfold GoBytes. by repeat case_decide. Qed.

(** [C.GoBytes] leaves the world as it is. *)
Lemma GoBytes_state data n w w' : state_of (GoBytes data n w) = Some w' → w' = w.
Proof. unfold GoBytes. repeat case_decide; naive_solver. Qed.

(** A slice whose length fits a C [int] is passed whole. *)
Lemma take_len32 (b : list byte) :
  Z.of_nat (length b) < 2 ^ 31 → take (Z.to_nat (C_int (Z.of_nat (length b)))) b = b.
Proof.
  intros. rewrite C_int_small by lia. rewrite Nat2Z.id. apply firstn_all.
Qed.

Section calls.
Context {E : Engine}.

Lemma stbi_load_from_memory_fail b len comp req w msg :
  stbi_decode (flip w) (take (Z.to_nat len) b) req = inl msg →
  stbi_load_from_memory b len comp req w = (None, set_reason msg w).
Proof. unfold stbi_load_from_memory. by intros ->. Qed.

Lemma stbi_load_from_memory_ok b len comp req w d :
  stbi_decode (flip w) (take (Z.to_nat len) b) req = inr d →
  stbi_load_from_memory b len comp req w
  = (Some d, malloc (Pixels (img_data d)) (store comp (img_n d) w)).
Proof. unfold stbi_load_from_memory. by intros ->. Qed.

(** Whatever the decoder does, the C allocations grow by at most the
    buffer it returns. *)
Lemma stbi_load_from_memory_live b len comp req w :
  match stbi_load_from_memory b len comp req w with
  | (None, w') => live w' = live w
  | (Some d, w') => live w' = Pixels (img_data d) :: live w
  end.
Proof.
  unfold stbi_load_from_memory. destruct (stbi_decode _ _ _); simpl; [done|].
  by rewrite live_store.
Qed.

End calls.

(** ** Paths and typed worlds *)

Lemma c_str_cut p q : c_str (p +:+ String Ascii.zero q) = c_str p.
Proof.
  induction p as [|c p IH]; simpl; [done|].
  case_decide; [done|]. by rewrite IH.
Qed.

Lemma c_str_idemp p : c_str (c_str p) = c_str p.
Proof. induction p as [|c p IH]; simpl; [done|]. case_decide; simpl; [done|]. by rewrite decide_False, IH. Qed.

(** A world that differs in no cell is typed as the one it came from. *)
Lemma typed_heap (w w' : World) : heap w' = heap w → typed w → typed w'.
Proof. intros Hh Hw p. rewrite Hh. apply Hw. Qed.

Lemma store_typed p v (w : World) : int32_ok v → typed w → typed (store p v w).
Proof.
  intros Hv Hw. destruct p as [i|]; [|done]. intros q. simpl.
  destruct (decide (i = q)) as [->|]; [by rewrite fn_lookup_insert|].
  by rewrite fn_lookup_insert_ne.
Qed.

Lemma stbi_load_from_memory_typed `{EngineLaws} b len comp req (w : World) :
  typed w → typed (stbi_load_from_memory b len comp req w).2.
Proof.
  intros Hw. unfold stbi_load_from_memory.
  destruct (stbi_decode _ _ _) as [msg|d] eqn:Ed; simpl; [done|].
  eapply typed_heap; [done|]. apply store_typed; [|done].
  destruct (stbi_decode_ok _ _ _ _ Ed). unfold int32_ok. lia.
Qed.

(** ** The byte count of [Pix] *)

Section count.
Context (req : Z) (d : decoded) (Hd : decoded_ok req d).

Lemma out_channels_range : 1 ≤ out_channels req (img_n d) ≤ 4.
Proof. destruct Hd. unfold out_channels. case_decide; lia. Qed.

Lemma decoded_area : 0 < img_x d * img_y d.
Proof. destruct Hd. nia. Qed.

Lemma decoded_x_fits : 0 < img_x d < 2 ^ 31.
Proof. destruct Hd. pose proof out_channels_range. nia. Qed.

Lemma decoded_y_fits : 0 < img_y d < 2 ^ 31.
Proof. destruct Hd. pose proof out_channels_range. nia. Qed.

(** [y*x*C.int( *channelsInFile )] is exact as long as the product fits;
    it does whenever the file has no more channels than the buffer. *)
Lemma pix_count_exact :
  img_x d * img_y d * img_n d < 2 ^ 31 →
  int32_mul (int32_mul (img_y d) (img_x d)) (C_int (img_n d))
  = img_x d * img_y d * img_n d.
Proof.
  intros Hn. destruct Hd. pose proof decoded_area. unfold int32_mul.
  rewrite (C_int_small (img_n d)) by lia.
  rewrite (wrap_signed_small 32 (img_y d * img_x d)) by nia.
  rewrite wrap_signed_small by nia. lia.
Qed.

(** In general the first product is exact and the second wraps. *)
Lemma pix_count_wrapped :
  int32_mul (int32_mul (img_y d) (img_x d)) (C_int (img_n d))
  = wrap_signed 32 (img_x d * img_y d * img_n d).
Proof.
  destruct Hd. pose proof decoded_area. pose proof out_channels_range. unfold int32_mul.
  rewrite (C_int_small (img_n d)) by lia.
  rewrite (wrap_signed_small 32 (img_y d * img_x d)) by nia. f_equal. lia.
Qed.

Lemma pix_count_fits :
  img_n d ≤ out_channels req (img_n d) → img_x d * img_y d * img_n d < 2 ^ 31.
Proof. intros. destruct Hd. pose proof decoded_area. nia. Qed.

End count.

(** ** The frame of a call *)

#[export] Instance frame_preorder ci : PreOrder (frame ci).
Proof.
  split; [by intros w|]. intros w1 w2 w3 (? & ? & H12) (? & ? & H23).
  split_and!; [congruence..|]. intros q Hq. by rewrite H23, H12.
Qed.

Lemma frame_set_live ci l w : frame ci w (set_live l w).
Proof. done. Qed.

Lemma frame_set_reason ci msg w : frame ci w (set_reason msg w).
Proof. done. Qed.

Lemma frame_store ci v w : frame ci w (store ci v w).
Proof.
  destruct ci as [p|]; [|done]. split_and!; [done..|]. intros q Hq. simpl.
  apply fn_lookup_insert_ne. congruence.
Qed.

Lemma frame_stbi_load_from_memory {E : Engine} b len ci req w :
  frame ci w (stbi_load_from_memory b len ci req w).2.
Proof.
  unfold stbi_load_from_memory. destruct (stbi_decode _ _ _); simpl.
  - apply frame_set_reason.
  - etrans; [apply frame_store|apply frame_set_live].
Qed.

(** ** The shared epilogue *)

Section finish.
Context {a : Arch} {E : Engine}.
Implicit Types (d : decoded) (w : World).

Lemma state_of_defer f (o : result) : state_of (defer f o) = f <$> state_of o.
Proof. by destruct o. Qed.

Lemma finish_failure ci w :
  finish None ci w = Done (None, Some (errors_New (reason w))) w.
Proof. done. Qed.

Lemma finish_nil d w :
  finish (Some d) None w = Panic nil_pointer_dereference (free (Pixels (img_data d)) w).
Proof. done. Qed.

Lemma finish_image req d p w :
  decoded_ok req d → heap w p = img_n d → img_n d ≤ out_channels req (img_n d) →
  finish (Some d) (Some p) w = Done (Some (image_of d), None) (free (Pixels (img_data d)) w).
Proof.
  intros Hd Hp Hn. pose proof (pix_count_fits req d Hd Hn) as Hf.
  pose proof (decoded_x_fits req d Hd). pose proof (decoded_y_fits req d Hd).
  unfold finish. rewrite Hp, (pix_count_exact req d Hd Hf).
  rewrite GoBytes_take by (destruct Hd; pose proof (decoded_area req d); nia).
  rewrite !to_int_int32, image_Rect_origin by lia. done.
Qed.

(** The copy is as long as the cell behind [channelsInFile] says when
    the epilogue runs: with a count [n] there that the buffer has room
    for, the image holds x * y * [n] bytes. *)
Lemma finish_channels req d p w n :
  decoded_ok req d → heap w p = n → 0 ≤ n ≤ out_channels req (img_n d) →
  finish (Some d) (Some p) w
  = Done (Some (mkRGBA (take (Z.to_nat (img_x d * img_y d * n)) (img_data d)) 4
                       (mkRectangle 0 0 (img_x d) (img_y d))), None)
         (free (Pixels (img_data d)) w).
Proof.
  intros Hd Hp Hn. pose proof (decoded_x_fits req d Hd). pose proof (decoded_y_fits req d Hd).
  pose proof (decoded_area req d Hd). pose proof (out_channels_range req d Hd).
  destruct Hd. assert (img_x d * img_y d * n < 2 ^ 31) by nia.
  unfold finish, int32_mul. rewrite Hp, (C_int_small n) by lia.
  rewrite (wrap_signed_small 32 (img_y d * img_x d)) by nia.
  rewrite wrap_signed_small, GoBytes_take by nia.
  rewrite !to_int_int32, image_Rect_origin by lia. simpl. do 5 f_equal. lia.
Qed.

Lemma finish_over_read req d p w :
  decoded_ok req d → heap w p = img_n d →
  out_channels req (img_n d) < img_n d → img_x d * img_y d * img_n d < 2 ^ 31 →
  finish (Some d) (Some p) w
  = Fault (read_out_of_bounds (img_x d * img_y d * img_n d)
             (img_x d * img_y d * out_channels req (img_n d))).
Proof.
  intros Hd Hp Hn Hf. unfold finish. rewrite Hp, (pix_count_exact req d Hd Hf).
  rewrite GoBytes_beyond by (destruct Hd; pose proof (decoded_area req d); nia).
  by destruct Hd as [_ _ _ _ <- _].
Qed.

(** The epilogue for any count: the copy is made with the wrapped
    product. *)
Lemma finish_wrapped req d p w :
  decoded_ok req d → heap w p = img_n d →
  finish (Some d) (Some p) w
  = defer (free (Pixels (img_data d)))
      (let* pix at w1 :=
         GoBytes (img_data d) (wrap_signed 32 (img_x d * img_y d * img_n d)) w in
       Done (Some (mkRGBA pix 4 (mkRectangle 0 0 (img_x d) (img_y d))), None) w1).
Proof.
  intros Hd Hp. pose proof (decoded_x_fits req d Hd). pose proof (decoded_y_fits req d Hd).
  unfold finish. rewrite Hp, (pix_count_wrapped req d Hd).
  by rewrite !to_int_int32, image_Rect_origin by lia.
Qed.

(** The image the epilogue returns is a value of [image.RGBA], and the
    world it leaves holds the cells it found. *)
Lemma finish_typed data ci w : typed w → typed (finish data ci w).
Proof.
  intros Hw. unfold finish. destruct data as [d|]; [|done]. destruct ci as [p|]; [|done].
  unfold GoBytes. repeat case_decide; [done| |done].
  split; [split; [|done]|done]. simpl.
  split; [|split; [by apply int32_ok_int_ok|apply image_Rect_typed; auto with go]].
  apply int32_ok_int_ok. pose proof (wrap_signed_int32_ok
    (int32_mul (img_y d) (img_x d) * C_int (heap w p))) as Hc.
  unfold int32_ok, int32_mul in *. simpl. rewrite length_take. lia.
Qed.

(** The world the epilogue leaves, when it returns and when it panics:
    the world it found, with the buffer released. *)
Lemma finish_state data ci w w' :
  state_of (finish data ci w) = Some w' →
  w' = match data with None => w | Some d => free (Pixels (img_data d)) w end.
Proof.
  unfold finish, GoBytes. destruct data as [d|], ci as [p|]; simpl;
    repeat case_decide; simpl; naive_solver.
Qed.

Lemma finish_live data ci w w' :
  state_of (finish data ci w) = Some w' →
  live w' = match data with
            | None => live w
            | Some d => remove1 (Pixels (img_data d)) (live w)
            end.
Proof. intros ->%finish_state. by destruct data. Qed.

Lemma finish_frame data ci w w' : state_of (finish data ci w) = Some w' → frame ci w w'.
Proof. intros ->%finish_state. destruct data; [apply frame_set_live|done]. Qed.

Lemma finish_image_inv data ci w m err w' :
  finish data ci w = Done (Some m, err) w' → ∃ d p, data = Some d ∧ ci = Some p.
Proof. destruct data as [d|], ci as [p|]; try done. by exists d, p. Qed.

End finish.

(** ** The loaders *)

Section loaders.
Context {a : Arch} {E : Engine} {L : EngineLaws}.
Implicit Types (b : list byte) (d : decoded) (w : World) (ci : option nat).

(** [LoadMemory] past its first line: the decoder's call on all of [b]
    and the epilogue. *)
Lemma LoadMemory_unfold b ci req w :
  b ≠ [] → Z.of_nat (length b) < 2 ^ 31 → - 2 ^ 31 ≤ req < 2 ^ 31 →
  LoadMemory b ci req w
  = match stbi_decode (flip w) b req with
    | inl msg => Done (None, Some (errors_New msg)) (set_reason msg w)
    | inr d => finish (Some d) ci (malloc (Pixels (img_data d)) (store ci (img_n d) w))
    end.
Proof.
  intros Hb Hl Hr. destruct b; [done|]. unfold LoadMemory, stbi_load_from_memory.
  rewrite take_len32, (C_int_small req) by (done || lia).
  by destruct (stbi_decode _ _ _).
Qed.

(** A decode with the pointer given and enough channels requested. *)
Lemma LoadMemory_decoded b p req w d :
  b ≠ [] → Z.of_nat (length b) < 2 ^ 31 → - 2 ^ 31 ≤ req < 2 ^ 31 →
  stbi_decode (flip w) b req = inr d → img_n d ≤ out_channels req (img_n d) →
  LoadMemory b (Some p) req w
  = Done (Some (image_of d), None) (store (Some p) (img_n d) w).
Proof.
  intros Hb Hl Hr Hd Hn. rewrite LoadMemory_unfold, Hd by done.
  rewrite (finish_image req), free_malloc;
    [done|by eapply stbi_decode_ok|simpl; apply fn_lookup_insert|done].
Qed.

Lemma LoadMemory_live b ci req w w' :
  state_of (LoadMemory b ci req w) = Some w' → live w' = live w.
Proof.
  unfold LoadMemory. destruct b; [by intros [= <-]|].
  pose proof (stbi_load_from_memory_live (b :: b0)
    (C_int (Z.of_nat (length (b :: b0)))) ci (C_int req) w) as Hl.
  destruct (stbi_load_from_memory _ _ _ _ _) as [[d|] w1]; intros ->%finish_live; [|done].
  by rewrite Hl, remove1_head.
Qed.

Lemma stbi_load_live path ci req w :
  match stbi_load path ci req w with
  | (None, w') => live w' = live w
  | (Some d, w') => live w' = Pixels (img_data d) :: live w
  end.
Proof. unfold stbi_load. destruct (fs w _); [apply stbi_load_from_memory_live|done]. Qed.

(** The image returned for a decode is laid out as [image.RGBA] requires
    only when it is one pixel wide and the file has four channels. *)
Lemma image_of_ok_iff req d :
  decoded_ok req d → img_n d ≤ out_channels req (img_n d) →
  RGBA_ok (image_of d) ↔ img_x d = 1 ∧ img_n d = 4.
Proof.
  intros Hd Hn. pose proof (decoded_area req d Hd). destruct Hd.
  unfold RGBA_ok, image_of, Dx, Dy. simpl. rewrite length_take. split.
  - intros [Hs Hp]. assert (img_x d = 1) as Hx by lia. rewrite Hx in *. nia.
  - intros [Hx Hc]. rewrite Hx, Hc in *. nia.
Qed.

(** With a nil [channelsInFile] no loader returns an image. *)
Lemma LoadReader_nil_no_image r req w : ¬ has_image (LoadReader r None req w).
Proof.
  assert (∀ data w1 f, ¬ has_image (defer f (finish data None w1))) as Hfin.
  { intros [d|] w1 f; simpl; tauto. }
  destruct r as [|f|R S r]; simpl; [tauto| |].
  - unfold LoadFile. destruct (fdopen _ _) as [[fp [e|]] w2]; [simpl; tauto|].
    destruct (stbi_load_from_file _ _ _ _) as [data w3].
    intros Hi. apply (Hfin data w3 (free (CStr "rb"))). exact Hi.
  - destruct (readAll r) as [[b [e|]] ?]; [simpl; tauto|].
    unfold LoadMemory. destruct b; [simpl; tauto|].
    destruct (stbi_load_from_memory _ _ _ _ _) as [[d|] w1]; simpl; tauto.
Qed.

(** A reader that is no file is read to its end first: a read error is
    returned as it is and the decoder is not called. *)
Lemma LoadReader_stream r ci req w :
  LoadReader (StreamReader r) ci req w
  = if decide (final r = io_EOF) then LoadMemory (pending r) ci req w
    else Done (None, Some (final r)) w.
Proof. simpl. by case_decide. Qed.

(** [Load] and [LoadFile] on their paths: a path that cannot be opened, a
    file that is closed, and a decode of the bytes found. *)
Lemma Load_missing path ci req w :
  fs w (c_str path) = None →
  Load path ci req w
  = Done (None, Some (errors_New "Unable to open file")) (set_reason "Unable to open file" w).
Proof.
  intros Hp. unfold Load, stbi_load. cbn [fs malloc set_live]. rewrite Hp.
  simpl. f_equal. world_eq w.
Qed.

Lemma stbi_load_from_memory_all bs comp req w :
  stbi_load_from_memory bs (Z.of_nat (length bs)) comp req w
  = match stbi_decode (flip w) bs req with
    | inl msg => (None, set_reason msg w)
    | inr d => (Some d, malloc (Pixels (img_data d)) (store comp (img_n d) w))
    end.
Proof. unfold stbi_load_from_memory. by rewrite Nat2Z.id, firstn_all. Qed.

Lemma Load_image path bs p req w d :
  fs w (c_str path) = Some bs → - 2 ^ 31 ≤ req < 2 ^ 31 →
  stbi_decode (flip w) bs req = inr d → img_n d ≤ out_channels req (img_n d) →
  Load path (Some p) req w = Done (Some (image_of d), None) (store (Some p) (img_n d) w).
Proof.
  intros Hp Hr Hd Hn. unfold Load, stbi_load. cbn [fs malloc set_live]. rewrite Hp.
  rewrite C_int_small, stbi_load_from_memory_all by done.
  change (flip (malloc (CStr path) w)) with (flip w). rewrite Hd.
  rewrite (finish_image req);
    [|by eapply stbi_decode_ok|simpl; apply fn_lookup_insert|done].
  simpl. f_equal. world_eq w.
Qed.

Lemma LoadFile_closed f ci req w :
  - 2 ^ 31 ≤ Fd f < 0 → LoadFile f ci req w = Done (None, Some EBADF) w.
Proof.
  intros Hf. unfold LoadFile, fdopen. rewrite C_int_small, decide_True by lia.
  simpl. f_equal. world_eq w.
Qed.

Lemma LoadFile_image f p req w d :
  0 ≤ Fd f < 2 ^ 31 → - 2 ^ 31 ≤ req < 2 ^ 31 →
  stbi_decode (flip w) (contents f) req = inr d → img_n d ≤ out_channels req (img_n d) →
  LoadFile f (Some p) req w
  = Done (Some (image_of d), None) (malloc (Stream (Fd f)) (store (Some p) (img_n d) w)).
Proof.
  intros Hf Hr Hd Hn. unfold LoadFile, fdopen, stbi_load_from_file.
  rewrite !C_int_small, decide_False, stbi_load_from_memory_all by lia.
  change (flip (malloc _ (malloc _ w))) with (flip w).
  rewrite Hd. rewrite (finish_image req);
    [|by eapply stbi_decode_ok|simpl; apply fn_lookup_insert|done].
  simpl. f_equal. world_eq w.
Qed.

(** The path string is released on the way out, whatever happens in
    between: [Load] is the C call followed by the epilogue. *)
Lemma Load_unfold path ci req w :
  Load path ci req w
  = let '(data, w2) := stbi_load path ci (C_int req) w in finish data ci w2.
Proof.
  unfold Load, stbi_load, stbi_load_from_memory. cbn [fs malloc set_live flip].
  destruct (fs w _) as [bs|]; [|simpl; f_equal; world_eq w].
  destruct (stbi_decode _ _ _) as [msg|d]; [simpl; f_equal; world_eq w|].
  destruct ci as [p|]; [|simpl; f_equal; world_eq w]. unfold finish.
  change (heap (malloc _ (store (Some p) ?v (set_live _ w))) p)
    with (heap (malloc (Pixels (img_data d)) (store (Some p) v w)) p).
  unfold GoBytes. repeat case_decide; simpl; [f_equal; world_eq w..|done].
Qed.

(** A decode with the pointer given, for any channel count requested. *)
Lemma LoadMemory_wrapped b p req w d :
  b ≠ [] → Z.of_nat (length b) < 2 ^ 31 → - 2 ^ 31 ≤ req < 2 ^ 31 →
  stbi_decode (flip w) b req = inr d →
  LoadMemory b (Some p) req w
  = let* pix at w1 :=
      GoBytes (img_data d) (wrap_signed 32 (img_x d * img_y d * img_n d))
        (store (Some p) (img_n d) w) in
    Done (Some (mkRGBA pix 4 (mkRectangle 0 0 (img_x d) (img_y d))), None) w1.
Proof.
  intros Hb Hl Hr Hd. rewrite LoadMemory_unfold, Hd by done.
  rewrite (finish_wrapped req) by (by eapply stbi_decode_ok || (simpl; apply fn_lookup_insert)).
  change (defer ?f ?o) with (on_state f o). by rewrite GoBytes_defer, free_malloc.
Qed.

(** ** What each loader leaves allocated, and what it leaves alone *)

Lemma Load_live path ci req w w' :
  state_of (Load path ci req w) = Some w' → live w' = live w.
Proof.
  rewrite Load_unfold. pose proof (stbi_load_live path ci (C_int req) w) as Hl.
  destruct (stbi_load _ _ _ _) as [data w2]. intros ->%finish_live.
  destruct data; by rewrite Hl, ?remove1_head.
Qed.

Lemma LoadFile_live f ci req w w' :
  state_of (LoadFile f ci req w) = Some w' → live w' = stream_of f ++ live w.
Proof.
  unfold LoadFile, fdopen, stream_of. rewrite state_of_defer. case_decide.
  { intros [= <-]. by rewrite live_free, live_malloc, remove1_head. }
  unfold stbi_load_from_file.
  pose proof (stbi_load_from_memory_live (contents f) (Z.of_nat (length (contents f))) ci
    (C_int req) (malloc (Stream (C_int (Fd f))) (malloc (CStr "rb") w))) as Hl.
  destruct (stbi_load_from_memory _ _ _ _ _) as [data w3].
  destruct (state_of (finish data ci w3)) as [w4|] eqn:Ef; [|done]. intros [= <-].
  apply finish_live in Ef. rewrite live_free, Ef.
  destruct data; by rewrite Hl, !live_malloc, ?remove1_head, remove1_next.
Qed.

Lemma LoadReader_live r ci req w w' :
  state_of (LoadReader r ci req w) = Some w' →
  live w' = opened (CallLoadReader r ci req) ++ live w.
Proof.
  destruct r as [|f|R S r]; simpl; [by intros [= <-]|apply LoadFile_live|].
  destruct (readAll r) as [[b [e|]] ?]; [by intros [= <-]|apply LoadMemory_live].
Qed.

Lemma LoadMemory_frame b ci req w w' :
  state_of (LoadMemory b ci req w) = Some w' → frame ci w w'.
Proof.
  unfold LoadMemory. destruct b as [|x b]; [by intros [= <-]|].
  pose proof (frame_stbi_load_from_memory (x :: b) (C_int (Z.of_nat (length (x :: b))))
    ci (C_int req) w) as Hf.
  destruct (stbi_load_from_memory _ _ _ _ _) as [data w1]. intros Ef%finish_frame.
  by etrans.
Qed.

Lemma LoadFile_frame f ci req w w' :
  state_of (LoadFile f ci req w) = Some w' → frame ci w w'.
Proof.
  unfold LoadFile, fdopen. rewrite state_of_defer. case_decide; [by intros [= <-]|].
  pose proof (frame_stbi_load_from_memory (contents f) (Z.of_nat (length (contents f)))
    ci (C_int req) (malloc (Stream (C_int (Fd f))) (malloc (CStr "rb") w))) as Hf.
  unfold stbi_load_from_file. destruct (stbi_load_from_memory _ _ _ _ _) as [data w3].
  destruct (state_of (finish data ci w3)) as [w4|] eqn:Ef; [|done]. intros [= <-].
  apply finish_frame in Ef. by do 3 (etrans; [|done || apply frame_set_live]).
Qed.

Lemma LoadReader_frame_lemma r ci req w w' :
  state_of (LoadReader r ci req w) = Some w' → frame ci w w'.
Proof.
  destruct r as [|f|R S r]; simpl; [by intros [= <-]|apply LoadFile_frame|].
  destruct (readAll r) as [[b [e|]] ?]; [by intros [= <-]|apply LoadMemory_frame].
Qed.

Lemma Load_frame path ci req w w' :
  state_of (Load path ci req w) = Some w' → frame ci w w'.
Proof.
  rewrite Load_unfold. unfold stbi_load. destruct (fs w _) as [bs|].
  - pose proof (frame_stbi_load_from_memory bs (Z.of_nat (length bs)) ci (C_int req) w).
    destruct (stbi_load_from_memory _ _ _ _ _) as [data w1]. intros Ef%finish_frame.
    by etrans.
  - intros Ef%finish_frame. etrans; [apply frame_set_reason|done].
Qed.

(** ** Every loader returns values of its types *)

Lemma defer_typed f (o : result) :
  (∀ w, typed w → typed (f w)) → typed o → typed (defer f o).
Proof. intros Hf. destruct o as [v w|p w| |]; [intros [??]; split; auto|apply Hf|done..]. Qed.

Lemma LoadMemory_typed b ci req w : typed w → typed (LoadMemory b ci req w).
Proof.
  intros Hw. unfold LoadMemory. destruct b as [|x b]; [done|].
  pose proof (stbi_load_from_memory_typed (x :: b) (C_int (Z.of_nat (length (x :: b))))
    ci (C_int req) w Hw) as Ht.
  destruct (stbi_load_from_memory _ _ _ _ _) as [data w1]. by apply finish_typed.
Qed.

Lemma Load_typed path ci req w : typed w → typed (Load path ci req w).
Proof.
  intros Hw. rewrite Load_unfold. unfold stbi_load. destruct (fs w _) as [bs|]; [|done].
  pose proof (stbi_load_from_memory_typed bs (Z.of_nat (length bs)) ci (C_int req) w Hw).
  destruct (stbi_load_from_memory _ _ _ _ _) as [data w1]. by apply finish_typed.
Qed.

Lemma LoadFile_typed f ci req w : typed w → typed (LoadFile f ci req w).
Proof.
  intros Hw. unfold LoadFile, fdopen, stbi_load_from_file.
  apply defer_typed; [by intros w1|]. case_decide; [done|].
  pose proof (stbi_load_from_memory_typed (contents f) (Z.of_nat (length (contents f))) ci
    (C_int req) (malloc (Stream (C_int (Fd f))) (malloc (CStr "rb") w)) Hw).
  destruct (stbi_load_from_memory _ _ _ _ _) as [data w1]. by apply finish_typed.
Qed.

Lemma LoadReader_typed r ci req w : typed w → typed (LoadReader r ci req w).
Proof.
  intros Hw. destruct r as [|f|R S r]; simpl; [done|by apply LoadFile_typed|].
  destruct (readAll r) as [[b [e|]] ?]; [done|by apply LoadMemory_typed].
Qed.

(** C17: a non-empty input the decoder accepts, with a pointer for
    the channel count and a requested count the file's channels fit in (0,
    or at least the file's), is returned as the first x * y * channels-in-file
    bytes of the decoder's buffer with stride 4 and the rectangle from the
    origin to (x, y); the file's channel count is stored behind the pointer
    and every C allocation of the call has been released. *)
Theorem LoadMemory_image b p req w d :
  b ≠ [] → Z.of_nat (length b) < 2 ^ 31 → - 2 ^ 31 ≤ req < 2 ^ 31 →
  stbi_decode (flip w) b req = inr d → img_n d ≤ out_channels req (img_n d) →
  LoadMemory b (Some p) req w
  = Done (Some (mkRGBA (take (Z.to_nat (img_x d * img_y d * img_n d)) (img_data d)) 4
                       (mkRectangle 0 0 (img_x d) (img_y d))), None)
         (store (Some p) (img_n d) w)
  ∧ live (store (Some p) (img_n d) w) = live w
  ∧ heap (store (Some p) (img_n d) w) p = img_n d.
Proof.
  intros. split; [by apply LoadMemory_decoded|]. split; [done|apply heap_store].
Qed.

(** C21: the byte count [y*x*C.int( *channelsInFile )] is computed on the
    32-bit [int] of C.  When the product of width, height and the file's
    channels reaches 2^31 (fewer channels were requested than the file
    has), it wraps by 2^32: a negative count makes [C.GoBytes] panic, with
    the channel count stored and the buffer released by the deferred call,
    and a count that wraps to a small one gives an image of that many
    bytes and no error. *)
Theorem LoadMemory_count_wraps b p req w d :
  b ≠ [] → Z.of_nat (length b) < 2 ^ 31 →
  stbi_decode (flip w) b req = inr d →
  2 ^ 31 ≤ img_x d * img_y d * img_n d →
  let n := img_x d * img_y d * img_n d - 2 ^ 32 in
  (n < 0 →
   LoadMemory b (Some p) req w
   = Panic (gobytes_length_out_of_range n) (store (Some p) (img_n d) w))
  ∧ (0 ≤ n ≤ img_x d * img_y d * req →
     LoadMemory b (Some p) req w
     = Done (Some (mkRGBA (take (Z.to_nat n) (img_data d)) 4
                          (mkRectangle 0 0 (img_x d) (img_y d))), None)
            (store (Some p) (img_n d) w)).
Proof.
  intros Hb Hl Hd Hz n. pose proof (stbi_decode_ok _ _ _ _ Hd) as Hok.
  pose proof (decoded_area req d Hok). pose proof (out_channels_range req d Hok).
  rewrite (LoadMemory_wrapped b p req w d) by (done || destruct Hok; lia).
  destruct Hok. split; intros Hn.
  - rewrite wrap_signed_above by (simpl; lia). by rewrite GoBytes_negative.
  - assert (out_channels req (img_n d) = req) as Ho by (unfold out_channels in *; case_decide; nia).
    rewrite Ho in *. rewrite wrap_signed_above by (simpl; lia).
    by rewrite GoBytes_take by lia.
Qed.

(** When the decoder refuses the input, [LoadMemory] returns no
    image and the decoder's failure reason as the error; the world changes
    in that reason only. *)
Theorem LoadMemory_failure b ci req w msg :
  b ≠ [] → Z.of_nat (length b) < 2 ^ 31 → - 2 ^ 31 ≤ req < 2 ^ 31 →
  stbi_decode (flip w) b req = inl msg →
  LoadMemory b ci req w = Done (None, Some (errors_New msg)) (set_reason msg w).
Proof. intros Hb Hl Hr Hd. by rewrite LoadMemory_unfold, Hd. Qed.

(** C20: when fewer channels are requested than the file has (and not
    0), the copy into [Pix] reads x * y * channels-in-file bytes from a
    buffer of x * y * requested bytes: a read outside the allocation. *)
Theorem LoadMemory_over_read b p req w d :
  b ≠ [] → Z.of_nat (length b) < 2 ^ 31 →
  stbi_decode (flip w) b req = inr d →
  req ≠ 0 → req < img_n d → img_x d * img_y d * img_n d < 2 ^ 31 →
  LoadMemory b (Some p) req w
  = Fault (read_out_of_bounds (img_x d * img_y d * img_n d) (img_x d * img_y d * req)).
Proof.
  intros Hb Hl Hd Hr Hn Hf. pose proof (stbi_decode_ok _ _ _ _ Hd) as Hok.
  rewrite LoadMemory_unfold, Hd by (done || destruct Hok; lia).
  rewrite (finish_over_read req); unfold out_channels; rewrite ?decide_False by done;
    [done..|simpl; apply fn_lookup_insert| |]; done.
Qed.

(** C19: an image [LoadMemory] returns is laid out as [image.RGBA]
    requires (a stride of four bytes for each pixel of a row, [Pix] holding
    every row) only when it is one pixel wide and the file has four
    channels. *)
Theorem LoadMemory_layout b p req w d m err w' :
  b ≠ [] → Z.of_nat (length b) < 2 ^ 31 → - 2 ^ 31 ≤ req < 2 ^ 31 →
  stbi_decode (flip w) b req = inr d → img_n d ≤ out_channels req (img_n d) →
  LoadMemory b (Some p) req w = Done (Some m, err) w' →
  RGBA_ok m ↔ img_x d = 1 ∧ img_n d = 4.
Proof.
  intros Hb Hl Hr Hd Hn. rewrite (LoadMemory_decoded _ _ _ _ d) by done. intros [= <- _ _].
  eapply image_of_ok_iff; [by eapply stbi_decode_ok|done].
Qed.

(** C18: every return of [LoadMemory].  When the call returns (it
    neither panics nor reads outside the buffer), one of two things has
    happened.  The decoder refused the input: there is no image, the error
    is the decoder's reason, and the world differs in that reason only.
    Or the decoder accepted it for the flip flag of the moment, the
    pointer for the channel count was not nil, and the image is the first
    [n] bytes of the decoder's buffer, [n] the 32-bit product of width,
    height and channels in the file, which lay within the buffer; the
    stride is 4, the rectangle runs from the origin to (x, y), there is no
    error, and the world differs in the channel count stored behind the
    pointer only: the buffer has been released. *)
Theorem LoadMemory_sound b ci req w m err w' :
  Z.of_nat (length b) < 2 ^ 31 → - 2 ^ 31 ≤ req < 2 ^ 31 →
  LoadMemory b ci req w = Done (m, err) w' →
  (∃ msg, stbi_decode (flip w) b req = inl msg
     ∧ m = None ∧ err = Some (errors_New msg) ∧ w' = set_reason msg w)
  ∨ (∃ d p n, stbi_decode (flip w) b req = inr d ∧ ci = Some p
       ∧ n = wrap_signed 32 (img_x d * img_y d * img_n d)
       ∧ 0 ≤ n ≤ Z.of_nat (length (img_data d))
       ∧ m = Some (mkRGBA (take (Z.to_nat n) (img_data d)) 4
                          (mkRectangle 0 0 (img_x d) (img_y d)))
       ∧ err = None ∧ w' = store (Some p) (img_n d) w).
Proof.
  intros Hl Hr. destruct (decide (b = [])) as [->|Hb]; [done|].
  destruct (stbi_decode (flip w) b req) as [msg|d] eqn:Hd.
  { rewrite LoadMemory_unfold, Hd by done. intros [= <- <- <-]. left. by exists msg. }
  destruct ci as [p|]; [|by rewrite LoadMemory_unfold, Hd by done].
  rewrite (LoadMemory_wrapped b p req w d) by done. unfold GoBytes.
  repeat case_decide; [done| |done]. intros [= <- <- <-]. right.
  eexists d, p, _. split_and!; (done || lia).
Qed.

(** [Load] leaves the C allocations as it found them on every path
    that returns or panics: the path string and the decoder's buffer are
    released. *)
Theorem Load_no_leak path ci req w w' :
  state_of (Load path ci req w) = Some w' → live w' = live w.
Proof. apply Load_live. Qed.

(** C22: [LoadFile] never closes the stream [fdopen] gives it: every
    call on an open file that returns or panics leaves one more open
    stream and nothing else; the mode string and the decoder's buffer are
    released by the deferred calls, also when the call panics. *)
Theorem LoadFile_leaks_stream f ci req w w' :
  0 ≤ Fd f < 2 ^ 31 → state_of (LoadFile f ci req w) = Some w' →
  live w' = Stream (Fd f) :: live w.
Proof.
  intros Hfd Hl%LoadFile_live. unfold stream_of in Hl.
  by rewrite C_int_small, decide_False in Hl by lia.
Qed.

(** What [LoadReader] leaves alone: on every path that returns or
    panics, for a file or any other reader, the flip flag and the files
    are as before, and so is every Go cell but the one [channelsInFile]
    points to. *)
Theorem LoadReader_frame r ci req w w' :
  state_of (LoadReader r ci req w) = Some w' → frame ci w w'.
Proof. apply LoadReader_frame_lemma. Qed.

(** The flag [SetFlipVerticallyOnLoad] sets is the one the next
    decode runs with, whatever was set before: the image returned is the
    decoder's for that flag. *)
Theorem SetFlip_reaches_decoder flag0 flag b p req w d :
  b ≠ [] → Z.of_nat (length b) < 2 ^ 31 → - 2 ^ 31 ≤ req < 2 ^ 31 →
  stbi_decode flag b req = inr d → img_n d ≤ out_channels req (img_n d) →
  LoadMemory b (Some p) req (SetFlipVerticallyOnLoad flag (SetFlipVerticallyOnLoad flag0 w))
  = Done (Some (image_of d), None) (store (Some p) (img_n d) (set_flip flag w)).
Proof.
  intros Hb Hl Hr Hd Hn.
  replace (SetFlipVerticallyOnLoad flag (SetFlipVerticallyOnLoad flag0 w))
    with (set_flip flag w) by (by destruct flag, flag0).
  by apply LoadMemory_decoded.
Qed.

(** ** Programs *)

(** What one call leaves, when it returns and when it panics. *)
Lemma exec_live c w w' : state_of (exec c w) = Some w' → live w' = opened c ++ live w.
Proof.
  destruct c; simpl;
    [apply Load_live|apply LoadFile_live|apply LoadMemory_live|apply LoadReader_live|].
  by intros [= <-].
Qed.

Lemma exec_flip c w w' : state_of (exec c w) = Some w' → flip w' = flipped (flip w) c.
Proof.
  destruct c; simpl;
    [intros [? _]%Load_frame|intros [? _]%LoadFile_frame|intros [? _]%LoadMemory_frame|
     intros [? _]%LoadReader_frame_lemma|intros [= <-]]; try done.
  by destruct flag.
Qed.

Lemma exec_cells c w w' :
  state_of (exec c w) = Some w' →
  fs w' = fs w ∧ ∀ q, pointer c ≠ Some q → heap w' q = heap w q.
Proof.
  destruct c; simpl;
    [intros (_ & ? & ?)%Load_frame|intros (_ & ? & ?)%LoadFile_frame|
     intros (_ & ? & ?)%LoadMemory_frame|intros (_ & ? & ?)%LoadReader_frame_lemma|
     intros [= <-]]; done.
Qed.

Lemma run_cons_inv c cs w vs w' :
  run (c :: cs) w = Done vs w' →
  ∃ v w1 vs', exec c w = Done v w1 ∧ run cs w1 = Done vs' w' ∧ vs = v :: vs'.
Proof.
  cbn [run]. destruct (exec c w) as [v w1| | |] eqn:He; [|done..].
  simpl. destruct (run cs w1) as [vs' w2| | |] eqn:Hr; [|done..]. intros [= <- <-].
  by exists v, w1, vs'.
Qed.

Lemma made_returned cs w vs w' :
  run cs w = Done vs w' → made cs w = cs ∧ length vs = length cs.
Proof.
  revert w vs. induction cs as [|c cs IH]; intros w vs; [by intros [= <- _]|].
  intros (v & w1 & vs' & He & [Hm Hn]%IH & ->)%run_cons_inv.
  cbn [made]. rewrite He, Hm. simpl. by rewrite Hn.
Qed.

Lemma leaves_nil w : leaves [] w w.
Proof. by split_and!. Qed.

Lemma leaves_cons c l w w1 w' :
  state_of (exec c w) = Some w1 → leaves l w1 w' → leaves (c :: l) w w'.
Proof.
  intros He (Hl & Hf & Hs & Hh). destruct (exec_cells c w w1 He) as [Hs1 Hh1].
  unfold leaves. rewrite Hl, Hf, Hs, (exec_live c w w1 He), (exec_flip c w w1 He).
  rewrite fmap_cons, reverse_cons, concat_app. simpl.
  rewrite app_nil_r, <- app_assoc. split_and!; try done.
  intros q [Hc Hcs]%Forall_cons. by rewrite Hh, Hh1.
Qed.

Lemma run_leaves cs w w' : state_of (run cs w) = Some w' → leaves (made cs w) w w'.
Proof.
  revert w. induction cs as [|c cs IH]; intros w; [intros [= <-]; apply leaves_nil|].
  cbn [run made]. destruct (exec c w) as [v w1|p w1| |] eqn:He; simpl; [| |done..].
  - destruct (run cs w1) as [vs w2|p w2| |] eqn:Hr; simpl; [| |done..]; intros [= <-];
      (eapply leaves_cons; [by rewrite He|apply IH; by rewrite Hr]).
  - intros [= <-]. eapply leaves_cons; [by rewrite He|apply leaves_nil].
Qed.

(** C23: what a program leaves behind, when it returns and when one of
    its calls panics.  The calls made are all of them when the program
    returns, and those up to the panicking one otherwise.  After them the
    C allocations are those of the start and, before them, one stream for
    every call of [LoadFile] (direct, or through [LoadReader] on a file)
    on an open descriptor, the latest first: nothing else is leaked, not
    even by a call that panics, and nothing of the caller's is released.
    The flip flag is the one the last call of [SetFlipVerticallyOnLoad]
    set, the files are those of the start, a Go cell no call was given a
    pointer to holds what it held, and a program that returns has made
    every call and has a result for each. *)
Theorem program_leaks_streams cs w w' :
  state_of (run cs w) = Some w' →
  live w' = concat (reverse (opened <$> made cs w)) ++ live w
  ∧ flip w' = foldl flipped (flip w) (made cs w)
  ∧ fs w' = fs w
  ∧ (∀ q, Forall (λ c, pointer c ≠ Some q) (made cs w) → heap w' q = heap w q)
  ∧ (∀ vs, run cs w = Done vs w' → made cs w = cs ∧ length vs = length cs).
Proof.
  intros (Hl & Hf & Hs & Hh)%run_leaves. split_and!; try done.
  intros vs. apply made_returned.
Qed.

End loaders.

(** ** The theorems at a concrete decoder

    A decoder of raw images for the examples: width, height and channel
    count in the first three bytes, then the samples; the buffer is cut or
    padded to the channels requested and reversed when the flip flag is
    set.  It satisfies [EngineLaws]. *)
Definition raw_decode (flip : bool) (bs : list byte) (req : Z) : string + decoded :=
  match bs with
  | x :: y :: n :: px =>
    if decide (0 < byte_to_Z x ∧ 0 < byte_to_Z y ∧ 1 ≤ byte_to_Z n ≤ 4 ∧ 0 ≤ req ≤ 4
               ∧ Z.of_nat (length px) = byte_to_Z x * byte_to_Z y * byte_to_Z n)
    then inr (mkDecoded (byte_to_Z x) (byte_to_Z y) (byte_to_Z n)
                (resize (Z.to_nat (byte_to_Z x * byte_to_Z y * out_channels req (byte_to_Z n)))
                        Byte.x00 (if flip then reverse px else px)))
    else inl "corrupt raw image"
  | _ => inl "unknown image type"
  end.

Definition raw_engine : Engine := {| stbi_decode := raw_decode |}.

Lemma raw_laws : @EngineLaws raw_engine.
Proof.
  split. intros fl bs req d. simpl. unfold raw_decode.
  destruct bs as [|x [|y [|n px]]]; try done. case_decide as Hc; [|done].
  intros [= <-]. destruct Hc as (? & ? & ? & ? & ?).
  pose proof (byte_to_Z_range x). pose proof (byte_to_Z_range y).
  assert (1 ≤ out_channels req (byte_to_Z n) ≤ 4) by (unfold out_channels; case_decide; lia).
  assert (0 < byte_to_Z x * byte_to_Z y ≤ 255 * 255) by nia.
  assert (0 < byte_to_Z x * byte_to_Z y * out_channels req (byte_to_Z n) ≤ 255 * 255 * 4) by nia.
  split; simpl; rewrite ?length_resize; lia.
Qed.

(** A decoder that announces 32768 by 16384 pixels of four channels for
    every input and hands back the one channel it is asked for: the
    smallest image whose byte count wraps. *)
Definition big_image : decoded :=
  mkDecoded 32768 16384 4 (replicate (Z.to_nat (2 ^ 29)) Byte.x00).

Definition big_engine : Engine :=
  {| stbi_decode := λ _ _ req, if decide (req = 1) then inr big_image else inl "unsupported" |}.

Lemma big_laws : @EngineLaws big_engine.
Proof.
  split. intros fl bs req d. cbn [stbi_decode big_engine]. case_decide as Hr; [|done].
  intros [= <-]. subst req.
  split; unfold big_image; cbn [img_x img_y img_n img_data];
    rewrite ?length_replicate, ?Z2Nat.id by lia; unfold out_channels;
    rewrite ?decide_False by lia; lia.
Qed.

(** A world with nothing allocated, and a 2 by 1 image of four channels. *)
Definition w0 : World := mkWorld false "" [] (λ _, 0) (λ _, None).
Definition raw_2x1 : list byte := bytes_of [2; 1; 4; 10; 20; 30; 40; 50; 60; 70; 80].
Definition raw_rgb : list byte := bytes_of [1; 2; 3; 10; 20; 30; 40; 50; 60].

Lemma LoadMemory_image_witness :
  let d := mkDecoded 2 1 4 (bytes_of [10; 20; 30; 40; 50; 60; 70; 80]) in
  LoadMemory (a:=Arch64) (E:=raw_engine) raw_2x1 (Some 0%nat) 4 w0
  = Done (Some (mkRGBA (take (Z.to_nat (img_x d * img_y d * img_n d)) (img_data d)) 4
                       (mkRectangle 0 0 (img_x d) (img_y d))), None)
         (store (Some 0%nat) (img_n d) w0)
  ∧ live (store (Some 0%nat) (img_n d) w0) = live w0
  ∧ heap (store (Some 0%nat) (img_n d) w0) 0%nat = img_n d.
Proof.
  apply (LoadMemory_image (L:=raw_laws) raw_2x1 0%nat 4 w0); (by_decide || by vm_compute).
Defined.

Lemma LoadMemory_failure_witness :
  LoadMemory (a:=Arch64) (E:=raw_engine) (bytes_of [0x42; 0x4d]) None 4 w0
  = Done (None, Some (errors_New "unknown image type")) (set_reason "unknown image type" w0).
Proof. apply (LoadMemory_failure (E:=raw_engine)); (by_decide || by vm_compute). Defined.

Lemma LoadMemory_sound_witness :
  let m := mkRGBA (bytes_of [10; 20; 30; 40; 50; 60; 70; 80]) 4 (mkRectangle 0 0 2 1) in
  (∃ msg, stbi_decode (Engine:=raw_engine) (flip w0) raw_2x1 4 = inl msg
     ∧ Some m = None ∧ None = Some (errors_New msg) ∧ store (Some 0%nat) 4 w0 = set_reason msg w0)
  ∨ (∃ d p n, stbi_decode (Engine:=raw_engine) (flip w0) raw_2x1 4 = inr d ∧ Some 0%nat = Some p
       ∧ n = wrap_signed 32 (img_x d * img_y d * img_n d)
       ∧ 0 ≤ n ≤ Z.of_nat (length (img_data d))
       ∧ Some m = Some (mkRGBA (take (Z.to_nat n) (img_data d)) 4
                               (mkRectangle 0 0 (img_x d) (img_y d)))
       ∧ @None error = None ∧ store (Some 0%nat) 4 w0 = store (Some p) (img_n d) w0).
Proof.
  apply (LoadMemory_sound (a:=Arch64) (L:=raw_laws) raw_2x1 (Some 0%nat) 4 w0);
    (by_decide || by vm_compute).
Defined.

Lemma LoadMemory_over_read_witness :
  let d := mkDecoded 1 2 3 (bytes_of [10; 20]) in
  LoadMemory (a:=Arch64) (E:=raw_engine) raw_rgb (Some 0%nat) 1 w0
  = Fault (read_out_of_bounds (img_x d * img_y d * img_n d) (img_x d * img_y d * 1)).
Proof.
  apply (LoadMemory_over_read (L:=raw_laws) raw_rgb 0%nat 1 w0); (by_decide || by vm_compute).
Defined.

Lemma LoadMemory_layout_witness :
  let d := mkDecoded 2 1 4 (bytes_of [10; 20; 30; 40; 50; 60; 70; 80]) in
  RGBA_ok (mkRGBA (img_data d) 4 (mkRectangle 0 0 2 1)) ↔ img_x d = 1 ∧ img_n d = 4.
Proof.
  apply (LoadMemory_layout (a:=Arch64) (L:=raw_laws) raw_2x1 0%nat 4 w0 _ _ None
           (store (Some 0%nat) 4 w0)); (by_decide || by vm_compute).
Defined.

(** A session: the flag set, a file decoded, a path that is not there, a
    second file through [LoadReader] with a nil pointer, which panics; the
    last call is not made. *)
Definition session : list call :=
  [CallSetFlip true; CallLoadFile (mkFile 3 raw_2x1) (Some 0%nat) 4;
   CallLoad "missing.bmp" None 4;
   CallLoadReader (FileReader (mkFile 5 raw_rgb)) None 0;
   CallSetFlip false].

Lemma program_leaks_streams_witness :
  ∃ w', run (a:=Arch64) (E:=raw_engine) session w0 = Panic nil_pointer_dereference w'
    ∧ live w' = [Stream 5; Stream 3]
    ∧ flip w' = true
    ∧ fs w' = fs w0
    ∧ (∀ q, Forall (λ c, pointer c ≠ Some q) (take 4 session) → heap w' q = heap w0 q)
    ∧ (∀ vs, run (a:=Arch64) (E:=raw_engine) session w0 = Done vs w'
         → take 4 session = session ∧ length vs = length session).
Proof.
  eexists. split; [by vm_compute|].
  apply (program_leaks_streams (a:=Arch64) (E:=raw_engine) session w0). by vm_compute.
Defined.

Lemma LoadMemory_count_wraps_witness :
  LoadMemory (a:=Arch64) (E:=big_engine) [Byte.x00] (Some 0%nat) 1 w0
  = Panic (gobytes_length_out_of_range (- 2 ^ 31)) (store (Some 0%nat) (img_n big_image) w0).
Proof.
  apply (LoadMemory_count_wraps (L:=big_laws) [Byte.x00] 0%nat 1 w0 big_image);
    try done; lia.
Defined.

Lemma Load_no_leak_witness :
  live (set_reason "Unable to open file" w0) = live w0.
Proof.
  apply (Load_no_leak (a:=Arch64) (E:=raw_engine) "missing.bmp" None 4 w0).
  by vm_compute.
Defined.

Lemma LoadFile_leaks_stream_witness :
  ∃ w', LoadFile (a:=Arch64) (E:=raw_engine) (mkFile 3 raw_2x1) None 4 w0
        = Panic nil_pointer_dereference w'
    ∧ live w' = Stream 3 :: live w0.
Proof.
  eexists. split; [by vm_compute|].
  apply (LoadFile_leaks_stream (a:=Arch64) (E:=raw_engine) (mkFile 3 raw_2x1) None 4 w0);
    [by_decide|by vm_compute].
Defined.

Lemma LoadReader_frame_witness :
  frame (Some 0%nat) w0 (store (Some 0%nat) 4 w0).
Proof.
  apply (LoadReader_frame (a:=Arch64) (E:=raw_engine) (StreamReader (NewReader raw_2x1))
           (Some 0%nat) 4 w0).
  by vm_compute.
Defined.

Lemma SetFlip_reaches_decoder_witness :
  let d := mkDecoded 2 1 4 (bytes_of [80; 70; 60; 50; 40; 30; 20; 10]) in
  LoadMemory (a:=Arch64) (E:=raw_engine) raw_2x1 (Some 0%nat) 4
    (SetFlipVerticallyOnLoad true (SetFlipVerticallyOnLoad false w0))
  = Done (Some (image_of d), None) (store (Some 0%nat) (img_n d) (set_flip true w0)).
Proof.
  apply (SetFlip_reaches_decoder (L:=raw_laws) false true raw_2x1 0%nat 4 w0);
    (by_decide || by vm_compute).
Defined.

End Stbi.
