(* ===== verification/Registry.v ===== *)
(** * Registry: the format table behind [image.Decode] and [image.DecodeConfig]

    The codecs of the repository register themselves with Go's [image]
    package.  Module [Registry] models that table as the specification
    describes it: entries in registration order, [Sniff] comparing the
    leading bytes of the stream with each entry's magic prefix without
    consuming them, the first match winning, and [Decode] and
    [DecodeConfig] delegating to the entry found.  [sniff] is the loop over
    the entries; [list_find] is its reference.  A table of typed entries
    ([format_typed]) gives typed answers. *)

From S2P Require Import Prelude Ints GoIO GoImage Stbi.

Module Registry.
Import Stbi.

(** An entry: name, magic prefix, full decoder, header parser. *)
Record format : Type := mkFormat {
  name : string;
  magic : list byte;
  decode : io_Reader → World → result;
  decodeConfig : Reader → outcome Reader (Config * option error);
}.

(** The table, in registration order. *)
Definition formats : Type := list format.

(** [image.RegisterFormat(name, magic, decode, decodeConfig)] *)
Definition RegisterFormat (name : string) (magic : list byte)
    (decode : io_Reader → World → result)
    (decodeConfig : Reader → outcome Reader (Config * option error))
    (fs : formats) : formats :=
  fs ++ [mkFormat name magic decode decodeConfig].

Definition ErrUnrecognizedFormat : error := errors_New "image: unknown format".
Definition ErrTruncatedInput : error := errors_New "image: truncated input".

(** The leading bytes of the stream are the entry's magic. *)
Definition matches (f : format) (r : Reader) : Prop :=
  Peek (length (magic f)) r = (magic f, None).

#[export] Instance matches_dec f r : Decision (matches f r).
Proof. unfold matches. apply _. Defined.

(** The loop over the entries: the first that matches. *)
Fixpoint sniff (fs : formats) (r : Reader) : option format :=
  match fs with
  | [] => None
  | f :: fs' => if decide (matches f r) then Some f else sniff fs' r
  end.

(** The stream is too short to be compared with any entry. *)
Definition too_short (fs : formats) (r : Reader) : Prop :=
  (0 < length fs)%nat ∧ Forall (λ f, (length (pending r) < length (magic f))%nat) fs.

#[export] Instance too_short_dec fs r : Decision (too_short fs r).
Proof. unfold too_short. apply _. Defined.

(** [Sniff]: the entry found, or why none was. *)
Definition Sniff (fs : formats) (r : Reader) : format + error :=
  match sniff fs r with
  | Some f => inl f
  | None => inr (if decide (too_short fs r) then ErrTruncatedInput else ErrUnrecognizedFormat)
  end.

(** [image.DecodeConfig]: the header parser of the entry found, on the
    stream from its start. *)
Definition DecodeConfig (fs : formats) (r : Reader) : outcome Reader (Config * option error) :=
  match Sniff fs r with
  | inl f => decodeConfig f r
  | inr e => Done (mkConfig nilModel 0 0, Some e) r
  end.

(** [image.Decode]: the full decoder of the entry found.  It is handed the
    peeking reader, never the caller's file. *)
Definition Decode (fs : formats) (r : Reader) (w : World) : result :=
  match Sniff fs r with
  | inl f => decode f (StreamReader r) w
  | inr e => Done (None, Some e) w
  end.

(** ** Specification side *)

(** No stream matches two different entries of the table. *)
Definition exclusive (fs : formats) : Prop :=
  ∀ f g r, f ∈ fs → g ∈ fs → matches f r → matches g r → f = g.

(** Entries whose magic prefixes have the same length and differ. *)
Definition apart (f g : format) : Prop :=
  length (magic f) = length (magic g) ∧ magic f ≠ magic g.

(** An entry whose functions return values of their Go types. *)
Definition format_typed {a : Arch} (f : format) : Prop :=
  (∀ r, typed (decodeConfig f r)) ∧ (∀ r w, typed w → typed (decode f r w)).

(** ** Matching *)

Lemma matches_prefix f r : matches f r ↔ magic f `prefix_of` pending r.
Proof.
  unfold matches. split.
  - intros (_ & rest & ->)%Peek_ok_inv. by exists rest.
  - intros [rest Hp]. destruct r as [bs e]. simpl in Hp. subst bs. apply Peek_app.
Qed.

Lemma apart_not_both f g r : apart f g → matches f r → ¬ matches g r.
Proof.
  intros [Hl Hn] [k1 H1]%matches_prefix [k2 H2]%matches_prefix.
  rewrite H1 in H2. by apply app_inj_1 in H2 as [? _].
Qed.

(** ** The loop and its reference *)

Lemma sniff_find fs r : sniff fs r = snd <$> list_find (λ f, matches f r) fs.
Proof.
  induction fs as [|f fs IH]; [done|]. csimpl. case_decide; [done|].
  rewrite IH. by destruct (list_find _ fs) as [[??]|].
Qed.

Lemma sniff_None fs r : sniff fs r = None ↔ Forall (λ f, ¬ matches f r) fs.
Proof.
  induction fs as [|f fs IH]; simpl; [by split|]. rewrite Forall_cons.
  case_decide; [|by rewrite IH; naive_solver]. by split; [|intros []].
Qed.

Lemma sniff_Some_elem fs r f : sniff fs r = Some f → f ∈ fs ∧ matches f r.
Proof.
  rewrite sniff_find. destruct (list_find _ fs) as [[i g]|] eqn:Ef; [|done].
  intros [= ->]. apply list_find_Some in Ef as (?%list_elem_of_lookup_2 & ? & _). done.
Qed.

Lemma sniff_app fs1 fs2 r :
  sniff (fs1 ++ fs2) r = match sniff fs1 r with Some f => Some f | None => sniff fs2 r end.
Proof. induction fs1 as [|f fs1 IH]; [done|]. simpl. by case_decide. Qed.

Lemma sniff_elem fs r f : f ∈ fs → matches f r → is_Some (sniff fs r).
Proof.
  intros Hf Hm. destruct (sniff fs r) eqn:Es; [done|].
  apply sniff_None in Es. rewrite Forall_forall in Es. by destruct (Es f Hf).
Qed.

(** The loop returns the first entry that matches, in registration
    order. *)
Lemma sniff_first_match fs r f :
  sniff fs r = Some f ↔
  ∃ fs1 fs2, fs = fs1 ++ f :: fs2 ∧ matches f r ∧ Forall (λ g, ¬ matches g r) fs1.
Proof.
  split.
  - induction fs as [|g fs IH]; [done|]. simpl. case_decide.
    + intros [= ->]. by exists [], fs.
    + intros (fs1 & fs2 & -> & ? & ?)%IH. exists (g :: fs1), fs2. by repeat constructor.
  - intros (fs1 & fs2 & -> & Hm & Hn). rewrite sniff_app.
    apply sniff_None in Hn as ->. simpl. by rewrite decide_True.
Qed.

(** ** Registration order *)

#[export] Instance too_short_Permutation : Proper ((≡ₚ) ==> (=) ==> iff) too_short.
Proof. intros fs fs' Hp r ? <-. unfold too_short. by rewrite Hp. Qed.

#[export] Instance exclusive_Permutation : Proper ((≡ₚ) ==> iff) exclusive.
Proof.
  assert (∀ fs fs', fs ≡ₚ fs' → exclusive fs → exclusive fs') as Hx.
  { intros fs fs' Hp Hx f g r Hf Hg. rewrite <- Hp in Hf, Hg. by apply Hx. }
  intros fs fs' Hp. split; apply Hx; by rewrite Hp.
Qed.

Lemma exclusive_apart fs :
  (∀ f g, f ∈ fs → g ∈ fs → f = g ∨ apart f g) → exclusive fs.
Proof.
  intros Ha f g r Hf Hg Hmf Hmg. destruct (Ha f g Hf Hg) as [|Hfg]; [done|].
  by destruct (apart_not_both f g r).
Qed.

Lemma sniff_exclusive fs fs' r : exclusive fs → fs ≡ₚ fs' → sniff fs r = sniff fs' r.
Proof.
  intros Hx Hp. destruct (sniff fs r) as [f|] eqn:Ef.
  - apply sniff_Some_elem in Ef as [Hf Hm].
    assert (f ∈ fs') as Hf' by (by rewrite <- Hp).
    destruct (sniff_elem fs' r f Hf' Hm) as [g Eg]. rewrite Eg.
    apply sniff_Some_elem in Eg as [Hg Hmg]. rewrite <- Hp in Hg.
    f_equal. by apply (Hx f g r).
  - symmetry. apply sniff_None. rewrite <- Hp. by apply sniff_None.
Qed.

(** An entry registered behind one whose magic is a prefix of its own is
    never found. *)
Lemma sniff_shadowed fs1 f fs2 r :
  Forall (λ g, magic f `prefix_of` magic g) fs2 →
  sniff (fs1 ++ f :: fs2) r = sniff (fs1 ++ [f]) r.
Proof.
  intros Hs. rewrite !sniff_app. destruct (sniff fs1 r); [done|]. simpl.
  case_decide as Hm; [done|]. apply sniff_None. eapply Forall_impl; [exact Hs|].
  intros g Hfg Hg. apply Hm, matches_prefix. etrans; [exact Hfg|]. by apply matches_prefix.
Qed.

(** In a table in which no stream matches two entries, the order of
    registration does not matter. *)
Lemma Sniff_exclusive fs fs' r : exclusive fs → fs ≡ₚ fs' → Sniff fs r = Sniff fs' r.
Proof.
  intros Hx Hp. unfold Sniff. rewrite (sniff_exclusive fs fs') by done.
  destruct (sniff fs' r); [done|]. f_equal. apply decide_ext. by rewrite Hp.
Qed.

Lemma DecodeConfig_exclusive fs fs' r :
  exclusive fs → fs ≡ₚ fs' → DecodeConfig fs r = DecodeConfig fs' r.
Proof. intros. unfold DecodeConfig. by rewrite (Sniff_exclusive fs fs'). Qed.

Lemma Decode_exclusive fs fs' r w :
  exclusive fs → fs ≡ₚ fs' → Decode fs r w = Decode fs' r w.
Proof. intros. unfold Decode. by rewrite (Sniff_exclusive fs fs'). Qed.

(** ** Typed tables

    The registry adds nothing of its own to what the entries return but
    the zero configuration. *)
Section typed.
Context {a : Arch}.

Lemma Sniff_elem fs r f : Sniff fs r = inl f → f ∈ fs.
Proof.
  unfold Sniff. destruct (sniff fs r) as [g|] eqn:Es; [|done].
  intros [= <-]. by apply sniff_Some_elem in Es as [? _].
Qed.

Lemma registry_DecodeConfig_typed fs r :
  Forall format_typed fs → typed (DecodeConfig fs r).
Proof.
  intros Hfs. unfold DecodeConfig. destruct (Sniff fs r) as [f|e] eqn:Es.
  - apply Sniff_elem in Es. rewrite Forall_forall in Hfs. by apply Hfs.
  - repeat split; apply int_ok_0.
Qed.

Lemma registry_Decode_typed fs r w :
  Forall format_typed fs → typed w → typed (Decode fs r w).
Proof.
  intros Hfs Hw. unfold Decode. destruct (Sniff fs r) as [f|e] eqn:Es; [|done].
  apply Sniff_elem in Es. rewrite Forall_forall in Hfs. by apply Hfs.
Qed.

End typed.

(** Tables of magic prefixes of two bytes: what [Sniff] answers when no
    entry matches. *)
Lemma too_short_2 fs r :
  (0 < length fs)%nat → Forall (λ f, length (magic f) = 2%nat) fs →
  too_short fs r ↔ (length (pending r) < 2)%nat.
Proof.
  intros Hn Hl. unfold too_short. split.
  - intros [_ Hs]. destruct fs as [|f fs]; [simpl in Hn; lia|].
    apply Forall_cons in Hs as [Hf _]. apply Forall_cons in Hl as [Hl _]. lia.
  - intros Hr. split; [done|]. eapply Forall_impl; [exact Hl|]. simpl. lia.
Qed.

End Registry.
