(* ===== verification/BmpConfig.v ===== *)
(** * BmpConfig: [DecodeConfig] of [src/bmp/bmp.go]

    Module [Bmp] models the BMP header parser: the 18-byte [bmpHeader], the
    two layouts of the dimension block ([dimCore]: two uint16 for the
    12-byte DIB header; [dimInfo]: two int32 for the 40-, 56-, 108- and
    124-byte DIB headers), [DecodeConfig] with the source's branches in
    the source's order, on a reader of any [Stream] type, [Decode] as the
    call of [stbi.LoadReader] it is, and [init].  The theorems give the
    result of [DecodeConfig] on every branch, the round trip with the
    header encoder, the sign and the range of the returned dimensions at
    both widths of [int], the bytes it consumes, its independence of the
    reader's type, and the result of [Decode] on every stream. *)

From S2P Require Import Prelude Ints GoIO GoImage Stbi Registry.

Module Bmp.

(** [const Header = "BM"] *)
Definition Header : list byte := [Byte.x42; Byte.x4d].

(** [var ErrInvalid = errors.New("Invalid BMP")] *)
Definition ErrInvalid : error := errors_New "Invalid BMP".

(** [type bmpHeader struct] *)
Record bmpHeader : Type := mkHeader {
  Magic : byte_array 2;
  FileSize : Z;
  Reserved1 : Z;
  Reserved2 : Z;
  DataOffset : Z;
  DIBSize : Z;
}.

(** [binary.Read(r, binary.LittleEndian, &h)]: the fields in declaration
    order, without padding. *)
#[export] Instance bmpHeader_Binary : Binary bmpHeader := {|
  zero := mkHeader (replicate 2 Byte.x00) 0 0 0 0 0;
  dataSize := 18;
  decode := λ o bs,
    mkHeader (take 2 bs) (uint_at o 2 4 bs) (uint_at o 6 2 bs)
             (uint_at o 8 2 bs) (uint_at o 10 4 bs) (uint_at o 14 4 bs);
|}.

(** [var dim struct{ X, Y uint16 }] *)
Record dimCore : Type := mkDimCore { coreX : Z; coreY : Z }.

#[export] Instance dimCore_Binary : Binary dimCore := {|
  zero := mkDimCore 0 0;
  dataSize := 4;
  decode := λ o bs, mkDimCore (uint_at o 0 2 bs) (uint_at o 2 2 bs);
|}.

(** [var dim struct{ X, Y int32 }] *)
Record dimInfo : Type := mkDimInfo { infoX : Z; infoY : Z }.

#[export] Instance dimInfo_Binary : Binary dimInfo := {|
  zero := mkDimInfo 0 0;
  dataSize := 8;
  decode := λ o bs, mkDimInfo (int_at o 0 4 bs) (int_at o 4 4 bs);
|}.

(** [case 40, 56, 108, 124]: the DIB headers whose dimensions are two
    int32. *)
Definition info_sizes : list Z := [40; 56; 108; 124].

(** The [switch h.DIBSize]: the dimension block is read and the
    dimensions are assigned whether or not the read failed. *)
Definition read_dims {a : Arch} {R} `{Stream R} (h : bmpHeader) (cfg : Config) (r : R)
    : (Config * option error) * R :=
  if decide (DIBSize h = 12) then
    let '(dim, err, r') := binary_Read LittleEndian (zero : dimCore) r in
    (set_size cfg (to_int (coreX dim)) (to_int (coreY dim)), err, r')
  else if decide (DIBSize h ∈ info_sizes) then
    let '(dim, err, r') := binary_Read LittleEndian (zero : dimInfo) r in
    (set_size cfg (to_int (infoX dim)) (to_int (infoY dim)), err, r')
  else
    (cfg, Some ErrInvalid, r).

(** [if cfg.Height < 0 { cfg.Height = -cfg.Height }] *)
Definition magnitude {a : Arch} (cfg : Config) : Config :=
  if decide (Height cfg < 0) then set_Height cfg (int_neg (Height cfg)) else cfg.

(** [cfg := image.Config{ColorModel: color.RGBAModel}] *)
Definition cfg0 : Config := mkConfig RGBAModel 0 0.

(** [func DecodeConfig(r io.Reader) (image.Config, error)] *)
Definition DecodeConfig {a : Arch} {R} `{Stream R} (r : R)
    : outcome R (Config * option error) :=
  let '(h, err, r1) := binary_Read LittleEndian (zero : bmpHeader) r in
  match err with
  | Some e => Done (cfg0, Some e) r1
  | None =>
    if decide (Magic h ≠ Header) then Done (cfg0, Some ErrInvalid) r1
    else
      let '(cfg', err', r2) := read_dims h cfg0 r1 in
      Done (magnitude cfg', err') r2
  end.

(** [func Decode(r io.Reader) (image.Image, error)] *)
Definition Decode {a : Arch} {E : Stbi.Engine} (r : Stbi.io_Reader) (w : Stbi.World)
    : Stbi.result :=
  Stbi.LoadReader r None 4 w.

(** [func init()] *)
Definition init {a : Arch} {E : Stbi.Engine} (fs : Registry.formats) : Registry.formats :=
  Registry.RegisterFormat "bmp" Header Decode DecodeConfig fs.

(** From here to the section on other readers, [r] is a [Reader]. *)
Implicit Types (r : Reader).

(** ** Specification side: the header encoders

    What a BMP writer emits; [DecodeConfig] is checked against it. *)

Definition encode_header (o : ByteOrder) (h : bmpHeader) : list byte :=
  Magic h ++ bytes_of_uint o 4 (FileSize h) ++ bytes_of_uint o 2 (Reserved1 h)
  ++ bytes_of_uint o 2 (Reserved2 h) ++ bytes_of_uint o 4 (DataOffset h)
  ++ bytes_of_uint o 4 (DIBSize h).

Definition fits_header (h : bmpHeader) : Prop :=
  length (Magic h) = 2%nat ∧ 0 ≤ FileSize h < 2 ^ 32 ∧ 0 ≤ Reserved1 h < 2 ^ 16
  ∧ 0 ≤ Reserved2 h < 2 ^ 16 ∧ 0 ≤ DataOffset h < 2 ^ 32 ∧ 0 ≤ DIBSize h < 2 ^ 32.

Definition encode_dimCore (o : ByteOrder) (d : dimCore) : list byte :=
  bytes_of_uint o 2 (coreX d) ++ bytes_of_uint o 2 (coreY d).

Definition fits_dimCore (d : dimCore) : Prop :=
  0 ≤ coreX d < 2 ^ 16 ∧ 0 ≤ coreY d < 2 ^ 16.

Definition encode_dimInfo (o : ByteOrder) (d : dimInfo) : list byte :=
  bytes_of_uint o 4 (infoX d) ++ bytes_of_uint o 4 (infoY d).

Definition fits_dimInfo (d : dimInfo) : Prop :=
  - 2 ^ 31 ≤ infoX d < 2 ^ 31 ∧ - 2 ^ 31 ≤ infoY d < 2 ^ 31.

#[export] Instance bmpHeader_Enc : BinaryEnc bmpHeader :=
  {| fits := fits_header; encode := encode_header |}.

#[export] Instance dimCore_Enc : BinaryEnc dimCore :=
  {| fits := fits_dimCore; encode := encode_dimCore |}.

#[export] Instance dimInfo_Enc : BinaryEnc dimInfo :=
  {| fits := fits_dimInfo; encode := encode_dimInfo |}.

(** A complete BMP prefix: file header and dimension block. *)
Definition core_file (h : bmpHeader) (w ht : Z) : list byte :=
  encode LittleEndian h ++ encode LittleEndian (mkDimCore w ht).

Definition info_file (h : bmpHeader) (w ht : Z) : list byte :=
  encode LittleEndian h ++ encode LittleEndian (mkDimInfo w ht).

(** A BMP prefix for either kind of DIB header. *)
Definition dims_bytes (h : bmpHeader) (w ht : Z) : list byte :=
  if decide (DIBSize h = 12) then encode LittleEndian (mkDimCore w ht)
  else encode LittleEndian (mkDimInfo w ht).

Definition bmp_file (h : bmpHeader) (w ht : Z) : list byte :=
  encode LittleEndian h ++ dims_bytes h w ht.

(** The height [DecodeConfig] reports for a stored int32 height. *)
Definition reported_height {a : Arch} (ht : Z) : Z :=
  if decide (ht < 0) then int_neg ht else ht.

#[export] Instance fits_header_dec h : Decision (fits_header h).
Proof. unfold fits_header. apply _. Defined.

#[export] Instance fits_dimCore_dec d : Decision (fits_dimCore d).
Proof. unfold fits_dimCore. apply _. Defined.

#[export] Instance fits_dimInfo_dec d : Decision (fits_dimInfo d).
Proof. unfold fits_dimInfo. apply _. Defined.

(** ** The layouts decode what the encoders emit *)

#[export] Instance bmpHeader_Laws : BinaryLaws bmpHeader.
Proof.
  split.
  - intros o h (Hm & _). simpl. unfold encode_header. rewrite !length_app, Hm.
    autorewrite with go. reflexivity.
  - intros o [m fs r1 r2 off dib] (Hm & ? & ? & ? & ? & ?). simpl in *.
    unfold encode_header; simpl. rewrite take_app_length' by done.
    field_simpl. by autorewrite with go.
Qed.

#[export] Instance dimCore_Laws : BinaryLaws dimCore.
Proof.
  split.
  - intros o d _. simpl. unfold encode_dimCore. rewrite length_app.
    autorewrite with go. reflexivity.
  - intros o [x y] [? ?]. simpl in *. unfold encode_dimCore; simpl.
    field_simpl. by autorewrite with go.
Qed.

#[export] Instance dimInfo_Laws : BinaryLaws dimInfo.
Proof.
  split.
  - intros o d _. simpl. unfold encode_dimInfo. rewrite length_app.
    autorewrite with go. reflexivity.
  - intros o [x y] [? ?]. simpl in *. unfold encode_dimInfo; simpl.
    field_simpl. by rewrite !int_of_bytes_of_uint by (simpl; lia).
Qed.

(** ** [read_dims] and [magnitude], branch by branch *)

Section branches.
Context {a : Arch}.
Implicit Types (h : bmpHeader) (cfg : Config).

Lemma read_dims_core h cfg w ht rest e :
  DIBSize h = 12 → fits_dimCore (mkDimCore w ht) →
  read_dims h cfg (mkReader (encode LittleEndian (mkDimCore w ht) ++ rest) e)
  = (set_size cfg w ht, None, mkReader rest e).
Proof.
  intros Hs [Hw Hh]. unfold read_dims. rewrite decide_True by done.
  rewrite binary_Read_encode by done. simpl in *.
  by rewrite !to_int_uint16.
Qed.

Lemma read_dims_info h cfg w ht rest e :
  DIBSize h ∈ info_sizes → fits_dimInfo (mkDimInfo w ht) →
  read_dims h cfg (mkReader (encode LittleEndian (mkDimInfo w ht) ++ rest) e)
  = (set_size cfg w ht, None, mkReader rest e).
Proof.
  intros Hs [Hw Hh]. unfold read_dims.
  rewrite decide_False by (intros E; rewrite E in Hs; set_solver).
  rewrite decide_True by done.
  rewrite binary_Read_encode by done. simpl in *.
  by rewrite !to_int_int32.
Qed.

Lemma read_dims_unknown h cfg r :
  DIBSize h ∉ 12 :: info_sizes → read_dims h cfg r = (cfg, Some ErrInvalid, r).
Proof.
  intros Hs. unfold read_dims.
  rewrite !decide_False; [done | set_solver | set_solver].
Qed.

(** How many bytes the dimension block of a header takes. *)
Definition dims_size h : nat :=
  if decide (DIBSize h = 12) then 4
  else if decide (DIBSize h ∈ info_sizes) then 8 else 0.

Lemma read_dims_short h cfg r :
  DIBSize h ∈ 12 :: info_sizes → (length (pending r) < dims_size h)%nat →
  read_dims h cfg r =
    (set_size cfg 0 0, Some (short_read_error (length (pending r)) (final r)),
     mkReader [] (final r)).
Proof.
  intros Hs Hl. unfold read_dims, dims_size in *.
  destruct (decide (DIBSize h = 12)); [|destruct (decide (DIBSize h ∈ info_sizes))].
  - rewrite binary_Read_short by done. simpl. by rewrite to_int_0.
  - rewrite binary_Read_short by done. simpl. by rewrite to_int_0.
  - lia.
Qed.

Lemma read_dims_advances h cfg r : advances r (read_dims h cfg r).2.
Proof.
  unfold read_dims. repeat case_decide; [| |done].
  - pose proof (binary_Read_advances LittleEndian (zero : dimCore) r).
    by destruct (binary_Read _ _ r) as [[??]?].
  - pose proof (binary_Read_advances LittleEndian (zero : dimInfo) r).
    by destruct (binary_Read _ _ r) as [[??]?].
Qed.

Lemma read_dims_consumed h cfg r : (consumed r (read_dims h cfg r).2 ≤ 8)%nat.
Proof.
  unfold read_dims, consumed.
  repeat case_decide; [| |simpl; lia]; unfold_Read;
    (destruct (ReadFull _ r) as [[bs|e] r1] eqn:E; simpl;
     [apply ReadFull_ok_inv in E as (-> & Hl & _); rewrite length_app; simpl in Hl; lia
     |apply ReadFull_err_inv in E as (Hl & -> & _); simpl in *; lia]).
Qed.

(** Whatever the stream holds, the dimensions read are int32 values, and
    a failed read leaves them zero. *)
Lemma read_dims_range h r cfg' err r' :
  read_dims h cfg0 r = (cfg', err, r') →
  ColorModel cfg' = RGBAModel ∧ - 2 ^ 31 ≤ Width cfg' < 2 ^ 31
  ∧ - 2 ^ 31 ≤ Height cfg' < 2 ^ 31 ∧ (err ≠ None → cfg' = cfg0).
Proof.
  unfold read_dims. repeat case_decide.
  - unfold_Read. destruct (ReadFull _ r) as [[bs|e] r1];
      intros [= <- <- <-]; simpl.
    + pose proof (uint_at_range LittleEndian 0 2 bs).
      pose proof (uint_at_range LittleEndian 2 2 bs).
      rewrite !to_int_uint16 by (simpl in *; lia). simpl in *. repeat split; (done || lia).
    + rewrite to_int_0. repeat split; try done; lia.
  - unfold_Read. destruct (ReadFull _ r) as [[bs|e] r1];
      intros [= <- <- <-]; simpl.
    + pose proof (int_at_range LittleEndian 0 4 bs ltac:(lia)).
      pose proof (int_at_range LittleEndian 4 4 bs ltac:(lia)).
      rewrite !to_int_int32 by (simpl in *; lia). simpl in *. repeat split; (done || lia).
    + rewrite to_int_0. repeat split; try done; lia.
  - intros [= <- <- <-]. repeat split; try done; simpl; lia.
Qed.

(** The dimensions are converted with [int(...)] and the height is negated
    on [int]: whatever was read, they are values of [int]. *)
Lemma read_dims_typed h cfg r : typed cfg → typed (read_dims h cfg r).1.1.
Proof.
  intros Hc. unfold read_dims. repeat case_decide; [| |done];
    destruct (binary_Read _ _ r) as [[dim err] r1]; simpl; auto with go.
Qed.

Lemma magnitude_typed cfg : typed cfg → typed (magnitude cfg).
Proof.
  intros [Hw Hh]. unfold magnitude. case_decide; [|done].
  split; [done|apply wrap_signed_int_ok].
Qed.

Lemma magnitude_nonneg cfg : 0 ≤ Height cfg → magnitude cfg = cfg.
Proof. intros. unfold magnitude. by rewrite decide_False by lia. Qed.

Lemma magnitude_neg cfg :
  Height cfg < 0 → magnitude cfg = set_Height cfg (int_neg (Height cfg)).
Proof. intros. unfold magnitude. by rewrite decide_True. Qed.

Lemma magnitude_set_size cfg w ht :
  magnitude (set_size cfg w ht) = set_size cfg w (reported_height ht).
Proof. unfold magnitude, reported_height; simpl. by case_decide. Qed.

Lemma reported_height_abs ht :
  int_min < ht ≤ int_max → reported_height ht = Z.abs ht.
Proof.
  intros. unfold reported_height. case_decide; [|lia].
  rewrite int_neg_exact by done. lia.
Qed.

(** The height reported for an int32 height: its magnitude, except at
    the minimum of a 32-bit [int]. *)
Lemma reported_height_sign ht :
  - 2 ^ 31 ≤ ht < 2 ^ 31 →
  0 ≤ reported_height ht ≤ 2 ^ 31
  ∨ (a = Arch32 ∧ ht = - 2 ^ 31 ∧ reported_height ht = - 2 ^ 31).
Proof.
  intros Hr. destruct (decide (a = Arch32 ∧ ht = - 2 ^ 31)) as [[-> ->]|Hn].
  - right. by vm_compute.
  - left. rewrite reported_height_abs; [lia|].
    unfold int_min, int_max. destruct a; simpl; [|lia].
    destruct (decide (ht = - 2 ^ 31)); [naive_solver | lia].
Qed.

Lemma length_dims_bytes h w ht :
  DIBSize h ∈ 12 :: info_sizes → length (dims_bytes h w ht) = dims_size h.
Proof.
  intros Hs. unfold dims_bytes, dims_size. case_decide.
  - cbn [encode dimCore_Enc]. unfold encode_dimCore. rewrite length_app.
    by autorewrite with go.
  - rewrite decide_True by set_solver.
    cbn [encode dimInfo_Enc]. unfold encode_dimInfo. rewrite length_app.
    by autorewrite with go.
Qed.

(** ** [DecodeConfig] after the file header *)

Lemma DecodeConfig_header_read bs rest e :
  length bs = 18%nat →
  DecodeConfig (mkReader (bs ++ rest) e) =
    let h := decode LittleEndian bs in
    if decide (Magic h ≠ Header) then Done (cfg0, Some ErrInvalid) (mkReader rest e)
    else let '(cfg', err', r2) := read_dims h cfg0 (mkReader rest e) in
         Done (magnitude cfg', err') r2.
Proof. intros Hl. unfold DecodeConfig. by rewrite binary_Read_app. Qed.

Lemma DecodeConfig_header_encoded h rest e :
  fits_header h → Magic h = Header →
  DecodeConfig (mkReader (encode LittleEndian h ++ rest) e) =
    let '(cfg', err', r2) := read_dims h cfg0 (mkReader rest e) in
    Done (magnitude cfg', err') r2.
Proof.
  intros Hf Hm. unfold DecodeConfig.
  rewrite binary_Read_encode by done.
  by rewrite decide_False by (by intros []).
Qed.

Lemma DecodeConfig_header_short r :
  (length (pending r) < 18)%nat →
  DecodeConfig r =
    Done (cfg0, Some (short_read_error (length (pending r)) (final r)))
         (mkReader [] (final r)).
Proof. intros. unfold DecodeConfig. by rewrite binary_Read_short. Qed.

(** Every run of [DecodeConfig] is one of three shapes. *)
Lemma bmp_cases r :
  (∃ e, DecodeConfig r = Done (cfg0, Some e) (binary_Read LittleEndian (zero : bmpHeader) r).2)
  ∨ (∃ h r1 cfg' err r2,
       binary_Read LittleEndian (zero : bmpHeader) r = (h, None, r1)
       ∧ Magic h = Header
       ∧ read_dims h cfg0 r1 = (cfg', err, r2)
       ∧ DecodeConfig r = Done (magnitude cfg', err) r2).
Proof.
  unfold DecodeConfig.
  destruct (binary_Read _ _ r) as [[h [e|]] r1] eqn:E; simpl; [by eauto|].
  case_decide as Hm; [by eauto|]. right.
  destruct (read_dims h cfg0 r1) as [[cfg' err] r2] eqn:Ed.
  by exists h, r1, cfg', err, r2.
Qed.

(** The dimensions a header's dimension block [ds] holds. *)
Definition dims_of h (ds : list byte) : Z * Z :=
  if decide (DIBSize h = 12)
  then (uint_at LittleEndian 0 2 ds, uint_at LittleEndian 2 2 ds)
  else (int_at LittleEndian 0 4 ds, int_at LittleEndian 4 4 ds).

Lemma dims_of_range h ds :
  - 2 ^ 31 ≤ (dims_of h ds).1 < 2 ^ 31 ∧ - 2 ^ 31 ≤ (dims_of h ds).2 < 2 ^ 31.
Proof.
  unfold dims_of. case_decide; simpl.
  - pose proof (uint_at_range LittleEndian 0 2 ds).
    pose proof (uint_at_range LittleEndian 2 2 ds). simpl in *. lia.
  - pose proof (int_at_range LittleEndian 0 4 ds ltac:(lia)).
    pose proof (int_at_range LittleEndian 4 4 ds ltac:(lia)). simpl in *. lia.
Qed.

Lemma read_dims_ok_inv h r cfg' r' :
  read_dims h cfg0 r = (cfg', None, r') →
  ∃ ds, pending r = ds ++ pending r' ∧ length ds = dims_size h
        ∧ DIBSize h ∈ 12 :: info_sizes ∧ final r' = final r
        ∧ cfg' = set_size cfg0 (dims_of h ds).1 (dims_of h ds).2.
Proof.
  pose proof (dims_of_range h) as Hr. revert Hr.
  unfold read_dims, dims_size, dims_of.
  destruct (decide (DIBSize h = 12)) as [E|E];
    [|destruct (decide (DIBSize h ∈ info_sizes)) as [E'|E']; [|done]];
    (destruct (binary_Read _ _ r) as [[d [er|]] r1] eqn:Er; [done|]);
    intros Hr [= <- <-];
    apply binary_Read_ok_inv in Er as (ds & Hp & Hl & Hf & ->);
    exists ds; specialize (Hr ds); simpl in *;
    rewrite !to_int_int32 by lia; repeat split; try done.
  - rewrite E. set_solver.
  - set_solver.
Qed.

(** The height of whatever [DecodeConfig] returns. *)
Lemma DecodeConfig_height r cfg err r' :
  DecodeConfig r = Done (cfg, err) r' →
  0 ≤ Height cfg ≤ 2 ^ 31 ∨ (a = Arch32 ∧ Height cfg = - 2 ^ 31).
Proof.
  destruct (bmp_cases r) as [[e' ->]|(h & r1 & cfg' & err' & r2 & _ & _ & Hd & ->)];
    intros [= <- _ _]; [left; simpl; lia|].
  apply read_dims_range in Hd as (_ & _ & Hh & _).
  destruct cfg' as [m w ht]. change (magnitude _) with (magnitude (set_size (mkConfig m w ht) w ht)).
  rewrite magnitude_set_size. simpl in *.
  destruct (reported_height_sign ht Hh) as [?|(? & ? & ?)]; auto.
Qed.

End branches.

(** ** Properties of [DecodeConfig] *)

Section properties.
Context {a : Arch}.
Implicit Types (h : bmpHeader).

(** C7: a BMP file with the 12-byte DIB header and dimensions [w], [ht]
    below 65536 decodes to exactly those dimensions with the RGBA model
    and no error, and the reader is left just behind the dimension block,
    whatever the other header fields hold. *)
Theorem bmp_core_roundtrip h w ht rest e :
  fits_header h → Magic h = Header → DIBSize h = 12 →
  0 ≤ w < 2 ^ 16 → 0 ≤ ht < 2 ^ 16 →
  DecodeConfig (mkReader (core_file h w ht ++ rest) e)
  = Done (mkConfig RGBAModel w ht, None) (mkReader rest e).
Proof.
  intros Hf Hm Hs Hw Hh. unfold core_file. rewrite <- app_assoc.
  rewrite DecodeConfig_header_encoded, read_dims_core by done.
  rewrite magnitude_set_size. unfold reported_height. by rewrite decide_False by lia.
Qed.

(** C2: a BMP file with a 40-, 56-, 108- or 124-byte DIB header and int32
    dimensions [w], [ht] decodes to the width [w] and the height |ht|,
    whatever the other header fields hold, as long as [ht] is not the
    least [int]. *)
Theorem bmp_info_roundtrip h w ht rest e :
  fits_header h → Magic h = Header → DIBSize h ∈ info_sizes →
  - 2 ^ 31 ≤ w < 2 ^ 31 → - 2 ^ 31 ≤ ht < 2 ^ 31 → int_min < ht →
  DecodeConfig (mkReader (info_file h w ht ++ rest) e)
  = Done (mkConfig RGBAModel w (Z.abs ht), None) (mkReader rest e).
Proof.
  intros Hf Hm Hs Hw Hh Hmin. unfold info_file. rewrite <- app_assoc.
  rewrite DecodeConfig_header_encoded, read_dims_info by done.
  rewrite magnitude_set_size, reported_height_abs; [done|].
  pose proof (int32_fits_int ht). lia.
Qed.

(** A header whose DIB size is none of 12, 40, 56, 108, 124 is
    refused with ErrInvalid and the zero dimensions; nothing behind the
    18-byte header is read. *)
Theorem bmp_unknown_variant h rest e :
  fits_header h → Magic h = Header → DIBSize h ∉ 12 :: info_sizes →
  DecodeConfig (mkReader (encode LittleEndian h ++ rest) e)
  = Done (cfg0, Some ErrInvalid) (mkReader rest e).
Proof.
  intros Hf Hm Hs.
  by rewrite DecodeConfig_header_encoded, read_dims_unknown.
Qed.

(** 18 bytes that do not start with "BM" are refused with
    ErrInvalid, whatever follows. *)
Theorem bmp_bad_magic bs rest e :
  length bs = 18%nat → take 2 bs ≠ Header →
  DecodeConfig (mkReader (bs ++ rest) e) = Done (cfg0, Some ErrInvalid) (mkReader rest e).
Proof.
  intros Hl Hm. rewrite DecodeConfig_header_read by done. simpl.
  by rewrite decide_True.
Qed.

(** Whatever the stream holds, the configuration [DecodeConfig] returns
    is a value of [image.Config] at the platform's width of [int]: its
    width and height are in the range of [int], also where the negation of
    the height overflows. *)
Lemma bmp_config_typed r : typed (DecodeConfig r).
Proof.
  assert (typed cfg0) as H0 by (split; apply int_ok_0).
  destruct (bmp_cases r) as [[e ->]|(h & r1 & cfg' & err & r2 & _ & _ & Hd & ->)];
    [done|].
  split; [split; [|by destruct err]|done]. apply magnitude_typed.
  pose proof (read_dims_typed h cfg0 r1 H0) as Ht. by rewrite Hd in Ht.
Qed.

(** [DecodeConfig] returns on every reader: it neither panics nor
    loops. *)
Theorem bmp_never_panics r : returned (DecodeConfig r).
Proof.
  destruct (bmp_cases r) as [[e ->]|(h & r1 & cfg' & err & r2 & _ & _ & _ & ->)];
    done.
Qed.

(** C32: when [DecodeConfig] returns an error, the configuration it
    returns beside it is the initial one: RGBA model, width 0, height 0. *)
Theorem bmp_error_zero_config r cfg e r' :
  DecodeConfig r = Done (cfg, Some e) r' → cfg = cfg0.
Proof.
  destruct (bmp_cases r) as [[e' ->]|(h & r1 & cfg' & err & r2 & _ & _ & Hd & ->)].
  - by intros [= <- _ _].
  - intros [= <- -> <-]. apply read_dims_range in Hd as (_ & _ & _ & ->); done.
Qed.

(** The reader only moves forward: what is left after
    [DecodeConfig] is a suffix of what was there before, with the same
    end. *)
Theorem bmp_forward_only r r' :
  state_of (DecodeConfig r) = Some r' → advances r r'.
Proof.
  pose proof (binary_Read_advances LittleEndian (zero : bmpHeader) r) as H1.
  destruct (bmp_cases r) as [[e' ->]|(h & r1 & cfg' & err' & r2 & E & _ & Hd & ->)].
  - by intros [= <-].
  - intros [= <-]. rewrite E in H1. etrans; [exact H1|].
    pose proof (read_dims_advances h cfg0 r1) as H2. by rewrite Hd in H2.
Qed.

(** C9: soundness: when [DecodeConfig] returns no error, the bytes
    consumed are an 18-byte header that starts with "BM" and names a known
    DIB size, followed by the 4 or 8 bytes of its dimension block, and the
    configuration holds the dimensions of that block. *)
Theorem bmp_sound r cfg r' :
  DecodeConfig r = Done (cfg, None) r' →
  ∃ bs ds, pending r = bs ++ ds ++ pending r'
    ∧ length bs = 18%nat ∧ take 2 bs = Header
    ∧ let h := decode LittleEndian bs in
      DIBSize h ∈ 12 :: info_sizes ∧ length ds = dims_size h
      ∧ cfg = mkConfig RGBAModel (dims_of h ds).1 (reported_height (dims_of h ds).2).
Proof.
  destruct (bmp_cases r) as [[e' ->]|(h & r1 & cfg' & err' & r2 & E & Hm & Hd & ->)];
    [done|].
  intros [= <- -> <-].
  apply binary_Read_ok_inv in E as (bs & Hp & Hl & _ & ->).
  apply read_dims_ok_inv in Hd as (ds & Hp' & Hl' & Hs & _ & ->).
  exists bs, ds. rewrite Hp, Hp'. repeat split; try done.
  by rewrite magnitude_set_size.
Qed.

(** C31: a file cut anywhere before the end of its dimension block is
    answered with a truncation error (io.EOF or io.ErrUnexpectedEOF) and the
    zero configuration, never with dimensions. *)
Theorem bmp_truncated h w ht n :
  fits_header h → Magic h = Header → DIBSize h ∈ 12 :: info_sizes →
  (n < length (bmp_file h w ht))%nat →
  ∃ e, truncation e ∧
    DecodeConfig (NewReader (take n (bmp_file h w ht))) = Done (cfg0, Some e) (NewReader []).
Proof.
  intros Hf Hm Hs Hn. pose proof (encode_length LittleEndian h Hf) as Hl.
  unfold bmp_file, NewReader in *. change (dataSize) with 18%nat in Hl.
  rewrite length_app, length_dims_bytes, Hl in Hn by done.
  destruct (decide (n < 18)%nat).
  - rewrite DecodeConfig_header_short
      by (cbn [pending]; rewrite length_take, length_app, Hl; lia).
    eexists; split; [|done]. apply short_read_error_truncation. by left.
  - rewrite take_app_ge, Hl by lia.
    rewrite DecodeConfig_header_encoded, read_dims_short; try done.
    + eexists; split; [|done]. apply short_read_error_truncation. by left.
    + cbn [pending]. rewrite length_take, length_dims_bytes by done. lia.
Qed.

(** C34: [DecodeConfig] takes at most 26 bytes from its reader, the
    18-byte header and a dimension block of at most 8 bytes, whatever the
    stream holds and however the call ends. *)
Theorem bmp_reads_at_most_26 r cfg err r' :
  DecodeConfig r = Done (cfg, err) r' → (consumed r r' ≤ 26)%nat.
Proof.
  destruct (bmp_cases r) as [[e' ->]|(h & r1 & cfg' & err' & r2 & E & _ & Hd & ->)];
    intros [= _ _ <-].
  - destruct (binary_Read _ _ r) as [[x [er|]] r1] eqn:E; simpl.
    + apply binary_Read_err_inv in E as (Hl & _ & -> & _). unfold consumed. simpl in *. lia.
    + apply binary_Read_ok_inv in E as (bs & Hp & Hl & _).
      unfold consumed. rewrite Hp, length_app, Hl. simpl. lia.
  - apply binary_Read_ok_inv in E as (bs & Hp & Hl & _).
    pose proof (read_dims_consumed h cfg0 r1) as Hc. rewrite Hd in Hc.
    pose proof (read_dims_advances h cfg0 r1) as Ha%advances_length.
    rewrite Hd in Ha. simpl in *.
    unfold consumed in *. rewrite Hp, length_app, Hl. simpl. lia.
Qed.

End properties.

(** ** The sign of the returned dimensions *)

(** On a platform with a 64-bit [int], every configuration
    [DecodeConfig] returns has a height between 0 and 2^31. *)
Theorem bmp_height_nonneg_64 r cfg err r' :
  DecodeConfig (a:=Arch64) r = Done (cfg, err) r' → 0 ≤ Height cfg ≤ 2 ^ 31.
Proof.
  intros Hd. apply DecodeConfig_height in Hd as [?|[[=] _]]. lia.
Qed.

(** C13: on a platform with a 32-bit [int], the height returned is
    negative for the stored height -2^31, whose negation overflows: the
    file decodes without error to the height -2147483648. *)
Theorem bmp_height_overflow_32 h w rest e :
  fits_header h → Magic h = Header → DIBSize h ∈ info_sizes →
  - 2 ^ 31 ≤ w < 2 ^ 31 →
  DecodeConfig (a:=Arch32) (mkReader (info_file h w (- 2 ^ 31) ++ rest) e)
  = Done (mkConfig RGBAModel w (- 2 ^ 31), None) (mkReader rest e).
Proof.
  intros Hf Hm Hs Hw. unfold info_file. rewrite <- app_assoc.
  rewrite DecodeConfig_header_encoded, read_dims_info by done.
  by rewrite magnitude_set_size.
Qed.

(** The dimension block is read alike at both widths: its fields are at
    most 32 bits wide. *)
Lemma read_dims_arch (a1 a2 : Arch) h cfg r :
  read_dims (a:=a1) h cfg r = read_dims (a:=a2) h cfg r.
Proof.
  unfold read_dims; unfold_Read. repeat case_decide; [| |done];
    destruct (ReadFull _ r) as [[bs|e] r']; simpl; rewrite ?to_int_0; try done.
  - by rewrite !to_int_uint16 by apply (uint_at_range LittleEndian _ 2).
  - pose proof (int_at_range LittleEndian 0 4 bs ltac:(lia)).
    pose proof (int_at_range LittleEndian 4 4 bs ltac:(lia)).
    by rewrite !to_int_int32 by (simpl in *; lia).
Qed.

Lemma magnitude_arch (a1 a2 : Arch) cfg :
  - 2 ^ 31 < Height cfg < 2 ^ 31 → magnitude (a:=a1) cfg = magnitude (a:=a2) cfg.
Proof.
  intros Hh. unfold magnitude. case_decide; [|done].
  by rewrite !int_neg_exact by (unfold int_min, int_max; destruct a1, a2; simpl; lia).
Qed.

(** The parser depends on the width of [int] in one case only: on
    every stream a 32-bit and a 64-bit platform return the same
    configuration, error and position, except where the 64-bit platform
    reports the height 2^31 (the stored height is -2^31); there the 32-bit
    platform reports -2^31 and agrees in everything else. *)
Theorem bmp_arch_dependence r :
  DecodeConfig (a:=Arch32) r = DecodeConfig (a:=Arch64) r
  ∨ ∃ cfg err r', DecodeConfig (a:=Arch64) r = Done (cfg, err) r'
      ∧ Height cfg = 2 ^ 31
      ∧ DecodeConfig (a:=Arch32) r = Done (set_Height cfg (- 2 ^ 31), err) r'.
Proof.
  unfold DecodeConfig. destruct (binary_Read _ _ r) as [[h [e|]] r1]; [by left|].
  case_decide; [by left|]. rewrite (read_dims_arch Arch32 Arch64).
  destruct (read_dims h cfg0 r1) as [[cfg' err] r2] eqn:Ed.
  apply read_dims_range in Ed as (_ & _ & Hh & _).
  destruct (decide (Height cfg' = - 2 ^ 31)) as [Hm|Hm].
  - right. exists (magnitude (a:=Arch64) cfg'), err, r2. unfold magnitude.
    rewrite !decide_True by lia. rewrite Hm. by split_and!.
  - left. by rewrite (magnitude_arch Arch32 Arch64) by lia.
Qed.

(** ** Any reader

    [DecodeConfig] takes an [io.Reader].  On every reader that keeps the
    laws of [Stream] (one that delivers its bytes in pieces, for instance)
    it returns what it returns on the bytes the reader has to deliver, and
    it leaves the reader where those bytes end: the theorems above, stated
    for [Reader], hold of every such reader. *)
Section any_reader.
Context {a : Arch} {R : Type} `{StreamLaws R}.

Lemma read_dims_view h cfg (r : R) :
  read_dims h cfg (view r) = ((read_dims h cfg r).1, view (read_dims h cfg r).2).
Proof.
  unfold read_dims. repeat case_decide; [| |done];
    rewrite binary_Read_view; by destruct (binary_Read _ _ r) as [[??]?].
Qed.

(** The parser is the same on every reader: for a reader of any
    type that keeps the laws of [Stream], [DecodeConfig] returns the
    configuration and the error it returns on the bytes the reader still
    has to deliver, and leaves the reader with the bytes it leaves of
    them. *)
Theorem bmp_any_reader (r : R) : on_state view (DecodeConfig r) = DecodeConfig (view r).
Proof.
  unfold DecodeConfig. rewrite binary_Read_view.
  destruct (binary_Read _ _ r) as [[h [e|]] r1]; simpl; [done|]. case_decide; [done|].
  rewrite read_dims_view. by destruct (read_dims h cfg0 r1) as [[??]?].
Qed.

End any_reader.

(** ** The full decode *)

Section decode.
Context {a : Arch} {E : Stbi.Engine}.

(** C16: [Decode] on a reader that is no file, whatever the decoder
    behind it: a read error is returned as it is; an empty stream panics
    with an index out of range; a stream the decoder refuses gives the
    decoder's failure reason as the error; and a stream the decoder accepts
    panics with a nil pointer dereference, because [Decode] passes nil for
    the channel count that the pixel length is computed from.  Both panics
    leave the world as it was: the decoder's buffer is released by the
    deferred call. *)
Theorem bmp_Decode_cases r w :
  Z.of_nat (length (pending r)) < 2 ^ 31 →
  Decode (Stbi.StreamReader r) w
  = if decide (final r = io_EOF) then
      match pending r with
      | [] => Panic (index_out_of_range 0 0) w
      | _ => match Stbi.stbi_decode (Stbi.flip w) (pending r) 4 with
             | inl msg => Done (None, Some (errors_New msg)) (Stbi.set_reason msg w)
             | inr _ => Panic nil_pointer_dereference w
             end
      end
    else Done (None, Some (final r)) w.
Proof.
  intros Hl. unfold Decode. rewrite Stbi.LoadReader_stream. case_decide; [|done].
  destruct (pending r) as [|x bs] eqn:Ep; [done|].
  rewrite Stbi.LoadMemory_unfold by done. destruct (Stbi.stbi_decode _ _ _); [done|].
  by rewrite Stbi.finish_nil, Stbi.free_malloc.
Qed.

(** [Decode] never returns an image: for every reader, file or
    not, every decoder and every state of the C library it panics or
    returns an error. *)
Theorem bmp_Decode_no_image (r : Stbi.io_Reader) w : ¬ Stbi.has_image (Decode r w).
Proof. apply Stbi.LoadReader_nil_no_image. Qed.

End decode.

(** ** The theorems at concrete files *)

(** A 70-byte file with the 12-byte DIB header, and a 1078-byte file with
    the 40-byte one. *)
Definition core_example : bmpHeader := mkHeader Header 70 0 0 26 12.
Definition info_example : bmpHeader := mkHeader Header 1078 0 0 54 40.

(** The file handed over one byte at a time. *)
Lemma bmp_any_reader_witness :
  let c := mkChunked ((λ b, [b]) <$> core_file core_example 640 480) io_EOF in
  on_state view (DecodeConfig (a:=Arch64) c) = DecodeConfig (a:=Arch64) (view c).
Proof. apply (bmp_any_reader (R:=Chunked)). Defined.

Lemma bmp_core_roundtrip_witness :
  DecodeConfig (a:=Arch64) (mkReader (core_file core_example 640 480 ++ bytes_of [1; 2]) io_EOF)
  = Done (mkConfig RGBAModel 640 480, None) (mkReader (bytes_of [1; 2]) io_EOF).
Proof. apply bmp_core_roundtrip; by_decide. Defined.

Lemma bmp_info_roundtrip_witness :
  DecodeConfig (a:=Arch64) (mkReader (info_file info_example 240 (-320) ++ []) io_EOF)
  = Done (mkConfig RGBAModel 240 320, None) (mkReader [] io_EOF).
Proof. apply (bmp_info_roundtrip (a:=Arch64)); by_decide. Defined.

Lemma bmp_unknown_variant_witness :
  DecodeConfig (a:=Arch64)
    (mkReader (encode LittleEndian (mkHeader Header 70 0 0 26 20) ++ bytes_of [1; 2]) io_EOF)
  = Done (cfg0, Some ErrInvalid) (mkReader (bytes_of [1; 2]) io_EOF).
Proof. apply bmp_unknown_variant; by_decide. Defined.

Lemma bmp_bad_magic_witness :
  DecodeConfig (a:=Arch64) (mkReader (bytes_of (replicate 18 0x41) ++ []) io_EOF)
  = Done (cfg0, Some ErrInvalid) (mkReader [] io_EOF).
Proof. apply bmp_bad_magic; by_decide. Defined.

Lemma bmp_truncated_witness :
  ∃ e, truncation e ∧
    DecodeConfig (a:=Arch64) (NewReader (take 24 (bmp_file info_example 240 320)))
    = Done (cfg0, Some e) (NewReader []).
Proof. apply bmp_truncated; by_decide. Defined.

Lemma bmp_error_zero_config_witness :
  mkConfig RGBAModel 0 0 = cfg0.
Proof.
  apply (bmp_error_zero_config (a:=Arch64) (NewReader (bytes_of [0x42; 0x4d; 0]))
           _ io_ErrUnexpectedEOF (NewReader [])).
  by vm_compute.
Defined.

Lemma bmp_forward_only_witness :
  advances (NewReader (core_file core_example 3 4 ++ bytes_of [9]))
           (NewReader (bytes_of [9])).
Proof.
  apply (bmp_forward_only (a:=Arch64)). by vm_compute.
Defined.

Lemma bmp_sound_witness :
  ∃ bs ds, pending (NewReader (core_file core_example 3 4 ++ bytes_of [9]))
           = bs ++ ds ++ bytes_of [9]
    ∧ length bs = 18%nat ∧ take 2 bs = Header
    ∧ let h := decode LittleEndian bs in
      DIBSize h ∈ 12 :: info_sizes ∧ length ds = dims_size h
      ∧ mkConfig RGBAModel 3 4
        = mkConfig RGBAModel (dims_of h ds).1 (reported_height (a:=Arch64) (dims_of h ds).2).
Proof.
  apply (bmp_sound (a:=Arch64) (NewReader (core_file core_example 3 4 ++ bytes_of [9]))
           (mkConfig RGBAModel 3 4) (NewReader (bytes_of [9]))).
  by vm_compute.
Defined.

Lemma bmp_reads_at_most_26_witness :
  (consumed (NewReader (info_file info_example 3%Z 4%Z ++ [Byte.x09]))
            (NewReader [Byte.x09]) ≤ 26)%nat.
Proof.
  apply (bmp_reads_at_most_26 (a:=Arch64) _ (mkConfig RGBAModel 3 4) None).
  by vm_compute.
Defined.

Lemma bmp_height_nonneg_64_witness :
  0 ≤ Height (mkConfig RGBAModel 240 320) ≤ 2 ^ 31.
Proof.
  apply (bmp_height_nonneg_64 (NewReader (info_file info_example 240 (-320)))
           _ None (NewReader [])).
  by vm_compute.
Defined.

Lemma bmp_height_overflow_32_witness :
  DecodeConfig (a:=Arch32) (mkReader (info_file info_example 1 (- 2 ^ 31) ++ []) io_EOF)
  = Done (mkConfig RGBAModel 1 (- 2 ^ 31), None) (mkReader [] io_EOF).
Proof. apply bmp_height_overflow_32; by_decide. Defined.

Lemma bmp_Decode_cases_witness :
  Decode (a:=Arch64) (E:=Stbi.raw_engine) (Stbi.StreamReader (NewReader Stbi.raw_2x1)) Stbi.w0
  = if decide (final (NewReader Stbi.raw_2x1) = io_EOF) then
      match pending (NewReader Stbi.raw_2x1) with
      | [] => Panic (index_out_of_range 0 0) Stbi.w0
      | _ => match @Stbi.stbi_decode Stbi.raw_engine (Stbi.flip Stbi.w0)
                     (pending (NewReader Stbi.raw_2x1)) 4 with
             | inl msg => Done (None, Some (errors_New msg)) (Stbi.set_reason msg Stbi.w0)
             | inr _ => Panic nil_pointer_dereference Stbi.w0
             end
      end
    else Done (None, Some (final (NewReader Stbi.raw_2x1))) Stbi.w0.
Proof. apply bmp_Decode_cases. by_decide. Defined.

End Bmp.
