(* ===== verification/JpegConfig.v ===== *)
(** * JpegConfig: [DecodeConfig] of [src/jpeg/jpeg.go]

    Module [Jpeg] models the JPEG header parser: the magic FF D8, the
    4-byte [segmentHeader], the frame dimensions [frameDim], one iteration
    of the segment loop as [segment_step] (with the scratch buffer [buf] and
    its slice expression), the loop itself as the fuelled [segments], as
    the relation [loops] and as the transition [lap] on [run]s,
    [DecodeConfig] on a reader of any [Stream] type, and [init].  [scan]
    is the specification of the loop: the same walk without the scratch
    buffer.  The theorems give the result on encoded streams and on
    truncated ones, soundness, the one panic, termination and the number
    of passages, the invariant of the reachable runs, and the
    independence of the result of the width of [int] and of the reader's
    type. *)

From S2P Require Import Prelude Ints GoIO GoImage Stbi Registry.

Module Jpeg.

(** [const Header = "\xff\xd8"] *)
Definition Header : list byte := [Byte.xff; Byte.xd8].

(** [var ErrInvalid = errors.New("Invalid JPEG")] *)
Definition ErrInvalid : error := errors_New "Invalid JPEG".

(** [type segmentHeader struct { Sentinel, Marker byte; Length uint16 }] *)
Record segmentHeader : Type := mkSegmentHeader {
  Sentinel : byte;
  Marker : byte;
  Length : Z;
}.

#[export] Instance segmentHeader_Binary : Binary segmentHeader := {|
  zero := mkSegmentHeader Byte.x00 Byte.x00 0;
  dataSize := 4;
  decode := λ o bs,
    mkSegmentHeader (nth 0 bs Byte.x00) (nth 1 bs Byte.x00) (uint_at o 2 2 bs);
|}.

(** [var dim struct { _ byte; H, W uint16 }]: the blank field takes its
    byte of the stream and holds nothing. *)
Record frameDim : Type := mkFrameDim { dimH : Z; dimW : Z }.

#[export] Instance frameDim_Binary : Binary frameDim := {|
  zero := mkFrameDim 0 0;
  dataSize := 5;
  decode := λ o bs, mkFrameDim (uint_at o 1 2 bs) (uint_at o 3 2 bs);
|}.

(** [case 0xc0, 0xc1, 0xc2]: the start-of-frame markers. *)
Definition SOF : list byte := [Byte.xc0; Byte.xc1; Byte.xc2].

(** [cfg := image.Config{ColorModel: color.RGBAModel}] *)
Definition cfg0 : Config := mkConfig RGBAModel 0 0.

(** The slice expression [buf[:hi]]: Go panics unless [0 <= hi <= cap(buf)];
    the buffers here are made with [make([]byte, n)], whose capacity is
    their length. *)
Definition slice_to (buf : list byte) (hi : Z) : panic + nat :=
  if decide (0 ≤ hi ≤ Z.of_nat (length buf)) then inr (Z.to_nat hi)
  else inl (slice_bounds_out_of_range hi).

(** [if len(buf) < int(h.Length) { buf = make([]byte, int(h.Length)) }] *)
Definition grow {a : Arch} (buf : list byte) (h : segmentHeader) : list byte :=
  if decide (Z.of_nat (length buf) < to_int (Length h))
  then replicate (Z.to_nat (to_int (Length h))) Byte.x00
  else buf.

(** The state the loop carries from one iteration to the next. *)
Record loop_state : Type := mkLoop { st_h : segmentHeader; st_buf : list byte }.

(** One iteration either leaves the function or goes round again. *)
Inductive step_result (R : Type) : Type :=
| Return (res : outcome R (Config * option error))
| Continue (st : loop_state) (r : R).

Arguments Return {R} res.
Arguments Continue {R} st r.

(** The [default:] case: skip the segment's payload. *)
Definition skip_segment {a : Arch} {R} `{Stream R} (cfg : Config) (h : segmentHeader)
    (buf : list byte) (r : R) : step_result R :=
  let buf1 := grow buf h in
  match slice_to buf1 (int_sub (to_int (Length h)) 2) with
  | inl p => Return (Panic p r)
  | inr n =>
    let '(buf2, err, r') := binary_Read_slice n buf1 r in
    match err with
    | Some e => Return (Done (cfg, Some e) r')
    | None => Continue (mkLoop h buf2) r'
    end
  end.

(** The start-of-frame case: read the dimensions and return. *)
Definition read_frame {a : Arch} {R} `{Stream R} (cfg : Config) (r : R)
    : outcome R (Config * option error) :=
  let '(dim, err, r') := binary_Read BigEndian (zero : frameDim) r in
  Done (set_size cfg (to_int (dimW dim)) (to_int (dimH dim)), err) r'.

(** The body of the [for] loop. *)
Definition segment_step {a : Arch} {R} `{Stream R} (cfg : Config) (st : loop_state) (r : R)
    : step_result R :=
  let '(h, err, r1) := binary_Read BigEndian (st_h st) r in
  match err with
  | Some e => Return (Done (cfg, Some e) r1)
  | None =>
    if decide (Sentinel h ≠ Byte.xff) then Return (Done (cfg, Some ErrInvalid) r1)
    else if decide (Marker h ∈ SOF) then Return (read_frame cfg r1)
    else skip_segment cfg h (st_buf st) r1
  end.

(** The [for] loop, with fuel for its iterations. *)
Fixpoint segments {a : Arch} {R} `{Stream R} (fuel : nat) (cfg : Config) (st : loop_state)
    (r : R) : outcome R (Config * option error) :=
  match fuel with
  | O => Timeout
  | S fuel' =>
    match segment_step cfg st r with
    | Return res => res
    | Continue st' r' => segments fuel' cfg st' r'
    end
  end.

(** The [for] loop as a relation, without fuel: an iteration that leaves
    the function gives the result, an iteration that goes round hands over
    to the next. *)
Inductive loops {a : Arch} {R} `{Stream R} (cfg : Config)
    : loop_state → R → outcome R (Config * option error) → Prop :=
| loops_return st (r : R) res :
    segment_step cfg st r = Return res → loops cfg st r res
| loops_continue st (r : R) st' r' res :
    segment_step cfg st r = Continue st' r' → loops cfg st' r' res → loops cfg st r res.

(** Fuel that suffices for a reader: every iteration that continues has
    consumed the four bytes of a segment header. *)
Definition loop_fuel (r : Reader) : nat := S (length (pending r) / 4).

(** [var h segmentHeader; var buf []byte] *)
Definition st0 : loop_state := mkLoop zero [].

(** [func DecodeConfig(r io.Reader) (image.Config, error)] *)
Definition DecodeConfig {a : Arch} {R} `{Stream R} (r : R)
    : outcome R (Config * option error) :=
  let '(magic, err, r1) := binary_Read LittleEndian (zero : byte_array 2) r in
  match err with
  | Some e => Done (cfg0, Some e) r1
  | None =>
    if decide (magic ≠ Header) then Done (cfg0, Some ErrInvalid) r1
    else segments (loop_fuel (view r1)) cfg0 st0 r1
  end.

(** [func init()].  The [Decode] it registers calls [stbi.LoadReader(r)]
    with one argument where [src/stbi.go] declares three, so that function
    has no meaning to translate: the table entry takes whatever full
    decoder it is given. *)
Definition init {a : Arch} (Decode : Stbi.io_Reader → Stbi.World → Stbi.result)
    (fs : Registry.formats) : Registry.formats :=
  Registry.RegisterFormat "jpeg" Header Decode DecodeConfig fs.

(** From here to the section on other readers, [r] is a [Reader]. *)
Implicit Types (r : Reader).

(** ** Specification side

    [scan_step] and [scan] are the walk the loop is meant to perform: no
    scratch buffer, no header carried between iterations; a segment is
    skipped by reading [Length - 2] bytes and fails when that is negative. *)

Definition scan_step {a : Arch} (cfg : Config) (r : Reader)
    : outcome Reader (Config * option error) + Reader :=
  let '(h, err, r1) := binary_Read BigEndian (zero : segmentHeader) r in
  match err with
  | Some e => inl (Done (cfg, Some e) r1)
  | None =>
    if decide (Sentinel h ≠ Byte.xff) then inl (Done (cfg, Some ErrInvalid) r1)
    else if decide (Marker h ∈ SOF) then inl (read_frame cfg r1)
    else if decide (Length h < 2) then inl (Panic (slice_bounds_out_of_range (Length h - 2)) r1)
    else match ReadFull (Z.to_nat (Length h - 2)) r1 with
         | (inl _, r2) => inr r2
         | (inr e, r2) => inl (Done (cfg, Some e) r2)
         end
  end.

Fixpoint scan {a : Arch} (fuel : nat) (cfg : Config) (r : Reader)
    : outcome Reader (Config * option error) :=
  match fuel with
  | O => Timeout
  | S fuel' =>
    match scan_step cfg r with
    | inl res => res
    | inr r' => scan fuel' cfg r'
    end
  end.

(** The walk with the fuel [DecodeConfig] gives it. *)
Definition walk {a : Arch} (cfg : Config) (r : Reader)
    : outcome Reader (Config * option error) :=
  scan (loop_fuel r) cfg r.

(** A run of the loop: inside it, with the header and the buffer it
    carries and the reader where it stands, or past it with the result the
    function returns.  [lap] is one passage through the body. *)
Inductive run : Type :=
| InLoop (st : loop_state) (r : Reader)
| Left (res : outcome Reader (Config * option error)).

Definition lap {a : Arch} (cfg : Config) (x : run) : run :=
  match x with
  | InLoop st r =>
    match segment_step cfg st r with
    | Return res => Left res
    | Continue st' r' => InLoop st' r'
    end
  | Left res => Left res
  end.

Definition inside (x : run) : Prop :=
  match x with InLoop _ _ => True | Left _ => False end.

#[export] Instance inside_dec x : Decision (inside x).
Proof. destruct x; simpl; apply _. Defined.

(** The runs a call goes through on the reader [r0] it finds behind the
    magic: the start of the loop, and what a passage makes of a run that
    was reached. *)
Inductive reached {a : Arch} (cfg : Config) (r0 : Reader) : run → Prop :=
| reached_start : reached cfg r0 (InLoop st0 r0)
| reached_lap x : reached cfg r0 x → reached cfg r0 (lap cfg x).

(** What holds of every run that is reached: the scratch buffer is shorter
    than 2^16 bytes, and the reader has only moved forward. *)
Definition run_ok (r0 : Reader) (x : run) : Prop :=
  match x with
  | InLoop st r => Z.of_nat (length (st_buf st)) < 2 ^ 16 ∧ advances r0 r
  | Left res => match state_of res with Some r => advances r0 r | None => True end
  end.

(** What a JPEG writer emits. *)
Definition encode_segmentHeader (o : ByteOrder) (h : segmentHeader) : list byte :=
  [Sentinel h; Marker h] ++ bytes_of_uint o 2 (Length h).

#[export] Instance segmentHeader_Enc : BinaryEnc segmentHeader := {|
  fits := λ h, (0 ≤ Length h < 2 ^ 16);
  encode := encode_segmentHeader;
|}.

(** A marker segment: its marker and its payload. *)
Record segment : Type := mkSegment { seg_marker : byte; seg_payload : list byte }.

Definition seg_length (s : segment) : Z := Z.of_nat (length (seg_payload s)) + 2.

Definition encode_segment (s : segment) : list byte :=
  encode BigEndian (mkSegmentHeader Byte.xff (seg_marker s) (seg_length s))
  ++ seg_payload s.

(** The segments the walk steps over: not a start of frame, and a length
    that fits its two bytes. *)
Definition skippable (s : segment) : Prop :=
  (seg_marker s ∉ SOF) ∧ seg_length s < 2 ^ 16.

#[export] Instance skippable_dec s : Decision (skippable s).
Proof. unfold skippable. apply _. Defined.

Definition encode_segments (segs : list segment) : list byte :=
  concat (encode_segment <$> segs).

(** A start-of-frame segment up to its dimensions: marker [m], declared
    length [len], sample precision [p], height and width. *)
Definition encode_frame (m : byte) (len : Z) (p : byte) (ht w : Z) : list byte :=
  encode BigEndian (mkSegmentHeader Byte.xff m len)
  ++ [p] ++ bytes_of_uint BigEndian 2 ht ++ bytes_of_uint BigEndian 2 w.

(** ** The segment header *)

#[export] Instance segmentHeader_Laws : BinaryLaws segmentHeader.
Proof.
  split.
  - intros o h _. simpl. by rewrite length_bytes_of_uint.
  - intros o [s m l] Hl. simpl in *. unfold encode_segmentHeader; simpl.
    change (s :: m :: ?x) with ([s; m] ++ x).
    field_simpl. by autorewrite with go.
Qed.

Lemma Length_decode_range o bs :
  0 ≤ Length (decode o bs : segmentHeader) < 2 ^ 16.
Proof. apply (uint_at_range o 2 2 bs). Qed.

Lemma read_header_range o h0 r h r' :
  binary_Read o h0 r = (h, None, r') → 0 ≤ Length h < 2 ^ 16.
Proof.
  intros (bs & _ & _ & _ & ->)%binary_Read_ok_inv. apply Length_decode_range.
Qed.

(** ** The loop refines the walk *)

Section refinement.
Context {a : Arch}.
Implicit Types (cfg : Config) (st : loop_state) (h : segmentHeader).

Lemma length_grow buf h :
  0 ≤ Length h < 2 ^ 16 → Length h ≤ Z.of_nat (length (grow buf h)).
Proof.
  intros Hl. unfold grow. rewrite to_int_uint16 by done.
  case_decide; [rewrite length_replicate|]; lia.
Qed.

(** The slice expression fails exactly for a declared length below 2: the
    upper bound always holds, because the buffer was just grown. *)
Lemma slice_to_grow buf h :
  0 ≤ Length h < 2 ^ 16 →
  slice_to (grow buf h) (int_sub (to_int (Length h)) 2) =
    if decide (Length h < 2) then inl (slice_bounds_out_of_range (Length h - 2))
    else inr (Z.to_nat (Length h - 2)).
Proof.
  intros Hl. pose proof (length_grow buf h Hl).
  rewrite to_int_uint16, int_sub_exact by lia. unfold slice_to.
  repeat case_decide; (done || lia).
Qed.

Lemma skip_segment_scan cfg h buf r :
  0 ≤ Length h < 2 ^ 16 →
  match skip_segment cfg h buf r with
  | Return res =>
      if decide (Length h < 2) then res = Panic (slice_bounds_out_of_range (Length h - 2)) r
      else ∃ e r', ReadFull (Z.to_nat (Length h - 2)) r = (inr e, r')
                   ∧ res = Done (cfg, Some e) r'
  | Continue st' r' =>
      ¬ Length h < 2 ∧ ∃ bs, ReadFull (Z.to_nat (Length h - 2)) r = (inl bs, r')
  end.
Proof.
  intros Hl. unfold skip_segment. rewrite slice_to_grow by done.
  case_decide; [done|]. unfold_Read.
  destruct (ReadFull _ r) as [[bs|e] r']; simpl; by eauto.
Qed.

Lemma segment_step_scan_step cfg st r :
  match segment_step cfg st r with
  | Return res => scan_step cfg r = inl res
  | Continue _ r' => scan_step cfg r = inr r'
  end.
Proof.
  unfold segment_step, scan_step; unfold_Read.
  destruct (ReadFull dataSize r) as [[bs|e] r1]; [|done].
  pose proof (Length_decode_range BigEndian bs) as Hl.
  set (h := decode BigEndian bs) in *.
  repeat case_decide; try done;
    pose proof (skip_segment_scan cfg h (st_buf st) r1 Hl) as Hs;
    destruct (skip_segment cfg h (st_buf st) r1) as [res|st' r2].
  - rewrite decide_True in Hs by done. by subst.
  - by destruct Hs.
  - rewrite decide_False in Hs by done. by destruct Hs as (e & r' & -> & ->).
  - by destruct Hs as (_ & bs' & ->).
Qed.

Lemma segments_scan fuel cfg st r : segments fuel cfg st r = scan fuel cfg r.
Proof.
  revert st r. induction fuel as [|fuel IH]; intros st r; [done|]. simpl.
  pose proof (segment_step_scan_step cfg st r) as Hs.
  destruct (segment_step cfg st r) as [res|st' r']; rewrite Hs; [done|apply IH].
Qed.

End refinement.

(** ** Fuel *)

Section fuel.
Context {a : Arch}.
Implicit Types (cfg : Config).

Lemma read_frame_returned cfg r : returned (read_frame cfg r).
Proof. unfold read_frame. by destruct (binary_Read _ _ r) as [[??]?]. Qed.

(** An iteration that continues has moved forward by the four bytes of a
    header and the payload. *)
Lemma scan_step_continue cfg r r' :
  scan_step cfg r = inr r' →
  advances r r' ∧ (length (pending r') + 4 ≤ length (pending r))%nat.
Proof.
  unfold scan_step.
  destruct (binary_Read _ _ r) as [[h [e|]] r1] eqn:E; [done|].
  repeat case_decide; try done.
  destruct (ReadFull _ r1) as [[bs|e] r2] eqn:E2; [|done]. intros [= <-].
  apply binary_Read_ok_inv in E as (hs & Hp & Hl & Hf & _).
  apply ReadFull_ok_inv in E2 as (Hp2 & _ & Hf2).
  split; [split|].
  - exists (hs ++ bs). by rewrite Hp, Hp2, app_assoc.
  - congruence.
  - rewrite Hp, Hp2, !length_app, Hl. simpl. lia.
Qed.

(** An iteration that returns does not run out of fuel. *)
Lemma scan_step_return cfg r res : scan_step cfg r = inl res → res ≠ Timeout.
Proof.
  unfold scan_step.
  destruct (binary_Read _ _ r) as [[h [e|]] r1]; [by intros [= <-]|].
  repeat case_decide; try (by intros [= <-]).
  - intros [= <-]. pose proof (read_frame_returned cfg r1). by destruct (read_frame cfg r1).
  - destruct (ReadFull _ r1) as [[bs|e] r2]; [done|]. by intros [= <-].
Qed.

Lemma scan_fuel_enough fuel cfg r :
  (length (pending r) < 4 * fuel)%nat → scan fuel cfg r ≠ Timeout.
Proof.
  revert r. induction fuel as [|fuel IH]; intros r Hl; [lia|]. simpl.
  destruct (scan_step cfg r) as [res|r'] eqn:E.
  - by eapply scan_step_return.
  - apply scan_step_continue in E as [_ ?]. apply IH. lia.
Qed.

Lemma scan_fuel_mono fuel fuel' cfg r :
  scan fuel cfg r ≠ Timeout → (fuel ≤ fuel')%nat → scan fuel' cfg r = scan fuel cfg r.
Proof.
  revert fuel' r. induction fuel as [|fuel IH]; intros fuel' r Hn Hle; [done|].
  destruct fuel' as [|fuel']; [lia|]. simpl in *.
  destruct (scan_step cfg r) as [res|r']; [done|]. apply IH; [done|lia].
Qed.

Lemma loop_fuel_enough r : (length (pending r) < 4 * loop_fuel r)%nat.
Proof.
  unfold loop_fuel. pose proof (Nat.div_mod_eq (length (pending r)) 4).
  pose proof (Nat.mod_upper_bound (length (pending r)) 4). lia.
Qed.

Lemma walk_scan fuel cfg r :
  (loop_fuel r ≤ fuel)%nat → scan fuel cfg r = walk cfg r.
Proof.
  intros. apply scan_fuel_mono; [|done]. apply scan_fuel_enough, loop_fuel_enough.
Qed.

(** Every iteration that goes round leaves at least four bytes fewer, so
    the fuel of the reader it hands over is at least one less. *)
Lemma loop_fuel_continue cfg r r' :
  scan_step cfg r = inr r' → (S (loop_fuel r') ≤ loop_fuel r)%nat.
Proof.
  intros [_ Hl]%scan_step_continue. unfold loop_fuel. apply le_n_S.
  trans ((length (pending r') + 1 * 4) / 4)%nat;
    [rewrite Nat.div_add by lia; lia | apply Nat.Div0.div_le_mono; lia].
Qed.

(** With fuel out of the way the walk is its own unfolding. *)
Lemma walk_unfold cfg r :
  walk cfg r = match scan_step cfg r with
               | inl res => res
               | inr r' => walk cfg r'
               end.
Proof.
  change (walk cfg r) with (scan (S (length (pending r) / 4)) cfg r). cbn [scan].
  destruct (scan_step cfg r) as [res|r'] eqn:E; [done|].
  apply loop_fuel_continue in E. apply walk_scan. unfold loop_fuel in *. lia.
Qed.

Lemma walk_not_Timeout cfg r : walk cfg r ≠ Timeout.
Proof. apply scan_fuel_enough, loop_fuel_enough. Qed.

(** [DecodeConfig] in terms of the walk. *)
Lemma DecodeConfig_walk r :
  DecodeConfig r =
    let '(magic, err, r1) := binary_Read LittleEndian (zero : byte_array 2) r in
    match err with
    | Some e => Done (cfg0, Some e) r1
    | None => if decide (magic ≠ Header) then Done (cfg0, Some ErrInvalid) r1
              else walk cfg0 r1
    end.
Proof.
  unfold DecodeConfig. destruct (binary_Read _ _ r) as [[magic [e|]] r1]; [done|].
  case_decide; [done|]. apply segments_scan.
Qed.

Lemma DecodeConfig_magic rest e :
  DecodeConfig (mkReader (Header ++ rest) e) = walk cfg0 (mkReader rest e).
Proof.
  by rewrite DecodeConfig_walk, binary_Read_app.
Qed.

(** Induction along the walk: a property of readers that holds where the
    walk returns and is carried back over every skipped segment holds
    everywhere. *)
Lemma walk_ind cfg (P : Reader → Prop) :
  (∀ r res, scan_step cfg r = inl res → P r) →
  (∀ r r', scan_step cfg r = inr r' → P r' → P r) →
  ∀ r, P r.
Proof.
  intros Hret Hcont r.
  remember (length (pending r)) as n eqn:Hn. revert r Hn.
  induction (lt_wf n) as [n _ IH]. intros r ->.
  destruct (scan_step cfg r) as [res|r'] eqn:E; [by eapply Hret|].
  eapply Hcont; [done|]. eapply IH; [|done].
  apply scan_step_continue in E as [_ ?]. lia.
Qed.

End fuel.

(** ** The walk on encoded streams *)

Section encoded.
Context {a : Arch}.
Implicit Types (cfg : Config) (h : segmentHeader) (s : segment).

Lemma scan_step_encoded cfg h rest e :
  0 ≤ Length h < 2 ^ 16 →
  scan_step cfg (mkReader (encode BigEndian h ++ rest) e) =
    if decide (Sentinel h ≠ Byte.xff)
    then inl (Done (cfg, Some ErrInvalid) (mkReader rest e))
    else if decide (Marker h ∈ SOF) then inl (read_frame cfg (mkReader rest e))
    else if decide (Length h < 2)
    then inl (Panic (slice_bounds_out_of_range (Length h - 2)) (mkReader rest e))
    else match ReadFull (Z.to_nat (Length h - 2)) (mkReader rest e) with
         | (inl _, r2) => inr r2
         | (inr e', r2) => inl (Done (cfg, Some e') r2)
         end.
Proof. intros Hl. unfold scan_step. by rewrite binary_Read_encode. Qed.

Lemma scan_step_short cfg r :
  (length (pending r) < 4)%nat →
  scan_step cfg r =
    inl (Done (cfg, Some (short_read_error (length (pending r)) (final r)))
              (mkReader [] (final r))).
Proof. intros. unfold scan_step. by rewrite binary_Read_short. Qed.

Lemma seg_length_range s : skippable s → 2 ≤ seg_length s < 2 ^ 16.
Proof. intros [_ ?]. unfold seg_length in *. lia. Qed.

Lemma scan_step_segment cfg s rest e :
  skippable s →
  scan_step cfg (mkReader (encode_segment s ++ rest) e) = inr (mkReader rest e).
Proof.
  intros Hs. pose proof (seg_length_range s Hs). destruct Hs as [Hm _].
  unfold encode_segment. rewrite <- app_assoc, scan_step_encoded by (simpl; lia).
  simpl. rewrite !decide_False by (done || lia).
  by rewrite ReadFull_app' by (unfold seg_length; lia).
Qed.

Lemma read_frame_encoded cfg p ht w rest e :
  0 ≤ ht < 2 ^ 16 → 0 ≤ w < 2 ^ 16 →
  read_frame cfg
    (mkReader ([p] ++ bytes_of_uint BigEndian 2 ht ++ bytes_of_uint BigEndian 2 w ++ rest) e)
  = Done (set_size cfg w ht, None) (mkReader rest e).
Proof.
  intros Hh Hw. unfold read_frame.
  rewrite !app_assoc, binary_Read_app by (rewrite !length_app; by autorewrite with go).
  cbn [decode frameDim_Binary dimH dimW]. rewrite <- !app_assoc. field_simpl.
  autorewrite with go. by rewrite !to_int_uint16.
Qed.

Lemma scan_step_frame cfg m len p ht w rest e :
  m ∈ SOF → 0 ≤ len < 2 ^ 16 → 0 ≤ ht < 2 ^ 16 → 0 ≤ w < 2 ^ 16 →
  scan_step cfg (mkReader (encode_frame m len p ht w ++ rest) e)
  = inl (Done (set_size cfg w ht, None) (mkReader rest e)).
Proof.
  intros Hm Hl Hh Hw. unfold encode_frame.
  rewrite <- !app_assoc, scan_step_encoded by done. simpl.
  rewrite decide_True by done. f_equal. by apply (read_frame_encoded cfg p).
Qed.

Lemma walk_segments cfg segs rest e :
  Forall skippable segs →
  walk cfg (mkReader (encode_segments segs ++ rest) e) = walk cfg (mkReader rest e).
Proof.
  induction 1 as [|s segs Hs _ IH]; [done|].
  unfold encode_segments in *. rewrite fmap_cons, concat_cons, <- app_assoc.
  by rewrite walk_unfold, scan_step_segment.
Qed.

Lemma walk_return cfg r res : scan_step cfg r = inl res → walk cfg r = res.
Proof. intros E. by rewrite walk_unfold, E. Qed.

End encoded.

(** ** What the stream held, from what the walk did *)

Section inversion.
Context {a : Arch}.
Implicit Types (cfg : Config).

Lemma encode_decode_segmentHeader o bs :
  length bs = 4%nat → encode o (decode o bs : segmentHeader) = bs.
Proof.
  intros Hl. list_cases bs. cbn [encode decode segmentHeader_Enc segmentHeader_Binary].
  unfold encode_segmentHeader, uint_at. cbn [nth take drop app Sentinel Marker Length].
  by rewrite bytes_of_uint_uint_of'.
Qed.

Lemma read_header_inv r h r' :
  binary_Read BigEndian (zero : segmentHeader) r = (h, None, r') →
  pending r = encode BigEndian h ++ pending r' ∧ final r' = final r
  ∧ 0 ≤ Length h < 2 ^ 16.
Proof.
  intros (bs & Hp & Hl & Hf & ->)%binary_Read_ok_inv.
  rewrite encode_decode_segmentHeader by done.
  split; [done|split; [done|apply Length_decode_range]].
Qed.

Lemma read_frame_inv cfg r cfg' err r' :
  read_frame cfg r = Done (cfg', err) r' →
  advances r r' ∧
  match err with
  | Some _ => cfg' = set_size cfg 0 0
  | None => ∃ p ht w, 0 ≤ ht < 2 ^ 16 ∧ 0 ≤ w < 2 ^ 16 ∧ cfg' = set_size cfg w ht
      ∧ pending r = [p] ++ bytes_of_uint BigEndian 2 ht
                        ++ bytes_of_uint BigEndian 2 w ++ pending r'
  end.
Proof.
  unfold read_frame. pose proof (binary_Read_advances BigEndian (zero : frameDim) r) as Ha.
  destruct (binary_Read _ _ r) as [[d [e|]] r1] eqn:E; intros [= <- <- <-].
  - split; [done|]. apply binary_Read_err_inv in E as (_ & -> & _). simpl.
    by rewrite to_int_0.
  - split; [done|]. apply binary_Read_ok_inv in E as (bs & Hp & Hl & _ & ->).
    pose proof (uint_at_range BigEndian 1 2 bs) as Hh.
    pose proof (uint_at_range BigEndian 3 2 bs) as Hw.
    exists (nth 0 bs Byte.x00), (uint_at BigEndian 1 2 bs), (uint_at BigEndian 3 2 bs).
    cbn [decode frameDim_Binary dimH dimW]. rewrite !to_int_uint16 by done.
    split; [done|split; [done|split; [done|]]].
    rewrite Hp. list_cases bs. unfold uint_at. cbn [nth take drop app].
    by rewrite !bytes_of_uint_uint_of'.
Qed.

Lemma scan_step_continue_inv cfg r r' :
  scan_step cfg r = inr r' →
  ∃ s, skippable s ∧ pending r = encode_segment s ++ pending r' ∧ final r' = final r.
Proof.
  unfold scan_step.
  destruct (binary_Read _ _ r) as [[h [e|]] r1] eqn:E; [done|].
  apply read_header_inv in E as (Hp & Hf & Hl).
  repeat case_decide; try done.
  destruct (ReadFull _ r1) as [[bs|e] r2] eqn:E2; [|done]. intros [= <-].
  apply ReadFull_ok_inv in E2 as (Hp2 & Hl2 & Hf2).
  exists (mkSegment (Marker h) bs).
  assert (seg_length (mkSegment (Marker h) bs) = Length h) as Hs
    by (unfold seg_length; simpl; lia).
  split; [split; [done|rewrite Hs; lia]|split; [|congruence]].
  unfold encode_segment. rewrite Hs, Hp, Hp2, <- app_assoc. simpl.
  destruct h as [s m l]. simpl in *. by subst s.
Qed.

Lemma scan_step_panic_inv cfg r p r' :
  scan_step cfg r = inl (Panic p r') →
  ∃ m len, (m ∉ SOF) ∧ 0 ≤ len < 2 ∧ p = slice_bounds_out_of_range (len - 2)
    ∧ pending r = encode BigEndian (mkSegmentHeader Byte.xff m len) ++ pending r'
    ∧ final r' = final r.
Proof.
  unfold scan_step.
  destruct (binary_Read _ _ r) as [[h [e|]] r1] eqn:E; [done|].
  apply read_header_inv in E as (Hp & Hf & Hl).
  repeat case_decide; try done.
  - intros [= Hr]. pose proof (read_frame_returned cfg r1) as Hd. by rewrite Hr in Hd.
  - intros [= <- <-]. exists (Marker h), (Length h).
    destruct h as [s m l]. simpl in *. subst s. split_and!; (done || lia).
  - by destruct (ReadFull _ r1) as [[bs|e] r2].
Qed.

(** A returning iteration: the reader has moved forward, an error comes
    with the configuration unchanged or zeroed, and success is a frame. *)
Lemma scan_step_done_inv cfg r cfg' err r' :
  scan_step cfg r = inl (Done (cfg', err) r') →
  advances r r' ∧
  match err with
  | Some _ => cfg' = cfg ∨ cfg' = set_size cfg 0 0
  | None => ∃ m len p ht w, m ∈ SOF ∧ 0 ≤ len < 2 ^ 16 ∧ 0 ≤ ht < 2 ^ 16
      ∧ 0 ≤ w < 2 ^ 16 ∧ cfg' = set_size cfg w ht
      ∧ pending r = encode_frame m len p ht w ++ pending r'
  end.
Proof.
  unfold scan_step.
  pose proof (binary_Read_advances BigEndian (zero : segmentHeader) r) as Ha.
  destruct (binary_Read _ _ r) as [[h [e|]] r1] eqn:E; simpl in Ha.
  { intros [= <- <- <-]. auto. }
  apply read_header_inv in E as (Hp & Hf & Hl).
  repeat case_decide; try done.
  - intros [= <- <- <-]. auto.
  - intros [= (Ha' & Hr)%read_frame_inv]. split; [by etrans|].
    destruct err as [e|]; [auto|]. destruct Hr as (p & ht & w & ? & ? & -> & Hp').
    exists (Marker h), (Length h), p, ht, w. split_and!; try (done || lia).
    unfold encode_frame. rewrite Hp, Hp', <- !app_assoc.
    destruct h as [s m l]. simpl in *. by subst s.
  - pose proof (ReadFull_advances (Z.to_nat (Length h - 2)) r1) as Ha'.
    destruct (ReadFull _ r1) as [[bs|e] r2]; [done|]. intros [= <- <- <-].
    split; [by etrans|auto].
Qed.

(** An iteration that leaves the function, by a return or by a panic,
    leaves the reader further on. *)
Lemma scan_step_state cfg r res r' :
  scan_step cfg r = inl res → state_of res = Some r' → advances r r'.
Proof.
  destruct res as [[cfg' err] r1|p r1| |]; simpl; intros Hs [= <-].
  - by apply scan_step_done_inv in Hs as [? _].
  - apply scan_step_panic_inv in Hs as (m & len & _ & _ & _ & Hp & Hf).
    split; [by eexists|done].
Qed.

(** Every walk is a run of skippable segments followed by one returning
    iteration. *)
Lemma walk_inv cfg r :
  ∃ segs r1 res, Forall skippable segs
    ∧ pending r = encode_segments segs ++ pending r1 ∧ final r1 = final r
    ∧ scan_step cfg r1 = inl res ∧ walk cfg r = res.
Proof.
  induction r as [r res E|r r' E (segs & r1 & res & Hs & Hp & Hf & Hr & Hw)]
    using (walk_ind cfg).
  - exists [], r, res. split_and!; try done. by apply walk_return.
  - apply scan_step_continue_inv in E as Hi. destruct Hi as (s & Hsk & Hp' & Hf').
    exists (s :: segs), r1, res. split_and!; try done.
    + by constructor.
    + unfold encode_segments in *. by rewrite fmap_cons, concat_cons, <- app_assoc, <- Hp.
    + congruence.
    + by rewrite walk_unfold, E.
Qed.

(** Every run of [DecodeConfig]: the magic is missing or wrong, or the
    walk starts behind it. *)
Lemma jpeg_cases r :
  (∃ e r1, DecodeConfig r = Done (cfg0, Some e) r1 ∧ advances r r1)
  ∨ (∃ r1, pending r = Header ++ pending r1 ∧ final r1 = final r
           ∧ DecodeConfig r = walk cfg0 r1).
Proof.
  rewrite DecodeConfig_walk.
  pose proof (binary_Read_advances LittleEndian (zero : byte_array 2) r) as Ha.
  destruct (binary_Read _ _ r) as [[magic [e|]] r1] eqn:E; [by eauto|].
  case_decide as Hm; [by eauto|]. right. exists r1.
  apply binary_Read_ok_inv in E as (bs & Hp & _ & Hf & ->).
  simpl in Hm. by subst bs.
Qed.

(** The dimensions of whatever [DecodeConfig] returns are uint16 values. *)
Lemma DecodeConfig_range r cfg err r' :
  DecodeConfig r = Done (cfg, err) r' →
  0 ≤ Width cfg < 2 ^ 16 ∧ 0 ≤ Height cfg < 2 ^ 16.
Proof.
  destruct (jpeg_cases r) as [(e & r1 & -> & _)|(r1 & _ & _ & ->)].
  { intros [= <- _ _]. simpl. lia. }
  destruct (walk_inv cfg0 r1) as (segs & r2 & res & _ & _ & _ & Hr & ->).
  intros ->. apply scan_step_done_inv in Hr as [_ Hr].
  destruct err as [e|]; [destruct Hr as [->| ->]; simpl; lia|].
  destruct Hr as (m & len & p & ht & w & _ & _ & ? & ? & -> & _). simpl. lia.
Qed.

(** So they are values of [int] at either width. *)
Lemma jpeg_config_typed r : typed (DecodeConfig r).
Proof.
  destruct (DecodeConfig r) as [[cfg err] r'| | |] eqn:E; [|done..].
  apply DecodeConfig_range in E as [??].
  split; [split; [|by destruct err]|done]. split; apply int32_ok_int_ok; unfold int32_ok; simpl in *; lia.
Qed.

End inversion.

(** ** Truncated streams *)

(** The answer to a stream that ended too early. *)
Definition truncated (o : outcome Reader (Config * option error)) : Prop :=
  ∃ e, truncation e ∧ o = Done (cfg0, Some e) (NewReader []).

Section truncation.
Context {a : Arch}.
Implicit Types (s : segment) (segs : list segment).

Lemma truncated_short got :
  truncated (Done (cfg0, Some (short_read_error got io_EOF)) (mkReader [] io_EOF)).
Proof. eexists. split; [|done]. apply short_read_error_truncation. by left. Qed.

Lemma walk_truncated_header bs :
  (length bs < 4)%nat → truncated (walk cfg0 (NewReader bs)).
Proof.
  intros. erewrite walk_return; [|by apply scan_step_short].
  apply truncated_short.
Qed.

Lemma length_encode_segment s :
  length (encode_segment s) = (4 + length (seg_payload s))%nat.
Proof. unfold encode_segment. rewrite length_app. simpl. by autorewrite with go. Qed.

Lemma walk_truncated_segment s n :
  skippable s → (n < length (encode_segment s))%nat →
  truncated (walk cfg0 (NewReader (take n (encode_segment s)))).
Proof.
  intros Hs Hn. pose proof (seg_length_range s Hs) as Hr. destruct Hs as [Hm _].
  rewrite length_encode_segment in Hn.
  destruct (decide (n < 4)%nat).
  { apply walk_truncated_header. rewrite length_take. lia. }
  unfold encode_segment, NewReader. rewrite take_app_ge by (simpl; lia).
  erewrite walk_return; [apply truncated_short|].
  rewrite scan_step_encoded by (simpl; lia). simpl.
  rewrite !decide_False by (done || lia).
  rewrite ReadFull_short; [done|].
  simpl. rewrite length_take. unfold seg_length in *. lia.
Qed.

Lemma walk_truncated_frame m len p ht w n :
  m ∈ SOF → 0 ≤ len < 2 ^ 16 → (n < length (encode_frame m len p ht w))%nat →
  truncated (walk cfg0 (NewReader (take n (encode_frame m len p ht w)))).
Proof.
  intros Hm Hl Hn.
  destruct (decide (n < 4)%nat).
  { apply walk_truncated_header. rewrite length_take. lia. }
  unfold encode_frame, NewReader in *. rewrite take_app_ge by (simpl; lia).
  rewrite length_app in Hn.
  erewrite walk_return; [apply truncated_short|].
  rewrite scan_step_encoded by done. simpl. rewrite decide_True by done.
  unfold read_frame. rewrite binary_Read_short; [simpl; by rewrite to_int_0|].
  cbn [pending dataSize frameDim_Binary]. rewrite length_take.
  rewrite !length_app, !length_bytes_of_uint in *. simpl in *. lia.
Qed.

(** Skippable segments in front of a stream do not hide its truncation. *)
Lemma walk_truncated_segments segs tail n :
  Forall skippable segs →
  (∀ k, (k < length tail)%nat → truncated (walk cfg0 (NewReader (take k tail)))) →
  (n < length (encode_segments segs ++ tail))%nat →
  truncated (walk cfg0 (NewReader (take n (encode_segments segs ++ tail)))).
Proof.
  intros Hs Ht. revert n. induction Hs as [|s segs Hs _ IH]; intros n Hn; [by apply Ht|].
  unfold encode_segments in *. rewrite fmap_cons, concat_cons, <- app_assoc in *.
  rewrite length_app in Hn.
  destruct (decide (n < length (encode_segment s))%nat).
  - rewrite take_app_le by lia. by apply walk_truncated_segment.
  - rewrite take_app_ge by lia. unfold NewReader.
    rewrite walk_unfold, scan_step_segment by done. apply IH. lia.
Qed.

End truncation.

(** ** Properties of [DecodeConfig] *)

(** A JPEG stream up to the frame dimensions: the magic, marker segments
    that are skipped, and a start-of-frame segment. *)
Definition jpeg_file (segs : list segment) (m : byte) (len : Z) (p : byte)
    (ht w : Z) : list byte :=
  Header ++ encode_segments segs ++ encode_frame m len p ht w.

Section properties.
Context {a : Arch}.
Implicit Types (segs : list segment).

(** C1: for a stream that holds the magic, any number of skippable
    marker segments of any content, and a start-of-frame segment (marker C0,
    C1 or C2) with height [ht] and width [w], [DecodeConfig] returns the
    RGBA model with width [w] and height [ht] and no error, and leaves the
    reader just behind the width. *)
Theorem jpeg_frame_after_segments segs m len p ht w rest e :
  Forall skippable segs → m ∈ SOF →
  0 ≤ len < 2 ^ 16 → 0 ≤ ht < 2 ^ 16 → 0 ≤ w < 2 ^ 16 →
  DecodeConfig (mkReader (jpeg_file segs m len p ht w ++ rest) e)
  = Done (mkConfig RGBAModel w ht, None) (mkReader rest e).
Proof.
  intros Hs Hm Hl Hh Hw. unfold jpeg_file.
  rewrite <- !app_assoc, DecodeConfig_magic, walk_segments by done.
  by apply walk_return, scan_step_frame.
Qed.

(** C3: the segment loop terminates: with the fuel [DecodeConfig]
    gives it, it returns or panics on every reader and never runs out. *)
Theorem jpeg_terminates r : DecodeConfig r ≠ Timeout.
Proof.
  destruct (jpeg_cases r) as [(e & r1 & -> & _)|(r1 & _ & _ & ->)]; [done|].
  apply walk_not_Timeout.
Qed.

(** C11: the loop of the source, run from any scratch buffer and any
    carried header with any fuel of at least [loop_fuel], computes the
    buffer-free walk: the buffer and its reuse have no influence on the
    result, and more fuel changes nothing. *)
Theorem jpeg_loop_refines_walk fuel cfg st r :
  (loop_fuel r ≤ fuel)%nat → segments fuel cfg st r = walk cfg r.
Proof. intros. rewrite segments_scan. by apply walk_scan. Qed.

(** C4: a segment that is not a start of frame and declares a length
    of 0 or 1 makes [DecodeConfig] panic with a slice bound of -2 or -1,
    wherever it stands behind skippable segments; the reader is left just
    behind that segment's header. *)
Theorem jpeg_panics_on_short_length segs m len rest e :
  Forall skippable segs → m ∉ SOF → 0 ≤ len < 2 →
  DecodeConfig (mkReader (Header ++ encode_segments segs
      ++ encode BigEndian (mkSegmentHeader Byte.xff m len) ++ rest) e)
  = Panic (slice_bounds_out_of_range (len - 2)) (mkReader rest e).
Proof.
  intros Hs Hm Hl. rewrite DecodeConfig_magic, walk_segments by done.
  apply walk_return. rewrite scan_step_encoded by (simpl; lia). simpl.
  by rewrite decide_False, decide_True by (done || lia).
Qed.

(** C10: that is the only panic: when [DecodeConfig] panics, the
    stream holds the magic, skippable segments, and then a segment header
    with the sentinel FF, a marker that is no start of frame, and a declared
    length of 0 or 1, behind which the reader is left. *)
Theorem jpeg_panic_only_short_length r p r' :
  DecodeConfig r = Panic p r' →
  ∃ segs m len, Forall skippable segs ∧ (m ∉ SOF) ∧ 0 ≤ len < 2
    ∧ p = slice_bounds_out_of_range (len - 2)
    ∧ pending r = Header ++ encode_segments segs
        ++ encode BigEndian (mkSegmentHeader Byte.xff m len) ++ pending r'.
Proof.
  destruct (jpeg_cases r) as [(e & r1 & -> & _)|(r1 & Hp & _ & ->)]; [done|].
  destruct (walk_inv cfg0 r1) as (segs & r2 & res & Hs & Hp1 & _ & Hr & ->).
  intros ->. apply scan_step_panic_inv in Hr as (m & len & ? & ? & ? & Hp2 & _).
  exists segs, m, len. by rewrite Hp, Hp1, Hp2.
Qed.

(** A segment header whose first byte is not FF is refused with
    ErrInvalid and the zero configuration, wherever it stands behind
    skippable segments. *)
Theorem jpeg_bad_sentinel segs s m len rest e :
  Forall skippable segs → s ≠ Byte.xff → 0 ≤ len < 2 ^ 16 →
  DecodeConfig (mkReader (Header ++ encode_segments segs
      ++ encode BigEndian (mkSegmentHeader s m len) ++ rest) e)
  = Done (cfg0, Some ErrInvalid) (mkReader rest e).
Proof.
  intros Hs Hn Hl. rewrite DecodeConfig_magic, walk_segments by done.
  apply walk_return. rewrite scan_step_encoded by done. simpl.
  by rewrite decide_True.
Qed.

(** Two bytes other than FF D8 are refused with ErrInvalid. *)
Theorem jpeg_bad_magic bs rest e :
  length bs = 2%nat → bs ≠ Header →
  DecodeConfig (mkReader (bs ++ rest) e) = Done (cfg0, Some ErrInvalid) (mkReader rest e).
Proof.
  intros Hl Hn. rewrite DecodeConfig_walk, binary_Read_app by done. simpl.
  by rewrite decide_True.
Qed.

(** The reader only moves forward: what is left after
    [DecodeConfig], when it returns and when it panics, is a suffix of
    what was there before, with the same end. *)
Theorem jpeg_forward_only r r' :
  state_of (DecodeConfig r) = Some r' → advances r r'.
Proof.
  destruct (jpeg_cases r) as [(e & r1 & -> & Ha)|(r1 & Hp & Hf & ->)].
  { by intros [= <-]. }
  destruct (walk_inv cfg0 r1) as (segs & r2 & res & _ & Hp1 & Hf1 & Hr & ->).
  intros [[k Hk] Hf2]%(scan_step_state _ _ _ _ Hr).
  split; [|congruence]. exists (Header ++ encode_segments segs ++ k).
  by rewrite Hp, Hp1, Hk, <- !app_assoc.
Qed.

(** C8: soundness: when [DecodeConfig] returns no error, the bytes
    consumed are the magic, skippable segments, and a start-of-frame
    segment up to its dimensions, and the configuration holds exactly that
    frame's width and height. *)
Theorem jpeg_sound r cfg r' :
  DecodeConfig r = Done (cfg, None) r' →
  ∃ segs m len p ht w, Forall skippable segs ∧ m ∈ SOF ∧ 0 ≤ len < 2 ^ 16
    ∧ 0 ≤ ht < 2 ^ 16 ∧ 0 ≤ w < 2 ^ 16 ∧ cfg = mkConfig RGBAModel w ht
    ∧ pending r = jpeg_file segs m len p ht w ++ pending r'.
Proof.
  destruct (jpeg_cases r) as [(e & r1 & -> & _)|(r1 & Hp & _ & ->)]; [done|].
  destruct (walk_inv cfg0 r1) as (segs & r2 & res & Hs & Hp1 & _ & Hr & ->).
  intros ->. apply scan_step_done_inv in Hr
    as (_ & m & len & p & ht & w & ? & ? & ? & ? & -> & Hp2).
  exists segs, m, len, p, ht, w. split_and!; try (done || lia).
  unfold jpeg_file. by rewrite Hp, Hp1, Hp2, <- !app_assoc.
Qed.

(** The dimensions [DecodeConfig] returns are uint16 values: width
    and height lie between 0 and 65535, with or without an error. *)
Theorem jpeg_dims_in_range r cfg err r' :
  DecodeConfig r = Done (cfg, err) r' →
  0 ≤ Width cfg < 2 ^ 16 ∧ 0 ≤ Height cfg < 2 ^ 16.
Proof. apply DecodeConfig_range. Qed.

(** C33: when [DecodeConfig] returns an error, the configuration
    beside it is the initial one: RGBA model, width 0, height 0. *)
Theorem jpeg_error_zero_config r cfg e r' :
  DecodeConfig r = Done (cfg, Some e) r' → cfg = cfg0.
Proof.
  destruct (jpeg_cases r) as [(e' & r1 & -> & _)|(r1 & _ & _ & ->)].
  { by intros [= <- _ _]. }
  destruct (walk_inv cfg0 r1) as (segs & r2 & res & _ & _ & _ & Hr & ->).
  intros ->. by apply scan_step_done_inv in Hr as [_ [->| ->]].
Qed.

(** The stream of the specification's example, in which the
    start-of-frame marker is followed at once by the precision byte and the
    dimensions (no length field), is not decoded to 240 by 320: the two bytes
    behind the marker are taken as the segment length, the five bytes of the
    dimension block are no longer there, and the result is
    io.ErrUnexpectedEOF with the zero configuration. *)
Theorem jpeg_spec_example_fails payload p :
  length payload = 14%nat →
  DecodeConfig (NewReader (Header ++ [Byte.xff; Byte.xe0; Byte.x00; Byte.x10] ++ payload
      ++ [Byte.xff; Byte.xc0; p; Byte.x01; Byte.x40; Byte.x00; Byte.xf0]))
  = Done (cfg0, Some io_ErrUnexpectedEOF) (NewReader []).
Proof.
  intros Hl. unfold NewReader. rewrite DecodeConfig_magic, app_assoc.
  replace ([Byte.xff; Byte.xe0; Byte.x00; Byte.x10] ++ payload)
    with (encode_segments [mkSegment Byte.xe0 payload])
    by (unfold encode_segments, encode_segment, seg_length; simpl; by rewrite Hl, app_nil_r).
  rewrite walk_segments by (repeat constructor; [set_solver|unfold seg_length; simpl; lia]).
  apply walk_return. unfold scan_step.
  change [Byte.xff; Byte.xc0; p; Byte.x01; Byte.x40; Byte.x00; Byte.xf0]
    with ([Byte.xff; Byte.xc0; p; Byte.x01] ++ [Byte.x40; Byte.x00; Byte.xf0]).
  rewrite binary_Read_app by done. simpl. unfold read_frame.
  rewrite binary_Read_short by (simpl; lia). simpl. by rewrite to_int_0.
Qed.

(** C30: a stream cut anywhere before the end of the frame dimensions
    is answered with a truncation error (io.EOF or io.ErrUnexpectedEOF) and
    the zero configuration, never with dimensions. *)
Theorem jpeg_truncated segs m len p ht w n :
  Forall skippable segs → m ∈ SOF → 0 ≤ len < 2 ^ 16 →
  (n < length (jpeg_file segs m len p ht w))%nat →
  truncated (DecodeConfig (NewReader (take n (jpeg_file segs m len p ht w)))).
Proof.
  intros Hs Hm Hl Hn. unfold jpeg_file in *. rewrite length_app in Hn.
  destruct (decide (n < 2)%nat).
  - rewrite DecodeConfig_walk, binary_Read_short by (simpl; rewrite length_take; lia).
    apply truncated_short.
  - rewrite take_app_ge by (simpl; lia). unfold NewReader. rewrite DecodeConfig_magic.
    apply walk_truncated_segments; [done| |simpl in *; lia].
    intros k Hk. by apply walk_truncated_frame.
Qed.

End properties.

(** ** The loop as a relation *)

Section relation.
Context {a : Arch}.
Implicit Types (cfg : Config) (st : loop_state).

Lemma loops_walk cfg st r res : loops cfg st r res → walk cfg r = res.
Proof.
  induction 1 as [st r res Hs|st r st' r' res Hs _ IH]; rewrite walk_unfold;
    pose proof (segment_step_scan_step cfg st r) as Hr; rewrite Hs in Hr; by rewrite Hr.
Qed.

Lemma walk_loops cfg r : ∀ st, loops cfg st r (walk cfg r).
Proof.
  induction r as [r res Hr|r r' Hr IH] using (walk_ind cfg); intros st;
    rewrite walk_unfold, Hr; pose proof (segment_step_scan_step cfg st r) as Hs;
    destruct (segment_step cfg st r) as [res'|st' r''] eqn:Es; rewrite Hr in Hs; try done.
  - injection Hs as ->. by apply loops_return.
  - injection Hs as ->. eapply loops_continue; [done|apply IH].
Qed.

(** C28: the loop is left: from every state, on every stream, after at
    most one passage for every four bytes that are pending and one more,
    the function has returned or panicked, with the result [segments]
    computes; until then the run is inside the loop. *)
Theorem jpeg_loop_leaves cfg st r :
  ∃ n, (0 < n ≤ loop_fuel r)%nat
    ∧ Nat.iter n (lap cfg) (InLoop st r) = Left (segments (loop_fuel r) cfg st r)
    ∧ ∀ m, (m < n)%nat → inside (Nat.iter m (lap cfg) (InLoop st r)).
Proof.
  setoid_rewrite segments_scan. change (scan (loop_fuel r) cfg r) with (walk cfg r).
  revert st. induction r as [r res Hr|r r' Hr IH] using (walk_ind cfg); intros st;
    rewrite walk_unfold, Hr; pose proof (segment_step_scan_step cfg st r) as Hs;
    destruct (segment_step cfg st r) as [res'|st' r''] eqn:Es; rewrite Hr in Hs; try done;
    injection Hs as ->.
  - exists 1%nat. simpl. rewrite Es. split_and!; [lia|unfold loop_fuel; lia|done|].
    intros [|m] ?; [done|lia].
  - destruct (IH st') as (n & [Hn0 Hn] & Hi & Hm). apply loop_fuel_continue in Hr.
    exists (S n). rewrite Nat.iter_succ_r. simpl. rewrite Es. split_and!; [lia..|done|].
    intros [|m] ?; [done|]. rewrite Nat.iter_succ_r. simpl. rewrite Es. apply Hm. lia.
Qed.

(** The fuel is a device of the model only: the loop of the
    source, taken as a relation between the state an iteration starts in
    and the result the function leaves with, relates every state to exactly
    one result, and that result is the one [segments] computes with the
    fuel [DecodeConfig] gives it. *)
Theorem jpeg_loop_relational cfg st r res :
  loops cfg st r res ↔ segments (loop_fuel r) cfg st r = res.
Proof.
  rewrite segments_scan. change (scan (loop_fuel r) cfg r) with (walk cfg r). split.
  - apply loops_walk.
  - intros <-. apply walk_loops.
Qed.

End relation.

(** ** The scratch buffer and the reader along a run *)

Section invariant.
Context {a : Arch}.
Implicit Types (cfg : Config) (st : loop_state) (h : segmentHeader).

(** The buffer a skipped segment leaves is the one it found, or a new one
    of the declared length. *)
Lemma skip_segment_buf cfg h buf r st' r' :
  0 ≤ Length h < 2 ^ 16 → skip_segment cfg h buf r = Continue st' r' →
  Z.of_nat (length (st_buf st')) = Z.of_nat (length buf) `max` Length h.
Proof.
  intros Hl. unfold skip_segment. pose proof (length_grow buf h Hl) as Hg.
  rewrite slice_to_grow by done. case_decide; [done|].
  pose proof (binary_Read_slice_length (Z.to_nat (Length h - 2)) (grow buf h) r ltac:(lia)) as Hb.
  destruct (binary_Read_slice _ _ r) as [[buf2 [e|]] r2]; [done|]. intros [= <- _].
  simpl in *. rewrite Hb. unfold grow. rewrite to_int_uint16 by done.
  case_decide; [rewrite length_replicate|]; lia.
Qed.

Lemma segment_step_buf cfg st r st' r' :
  segment_step cfg st r = Continue st' r' →
  Z.of_nat (length (st_buf st')) < 2 ^ 16 `max` (Z.of_nat (length (st_buf st)) + 1).
Proof.
  unfold segment_step. destruct (binary_Read _ _ r) as [[h [e|]] r1] eqn:E; [done|].
  apply read_header_range in E. repeat case_decide; try done.
  intros ->%skip_segment_buf; [lia|done].
Qed.

Lemma lap_ok cfg r0 x : run_ok r0 x → run_ok r0 (lap cfg x).
Proof.
  destruct x as [st r|res]; [|done]. intros [Hb Ha]. simpl.
  pose proof (segment_step_scan_step cfg st r) as Hs.
  destruct (segment_step cfg st r) as [res|st' r'] eqn:Es; simpl.
  - destruct (state_of res) as [r'|] eqn:Er; [|done].
    etrans; [done|by eapply scan_step_state].
  - apply scan_step_continue in Hs as [? _]. apply segment_step_buf in Es.
    split; [lia|by etrans].
Qed.

(** C29: the scratch buffer and the reader along a call: in every run
    that [DecodeConfig] reaches on a reader, whatever the stream holds and
    however many segments were skipped, the buffer for skipped payloads is
    shorter than 2^16 bytes, and the reader has only moved forward from
    where the loop found it, with the same end, also when the loop is left
    by a panic. *)
Theorem jpeg_loop_invariant cfg r0 x : reached cfg r0 x → run_ok r0 x.
Proof.
  induction 1 as [|x _ IH]; [|by apply lap_ok].
  split; [by simpl|done].
Qed.

End invariant.

(** ** Any reader

    The loop on a reader of any type that keeps the laws of [Stream]: each
    iteration, and so the loop and [DecodeConfig], does on the reader what
    it does on the bytes the reader has to deliver. *)
Definition step_view {R} `{Stream R} (s : step_result R) : step_result Reader :=
  match s with
  | Return res => Return (on_state view res)
  | Continue st r => Continue st (view r)
  end.

Section any_reader.
Context {a : Arch} {R : Type} `{StreamLaws R}.
Implicit Types (cfg : Config) (st : loop_state).

Lemma read_frame_view cfg (r : R) :
  on_state view (read_frame cfg r) = read_frame cfg (view r).
Proof.
  unfold read_frame. rewrite binary_Read_view. by destruct (binary_Read _ _ r) as [[??]?].
Qed.

Lemma skip_segment_view cfg h buf (r : R) :
  step_view (skip_segment cfg h buf r) = skip_segment cfg h buf (view r).
Proof.
  unfold skip_segment. destruct (slice_to _ _) as [p|n]; [done|].
  rewrite binary_Read_slice_view. by destruct (binary_Read_slice _ _ r) as [[? [e|]] ?].
Qed.

Lemma segment_step_view cfg st (r : R) :
  step_view (segment_step cfg st r) = segment_step cfg st (view r).
Proof.
  unfold segment_step. rewrite binary_Read_view.
  destruct (binary_Read _ _ r) as [[h [e|]] r1]; simpl; [done|].
  repeat case_decide; [done| |apply skip_segment_view]. simpl. by rewrite read_frame_view.
Qed.

Lemma segments_view fuel cfg st (r : R) :
  on_state view (segments fuel cfg st r) = segments fuel cfg st (view r).
Proof.
  revert st r. induction fuel as [|fuel IH]; intros st r; [done|]. simpl.
  rewrite <- segment_step_view. destruct (segment_step cfg st r) as [res|st' r']; [done|].
  apply IH.
Qed.

(** The parser is the same on every reader: for a reader of any
    type that keeps the laws of [Stream], [DecodeConfig] returns or panics
    as it does on the bytes the reader still has to deliver, and leaves the
    reader with the bytes it leaves of them. *)
Theorem jpeg_any_reader (r : R) : on_state view (DecodeConfig r) = DecodeConfig (view r).
Proof.
  unfold DecodeConfig. rewrite binary_Read_view.
  destruct (binary_Read _ _ r) as [[magic [e|]] r1]; cbn -[segments loop_fuel]; [done|].
  case_decide; [done|]. apply segments_view.
Qed.

End any_reader.

(** ** The width of [int] *)

Lemma read_frame_arch (a1 a2 : Arch) cfg r :
  read_frame (a:=a1) cfg r = read_frame (a:=a2) cfg r.
Proof.
  unfold read_frame; unfold_Read. destruct (ReadFull _ r) as [[bs|e] r']; simpl.
  - by rewrite !to_int_uint16 by apply (uint_at_range BigEndian _ 2).
  - by rewrite !to_int_0.
Qed.

Lemma scan_arch (a1 a2 : Arch) fuel cfg r :
  scan (a:=a1) fuel cfg r = scan (a:=a2) fuel cfg r.
Proof.
  revert r. induction fuel as [|fuel IH]; intros r; [done|]. simpl.
  replace (scan_step (a:=a1) cfg r) with (scan_step (a:=a2) cfg r);
    [by destruct (scan_step cfg r)|].
  unfold scan_step. destruct (binary_Read _ _ r) as [[h [e|]] r1]; [done|].
  by rewrite (read_frame_arch a1 a2).
Qed.

(** [DecodeConfig] does not depend on the width of [int]: on a
    32-bit and on a 64-bit platform it returns the same configuration, the
    same error and the same position for every stream, and panics on the
    same streams. *)
Theorem jpeg_arch_independent (a1 a2 : Arch) r :
  DecodeConfig (a:=a1) r = DecodeConfig (a:=a2) r.
Proof.
  rewrite !DecodeConfig_walk. destruct (binary_Read _ _ r) as [[magic [e|]] r1]; [done|].
  case_decide; [done|]. apply scan_arch.
Qed.

(** ** The theorems at concrete streams *)

(** An APP0 segment with 14 bytes of payload and a comment segment with
    none. *)
Definition app0_example : segment := mkSegment Byte.xe0 (bytes_of (replicate 14 7)).
Definition com_example : segment := mkSegment Byte.xfe [].

(** The stream of the specification's example with the frame segment's
    length field in place: 240 by 320. *)
(** The stream handed over three bytes at a time. *)
Lemma jpeg_any_reader_witness :
  let bs := jpeg_file [app0_example; com_example] Byte.xc0 17 Byte.x08 480 640 in
  let c := mkChunked [take 3 bs; take 3 (drop 3 bs); take 3 (drop 6 bs); drop 9 bs] io_EOF in
  on_state view (DecodeConfig (a:=Arch64) c) = DecodeConfig (a:=Arch64) (view c).
Proof. apply (jpeg_any_reader (R:=Chunked)). Defined.

(** Two passages through the loop on a stream of two skippable segments. *)
Lemma jpeg_loop_invariant_witness :
  let r0 := NewReader (encode_segments [app0_example; com_example]
                         ++ encode_frame Byte.xc0 17 Byte.x08 480 640) in
  run_ok r0 (lap (a:=Arch64) cfg0 (lap (a:=Arch64) cfg0 (InLoop st0 r0))).
Proof.
  apply (jpeg_loop_invariant (a:=Arch64) cfg0). do 2 apply reached_lap. apply reached_start.
Defined.

Lemma jpeg_frame_after_segments_witness :
  DecodeConfig (a:=Arch64)
    (mkReader (jpeg_file [app0_example; com_example] Byte.xc0 17 Byte.x08 320 240
               ++ bytes_of [3; 1]) io_EOF)
  = Done (mkConfig RGBAModel 240 320, None) (mkReader (bytes_of [3; 1]) io_EOF).
Proof. apply jpeg_frame_after_segments; by_decide. Defined.

Lemma jpeg_loop_refines_walk_witness :
  segments (a:=Arch64) 7 cfg0 (mkLoop zero (bytes_of [1; 2; 3]))
    (NewReader (encode_segments [app0_example]))
  = walk (a:=Arch64) cfg0 (NewReader (encode_segments [app0_example])).
Proof. apply jpeg_loop_refines_walk. by_decide. Defined.

Lemma jpeg_panics_on_short_length_witness :
  DecodeConfig (a:=Arch64)
    (mkReader (Header ++ encode_segments [app0_example]
       ++ encode BigEndian (mkSegmentHeader Byte.xff Byte.xe1 1) ++ bytes_of [8; 1]) io_EOF)
  = Panic (slice_bounds_out_of_range (1 - 2)) (mkReader (bytes_of [8; 1]) io_EOF).
Proof. apply jpeg_panics_on_short_length; by_decide. Defined.

Lemma jpeg_panic_only_short_length_witness :
  ∃ segs m len, Forall skippable segs ∧ (m ∉ SOF) ∧ 0 ≤ len < 2
    ∧ slice_bounds_out_of_range (-2) = slice_bounds_out_of_range (len - 2)
    ∧ pending (NewReader (bytes_of [0xff; 0xd8; 0xff; 0xdb; 0; 0; 7]))
      = Header ++ encode_segments segs
        ++ encode BigEndian (mkSegmentHeader Byte.xff m len) ++ pending (NewReader (bytes_of [7])).
Proof.
  apply (jpeg_panic_only_short_length (a:=Arch64)). by vm_compute.
Defined.

Lemma jpeg_bad_sentinel_witness :
  DecodeConfig (a:=Arch64)
    (mkReader (Header ++ encode_segments [app0_example]
       ++ encode BigEndian (mkSegmentHeader Byte.x00 Byte.xc0 17) ++ bytes_of [8]) io_EOF)
  = Done (cfg0, Some ErrInvalid) (mkReader (bytes_of [8]) io_EOF).
Proof. apply jpeg_bad_sentinel; by_decide. Defined.

Lemma jpeg_bad_magic_witness :
  DecodeConfig (a:=Arch64) (mkReader (bytes_of [0x42; 0x4d] ++ bytes_of [1]) io_EOF)
  = Done (cfg0, Some ErrInvalid) (mkReader (bytes_of [1]) io_EOF).
Proof. apply jpeg_bad_magic; by_decide. Defined.

Lemma jpeg_forward_only_witness :
  advances (NewReader (jpeg_file [com_example] Byte.xc2 11 Byte.x08 2 3 ++ bytes_of [9]))
           (NewReader (bytes_of [9])).
Proof.
  apply (jpeg_forward_only (a:=Arch64)). by vm_compute.
Defined.

Lemma jpeg_sound_witness :
  ∃ segs m len p ht w, Forall skippable segs ∧ m ∈ SOF ∧ 0 ≤ len < 2 ^ 16
    ∧ 0 ≤ ht < 2 ^ 16 ∧ 0 ≤ w < 2 ^ 16
    ∧ mkConfig RGBAModel 3 2 = mkConfig RGBAModel w ht
    ∧ pending (NewReader (jpeg_file [com_example] Byte.xc2 11 Byte.x08 2 3 ++ bytes_of [9]))
      = jpeg_file segs m len p ht w ++ pending (NewReader (bytes_of [9])).
Proof. apply (jpeg_sound (a:=Arch64)). by vm_compute. Defined.

Lemma jpeg_dims_in_range_witness :
  0 ≤ Width (mkConfig RGBAModel 3 2) < 2 ^ 16 ∧ 0 ≤ Height (mkConfig RGBAModel 3 2) < 2 ^ 16.
Proof.
  apply (jpeg_dims_in_range (a:=Arch64)
           (NewReader (jpeg_file [com_example] Byte.xc2 11 Byte.x08 2 3)) _ None (NewReader [])).
  by vm_compute.
Defined.

Lemma jpeg_error_zero_config_witness : mkConfig RGBAModel 0 0 = cfg0.
Proof.
  apply (jpeg_error_zero_config (a:=Arch64) (NewReader (bytes_of [0xff; 0xd8; 0xff]))
           _ io_ErrUnexpectedEOF (NewReader [])).
  by vm_compute.
Defined.

Lemma jpeg_spec_example_fails_witness :
  DecodeConfig (a:=Arch64)
    (NewReader (Header ++ [Byte.xff; Byte.xe0; Byte.x00; Byte.x10] ++ bytes_of (replicate 14 7)
      ++ [Byte.xff; Byte.xc0; Byte.x08; Byte.x01; Byte.x40; Byte.x00; Byte.xf0]))
  = Done (cfg0, Some io_ErrUnexpectedEOF) (NewReader []).
Proof. by apply jpeg_spec_example_fails. Defined.

Lemma jpeg_truncated_witness :
  truncated (DecodeConfig (a:=Arch64)
    (NewReader (take 25 (jpeg_file [app0_example] Byte.xc0 17 Byte.x08 320 240)))).
Proof. apply jpeg_truncated; by_decide. Defined.

End Jpeg.
