(* ===== verification/Contracts.v ===== *)
(** * Contracts: the two parsers as the specification describes them

    The specification gives each parser as an algorithm on a stream
    (sections 4.2 and 4.3), over the data of section 3 and the errors of
    section 7.  This file writes those algorithms down as pure functions of
    what a stream still holds, with none of the code's machinery: no
    [binary.Read] layouts, no scratch buffer, no fuel, no Go error values.
    [FixedHeaderParser] is section 4.2.  [SegmentWalkingParser] is section
    4.3 in the two readings the specification allows: [ByRecord] reads the
    four-byte SegmentHeader of section 3 in every iteration, [ByMarker]
    follows the steps of section 4.3 to the letter (a two-byte marker record,
    then the frame fields or the length).  Its loop has no iteration bound;
    it is defined by well-founded recursion on the bytes that are left.
    The constants the specification leaves unnamed (the two magics, the
    start-of-frame codes) are written out here and not taken from the
    code, so that the theorems compare the code's constants with them.

    [implements] relates what a call of the code answers to the verdict of
    the contract.  The theorems say on which streams [bmp.DecodeConfig] and
    [jpeg.DecodeConfig] implement their contract: the first on every stream
    whose height fits Go's [int], the second on every stream under the
    reading [ByRecord], and under the reading [ByMarker] on no well-formed
    file but those whose frame repeats its own length bytes. *)

From Equations Require Import Equations.
From S2P Require Import Prelude Ints GoIO GoImage BmpConfig JpegConfig.
Import (hints) Bmp Jpeg.

Module Contract.

(** ** Section 7: the errors of a parser *)

Inductive failure : Type :=
| ErrTruncatedInput
| ErrInvalidFormat
| IOError (e : error).

#[export] Instance failure_eq_dec : EqDecision failure.
Proof. solve_decision. Defined.

(** ** Section 3: what a parser answers

    An ImageConfig (the colour model is always RGBA), an error, or nothing
    the specification fixes. *)
Inductive verdict : Type :=
| Returns (width height : Z)
| Fails (f : failure)
| Unspecified.

#[export] Instance verdict_eq_dec : EqDecision verdict.
Proof. solve_decision. Defined.

(** The invariant of ImageConfig: Width ≥ 0 and Height ≥ 0 once returned. *)
Definition valid (v : verdict) : Prop :=
  match v with Returns w h => 0 ≤ w ∧ 0 ≤ h | _ => True end.

#[export] Instance valid_dec v : Decision (valid v).
Proof. destruct v; simpl; apply _. Defined.

(** A field of [n] bytes: the bytes and the rest of the stream, or
    ErrTruncatedInput when the stream ends before them, or the error of the
    stream when it ends with one. *)
Definition field (n : nat) (r : Reader) : (list byte * Reader) + failure :=
  if decide (n ≤ length (pending r))%nat
  then inl (take n (pending r), mkReader (drop n (pending r)) (final r))
  else inr (if decide (final r = io_EOF) then ErrTruncatedInput else IOError (final r)).

(** ** The constants of the two formats

    The specification speaks of "the expected constant" of a magic and of
    "the three start-of-frame codes" without their values.  They are
    written out here as the formats define them, not taken from the code:
    the tag BM of a bitmap, the start-of-image marker FF D8 of JPEG, and
    the markers SOF0, SOF1 and SOF2 (baseline, extended sequential and
    progressive frames). *)
Definition bitmap_magic : list byte := [Byte.x42; Byte.x4d].
Definition start_of_image : list byte := [Byte.xff; Byte.xd8].
Definition start_of_frame : list byte := [Byte.xc0; Byte.xc1; Byte.xc2].

(** ** Section 4.2: FixedHeaderParser *)

(** Step 3 to 5: two integers of [n] bytes each, little endian, unsigned
    or signed; the height is reported by its magnitude.  The width is
    returned as it was read: step 5 calls it a non-negative integer without
    saying what becomes of a negative one, and section 8 expects the signed
    width [W] back. *)
Definition dimensions (signed : bool) (n : nat) (r : Reader) : verdict :=
  match field (2 * n) r with
  | inr f => Fails f
  | inl (bs, _) =>
    let number := if signed then int_at else uint_at in
    Returns (number LittleEndian 0%nat n bs) (Z.abs (number LittleEndian n n bs))
  end.

(** Step 1 names the fields of the fixed header: 2 + 4 + 2 + 2 + 4 bytes
    and the 4-byte variant size, 18 bytes in all. *)
Definition FixedHeaderParser (r : Reader) : verdict :=
  match field 18 r with
  | inr f => Fails f
  | inl (h, r1) =>
    if decide (take 2 h ≠ bitmap_magic) then Fails ErrInvalidFormat
    else
      let variant := uint_at LittleEndian 14 4 h in
      if decide (variant = 12) then dimensions false 2 r1
      else if decide (variant ∈ [40; 56; 108; 124]) then dimensions true 4 r1
      else Fails ErrInvalidFormat
  end.

(** ** Section 4.3: SegmentWalkingParser *)

Inductive reading : Type := ByRecord | ByMarker.

#[export] Instance reading_eq_dec : EqDecision reading.
Proof. solve_decision. Defined.

(** Step 2b: one byte of sample precision, then height and width. *)
Definition frame (r : Reader) : verdict :=
  match field 5 r with
  | inr f => Fails f
  | inl (bs, _) => Returns (uint_at BigEndian 3 2 bs) (uint_at BigEndian 1 2 bs)
  end.

(** Step 2c, behind the length [L]: L - 2 bytes are read and discarded.
    The specification does not say what a length below 2 means. *)
Definition discard (L : Z) (r : Reader) : verdict + Reader :=
  if decide (L < 2) then inl Unspecified
  else match field (Z.to_nat (L - 2)) r with
       | inr f => inl (Fails f)
       | inl (_, r') => inr r'
       end.

(** One passage through the loop of step 2: a verdict, or the stream
    behind a skipped segment. *)
Definition segment (rd : reading) (r : Reader) : verdict + Reader :=
  match field (match rd with ByRecord => 4 | ByMarker => 2 end) r with
  | inr f => inl (Fails f)
  | inl (h, r1) =>
    if decide (nth 0 h Byte.x00 ≠ Byte.xff) then inl (Fails ErrInvalidFormat)
    else if decide (nth 1 h Byte.x00 ∈ start_of_frame) then inl (frame r1)
    else match rd with
         | ByRecord => discard (uint_at BigEndian 2 2 h) r1
         | ByMarker =>
           match field 2 r1 with
           | inr f => inl (Fails f)
           | inl (l, r2) => discard (uint_of BigEndian l) r2
           end
         end
  end.

Lemma field_shrinks n r bs r' :
  field n r = inl (bs, r') → length (pending r') = (length (pending r) - n)%nat.
Proof. unfold field. case_decide; intros [= <- <-]. simpl. by rewrite length_drop. Qed.

Lemma discard_shrinks L r r' :
  discard L r = inr r' → (length (pending r') ≤ length (pending r))%nat.
Proof.
  unfold discard. case_decide; [done|].
  destruct (field _ r) as [[bs r1]|f] eqn:E; intros [= <-].
  apply field_shrinks in E. lia.
Qed.

(** A passage that goes round leaves fewer bytes. *)
Lemma segment_shrinks rd r r' :
  segment rd r = inr r' → (length (pending r') < length (pending r))%nat.
Proof.
  unfold segment. destruct (field _ r) as [[h r1]|f] eqn:E; [|done].
  assert (length (pending r1) < length (pending r))%nat as Hlt.
  { unfold field in E. case_decide; [|done]. injection E as <- <-. simpl.
    rewrite length_drop. destruct rd; lia. }
  repeat case_decide; try done. destruct rd.
  - intros ?%discard_shrinks. lia.
  - destruct (field 2 r1) as [[l r2]|f] eqn:E2; [|done].
    apply field_shrinks in E2. intros ?%discard_shrinks. lia.
Qed.

(** The loop of step 2: "no explicit iteration bound; it terminates only
    via step (b)'s success path or a failure". *)
Equations? walker (rd : reading) (r : Reader) : verdict by wf (length (pending r)) lt :=
walker rd r with Logic.inspect (segment rd r) := {
  | exist _ (inl v) _ => v
  | exist _ (inr r') E => walker rd r' }.
Proof. by eapply segment_shrinks. Qed.

(** Step 1 and the loop. *)
Definition SegmentWalkingParser (rd : reading) (r : Reader) : verdict :=
  match field 2 r with
  | inr f => Fails f
  | inl (magic, r1) =>
    if decide (magic ≠ start_of_image) then Fails ErrInvalidFormat else walker rd r1
  end.

(** ** What it means to implement the contract

    [agrees inv e f]: the Go error [e] is the failure [f], where [inv] is
    the package's ErrInvalid; both [io.EOF] and [io.ErrUnexpectedEOF] are
    ErrTruncatedInput, and an error of the stream is itself. *)
Definition agrees (inv e : error) (f : failure) : Prop :=
  match f with
  | ErrTruncatedInput => truncation e
  | ErrInvalidFormat => e = inv
  | IOError e' => e = e'
  end.

#[export] Instance agrees_dec inv e f : Decision (agrees inv e f).
Proof. destruct f; simpl; apply _. Defined.

(** A call implements a verdict when it returns the configuration with no
    error, or an error that is the failure (whatever configuration stands
    beside it); where the specification fixes nothing the code panics. *)
Definition implements {S} (inv : error) (o : outcome S (Config * option error))
    (v : verdict) : Prop :=
  match o, v with
  | Done (cfg, None) _, Returns w h => cfg = mkConfig RGBAModel w h
  | Done (_, Some e) _, Fails f => agrees inv e f
  | Panic _ _, Unspecified => True
  | _, _ => False
  end.

#[export] Instance implements_dec {S} inv (o : outcome S (Config * option error)) v :
  Decision (implements inv o v).
Proof. destruct o as [[? [?|]] ?| | |], v; simpl; apply _. Defined.

(** The heights Go's [int] holds. *)
Definition representable {a : Arch} (v : verdict) : Prop :=
  match v with Returns _ h => h ≤ int_max | _ => True end.

#[export] Instance representable_dec {a : Arch} v : Decision (representable v).
Proof. destruct v; simpl; apply _. Defined.

(** ** The code's reads are the contract's fields *)

Section fields.
Implicit Types (r : Reader).

Lemma field_app n bs rest e :
  length bs = n → field n (mkReader (bs ++ rest) e) = inl (bs, mkReader rest e).
Proof.
  intros <-. unfold field. simpl. rewrite decide_True by (rewrite length_app; lia).
  by rewrite take_app_length, drop_app_length.
Qed.

Lemma ReadFull_field n r :
  match field n r with
  | inl (bs, r') => ReadFull n r = (inl bs, r')
  | inr f => ∃ e, ReadFull n r = (inr e, mkReader [] (final r)) ∧ ∀ inv, agrees inv e f
  end.
Proof.
  unfold field, ReadFull. case_decide; [done|]. eexists. split; [done|]. intros inv.
  unfold short_read_error. repeat case_decide; simpl; unfold truncation; naive_solver.
Qed.

Lemma binary_Read_field {T} `{Binary T} o (data : T) r :
  match field dataSize r with
  | inl (bs, r') => binary_Read o data r = (decode o bs, None, r')
  | inr f => ∃ e, binary_Read o data r = (data, Some e, mkReader [] (final r))
                  ∧ ∀ inv, agrees inv e f
  end.
Proof.
  unfold_Read. pose proof (ReadFull_field dataSize r) as Hf.
  destruct (field _ r) as [[bs r']|f]; [by rewrite Hf|].
  destruct Hf as (e & -> & ?). eauto.
Qed.

Lemma implements_on_state {S S'} (g : S → S') inv (o : outcome S (Config * option error)) v :
  implements inv (on_state g o) v ↔ implements inv o v.
Proof. by destruct o as [[? [?|]] ?| | |]. Qed.

Lemma walker_step rd r :
  walker rd r = match segment rd r with inl v => v | inr r' => walker rd r' end.
Proof.
  funelim (walker rd r); match goal with H : segment _ _ = _ |- _ => by rewrite H end.
Qed.

End fields.

(** [read_as T o r]: the cases of the code's [binary.Read] of a [T] from
    [r], along the contract's field of the same size: the bytes [bs] and the
    rest [r1], or the error [e] that agrees ([Ha]) with the failure [f]. *)
Ltac read_as T o r :=
  let Hf := fresh "Hf" in
  pose proof (binary_Read_field o (zero : T) r) as Hf;
  change (field _ r) with (field (dataSize (T:=T)) r);
  destruct (field (dataSize (T:=T)) r) as [[bs r1]|f];
  [rewrite Hf; clear Hf | destruct Hf as (e & -> & Ha)].

(** ** [bmp.DecodeConfig] and the FixedHeaderParser *)

Section bmp.
Context {a : Arch}.
Implicit Types (r : Reader).

(** The code's negation on [int] is the magnitude exactly when the
    magnitude is a value of [int]. *)
Lemma reported_height_contract ht :
  - 2 ^ 31 ≤ ht < 2 ^ 31 → Bmp.reported_height ht = Z.abs ht ↔ Z.abs ht ≤ int_max.
Proof.
  intros Hr. assert (2 ^ 31 - 1 ≤ int_max) by (unfold int_max; destruct a; simpl; lia).
  split.
  - intros <-. unfold Bmp.reported_height. case_decide; [apply int_neg_range|lia].
  - intros. apply Bmp.reported_height_abs. unfold int_min, int_max in *. lia.
Qed.

Lemma implements_dimensions {S} w ht (s : S) :
  - 2 ^ 31 ≤ w < 2 ^ 31 → - 2 ^ 31 ≤ ht < 2 ^ 31 →
  implements Bmp.ErrInvalid
    (Done (Bmp.magnitude (set_size Bmp.cfg0 (to_int w) (to_int ht)), None) s)
    (Returns w (Z.abs ht))
  ↔ representable (Returns w (Z.abs ht)).
Proof.
  intros Hw Hh. rewrite !to_int_int32, Bmp.magnitude_set_size by done. simpl.
  rewrite <- reported_height_contract by done. unfold set_size. simpl.
  split; [by intros [= ->]|by intros ->].
Qed.

Lemma read_dims_contract h r :
  let v := if decide (Bmp.DIBSize h = 12) then dimensions false 2 r
           else if decide (Bmp.DIBSize h ∈ Bmp.info_sizes) then dimensions true 4 r
           else Fails ErrInvalidFormat in
  implements Bmp.ErrInvalid
    (Done (Bmp.magnitude (Bmp.read_dims h Bmp.cfg0 r).1.1, (Bmp.read_dims h Bmp.cfg0 r).1.2)
          (Bmp.read_dims h Bmp.cfg0 r).2) v
  ↔ representable v.
Proof.
  unfold Bmp.read_dims, dimensions. repeat case_decide; [| |done].
  - read_as Bmp.dimCore LittleEndian r; [|split; [done|intros _; apply Ha]].
    apply implements_dimensions.
    all: pose proof (uint_at_range LittleEndian 0 2 bs);
      pose proof (uint_at_range LittleEndian 2 2 bs); lia.
  - read_as Bmp.dimInfo LittleEndian r; [|split; [done|intros _; apply Ha]].
    apply implements_dimensions.
    all: pose proof (int_at_range LittleEndian 0 4 bs);
      pose proof (int_at_range LittleEndian 4 4 bs); simpl in *; lia.
Qed.

Lemma bmp_contract_reader r :
  implements Bmp.ErrInvalid (Bmp.DecodeConfig r) (FixedHeaderParser r)
  ↔ representable (FixedHeaderParser r).
Proof.
  unfold Bmp.DecodeConfig, FixedHeaderParser.
  read_as Bmp.bmpHeader LittleEndian r; [|split; [done|intros _; apply Ha]].
  change (Bmp.Magic (decode LittleEndian bs)) with (take 2 bs).
  do 2 case_decide; try done.
  pose proof (read_dims_contract (decode LittleEndian bs) r1) as Hd.
  by destruct (Bmp.read_dims _ _ r1) as [[cfg err] r2].
Qed.

End bmp.

(** ** [jpeg.DecodeConfig] and the SegmentWalkingParser *)

Section jpeg.
Context {a : Arch}.
Implicit Types (r : Reader).

Lemma frame_contract r : implements Jpeg.ErrInvalid (Jpeg.read_frame Jpeg.cfg0 r) (frame r).
Proof.
  unfold Jpeg.read_frame, frame. read_as Jpeg.frameDim BigEndian r; [|apply Ha].
  cbn [decode Jpeg.frameDim_Binary Jpeg.dimW Jpeg.dimH].
  by rewrite !to_int_uint16 by apply (uint_at_range BigEndian _ 2).
Qed.

(** One passage of the code's walk is one passage of the contract's. *)
Lemma scan_step_contract r :
  match Jpeg.scan_step Jpeg.cfg0 r, segment ByRecord r with
  | inl o, inl v => implements Jpeg.ErrInvalid o v
  | inr r1, inr r2 => r1 = r2
  | _, _ => False
  end.
Proof.
  unfold Jpeg.scan_step, segment, discard.
  read_as Jpeg.segmentHeader BigEndian r; [|apply Ha].
  cbn [decode Jpeg.segmentHeader_Binary Jpeg.Sentinel Jpeg.Marker Jpeg.Length].
  repeat case_decide; try done; [apply frame_contract|].
  pose proof (ReadFull_field (Z.to_nat (uint_at BigEndian 2 2 bs - 2)) r1) as Hr.
  destruct (field _ r1) as [[ps r2]|f]; [by rewrite Hr|].
  destruct Hr as (e & -> & Ha). apply Ha.
Qed.

Lemma walk_contract r :
  implements Jpeg.ErrInvalid (Jpeg.walk Jpeg.cfg0 r) (walker ByRecord r).
Proof.
  induction r as [r res E|r r' E IH] using (Jpeg.walk_ind Jpeg.cfg0);
    rewrite Jpeg.walk_unfold, walker_step, E;
    pose proof (scan_step_contract r) as Hs; rewrite E in Hs;
    destruct (segment ByRecord r); by subst.
Qed.

Lemma jpeg_contract_reader r :
  implements Jpeg.ErrInvalid (Jpeg.DecodeConfig r) (SegmentWalkingParser ByRecord r).
Proof.
  rewrite Jpeg.DecodeConfig_walk. unfold SegmentWalkingParser.
  read_as (byte_array 2) LittleEndian r; [|apply Ha].
  cbn [decode byte_array_Binary]. do 2 case_decide; try done. apply walk_contract.
Qed.

End jpeg.

(** ** The steps of section 4.3 on a well-formed file *)

Section files.
Implicit Types (segs : list Jpeg.segment).

(** Both readings step over a segment that has its length. *)
Lemma segment_skippable rd s rest e :
  Jpeg.skippable s →
  segment rd (mkReader (Jpeg.encode_segment s ++ rest) e) = inr (mkReader rest e).
Proof.
  intros Hs. pose proof (Jpeg.seg_length_range s Hs) as Hl. destruct Hs as [Hm _].
  unfold segment, Jpeg.encode_segment, discard. cbn [encode Jpeg.segmentHeader_Enc].
  unfold Jpeg.encode_segmentHeader. cbn [Jpeg.Sentinel Jpeg.Marker Jpeg.Length].
  destruct rd.
  - rewrite <- (app_assoc _ _ rest), field_app by by rewrite length_app, length_bytes_of_uint.
    cbn [nth app]. rewrite !decide_False by (done || by intros []).
    change (Byte.xff :: Jpeg.seg_marker s :: ?x) with ([Byte.xff; Jpeg.seg_marker s] ++ x).
    field_simpl. autorewrite with go. rewrite decide_False by lia.
    by rewrite field_app by (unfold Jpeg.seg_length; lia).
  - rewrite <- !app_assoc, field_app by done.
    cbn [nth]. rewrite !decide_False by (done || by intros []).
    rewrite field_app by by autorewrite with go. autorewrite with go.
    rewrite decide_False by lia. by rewrite field_app by (unfold Jpeg.seg_length; lia).
Qed.

Lemma walker_segments rd segs rest e :
  Forall Jpeg.skippable segs →
  walker rd (mkReader (Jpeg.encode_segments segs ++ rest) e) = walker rd (mkReader rest e).
Proof.
  induction 1 as [|s segs Hs _ IH]; [done|].
  unfold Jpeg.encode_segments in *. rewrite fmap_cons, concat_cons, <- app_assoc.
  by rewrite walker_step, segment_skippable.
Qed.

(** Behind a start-of-frame marker the steps read the frame fields at
    once: the first byte of the length as the precision, its second byte
    and the precision as the height, the height as the width. *)
Lemma segment_frame_ByMarker m len p ht w rest e :
  m ∈ Jpeg.SOF → 0 ≤ ht < 2 ^ 16 →
  segment ByMarker (mkReader (Jpeg.encode_frame m len p ht w ++ rest) e)
  = inl (Returns ht (256 * (len mod 256) + byte_to_Z p)).
Proof.
  intros Hm Hh. unfold segment, Jpeg.encode_frame, frame.
  cbn [encode Jpeg.segmentHeader_Enc]. unfold Jpeg.encode_segmentHeader.
  cbn [Jpeg.Sentinel Jpeg.Marker Jpeg.Length].
  rewrite <- !app_assoc, field_app by done. cbn [nth].
  rewrite decide_False, decide_True by (done || by intros []).
  change (bytes_of_uint BigEndian 2 len) with [Z_to_byte (len / 256); Z_to_byte len].
  rewrite (app_assoc [p]), (app_assoc [_; _]).
  rewrite field_app by by rewrite !length_app, length_bytes_of_uint.
  do 2 f_equal.
  - change ([?x; ?y] ++ [p] ++ ?z) with ([x; y; p] ++ z). field_simpl. by autorewrite with go.
  - unfold uint_at, uint_of. cbn [app take drop]. by rewrite be_uint_2, byte_to_Z_to_byte.
Qed.

End files.

(** ** The contract theorems *)

Section streams.
Context {a : Arch} {R : Type} `{StreamLaws R}.

(** C6: [bmp.DecodeConfig] implements the FixedHeaderParser of section
    4.2 on a reader of any type that keeps the laws of [Stream], exactly
    when the height the contract promises is a value of Go's [int]: the same
    width and magnitude of the height, ErrInvalid where the contract says
    ErrInvalidFormat, a truncation error where it says ErrTruncatedInput,
    the reader's own error otherwise.  (On a 64-bit platform every promised
    height is a value of [int].) *)
Theorem bmp_meets_contract (r : R) :
  implements Bmp.ErrInvalid (Bmp.DecodeConfig r) (FixedHeaderParser (view r))
  ↔ representable (FixedHeaderParser (view r)).
Proof. by rewrite <- bmp_contract_reader, <- Bmp.bmp_any_reader, implements_on_state. Qed.

(** C5: [jpeg.DecodeConfig] implements the SegmentWalkingParser of
    section 4.3, read with the SegmentHeader of section 3 in every
    iteration, on a reader of any type that keeps the laws of [Stream]: the
    same dimensions, the same class of error, and a panic exactly where the
    specification fixes nothing (a segment length below 2). *)
Theorem jpeg_meets_contract (r : R) :
  implements Jpeg.ErrInvalid (Jpeg.DecodeConfig r) (SegmentWalkingParser ByRecord (view r)).
Proof.
  rewrite <- (implements_on_state view), Jpeg.jpeg_any_reader. apply jpeg_contract_reader.
Qed.

End streams.

(** C15: on a well-formed file (the magic, skippable segments, a
    start-of-frame segment with its length field) the steps of section 4.3,
    taken to the letter, read the frame fields where the length stands: they
    return the frame's height as the width, and the second length byte and
    the precision as the height.  [jpeg.DecodeConfig] follows them only on a
    file whose width, height and length bytes happen to coincide. *)
Theorem jpeg_contract_frame_shift {a : Arch} segs m len p ht w rest e :
  Forall Jpeg.skippable segs → m ∈ Jpeg.SOF →
  0 ≤ len < 2 ^ 16 → 0 ≤ ht < 2 ^ 16 → 0 ≤ w < 2 ^ 16 →
  let r := mkReader (Jpeg.jpeg_file segs m len p ht w ++ rest) e in
  SegmentWalkingParser ByMarker r = Returns ht (256 * (len mod 256) + byte_to_Z p)
  ∧ (implements Jpeg.ErrInvalid (Jpeg.DecodeConfig r) (SegmentWalkingParser ByMarker r)
     ↔ w = ht ∧ ht = 256 * (len mod 256) + byte_to_Z p).
Proof.
  intros Hs Hm Hl Hh Hw r.
  assert (SegmentWalkingParser ByMarker r = Returns ht (256 * (len mod 256) + byte_to_Z p))
    as ->.
  { unfold r, SegmentWalkingParser, Jpeg.jpeg_file.
    rewrite <- !app_assoc, field_app, decide_False by (done || by intros []).
    by rewrite walker_segments, walker_step, segment_frame_ByMarker. }
  split; [done|]. unfold r, Jpeg.jpeg_file.
  rewrite <- !app_assoc, Jpeg.DecodeConfig_magic, Jpeg.walk_segments by done.
  erewrite Jpeg.walk_return by by apply Jpeg.scan_step_frame.
  simpl. split; [by intros [= -> <-]|by intros [-> <-]].
Qed.

(** ** Concrete runs *)

(** A bitmap of 240 by 320, stored top-down, handed over one byte at a
    time. *)
Lemma bmp_meets_contract_witness :
  let c := mkChunked ((λ b, [b]) <$> Bmp.info_file Bmp.info_example 240 (-320)) io_EOF in
  FixedHeaderParser (view c) = Returns 240 320
  ∧ implements Bmp.ErrInvalid (Bmp.DecodeConfig (a:=Arch64) c) (FixedHeaderParser (view c)).
Proof.
  intros c. split; [by vm_compute|].
  apply (bmp_meets_contract (a:=Arch64) (R:=Chunked)). by_decide.
Defined.

(** The height -2^31: the contract promises 2^31, which a 32-bit [int]
    does not hold, and the code answers -2^31. *)
Example bmp_contract_32_example :
  let r := NewReader (Bmp.info_file Bmp.info_example 1 (- 2 ^ 31)) in
  FixedHeaderParser r = Returns 1 (2 ^ 31)
  ∧ Bmp.DecodeConfig (a:=Arch32) r = Done (mkConfig RGBAModel 1 (- 2 ^ 31), None) (NewReader [])
  ∧ ¬ implements Bmp.ErrInvalid (Bmp.DecodeConfig (a:=Arch32) r) (FixedHeaderParser r).
Proof. by vm_compute. Qed.

(** A negative stored width: the code does what step 5 says and the
    verdict breaks the invariant of section 3. *)
Example bmp_contract_width_example :
  let r := NewReader (Bmp.info_file Bmp.info_example (-240) 320) in
  FixedHeaderParser r = Returns (-240) 320 ∧ ¬ valid (FixedHeaderParser r)
  ∧ implements Bmp.ErrInvalid (Bmp.DecodeConfig (a:=Arch64) r) (FixedHeaderParser r).
Proof. vm_compute. split_and!; [done| |done]. intros [? _]. done. Qed.

(** A JPEG of 640 by 480 behind two segments, three bytes at a time. *)
Lemma jpeg_meets_contract_witness :
  let bs := Jpeg.jpeg_file [Jpeg.app0_example; Jpeg.com_example] Byte.xc0 17 Byte.x08 480 640 in
  let c := mkChunked [take 3 bs; take 3 (drop 3 bs); take 3 (drop 6 bs); drop 9 bs] io_EOF in
  SegmentWalkingParser ByRecord (view c) = Returns 640 480
  ∧ implements Jpeg.ErrInvalid (Jpeg.DecodeConfig (a:=Arch64) c)
      (SegmentWalkingParser ByRecord (view c)).
Proof.
  intros bs c. split; [by vm_compute|]. apply (jpeg_meets_contract (a:=Arch64) (R:=Chunked)).
Defined.

(** The same file under the steps of section 4.3: 480 wide, 17 * 256 + 8
    high. *)
Lemma jpeg_contract_frame_shift_witness :
  let r := mkReader (Jpeg.jpeg_file [Jpeg.app0_example; Jpeg.com_example]
                       Byte.xc0 17 Byte.x08 480 640 ++ []) io_EOF in
  SegmentWalkingParser ByMarker r = Returns 480 (256 * (17 mod 256) + byte_to_Z Byte.x08)
  ∧ (implements Jpeg.ErrInvalid (Jpeg.DecodeConfig (a:=Arch64) r)
       (SegmentWalkingParser ByMarker r)
     ↔ 640 = 480 ∧ 480 = 256 * (17 mod 256) + byte_to_Z Byte.x08).
Proof. apply (jpeg_contract_frame_shift (a:=Arch64)); by_decide. Defined.

(** The stream of the specification's example (section 8), whose frame has
    no length field: the steps of section 4.3 return 240 by 320, the reading
    by records and the code run out of bytes. *)
Example contract_spec_example :
  let r := NewReader (Jpeg.Header ++ [Byte.xff; Byte.xe0; Byte.x00; Byte.x10]
             ++ bytes_of (replicate 14 7)
             ++ [Byte.xff; Byte.xc0; Byte.x08; Byte.x01; Byte.x40; Byte.x00; Byte.xf0]) in
  SegmentWalkingParser ByMarker r = Returns 240 320
  ∧ SegmentWalkingParser ByRecord r = Fails ErrTruncatedInput
  ∧ Jpeg.DecodeConfig (a:=Arch64) r = Done (Jpeg.cfg0, Some io_ErrUnexpectedEOF) (NewReader []).
Proof. by vm_compute. Qed.

(** A marker with a wrong sentinel in the last bytes of a stream: the
    steps of section 4.3 see the sentinel first, the code reads four bytes
    first. *)
Example contract_marker_order_example :
  let r := NewReader (Jpeg.Header ++ [Byte.x00; Byte.xe0; Byte.x00]) in
  SegmentWalkingParser ByMarker r = Fails ErrInvalidFormat
  ∧ SegmentWalkingParser ByRecord r = Fails ErrTruncatedInput
  ∧ Jpeg.DecodeConfig (a:=Arch64) r = Done (Jpeg.cfg0, Some io_ErrUnexpectedEOF) (NewReader []).
Proof. by vm_compute. Qed.

(** A length of 1: nothing is specified, and the code panics. *)
Example contract_short_length_example :
  let r := NewReader (Jpeg.Header ++ [Byte.xff; Byte.xe0; Byte.x00; Byte.x01; Byte.x00]) in
  SegmentWalkingParser ByRecord r = Unspecified
  ∧ SegmentWalkingParser ByMarker r = Unspecified
  ∧ Jpeg.DecodeConfig (a:=Arch64) r
    = Panic (slice_bounds_out_of_range (-1)) (NewReader [Byte.x00]).
Proof. by vm_compute. Qed.

End Contract.
