(* ===== verification/StbJpeg.v ===== *)
(** * StbJpeg: the second JPEG codec, [src/jpeg/stbjpeg.go]

    Module [StbJpeg] models the codec that sits beside [src/jpeg/jpeg.go]:
    its [DecodeConfig] wraps [DecodeConfig] of the standard library's
    [image/jpeg], which is an interface here (the class [StdJpeg]), and
    overrides the colour model; its [init] registers the name "jpeg" with
    the magic FF D8 a second time.  Its [Decode] calls [LoadReader] of
    another module than [src/stbi.go], so the table entry takes whatever
    full decoder it is given. *)

From S2P Require Import Prelude Ints GoIO GoImage Stbi Registry.

Module StbJpeg.

(** [const jpegHeader = "\xff\xd8"] *)
Definition jpegHeader : list byte := [Byte.xff; Byte.xd8].

(** [jpeg.DecodeConfig] of the standard library. *)
Class StdJpeg : Type := {
  jpeg_DecodeConfig : Reader → (Config * option error) * Reader;
}.

(** [func DecodeConfig(r io.Reader) (image.Config, error)] *)
Definition DecodeConfig `{StdJpeg} (r : Reader) : outcome Reader (Config * option error) :=
  let '(c, err, r') := jpeg_DecodeConfig r in
  Done (set_ColorModel c RGBAModel, err) r'.

(** [func init()] *)
Definition init `{StdJpeg} (Decode : Stbi.io_Reader → Stbi.World → Stbi.result)
    (fs : Registry.formats) : Registry.formats :=
  Registry.RegisterFormat "jpeg" jpegHeader Decode DecodeConfig fs.

Section properties.
Context {J : StdJpeg}.

(** The wrapper returns the standard library's dimensions and error, and
    the RGBA model in every case, also beside an error. *)
Lemma DecodeConfig_wraps r :
  ∃ c err r', jpeg_DecodeConfig r = (c, err, r')
    ∧ DecodeConfig r = Done (mkConfig RGBAModel (Width c) (Height c), err) r'.
Proof.
  unfold DecodeConfig. destruct (jpeg_DecodeConfig r) as [[c err] r']. by exists c, err, r'.
Qed.

Lemma DecodeConfig_returns r : returned (DecodeConfig r).
Proof. by destruct (DecodeConfig_wraps r) as (c & err & r' & _ & ->). Qed.

End properties.

End StbJpeg.
