(* ===== verification/Formats.v ===== *)
(** * Formats: the codecs behind [image.Decode] and [image.DecodeConfig]

    The [init] functions of [src/bmp/bmp.go], [src/jpeg/jpeg.go] and
    [src/jpeg/stbjpeg.go] put their entries into the format table.  Module
    [Formats] states what a caller of the [image] package gets from the
    tables they build: which parser a stream is handed to in any order of
    initialisation, what the full decode of a BMP stream comes to, and
    which of two entries with the JPEG magic a stream is handed to.

    Start-up is a transition system: a [process] is the table and the
    packages whose [init] has run, a step of [boot] runs the [init] of a
    linked package that has not been initialised, in no fixed order, and
    the process is [ready] for [main] when every linked package has been
    initialised.  [start] runs the [init] functions in a given order. *)

From S2P Require Import Prelude Ints GoIO GoImage Stbi Registry BmpConfig JpegConfig StbJpeg.

Module Formats.
Import Stbi Registry.

(** The packages of the repository that have a [func init()]. *)
Inductive package : Type := pkg_bmp | pkg_jpeg | pkg_stbjpeg.

#[export] Instance package_eq_dec : EqDecision package.
Proof. solve_decision. Defined.

(** A process during start-up: the format table, and the packages whose
    [init] has run, in that order. *)
Record process : Type := mkProcess { table : formats; initialised : list package }.

Section tables.
Context {a : Arch} {E : Engine} {J : StbJpeg.StdJpeg}.

(** The full decoders registered under the name "jpeg" by the two JPEG
    codecs. *)
Context (D1 D2 : io_Reader → World → result).

(** The table after [bmp.init] and [jpeg.init]. *)
Definition codecs : formats := Jpeg.init D1 (Bmp.init []).

(** What [Sniff] answers for a stream no entry of two bytes matches. *)
Definition no_format (r : Reader) : error :=
  if decide (length (pending r) < 2)%nat then ErrTruncatedInput else ErrUnrecognizedFormat.

(** The [func init()] of a package. *)
Definition init_of (p : package) : formats → formats :=
  match p with
  | pkg_bmp => Bmp.init
  | pkg_jpeg => Jpeg.init D1
  | pkg_stbjpeg => StbJpeg.init D2
  end.

(** The entry a package registers. *)
Definition entry (p : package) : format :=
  match p with
  | pkg_bmp => mkFormat "bmp" Bmp.Header Bmp.Decode Bmp.DecodeConfig
  | pkg_jpeg => mkFormat "jpeg" Jpeg.Header D1 Jpeg.DecodeConfig
  | pkg_stbjpeg => mkFormat "jpeg" StbJpeg.jpegHeader D2 StbJpeg.DecodeConfig
  end.

Definition run_init (p : package) (s : process) : process :=
  mkProcess (init_of p (table s)) (initialised s ++ [p]).

(** The processes start-up goes through when the packages [linked] are
    part of the program: the table is empty and nothing is initialised, and
    a linked package that has not been initialised runs its [init]. *)
Inductive boot (linked : list package) : process → Prop :=
| boot_start : boot linked (mkProcess [] [])
| boot_init p s :
    boot linked s → p ∈ linked → p ∉ initialised s → boot linked (run_init p s).

(** [main] starts when every linked package has been initialised. *)
Definition ready (linked : list package) (s : process) : Prop :=
  boot linked s ∧ linked ⊆ initialised s.

(** Start-up in a given order. *)
Definition start (order : list package) : process :=
  foldl (λ s p, run_init p s) (mkProcess [] []) order.

Lemma codecs_exclusive : exclusive codecs.
Proof.
  apply exclusive_apart. intros f g Hf Hg. unfold codecs, Jpeg.init, Bmp.init, RegisterFormat in *.
  simpl in *. decompose_list_elem_of; subst; auto; right; (split; [done|by compute]).
Qed.

Lemma matches_magic name m d c r :
  matches (mkFormat name m d c) r ↔ m `prefix_of` pending r.
Proof. apply matches_prefix. Qed.

(** The table in the order the definition gives it. *)
Lemma Sniff_codecs r :
  Sniff codecs r =
    if decide (Bmp.Header `prefix_of` pending r)
    then inl (mkFormat "bmp" Bmp.Header Bmp.Decode Bmp.DecodeConfig)
    else if decide (Jpeg.Header `prefix_of` pending r)
    then inl (mkFormat "jpeg" Jpeg.Header D1 Jpeg.DecodeConfig)
    else inr (no_format r).
Proof.
  unfold Sniff, codecs, Jpeg.init, Bmp.init, RegisterFormat. simpl.
  rewrite !(decide_ext _ _ _ _ (matches_magic _ _ _ _ r)).
  do 2 (case_decide; [done|]). f_equal. apply decide_ext, too_short_2; simpl; [lia|].
  by repeat constructor.
Qed.

Lemma Sniff_any_order fs r : fs ≡ₚ codecs → Sniff fs r = Sniff codecs r.
Proof. intros Hp. symmetry. apply Sniff_exclusive; [apply codecs_exclusive|done]. Qed.

(** [image.DecodeConfig] on a table that holds the BMP and the JPEG
    codec in either order. *)
Lemma DecodeConfig_dispatch fs r :
  fs ≡ₚ codecs →
  Registry.DecodeConfig fs r =
    if decide (Bmp.Header `prefix_of` pending r) then Bmp.DecodeConfig r
    else if decide (Jpeg.Header `prefix_of` pending r) then Jpeg.DecodeConfig r
    else Done (mkConfig nilModel 0 0, Some (no_format r)) r.
Proof.
  intros Hp. unfold Registry.DecodeConfig. rewrite (Sniff_any_order fs r Hp), Sniff_codecs.
  by repeat case_decide.
Qed.

(** ** Start-up *)

Lemma init_of_entry p fs : init_of p fs = fs ++ [entry p].
Proof. by destruct p. Qed.

(** What holds of every process start-up goes through: no [init] has run
    twice, only linked packages are initialised, and the table holds the
    entry of each initialised package, once, in the order of
    initialisation. *)
Lemma boot_invariant linked s :
  boot linked s →
  NoDup (initialised s) ∧ initialised s ⊆ linked ∧ table s = entry <$> initialised s.
Proof.
  induction 1 as [|p s _ (Hn & Hl & Ht) Hp Hi]; simpl.
  - split_and!; [constructor|set_solver|done].
  - split_and!.
    + apply NoDup_app. split_and!; [done|set_solver|apply NoDup_singleton].
    + set_solver.
    + by rewrite init_of_entry, Ht, fmap_app.
Qed.

Lemma start_snoc order p : start (order ++ [p]) = run_init p (start order).
Proof. unfold start. by rewrite foldl_app. Qed.

(** The processes of start-up are the runs of [start] on the orders
    without repetition of linked packages. *)
Lemma boot_start_iff linked s :
  boot linked s ↔ ∃ order, NoDup order ∧ order ⊆ linked ∧ s = start order.
Proof.
  split.
  - induction 1 as [|p s Hb (order & Hn & Hl & ->) Hp Hi].
    + exists []. split_and!; [constructor|set_solver|done].
    + pose proof (boot_invariant _ _ Hb) as (_ & _ & Ht).
      assert (initialised (start order) = order) as Ho.
      { clear. induction order as [|q order IH] using rev_ind; [done|].
        by rewrite start_snoc; simpl; rewrite IH. }
      rewrite Ho in Hi. exists (order ++ [p]). split_and!.
      * apply NoDup_app. split_and!; [done|set_solver|apply NoDup_singleton].
      * set_solver.
      * by rewrite start_snoc.
  - intros (order & Hn & Hl & ->). induction order as [|p order IH] using rev_ind.
    + constructor.
    + apply NoDup_app in Hn as (Hn & Hd & _). rewrite start_snoc.
      assert (boot linked (start order)) as Hb by (apply IH; [done|set_solver]).
      apply boot_init; [done|set_solver|].
      pose proof (boot_invariant _ _ Hb) as (_ & _ & Ht).
      intros Hi. apply (Hd p); [|set_solver]. revert Hi. clear.
      induction order as [|q order IH] using rev_ind; [done|].
      rewrite start_snoc. simpl. set_solver.
Qed.

(** Start-up comes to an end: running the [init] functions in the order
    the packages are listed leaves the process ready. *)
Lemma ready_start linked : NoDup linked → ready linked (start linked).
Proof.
  intros Hn. assert (boot linked (start linked)) as Hb
    by (apply boot_start_iff; by exists linked).
  split; [done|]. clear. induction linked as [|p l IH] using rev_ind; [done|].
  rewrite start_snoc. simpl. set_solver.
Qed.

(** When [main] starts, the table holds the entries of the linked
    packages, each once, in some order. *)
Lemma ready_table linked s :
  NoDup linked → ready linked s → table s ≡ₚ entry <$> linked.
Proof.
  intros Hn [Hb Hl]. pose proof (boot_invariant _ _ Hb) as (Hi & Hs & ->).
  apply fmap_Permutation, NoDup_Permutation; [done..|set_solver].
Qed.

(** C14: [image.DecodeConfig] in a process that has finished start-up
    with the packages [bmp] and [jpeg] linked, in whichever order their
    [init] functions ran: a stream that starts with BM is parsed by
    [bmp.DecodeConfig], one that starts with FF D8 by [jpeg.DecodeConfig],
    both from the first byte; any other stream is refused without a byte
    consumed, as truncated when it has fewer than two bytes and as
    unrecognised otherwise. *)
Theorem image_DecodeConfig_dispatch s r :
  ready [pkg_bmp; pkg_jpeg] s →
  Registry.DecodeConfig (table s) r =
    if decide (Bmp.Header `prefix_of` pending r) then Bmp.DecodeConfig r
    else if decide (Jpeg.Header `prefix_of` pending r) then Jpeg.DecodeConfig r
    else Done (mkConfig nilModel 0 0, Some (no_format r)) r.
Proof.
  intros Hr. apply DecodeConfig_dispatch, (ready_table [pkg_bmp; pkg_jpeg]); [|done].
  repeat constructor; set_solver.
Qed.

(** With [bmp] alone linked, every stream that does not start with BM is
    refused, a JPEG stream as unrecognised. *)
Lemma bmp_alone s r :
  ready [pkg_bmp] s →
  Registry.DecodeConfig (table s) r =
    if decide (Bmp.Header `prefix_of` pending r) then Bmp.DecodeConfig r
    else Done (mkConfig nilModel 0 0, Some (no_format r)) r.
Proof.
  intros Hr. apply (ready_table [pkg_bmp]) in Hr; [|repeat constructor; set_solver].
  apply Permutation_singleton_r in Hr. rewrite Hr.
  unfold Registry.DecodeConfig, Sniff. simpl.
  rewrite (decide_ext _ _ _ _ (matches_magic _ _ _ _ r)). case_decide; [done|].
  do 3 f_equal. apply decide_ext, too_short_2; simpl; [lia|by repeat constructor].
Qed.

(** With [jpeg] and the second JPEG codec both linked, a JPEG stream
    gets the parser of the package that was initialised first. *)
Lemma first_jpeg_wins s r :
  ready [pkg_jpeg; pkg_stbjpeg] s → Jpeg.Header `prefix_of` pending r →
  Registry.DecodeConfig (table s) r
  = decodeConfig (entry (default pkg_jpeg (head (initialised s)))) r.
Proof.
  intros [Hb Hl] Hm. pose proof (boot_invariant _ _ Hb) as (Hn & Hs & ->).
  assert (initialised s ≡ₚ [pkg_jpeg; pkg_stbjpeg]) as Hp
    by (apply NoDup_Permutation; [done|repeat constructor; set_solver|set_solver]).
  symmetry in Hp. apply Permutation_length_2_inv in Hp as [-> | ->];
    unfold Registry.DecodeConfig, Sniff; simpl;
    by rewrite decide_True by by apply matches_magic.
Qed.

(** [image.Decode] of a stream that starts with BM never yields
    an image, in whichever order the codecs were registered and whatever
    the decoder behind the bindings does: the call panics or returns an
    error. *)
Theorem image_Decode_bmp_no_image fs r w :
  fs ≡ₚ codecs → Bmp.Header `prefix_of` pending r →
  ¬ has_image (Registry.Decode fs r w).
Proof.
  intros Hp Hm. unfold Registry.Decode. rewrite (Sniff_any_order fs r Hp), Sniff_codecs.
  rewrite decide_True by done. apply LoadReader_nil_no_image.
Qed.

(** Both codecs return values of their Go types when the full JPEG
    decoder does. *)
Lemma codecs_typed {L : EngineLaws} :
  (∀ r w, typed w → typed (D1 r w)) → Forall format_typed codecs.
Proof.
  intros HD. unfold codecs, Jpeg.init, Bmp.init, RegisterFormat. simpl.
  repeat constructor; simpl; auto using Bmp.bmp_config_typed, Jpeg.jpeg_config_typed.
  intros r w Hw. by apply LoadReader_typed.
Qed.

End tables.

(** ** The theorems at a concrete table

    The codecs registered in the other order, with a full JPEG decoder
    that refuses everything. *)
Definition no_decoder : io_Reader → World → result :=
  λ _ w, Done (None, Some (errors_New "no decoder")) w.

(** A standard library whose JPEG parser refuses everything. *)
Definition no_std_jpeg : StbJpeg.StdJpeg :=
  {| StbJpeg.jpeg_DecodeConfig := λ r, (mkConfig nilModel 0 0, Some (errors_New "no jpeg"), r) |}.

Definition codecs_swapped : formats :=
  [mkFormat "jpeg" Jpeg.Header no_decoder (Jpeg.DecodeConfig (a:=Arch64));
   mkFormat "bmp" Bmp.Header (Bmp.Decode (a:=Arch64) (E:=raw_engine))
     (Bmp.DecodeConfig (a:=Arch64))].

(** [jpeg.init] runs before [bmp.init]. *)
Lemma image_DecodeConfig_dispatch_witness :
  let r := NewReader (Bmp.core_file Bmp.core_example 640 480) in
  let s := start (a:=Arch64) (E:=raw_engine) (J:=no_std_jpeg) no_decoder no_decoder
             [pkg_jpeg; pkg_bmp] in
  table s = codecs_swapped
  ∧ Registry.DecodeConfig (table s) r =
      if decide (Bmp.Header `prefix_of` pending r) then Bmp.DecodeConfig (a:=Arch64) r
      else if decide (Jpeg.Header `prefix_of` pending r) then Jpeg.DecodeConfig (a:=Arch64) r
      else Done (mkConfig nilModel 0 0, Some (no_format r)) r.
Proof.
  split; [done|].
  apply (image_DecodeConfig_dispatch (a:=Arch64) (E:=raw_engine) (J:=no_std_jpeg)
           no_decoder no_decoder).
  split; [|set_solver].
  apply (boot_init _ _ _ pkg_bmp (run_init _ _ pkg_jpeg (mkProcess [] [])));
    [apply boot_init; [constructor|set_solver..]|set_solver..].
Defined.

Lemma image_Decode_bmp_no_image_witness :
  ¬ has_image (Registry.Decode codecs_swapped
                 (NewReader (Bmp.core_file Bmp.core_example 640 480)) w0).
Proof.
  apply (image_Decode_bmp_no_image (a:=Arch64) (E:=raw_engine) no_decoder);
    [apply Permutation_swap|].
  by exists (drop 2 (Bmp.core_file Bmp.core_example 640 480)).
Defined.

End Formats.
