(* ===== verification/GoBuild.v ===== *)
(** * GoBuild: the calls between the packages of the repository

    The four files under [src/] are three packages that call one another
    through their exported functions: [bmp.Decode] and [jpeg.Decode] call
    [stbi.LoadReader], [LoadReader] calls [LoadFile] and [LoadMemory], and
    the [init] functions call [image.RegisterFormat].  Module [Build]
    holds the types of the exported functions and the argument lists of
    the calls.  [check_call] is the check of a call against the type of
    the function called, [accepts] the rule it decides (the part of Go's
    assignability that these calls need); [denote] gives a call of the
    bindings that passes the check its meaning in module [Stbi], so that
    [Decode] of each codec is a definition here: a call of [Stbi] where
    the call is well typed, nothing where it is not.  The theorem says
    what type a [LoadReader] must have to take the calls of both
    codecs. *)

From S2P Require Import Prelude Ints GoIO GoImage Stbi Registry BmpConfig.

Module Build.

(** ** Types and operands *)

(** The types that occur in the exported functions of the repository.
    [Tany] is [interface{}]. *)
#[local] Set Warnings "-register-all".
Inductive type : Type :=
| Tbool
| Tbyte
| Tint32
| Tstring
| Tany
| Tnamed (pkg name : string)
| Tpointer (t : type)
| Tslice (t : type)
| Tfunc (ps rs : list type).

Definition Terror : type := Tnamed "" "error".
Definition io_Reader : type := Tnamed "io" "Reader".
Definition os_File : type := Tnamed "os" "File".
Definition image_Image : type := Tnamed "image" "Image".
Definition image_Config : type := Tnamed "image" "Config".
Definition image_RGBA : type := Tnamed "image" "RGBA".

#[export] Instance type_eq_dec : EqDecision type.
Proof.
  unfold EqDecision, Decision. fix go 1.
  decide equality; try apply String.string_dec; apply (List.list_eq_dec go).
Defined.

(** An argument of a call: the untyped [nil], an untyped integer or
    string constant, or an expression of a type. *)
Inductive operand : Type :=
| Onil
| Oint (n : Z)
| Ostr (s : string)
| Oof (t : type).

#[export] Instance operand_eq_dec : EqDecision operand.
Proof. solve_decision. Defined.

(** The interface types, and which types of the repository have their
    methods: a [*os.File] is an [io.Reader], a [*image.RGBA] is an
    [image.Image]. *)
Definition is_interface (t : type) : Prop :=
  t ∈ [Tany; Terror; io_Reader; image_Image].

Definition implements (s t : type) : Prop :=
  t = Tany ∨ (s, t) ∈ [(Tpointer os_File, io_Reader); (Tpointer image_RGBA, image_Image)].

(** The types [nil] is a value of. *)
Definition nilable (t : type) : Prop :=
  match t with
  | Tpointer _ | Tslice _ | Tfunc _ _ => True
  | _ => is_interface t
  end.

(** Assignability: an operand may be passed for a parameter of type
    [t]. *)
Definition assignable (o : operand) (t : type) : Prop :=
  match o with
  | Onil => nilable t
  | Oint n =>
    match t with
    | Tint32 => int32_ok n
    | Tbyte => 0 ≤ n < 256
    | Tany => True
    | _ => False
    end
  | Ostr _ => t = Tstring ∨ t = Tany
  | Oof s => s = t ∨ implements s t
  end.

#[export] Instance is_interface_dec t : Decision (is_interface t).
Proof. unfold is_interface. apply _. Defined.

#[export] Instance implements_dec s t : Decision (implements s t).
Proof. unfold implements. apply _. Defined.

#[export] Instance nilable_dec t : Decision (nilable t).
Proof. destruct t; simpl; apply _. Defined.

#[export] Instance assignable_dec o t : Decision (assignable o t).
Proof. destruct o; simpl; [apply _|destruct t; apply _|apply _..]. Defined.

(** ** Function types and calls *)

(** The type of a function: its parameters, the element type of a final
    [...T] parameter when it has one, and its results. *)
Record signature : Type := mkSig {
  params : list type;
  variadic : option type;
  results : list type;
}.

(** What the compiler says of a call it refuses. *)
Inductive call_error : Type :=
| not_enough_arguments (have want : nat)
| too_many_arguments (have want : nat)
| cannot_use (i : nat) (o : operand) (t : type).

#[export] Instance call_error_eq_dec : EqDecision call_error.
Proof. solve_decision. Defined.

(** The arguments from the [i]-th on against the parameters that are
    left. *)
Fixpoint check_args (i : nat) (args : list operand) (ps : list type) (rest : option type)
    : option call_error :=
  match args, ps with
  | [], [] => None
  | [], _ :: _ => Some (not_enough_arguments i (i + length ps))
  | o :: args', p :: ps' =>
    if decide (assignable o p) then check_args (S i) args' ps' rest
    else Some (cannot_use i o p)
  | o :: args', [] =>
    match rest with
    | None => Some (too_many_arguments (i + length args) i)
    | Some t =>
      if decide (assignable o t) then check_args (S i) args' [] rest
      else Some (cannot_use i o t)
    end
  end.

(** The check of a call [f(args)]: the types of its results, or the
    error. *)
Definition check_call (f : signature) (args : list operand) : call_error + list type :=
  match check_args 0 args (params f) (variadic f) with
  | Some e => inl e
  | None => inr (results f)
  end.

(** The rule the check decides: every parameter has its argument, and
    the arguments beyond the parameters are elements of the variadic
    parameter. *)
Inductive accepts : list type → option type → list operand → Prop :=
| accepts_nil rest : accepts [] rest []
| accepts_param p ps rest o os :
    assignable o p → accepts ps rest os → accepts (p :: ps) rest (o :: os)
| accepts_more t o os :
    assignable o t → accepts [] (Some t) os → accepts [] (Some t) (o :: os).

(** [return f(args)] in a function with the results [declared]. *)
Definition returns (declared : list type) (f : signature) (args : list operand) : Prop :=
  accepts (params f) (variadic f) args
  ∧ Forall2 (λ s t, assignable (Oof s) t) (results f) declared.

(** ** The exported functions of the repository *)

(** [func Load(path string, channelsInFile *int32, desiredChannels int32)],
    with the results [*image.RGBA] and [error]. *)
Definition Load_type : signature :=
  mkSig [Tstring; Tpointer Tint32; Tint32] None [Tpointer image_RGBA; Terror].

(** [func LoadFile(f *os.File, channelsInFile *int32, desiredChannels int32)],
    with the results [*image.RGBA] and [error]. *)
Definition LoadFile_type : signature :=
  mkSig [Tpointer os_File; Tpointer Tint32; Tint32] None [Tpointer image_RGBA; Terror].

(** [func LoadMemory(b []byte, channelsInFile *int32, desiredChannels int32)],
    with the results [*image.RGBA] and [error]. *)
Definition LoadMemory_type : signature :=
  mkSig [Tslice Tbyte; Tpointer Tint32; Tint32] None [Tpointer image_RGBA; Terror].

(** [func LoadReader(r io.Reader, channelsInFile *int32, desiredChannels int32)],
    with the results [*image.RGBA] and [error]. *)
Definition LoadReader_type : signature :=
  mkSig [io_Reader; Tpointer Tint32; Tint32] None [Tpointer image_RGBA; Terror].

(** [func SetFlipVerticallyOnLoad(flagTrueIfShouldFlip bool)] *)
Definition SetFlipVerticallyOnLoad_type : signature := mkSig [Tbool] None [].

(** [func Decode(r io.Reader) (image.Image, error)], in each codec. *)
Definition Decode_type : signature := mkSig [io_Reader] None [image_Image; Terror].

(** [func DecodeConfig(r io.Reader) (image.Config, error)], in each codec. *)
Definition DecodeConfig_type : signature := mkSig [io_Reader] None [image_Config; Terror].

(** [image.RegisterFormat(name, magic string, decode func(io.Reader)
    (image.Image, error), decodeConfig func(io.Reader) (image.Config,
    error))] of the standard library. *)
Definition func_type (f : signature) : type := Tfunc (params f) (results f).

Definition RegisterFormat_type : signature :=
  mkSig [Tstring; Tstring; func_type Decode_type; func_type DecodeConfig_type] None [].

(** The functions of package [stbi] that a call can name. *)
Inductive callee : Type := fLoad | fLoadFile | fLoadMemory | fLoadReader | fSetFlip.

#[export] Instance callee_eq_dec : EqDecision callee.
Proof. solve_decision. Defined.

Definition type_of (f : callee) : signature :=
  match f with
  | fLoad => Load_type
  | fLoadFile => LoadFile_type
  | fLoadMemory => LoadMemory_type
  | fLoadReader => LoadReader_type
  | fSetFlip => SetFlipVerticallyOnLoad_type
  end.

(** ** Arguments with their values *)

(** What is passed in a call of the bindings: the untyped constants
    [nil], an integer and a string, and values of the parameter types. *)
Inductive value : Type :=
| Vnil
| Vconst (n : Z)
| Vtext (s : string)
| Vbool (b : bool)
| Vint32 (n : Z)
| Vstring (s : string)
| Vpointer (p : option nat)
| Vfile (f : Stbi.File)
| Vbytes (b : list byte)
| Vreader (r : Stbi.io_Reader).

Definition operand_of (v : value) : operand :=
  match v with
  | Vnil => Onil
  | Vconst n => Oint n
  | Vtext s => Ostr s
  | Vbool _ => Oof Tbool
  | Vint32 _ => Oof Tint32
  | Vstring _ => Oof Tstring
  | Vpointer _ => Oof (Tpointer Tint32)
  | Vfile _ => Oof (Tpointer os_File)
  | Vbytes _ => Oof (Tslice Tbyte)
  | Vreader _ => Oof io_Reader
  end.

(** A nil [*os.File]: its [Fd()] is [^uintptr(0)], which is -1 as a C
    [int], the descriptor of no file. *)
Definition nil_File : Stbi.File := Stbi.mkFile (-1) [].

(** The conversions an argument goes through on its way into a
    parameter.  [nil] becomes the nil pointer, the nil slice (which is
    empty) or the nil interface; a constant takes the parameter's type;
    a [*os.File] passed as an [io.Reader] is wrapped. *)
Definition as_bool (v : value) : option bool :=
  match v with Vbool b => Some b | _ => None end.

Definition as_int32 (v : value) : option Z :=
  match v with
  | Vconst n => if decide (int32_ok n) then Some n else None
  | Vint32 n => Some n
  | _ => None
  end.

Definition as_string (v : value) : option string :=
  match v with Vtext s | Vstring s => Some s | _ => None end.

Definition as_pointer (v : value) : option (option nat) :=
  match v with Vnil => Some None | Vpointer p => Some p | _ => None end.

Definition as_file (v : value) : option Stbi.File :=
  match v with Vnil => Some nil_File | Vfile f => Some f | _ => None end.

Definition as_bytes (v : value) : option (list byte) :=
  match v with Vnil => Some [] | Vbytes b => Some b | _ => None end.

Definition as_reader (v : value) : option Stbi.io_Reader :=
  match v with
  | Vnil => Some Stbi.NilReader
  | Vfile f => Some (Stbi.FileReader f)
  | Vreader r => Some r
  | _ => None
  end.

(** The call of the bindings that a call expression makes, when it is
    well typed. *)
Definition denote (f : callee) (vs : list value) : option Stbi.call :=
  match f, vs with
  | fLoad, [p; ci; n] =>
    p' ← as_string p; ci' ← as_pointer ci; n' ← as_int32 n; Some (Stbi.CallLoad p' ci' n')
  | fLoadFile, [f; ci; n] =>
    f' ← as_file f; ci' ← as_pointer ci; n' ← as_int32 n; Some (Stbi.CallLoadFile f' ci' n')
  | fLoadMemory, [b; ci; n] =>
    b' ← as_bytes b; ci' ← as_pointer ci; n' ← as_int32 n; Some (Stbi.CallLoadMemory b' ci' n')
  | fLoadReader, [r; ci; n] =>
    r' ← as_reader r; ci' ← as_pointer ci; n' ← as_int32 n; Some (Stbi.CallLoadReader r' ci' n')
  | fSetFlip, [b] => Stbi.CallSetFlip <$> as_bool b
  | _, _ => None
  end.

(** ** The calls between the packages *)

(** [return stbi.LoadReader(r, nil, 4)] of [bmp.Decode]. *)
Definition bmp_Decode (r : Stbi.io_Reader) : option Stbi.call :=
  denote fLoadReader [Vreader r; Vnil; Vconst 4].

(** [return stbi.LoadReader(r)] of [jpeg.Decode]. *)
Definition jpeg_Decode (r : Stbi.io_Reader) : option Stbi.call :=
  denote fLoadReader [Vreader r].

(** [return stbi.LoadReader(r)] of [Decode] in [stbjpeg.go], where [stbi]
    is the package its import names, with a [LoadReader] of its own. *)
Definition stbjpeg_Decode {C : Type} (LoadReader : list value → option C)
    (r : Stbi.io_Reader) : option C :=
  LoadReader [Vreader r].

(** [return LoadFile(f, channelsInFile, desiredChannels)] and [return
    LoadMemory(b, channelsInFile, desiredChannels)] of [LoadReader]. *)
Definition LoadReader_file (f : Stbi.File) (ci : option nat) (req : Z) : option Stbi.call :=
  denote fLoadFile [Vfile f; Vpointer ci; Vint32 req].

Definition LoadReader_memory (b : list byte) (ci : option nat) (req : Z) : option Stbi.call :=
  denote fLoadMemory [Vbytes b; Vpointer ci; Vint32 req].

(** The operands of the two calls of [stbi.LoadReader] in the codecs:
    [(r, nil, 4)] in [bmp.Decode], and [(r)] in [jpeg.Decode] and in the
    [Decode] of [stbjpeg.go]. *)
Definition bmp_LoadReader_args : list operand := [Oof io_Reader; Onil; Oint 4].
Definition jpeg_LoadReader_args : list operand := [Oof io_Reader].

(** The arguments of [image.RegisterFormat(name, Header, Decode,
    DecodeConfig)] in the [init] functions; [Header] is an untyped string
    constant. *)
Definition init_args (name magic : string) : list operand :=
  [Ostr name; Ostr magic; Oof (func_type Decode_type); Oof (func_type DecodeConfig_type)].

(** ** The check decides the rule *)

Section check.
Implicit Types (o : operand) (os : list operand) (t p : type) (ps : list type).
Implicit Types (rest : option type) (f : signature).

Lemma accepts_cons_inv p ps rest os :
  accepts (p :: ps) rest os ↔ ∃ o os', os = o :: os' ∧ assignable o p ∧ accepts ps rest os'.
Proof. split; [inversion 1; eauto|intros (o & os' & -> & ? & ?); by constructor]. Qed.

Lemma accepts_rest_inv rest os :
  accepts [] rest os
  ↔ match rest with None => os = [] | Some t => Forall (λ o, assignable o t) os end.
Proof.
  split.
  - remember [] as ps eqn:E. induction 1 as [rest| |t o os Ho _ IH]; [by destruct rest|done|].
    constructor; [done|by apply IH].
  - destruct rest as [t|]; [|intros ->; constructor]. induction 1; by constructor.
Qed.

(** The rule in one piece: the arguments are one for each parameter,
    followed by elements of the variadic parameter. *)
Lemma accepts_split ps rest os :
  accepts ps rest os
  ↔ ∃ front more, os = front ++ more ∧ Forall2 assignable front ps ∧ accepts [] rest more.
Proof.
  revert os. induction ps as [|p ps IH]; intros os.
  - split; [intros H; by exists [], os|]. by intros (front & more & -> & ->%Forall2_nil_inv_r & ?).
  - rewrite accepts_cons_inv. setoid_rewrite IH. split.
    + intros (o & os' & -> & ? & front & more & -> & ? & ?).
      exists (o :: front), more. split_and!; [done|by constructor|done].
    + intros (front & more & -> & (o & front' & ? & ? & ->)%Forall2_cons_inv_r & ?).
      exists o, (front' ++ more). split_and!; [done..|]. by exists front', more.
Qed.

Lemma accepts_Forall2 ps os : accepts ps None os ↔ Forall2 assignable os ps.
Proof.
  rewrite accepts_split. setoid_rewrite accepts_rest_inv. split.
  - intros (front & more & -> & ? & ->). by rewrite app_nil_r.
  - intros H. exists os, []. by rewrite app_nil_r.
Qed.

Lemma accepts_length ps os : accepts ps None os → length os = length ps.
Proof. rewrite accepts_Forall2. apply Forall2_length. Qed.

Lemma check_args_spec i os ps rest : check_args i os ps rest = None ↔ accepts ps rest os.
Proof.
  revert i ps. induction os as [|o os IH]; intros i [|p ps]; simpl.
  - split; [constructor|done].
  - split; [done|]. by intros (? & ? & ? & _)%accepts_cons_inv.
  - rewrite accepts_rest_inv. destruct rest as [t|]; [|done]. rewrite Forall_cons.
    case_decide; [rewrite IH, accepts_rest_inv|]; naive_solver.
  - rewrite accepts_cons_inv. case_decide; [rewrite IH|]; naive_solver.
Qed.

(** When the check says that arguments are missing, it has counted
    them: every argument there is fits its parameter. *)
Lemma check_args_not_enough i os ps rest have want :
  check_args i os ps rest = Some (not_enough_arguments have want) →
  (have = i + length os ∧ want = i + length ps ∧ length os < length ps)%nat
  ∧ Forall2 assignable os (take (length os) ps).
Proof.
  revert i ps. induction os as [|o os IH]; intros i [|p ps]; simpl; try done.
  - intros [= <- <-]. split; [lia|constructor].
  - destruct rest; [case_decide|]; [|done..]. by intros (? & _)%IH; simpl in *; lia.
  - case_decide; [|done]. intros ([-> [-> ?]] & ?)%IH. split; [lia|by constructor].
Qed.

(** The compiler's check of a call decides the rule of the
    language.  [check_call] answers with the result types of the function
    exactly when every parameter has an argument that is assignable to it
    and every argument beyond the parameters is assignable to the element
    type of a variadic parameter; in every other case it answers with an
    error. *)
Theorem check_call_spec f os rs :
  check_call f os = inr rs ↔ accepts (params f) (variadic f) os ∧ rs = results f.
Proof.
  unfold check_call. rewrite <- check_args_spec with (i := 0%nat).
  destruct (check_args _ _ _ _); naive_solver.
Qed.

(** A function of fixed arity called with fewer arguments than it has
    parameters is refused, whatever the arguments are. *)
Lemma check_call_short f os :
  variadic f = None → (length os < length (params f))%nat → ∃ e, check_call f os = inl e.
Proof.
  intros Hv Hl. destruct (check_call f os) as [e|rs] eqn:Hc; [by exists e|].
  apply check_call_spec in Hc as [Ha _]. rewrite Hv in Ha. apply accepts_length in Ha. lia.
Qed.

(** The calls of [image.RegisterFormat] in the [init] functions are well
    typed, whatever the name and the magic: [Decode] and [DecodeConfig]
    have the types the table takes. *)
Lemma init_well_typed name magic :
  check_call RegisterFormat_type (init_args name magic) = inr [].
Proof. by apply check_call_spec; split; [repeat constructor|]. Qed.

(** The [LoadReader] of [src/stbi.go] takes the call of [bmp.Decode] and
    refuses the one of [jpeg.Decode], which is two arguments short. *)
Example LoadReader_calls_checked :
  check_call LoadReader_type bmp_LoadReader_args = inr [Tpointer image_RGBA; Terror]
  ∧ check_call LoadReader_type jpeg_LoadReader_args = inl (not_enough_arguments 1 3).
Proof. split; [by apply (check_call_spec LoadReader_type); split; [repeat constructor|]|done]. Qed.

(** C36: [stbi.LoadReader(r, nil, 4)] of [bmp.Decode] and
    [stbi.LoadReader(r)] of [jpeg.Decode] name the same function.  A
    function whose type accepts both calls is variadic: it has at most one
    fixed parameter, and the element type of its variadic parameter takes
    [nil] and the constant 4.  No function of fixed arity, and so no
    [LoadReader] like the one of [src/stbi.go], serves both codecs:
    against any such declaration one of the two packages does not
    compile. *)
Theorem Decode_calls_need_variadic f :
  accepts (params f) (variadic f) bmp_LoadReader_args →
  accepts (params f) (variadic f) jpeg_LoadReader_args →
  ∃ t, variadic f = Some t ∧ nilable t ∧ assignable (Oint 4) t ∧ (length (params f) ≤ 1)%nat.
Proof.
  unfold bmp_LoadReader_args, jpeg_LoadReader_args.
  intros H3 H1. destruct (variadic f) as [t|] eqn:Hv.
  2:{ apply accepts_length in H3, H1. simpl in *. lia. }
  exists t. apply accepts_split in H1 as (f1 & m1 & E1 & Hf1%Forall2_length & _).
  assert (length (params f) ≤ 1)%nat as Hl.
  { rewrite <- Hf1. apply (f_equal length) in E1. rewrite length_app in E1. simpl in E1. lia. }
  apply accepts_split in H3 as (f3 & m3 & E3 & Hf3%Forall2_length & Hm%accepts_rest_inv).
  assert (Onil ∈ m3 ∧ Oint 4 ∈ m3) as [Hn Hc].
  { destruct f3 as [|? [|? ?]]; simpl in *; [| |lia]; simplify_eq; set_solver. }
  rewrite Forall_forall in Hm. split_and!; [done|by apply (Hm Onil)|by apply (Hm (Oint 4))|done].
Qed.

End check.

(** ** Calls that are well typed have a meaning *)

Section denote.
Implicit Types (v : value) (vs : list value).

Lemma as_bool_spec v : is_Some (as_bool v) ↔ assignable (operand_of v) Tbool.
Proof. destruct v; simpl; unfold is_Some, implements; set_solver. Qed.

Lemma as_int32_spec v : is_Some (as_int32 v) ↔ assignable (operand_of v) Tint32.
Proof. destruct v; simpl; try case_decide; unfold is_Some, implements; set_solver. Qed.

Lemma as_string_spec v : is_Some (as_string v) ↔ assignable (operand_of v) Tstring.
Proof. destruct v; simpl; unfold is_Some, implements; set_solver. Qed.

Lemma as_pointer_spec v : is_Some (as_pointer v) ↔ assignable (operand_of v) (Tpointer Tint32).
Proof. destruct v; simpl; unfold is_Some, implements; set_solver. Qed.

Lemma as_file_spec v : is_Some (as_file v) ↔ assignable (operand_of v) (Tpointer os_File).
Proof. destruct v; simpl; unfold is_Some, implements; set_solver. Qed.

Lemma as_bytes_spec v : is_Some (as_bytes v) ↔ assignable (operand_of v) (Tslice Tbyte).
Proof. destruct v; simpl; unfold is_Some, implements; set_solver. Qed.

Lemma as_reader_spec v : is_Some (as_reader v) ↔ assignable (operand_of v) io_Reader.
Proof.
  destruct v; simpl; unfold is_Some, implements, is_interface, io_Reader; set_solver.
Qed.

Lemma is_Some_bind3 {A B C D} (a : option A) (b : option B) (c : option C) (f : A → B → C → D) :
  is_Some (x ← a; y ← b; z ← c; Some (f x y z)) ↔ is_Some a ∧ is_Some b ∧ is_Some c.
Proof. destruct a, b, c; simpl; unfold is_Some; naive_solver. Qed.

(** A call of the bindings has a meaning exactly when the compiler
    accepts it.  For each of [Load], [LoadFile], [LoadMemory],
    [LoadReader] and [SetFlipVerticallyOnLoad], the arguments convert to
    the parameters (an untyped [nil] to the nil pointer, the nil file, the
    empty slice or the nil reader, a constant to an [int32] it fits, a
    file to a reader) if and only if they are as many as the parameters
    and each is assignable to its parameter. *)
Theorem denote_well_typed f vs :
  is_Some (denote f vs) ↔ accepts (params (type_of f)) None (operand_of <$> vs).
Proof.
  rewrite accepts_Forall2.
  destruct f, vs as [|v1 [|v2 [|v3 [|v4 vs]]]]; simpl;
    rewrite ?is_Some_bind3, ?fmap_is_Some, ?Forall2_cons, ?Forall2_nil, ?as_bool_spec,
      ?as_int32_spec, ?as_string_spec, ?as_pointer_spec, ?as_file_spec, ?as_bytes_spec,
      ?as_reader_spec;
    try tauto; (split; [by intros [? [=]]|intros H]);
    repeat destruct H as [_ H]; by apply Forall2_length in H.
Qed.

Section decode.
Context {a : Arch} {E : Stbi.Engine}.

(** [bmp.Decode] as its call expression is the [Decode] of module [Bmp]:
    the call is well typed, [nil] is the nil pointer and 4 an [int32]. *)
Lemma bmp_Decode_denotes r :
  bmp_Decode r = Some (Stbi.CallLoadReader r None 4)
  ∧ Stbi.exec (Stbi.CallLoadReader r None 4) = Bmp.Decode r.
Proof. done. Qed.

(** The calls [LoadReader] makes are well typed, and are the calls of
    its model. *)
Lemma LoadReader_calls_denote f b ci req :
  LoadReader_file f ci req = Some (Stbi.CallLoadFile f ci req)
  ∧ LoadReader_memory b ci req = Some (Stbi.CallLoadMemory b ci req).
Proof. done. Qed.

End decode.

End denote.

(** ** The theorems at concrete calls *)

(** A [LoadReader] that would serve both codecs. *)
Definition LoadReader_variadic : signature :=
  mkSig [io_Reader] (Some Tany) [Tpointer image_RGBA; Terror].

Lemma Decode_calls_need_variadic_witness :
  ∃ t, variadic LoadReader_variadic = Some t ∧ nilable t ∧ assignable (Oint 4) t
    ∧ (length (params LoadReader_variadic) ≤ 1)%nat.
Proof.
  apply Decode_calls_need_variadic; apply (check_args_spec 0%nat); by vm_compute.
Defined.

End Build.
