(* ===== verification/Goroutines.v ===== *)
(** * Goroutines: programs over the bindings side by side

    The C library behind [src/stbi.go] keeps its flip flag and its failure
    reason in globals, and the bindings have no lock: when two goroutines
    call them, the calls of both act on one [World] in the order the
    scheduler picks.  A loader calls into C more than once, so that order
    is finer than the calls: Module [Sched] splits a loader into the step
    up to the return of the decoder ([enter]) and the step from there on
    ([resume]), and runs two goroutines under a schedule of such steps
    ([tick], [sched]).  A schedule of whole calls is an [interleaving],
    run by [Stbi.run]; [interleavings] lists them.  The theorems exhibit
    the schedules in which one goroutine changes what another is handed:
    through the flip flag, through the failure reason, and through the
    cell behind a shared [channelsInFile].  The scheduler of Go can switch
    at more points than the two of this model; that adds schedules and
    removes none, so what is shown to happen here can happen there. *)

From S2P Require Import Prelude Ints GoIO GoImage Stbi.

Module Sched.
Import Stbi.
#[local] Open Scope go_scope.

(** [l] takes the elements of [p] and of [q], each in its order. *)
Inductive interleaving {A : Type} : list A → list A → list A → Prop :=
| interleaving_nil : interleaving [] [] []
| interleaving_left x p q l : interleaving p q l → interleaving (x :: p) q (x :: l)
| interleaving_right x p q l : interleaving p q l → interleaving p (x :: q) (x :: l).

(** The schedules of [p] and [q]: the next call is the next of [p] or the
    next of [q]. *)
Fixpoint interleavings {A : Type} (p q : list A) : list (list A) :=
  match p with
  | [] => [q]
  | x :: p' =>
    (fix with_q (q : list A) : list (list A) :=
       match q with
       | [] => [p]
       | y :: q' => ((x ::.) <$> interleavings p' q) ++ ((y ::.) <$> with_q q')
       end) q
  end.

(** ** Inside a call

    A loader makes more than one call into C: the decoder is called first,
    and [C.stbi_failure_reason()] or [C.GoBytes] and the deferred releases
    come after it has returned.  Another goroutine may run in between.
    [enter] is a loader up to the return of the decoder's call, [resume]
    the lines from [if data == nil] on. *)

(** What a loader holds when the decoder's call has returned: the pointer
    [data], its argument [channelsInFile], and the C strings whose release
    is deferred. *)
Record inflight : Type := mkInflight {
  data : option decoded;
  channelsInFile : option nat;
  deferred : list resource;
}.

(** A goroutine: the calls it has still to make, the call it is in, and
    what its calls have returned. *)
Record goroutine : Type := mkGoroutine {
  calls : list call;
  current : option inflight;
  returned : list (option RGBA * option error);
}.

(** [go] of a program. *)
Definition spawn (p : list call) : goroutine := mkGoroutine p None [].

Section phases.
Context {a : Arch} {E : Engine}.

Definition enter_memory (b : list byte) (ci : option nat) (req : Z) (w : World)
    : result + inflight * World :=
  match b with
  | [] => inl (Panic (index_out_of_range 0 0) w)
  | _ =>
    let '(data, w1) :=
      stbi_load_from_memory b (C_int (Z.of_nat (length b))) ci (C_int req) w in
    inr (mkInflight data ci [], w1)
  end.

Definition enter_file (f : File) (ci : option nat) (req : Z) (w : World)
    : result + inflight * World :=
  let '(fp, err, w2) := fdopen (C_int (Fd f)) (malloc (CStr "rb") w) in
  match err with
  | Some e => inl (defer (free (CStr "rb")) (Done (None, Some e) w2))
  | None =>
    let '(data, w3) := stbi_load_from_file f ci (C_int req) w2 in
    inr (mkInflight data ci [CStr "rb"], w3)
  end.

(** A call up to the return of the decoder: its result when it ends
    before (a panic, an error of [fdopen] or of the reader, the flag set),
    and otherwise what it holds and the world the decoder has left. *)
Definition enter (c : call) (w : World) : result + inflight * World :=
  match c with
  | CallLoad path ci req =>
    let '(data, w2) := stbi_load path ci (C_int req) (malloc (CStr path) w) in
    inr (mkInflight data ci [CStr path], w2)
  | CallLoadFile f ci req => enter_file f ci req w
  | CallLoadMemory b ci req => enter_memory b ci req w
  | CallLoadReader NilReader ci req => inl (Panic nil_pointer_dereference w)
  | CallLoadReader (FileReader f) ci req => enter_file f ci req w
  | CallLoadReader (StreamReader r) ci req =>
    let '(b, err, _) := readAll r in
    match err with
    | Some e => inl (Done (None, Some e) w)
    | None => enter_memory b ci req w
    end
  | CallSetFlip flag => inl (Done (None, None) (SetFlipVerticallyOnLoad flag w))
  end.

(** The rest of the call, in the world of the moment it goes on. *)
Definition resume (k : inflight) (w : World) : result :=
  foldr (λ x, defer (free x)) (finish (data k) (channelsInFile k) w) (deferred k).

(** One step of a goroutine: the rest of the call it is in, or its next
    call up to the decoder's return.  A goroutine with nothing left to do
    stays as it is. *)
Definition tick (g : goroutine) (w : World) : outcome World goroutine :=
  match current g, calls g with
  | Some k, cs =>
    let* v at w1 := resume k w in Done (mkGoroutine cs None (returned g ++ [v])) w1
  | None, c :: cs =>
    match enter c w with
    | inl o => let* v at w1 := o in Done (mkGoroutine cs None (returned g ++ [v])) w1
    | inr (k, w1) => Done (mkGoroutine cs (Some k) (returned g)) w1
    end
  | None, [] => Done g w
  end.

(** Two goroutines under a schedule of steps: [true] is a step of the
    first, [false] one of the second.  A panic of either ends the
    process. *)
Fixpoint sched (σ : list bool) (g1 g2 : goroutine) (w : World)
    : outcome World (goroutine * goroutine) :=
  match σ with
  | [] => Done (g1, g2) w
  | true :: σ' => let* g at w1 := tick g1 w in sched σ' g g2 w1
  | false :: σ' => let* g at w1 := tick g2 w in sched σ' g1 g w1
  end.

End phases.

(** ** Schedules *)

Section schedules.
Context {A : Type}.
Implicit Types (x : A) (p q l : list A).

Lemma interleavings_nil_r p : interleavings p [] = [p].
Proof. by destruct p. Qed.

Lemma interleavings_cons x p y q :
  interleavings (x :: p) (y :: q)
  = ((x ::.) <$> interleavings p (y :: q)) ++ ((y ::.) <$> interleavings (x :: p) q).
Proof. done. Qed.

Lemma interleaving_nil_l_iff q l : interleaving [] q l ↔ l = q.
Proof.
  split; [|intros ->; induction q; by constructor].
  remember [] as p eqn:E. induction 1; simplify_eq; [done|]. f_equal. by apply IHinterleaving.
Qed.

Lemma interleaving_nil_r_iff p l : interleaving p [] l ↔ l = p.
Proof.
  split; [|intros ->; induction p; by constructor].
  remember [] as q eqn:E. induction 1; simplify_eq; [done|]. f_equal. by apply IHinterleaving.
Qed.

Lemma interleaving_cons_iff x p y q l :
  interleaving (x :: p) (y :: q) l
  ↔ (∃ l', l = x :: l' ∧ interleaving p (y :: q) l')
    ∨ (∃ l', l = y :: l' ∧ interleaving (x :: p) q l').
Proof. split; [inversion 1; eauto|intros [(l' & -> & ?)|(l' & -> & ?)]; by constructor]. Qed.

Lemma interleaving_comm p q l : interleaving p q l → interleaving q p l.
Proof. induction 1; by constructor. Qed.

Lemma interleaving_Permutation p q l : interleaving p q l → l ≡ₚ p ++ q.
Proof.
  induction 1 as [|x p q l _ IH|x p q l _ IH]; simpl; [done|by constructor|].
  by rewrite IH, Permutation_middle.
Qed.

Lemma interleaving_length p q l :
  interleaving p q l → length l = (length p + length q)%nat.
Proof. intros ->%interleaving_Permutation. apply length_app. Qed.

(** [interleavings] lists the schedules: a list is in it if and
    only if it takes the calls of both programs, each in its order. *)
Theorem interleavings_spec p q l : l ∈ interleavings p q ↔ interleaving p q l.
Proof.
  revert q l. induction p as [|x p IHp]; intros q l.
  { simpl. by rewrite list_elem_of_singleton, interleaving_nil_l_iff. }
  induction q as [|y q IHq] in l |- *.
  { by rewrite interleavings_nil_r, list_elem_of_singleton, interleaving_nil_r_iff. }
  rewrite interleavings_cons, elem_of_app, !list_elem_of_fmap, interleaving_cons_iff.
  setoid_rewrite IHp. setoid_rewrite IHq. done.
Qed.

End schedules.

(** ** Steps and calls *)

Section steps.
Context {a : Arch} {E : Engine}.
Implicit Types (c : call) (g : goroutine) (w : World) (k : inflight) (σ : list bool).

(** A call is its two steps made one after the other. *)
Lemma exec_phases c w :
  exec c w = match enter c w with inl o => o | inr (k, w1) => resume k w1 end.
Proof.
  destruct c as [path ci req|f ci req|b ci req|[|f|R S r] ci req|flag]; simpl; try done.
  - unfold Load. by destruct (stbi_load _ _ _ _).
  - unfold LoadFile, enter_file. destruct (fdopen _ _) as [[fp [e|]] w2]; [done|].
    by destruct (stbi_load_from_file _ _ _ _).
  - unfold LoadMemory, enter_memory. destruct b; [done|].
    by destruct (stbi_load_from_memory _ _ _ _ _).
  - unfold LoadFile, enter_file. destruct (fdopen _ _) as [[fp [e|]] w2]; [done|].
    by destruct (stbi_load_from_file _ _ _ _).
  - destruct (readAll r) as [[b [e|]] ?]; [done|].
    unfold LoadMemory, enter_memory. destruct b; [done|].
    by destruct (stbi_load_from_memory _ _ _ _ _).
Qed.

Lemma tick_enter c cs r w :
  tick (mkGoroutine (c :: cs) None r) w
  = match enter c w with
    | inl o => let* v at w1 := o in Done (mkGoroutine cs None (r ++ [v])) w1
    | inr (k, w1) => Done (mkGoroutine cs (Some k) r) w1
    end.
Proof. done. Qed.

Lemma tick_resume k cs r w :
  tick (mkGoroutine cs (Some k) r) w
  = let* v at w1 := resume k w in Done (mkGoroutine cs None (r ++ [v])) w1.
Proof. done. Qed.

Lemma sched_true σ g1 g2 w :
  sched (true :: σ) g1 g2 w = let* g at w1 := tick g1 w in sched σ g g2 w1.
Proof. done. Qed.

Lemma sched_false σ g1 g2 w :
  sched (false :: σ) g1 g2 w = let* g at w1 := tick g2 w in sched σ g1 g w1.
Proof. done. Qed.

Lemma sched_app σ1 σ2 g1 g2 w :
  sched (σ1 ++ σ2) g1 g2 w
  = let* x at w1 := sched σ1 g1 g2 w in sched σ2 x.1 x.2 w1.
Proof.
  revert g1 g2 w. induction σ1 as [|[] σ1 IH]; intros g1 g2 w; simpl; [done|..].
  - destruct (tick g1 w); simpl; [apply IH|done..].
  - destruct (tick g2 w); simpl; [apply IH|done..].
Qed.

(** The steps of one call, made with no step of the other goroutine in
    between, are the call. *)
Lemma call_steps (i : bool) c cs r w v w1 :
  exec c w = Done v w1 →
  ∃ n, ∀ g,
    if i then sched (replicate n true) (mkGoroutine (c :: cs) None r) g w
              = Done (mkGoroutine cs None (r ++ [v]), g) w1
    else sched (replicate n false) g (mkGoroutine (c :: cs) None r) w
         = Done (g, mkGoroutine cs None (r ++ [v])) w1.
Proof.
  rewrite exec_phases. destruct (enter c w) as [o|[k w2]] eqn:He; intros Ho.
  - exists 1%nat. intros g. destruct i; simpl; unfold tick; simpl; by rewrite He, Ho.
  - exists 2%nat. intros g.
    destruct i; simpl; unfold tick; simpl; rewrite He; simpl; by rewrite Ho.
Qed.

(** A schedule of whole calls is a schedule of steps: what two programs
    return when their calls are interleaved, they return under the
    schedule that makes the steps of each call one after the other. *)
Theorem interleaving_sched p q s :
  interleaving p q s → ∀ w vs w' r1 r2, run s w = Done vs w' →
  ∃ σ v1 v2,
    sched σ (mkGoroutine p None r1) (mkGoroutine q None r2) w
    = Done (mkGoroutine [] None (r1 ++ v1), mkGoroutine [] None (r2 ++ v2)) w'
    ∧ interleaving (zip p v1) (zip q v2) (zip s vs).
Proof.
  induction 1 as [|x p q s _ IH|x p q s _ IH]; intros w vs w' r1 r2 Hr.
  - injection Hr as <- <-. exists [], [], []. rewrite !app_nil_r. split; [done|constructor].
  - apply run_cons_inv in Hr as (v & w1 & vs' & He & Hr & ->).
    destruct (IH w1 vs' w' (r1 ++ [v]) r2 Hr) as (σ & v1 & v2 & Hs & Hi).
    destruct (call_steps true x p r1 w v w1 He) as [n Hn].
    exists (replicate n true ++ σ), (v :: v1), v2.
    rewrite sched_app, Hn. simpl. rewrite Hs, <- app_assoc. split; [done|by constructor].
  - apply run_cons_inv in Hr as (v & w1 & vs' & He & Hr & ->).
    destruct (IH w1 vs' w' r1 (r2 ++ [v]) Hr) as (σ & v1 & v2 & Hs & Hi).
    destruct (call_steps false x q r2 w v w1 He) as [n Hn].
    exists (replicate n false ++ σ), v1, (v :: v2).
    rewrite sched_app, Hn. simpl. rewrite Hs, <- app_assoc. split; [done|by constructor].
Qed.

(** The first step of [LoadMemory]: the decoder's call on all of [b]. *)
Lemma enter_memory_decode b ci req w :
  b ≠ [] → Z.of_nat (length b) < 2 ^ 31 → - 2 ^ 31 ≤ req < 2 ^ 31 →
  enter (CallLoadMemory b ci req) w
  = inr match stbi_decode (flip w) b req with
        | inl msg => (mkInflight None ci [], set_reason msg w)
        | inr d => (mkInflight (Some d) ci [],
                    malloc (Pixels (img_data d)) (store ci (img_n d) w))
        end.
Proof.
  intros Hb Hl Hr. destruct b; [done|]. unfold enter, enter_memory, stbi_load_from_memory.
  rewrite take_len32, (C_int_small req) by (done || lia).
  by destruct (stbi_decode _ _ _).
Qed.

(** The step that enters [LoadMemory]. *)
Lemma tick_LoadMemory b ci req cs r w :
  b ≠ [] → Z.of_nat (length b) < 2 ^ 31 → - 2 ^ 31 ≤ req < 2 ^ 31 →
  tick (mkGoroutine (CallLoadMemory b ci req :: cs) None r) w
  = match stbi_decode (flip w) b req with
    | inl msg => Done (mkGoroutine cs (Some (mkInflight None ci [])) r) (set_reason msg w)
    | inr d => Done (mkGoroutine cs (Some (mkInflight (Some d) ci [])) r)
                 (malloc (Pixels (img_data d)) (store ci (img_n d) w))
    end.
Proof.
  intros. rewrite tick_enter, enter_memory_decode by done. by destruct (stbi_decode _ _ _).
Qed.

End steps.

(** ** What one goroutine does to the call of another *)

Section races.
Context {a : Arch} {E : Engine} {L : EngineLaws}.

(** C25: the failure reason is shared.  [C.stbi_failure_reason()] is a
    second call into C, made after the decoder has returned: when two
    goroutines load inputs the decoder refuses, and the decoder's call of
    the second falls between the decoder's call of the first and its
    fetch of the reason, the first is handed the reason of the second's
    failure, not the one of its own, which is what it gets when it runs
    alone. *)
Theorem failure_reason_race b1 b2 ci1 ci2 req1 req2 w msg1 msg2 :
  b1 ≠ [] → Z.of_nat (length b1) < 2 ^ 31 → - 2 ^ 31 ≤ req1 < 2 ^ 31 →
  b2 ≠ [] → Z.of_nat (length b2) < 2 ^ 31 → - 2 ^ 31 ≤ req2 < 2 ^ 31 →
  stbi_decode (flip w) b1 req1 = inl msg1 → stbi_decode (flip w) b2 req2 = inl msg2 →
  let p := [CallLoadMemory b1 ci1 req1] in
  let q := [CallLoadMemory b2 ci2 req2] in
  (∃ w1, run p w = Done [(None, Some (errors_New msg1))] w1)
  ∧ ∃ σ w', sched σ (spawn p) (spawn q) w
      = Done (mkGoroutine [] None [(None, Some (errors_New msg2))],
              mkGoroutine [] None [(None, Some (errors_New msg2))]) w'.
Proof.
  intros Hb1 Hl1 Hr1 Hb2 Hl2 Hr2 Hd1 Hd2 p q. split.
  { eexists. subst p. cbn [run exec obind]. by rewrite (LoadMemory_failure b1 ci1 req1 w msg1). }
  exists [true; false; true; false]. eexists. unfold spawn, p, q.
  rewrite sched_true, tick_LoadMemory, Hd1 by done. cbn [obind].
  rewrite sched_false, tick_LoadMemory by done. cbn [flip set_reason]. rewrite Hd2.
  done.
Qed.

(** C26: the channel count is read after the decoder has returned.  Two
    goroutines that pass the same [channelsInFile] to [LoadMemory], the
    second for a file of fewer channels: when the second's decoder call
    falls between the first's decoder call and its [C.GoBytes], the first
    is handed an image cut to the channel count of the second's file (its
    width times its height times the other file's channels), with no
    error; alone it is handed its whole image. *)
Theorem channel_count_race b1 b2 p req1 req2 w d1 d2 :
  b1 ≠ [] → Z.of_nat (length b1) < 2 ^ 31 → - 2 ^ 31 ≤ req1 < 2 ^ 31 →
  b2 ≠ [] → Z.of_nat (length b2) < 2 ^ 31 → - 2 ^ 31 ≤ req2 < 2 ^ 31 →
  stbi_decode (flip w) b1 req1 = inr d1 → img_n d1 ≤ out_channels req1 (img_n d1) →
  stbi_decode (flip w) b2 req2 = inr d2 → img_n d2 ≤ out_channels req2 (img_n d2) →
  img_n d2 ≤ img_n d1 →
  let g1 := [CallLoadMemory b1 (Some p) req1] in
  let g2 := [CallLoadMemory b2 (Some p) req2] in
  (∃ w1, run g1 w = Done [(Some (image_of d1), None)] w1)
  ∧ ∃ σ w', sched σ (spawn g1) (spawn g2) w
      = Done (mkGoroutine [] None
                [(Some (mkRGBA (take (Z.to_nat (img_x d1 * img_y d1 * img_n d2)) (img_data d1)) 4
                               (mkRectangle 0 0 (img_x d1) (img_y d1))), None)],
              mkGoroutine [] None [(Some (image_of d2), None)]) w'.
Proof.
  intros Hb1 Hl1 Hr1 Hb2 Hl2 Hr2 Hd1 Hn1 Hd2 Hn2 Hle g1 g2. split.
  { eexists. subst g1. cbn [run exec obind]. by rewrite (LoadMemory_decoded b1 p req1 w d1). }
  exists [true; false; true; false]. eexists. unfold spawn, g1, g2.
  rewrite sched_true, tick_LoadMemory, Hd1 by done. cbn [obind].
  rewrite sched_false, tick_LoadMemory by done. cbn [flip malloc set_live]. rewrite flip_store, Hd2.
  pose proof (stbi_decode_ok _ _ _ _ Hd1) as Ho1. pose proof (stbi_decode_ok _ _ _ _ Hd2) as Ho2.
  cbn [obind]. rewrite sched_true, tick_resume. unfold resume.
  cbn [foldr deferred data channelsInFile].
  rewrite (finish_channels req1 d1 p _ (img_n d2)); [|done|exact (heap_store _ _ _)|destruct Ho2; lia].
  cbn [obind]. rewrite sched_false, tick_resume. unfold resume.
  cbn [foldr deferred data channelsInFile].
  rewrite (finish_image req2 d2) by (done || (exact (heap_store _ _ _))).
  done.
Qed.

End races.

(** ** The flip flag *)

Section race.
Context {a : Arch} {E : Engine} {L : EngineLaws}.

Lemma SetFlip_set_flip flag w : SetFlipVerticallyOnLoad flag w = set_flip flag w.
Proof. by destruct flag. Qed.

(** C24: the flip flag is shared.  A goroutine that sets the flag and
    then loads an image gets the image for its flag in one schedule, and
    in another, where a second goroutine sets the opposite flag in
    between, the image for that one: with a decoder for which the flag
    makes a difference, what the first goroutine is handed depends on the
    schedule. *)
Theorem flip_race flag b p req w d1 d2 :
  b ≠ [] → Z.of_nat (length b) < 2 ^ 31 → - 2 ^ 31 ≤ req < 2 ^ 31 →
  stbi_decode flag b req = inr d1 → img_n d1 ≤ out_channels req (img_n d1) →
  stbi_decode (negb flag) b req = inr d2 → img_n d2 ≤ out_channels req (img_n d2) →
  let g1 := [CallSetFlip flag; CallLoadMemory b (Some p) req] in
  let g2 := [CallSetFlip (negb flag)] in
  ∃ s1 s2 w1 w2, interleaving g1 g2 s1 ∧ interleaving g1 g2 s2
    ∧ run s1 w = Done [(None, None); (Some (image_of d1), None); (None, None)] w1
    ∧ run s2 w = Done [(None, None); (None, None); (Some (image_of d2), None)] w2.
Proof.
  intros Hb Hl Hr Hd1 Hn1 Hd2 Hn2 g1 g2.
  exists [CallSetFlip flag; CallLoadMemory b (Some p) req; CallSetFlip (negb flag)],
    [CallSetFlip flag; CallSetFlip (negb flag); CallLoadMemory b (Some p) req].
  eexists _, _. split_and!; [repeat constructor..| |]; cbn [run exec obind];
    rewrite !SetFlip_set_flip, (LoadMemory_decoded b p req _ _ Hb Hl Hr) by done; done.
Qed.

End race.

(** ** The theorems at concrete programs *)

Lemma failure_reason_race_witness :
  let p := [CallLoadMemory (bytes_of [0x42; 0x4d]) None 4] in
  let q := [CallLoadMemory (bytes_of [1; 1; 1]) None 4] in
  (∃ w1, run (a:=Arch64) (E:=raw_engine) p w0
         = Done [(None, Some (errors_New "unknown image type"))] w1)
  ∧ ∃ σ w', sched (a:=Arch64) (E:=raw_engine) σ (spawn p) (spawn q) w0
      = Done (mkGoroutine [] None [(None, Some (errors_New "corrupt raw image"))],
              mkGoroutine [] None [(None, Some (errors_New "corrupt raw image"))]) w'.
Proof.
  apply (failure_reason_race (bytes_of [0x42; 0x4d]) (bytes_of [1; 1; 1])
           None None 4 4 w0); (by_decide || by vm_compute).
Defined.

Lemma channel_count_race_witness :
  let d1 := mkDecoded 2 1 4 (bytes_of [10; 20; 30; 40; 50; 60; 70; 80]) in
  let d2 := mkDecoded 1 2 3 (bytes_of [10; 20; 30; 40; 50; 60]) in
  let g1 := [CallLoadMemory raw_2x1 (Some 0%nat) 4] in
  let g2 := [CallLoadMemory raw_rgb (Some 0%nat) 0] in
  (∃ w1, run (a:=Arch64) (E:=raw_engine) g1 w0 = Done [(Some (image_of d1), None)] w1)
  ∧ ∃ σ w', sched (a:=Arch64) (E:=raw_engine) σ (spawn g1) (spawn g2) w0
      = Done (mkGoroutine [] None
                [(Some (mkRGBA (take (Z.to_nat (img_x d1 * img_y d1 * img_n d2)) (img_data d1)) 4
                               (mkRectangle 0 0 (img_x d1) (img_y d1))), None)],
              mkGoroutine [] None [(Some (image_of d2), None)]) w'.
Proof.
  apply (channel_count_race (L:=raw_laws) raw_2x1 raw_rgb 0%nat 4 0 w0);
    (by_decide || by vm_compute).
Defined.

Lemma flip_race_witness :
  let d1 := mkDecoded 2 1 4 (bytes_of [80; 70; 60; 50; 40; 30; 20; 10]) in
  let d2 := mkDecoded 2 1 4 (bytes_of [10; 20; 30; 40; 50; 60; 70; 80]) in
  let g1 := [CallSetFlip true; CallLoadMemory raw_2x1 (Some 0%nat) 4] in
  let g2 := [CallSetFlip (negb true)] in
  ∃ s1 s2 w1 w2, interleaving g1 g2 s1 ∧ interleaving g1 g2 s2
    ∧ run (a:=Arch64) (E:=raw_engine) s1 w0
      = Done [(None, None); (Some (image_of d1), None); (None, None)] w1
    ∧ run (a:=Arch64) (E:=raw_engine) s2 w0
      = Done [(None, None); (None, None); (Some (image_of d2), None)] w2.
Proof.
  apply (flip_race (L:=raw_laws) true raw_2x1 0%nat 4 w0); (by_decide || by vm_compute).
Defined.

End Sched.
