(* ===== verification/ReadTrees.v ===== *)
(** * ReadTrees: the parsers as interaction trees, and callers side by side

    [bmp.DecodeConfig] and [jpeg.DecodeConfig] talk to their reader: each
    [binary.Read] is a request for the next bytes, and what the function
    does next depends on the answer.  Module [Tree] writes the two
    functions once more, as interaction trees over the one event
    [ReadFullE]: a node is a call of [io.ReadFull] and its continuation,
    and the [for] loop of the JPEG parser is the library's [ITree.iter],
    with no fuel.  [run] answers the requests from a reader of the class
    [Stream]; the theorems of the first part say that the trees, run on a
    reader, terminate with what the functions of [BmpConfig] and
    [JpegConfig] return.

    The second part runs several calls side by side: a task is a handle
    (the index of its reader) and what is left of its tree, and a schedule
    is the list of the tasks whose turn it is; a turn is one request
    ([turn], [sched]).  A turn reaches the reader behind the task's
    handle and no other, so tasks on readers of their own cannot disturb
    each other in this model ([sched_keeps]); the theorems are about the
    tasks that share one: two callers of [bmp.DecodeConfig] on one reader
    get the parse of a stream from which the bytes the other one took are
    missing, and a call of [bmp.DecodeConfig] has returned after two
    turns of its own whatever it shares. *)

From ITree Require Import ITree ITreeFacts Events.State Events.StateFacts.
From S2P Require Import Prelude Ints GoIO GoImage BmpConfig JpegConfig.

Module Tree.
Import (hints) Bmp Jpeg.

(** ** Requests *)

(** [io.ReadFull(r, buf)] with [len(buf) = n], answered with the bytes or
    the error. *)
Inductive readE : Type → Type :=
| ReadFullE (n : nat) : readE (list byte + error).

(** What the parsers return: [(image.Config, error)]. *)
Definition result : Type := Config * option error.

(** [err := binary.Read(r, order, &data)], and the rest of the function
    as [k]. *)
Definition ask {T} `{Binary T} {A} (o : ByteOrder) (data : T)
    (k : T * option error → itree readE A) : itree readE A :=
  Vis (ReadFullE dataSize)
    (λ x, k match x with inl bs => (decode o bs, None) | inr e => (data, Some e) end).

(** [err := binary.Read(r, order, buf[:n])] *)
Definition ask_slice {A} (n : nat) (buf : list byte)
    (k : list byte * option error → itree readE A) : itree readE A :=
  Vis (ReadFullE n)
    (λ x, k match x with inl bs => (bs ++ drop n buf, None) | inr e => (buf, Some e) end).

(** The answer of a reader to a request. *)
Definition handle {R} `{Stream R} : readE ~> Monads.stateT R (itree void1) :=
  λ _ e r, match e with ReadFullE n => Ret ((readFull n r).2, (readFull n r).1) end.

(** A tree run on a reader: the reader it leaves and its result, when
    it returns. *)
Definition run {R} `{Stream R} {A} (t : itree readE A) (r : R) : itree void1 (R * A) :=
  interp_state handle t r.

(** ** [src/bmp/bmp.go] *)

(** The [switch h.DIBSize]. *)
Definition bmp_read_dims {a : Arch} {A} (h : Bmp.bmpHeader) (cfg : Config)
    (k : result → itree readE A) : itree readE A :=
  if decide (Bmp.DIBSize h = 12) then
    ask LittleEndian (zero : Bmp.dimCore) (λ '(dim, err),
    k (set_size cfg (to_int (Bmp.coreX dim)) (to_int (Bmp.coreY dim)), err))
  else if decide (Bmp.DIBSize h ∈ Bmp.info_sizes) then
    ask LittleEndian (zero : Bmp.dimInfo) (λ '(dim, err),
    k (set_size cfg (to_int (Bmp.infoX dim)) (to_int (Bmp.infoY dim)), err))
  else
    k (cfg, Some Bmp.ErrInvalid).

(** [DecodeConfig] from the check of the header read on. *)
Definition bmp_after_header {a : Arch} (x : Bmp.bmpHeader * option error)
    : itree readE (panic + result) :=
  let '(h, err) := x in
  match err with
  | Some e => Ret (inr (Bmp.cfg0, Some e))
  | None =>
    if decide (Bmp.Magic h ≠ Bmp.Header) then Ret (inr (Bmp.cfg0, Some Bmp.ErrInvalid))
    else bmp_read_dims h Bmp.cfg0 (λ '(cfg', err'), Ret (inr (Bmp.magnitude cfg', err')))
  end.

(** [func DecodeConfig(r io.Reader) (image.Config, error)] *)
Definition bmp_DecodeConfig {a : Arch} : itree readE (panic + result) :=
  ask LittleEndian (zero : Bmp.bmpHeader) bmp_after_header.

(** ** [src/jpeg/jpeg.go] *)

(** The start-of-frame case. *)
Definition jpeg_read_frame {a : Arch} {A} (cfg : Config) (k : result → itree readE A)
    : itree readE A :=
  ask BigEndian (zero : Jpeg.frameDim) (λ '(dim, err),
  k (set_size cfg (to_int (Jpeg.dimW dim)) (to_int (Jpeg.dimH dim)), err)).

(** The [default:] case: an iteration ends with the state of the next one
    ([inl]) or with what the function leaves with, a panic or a result
    ([inr]). *)
Definition jpeg_skip_segment {a : Arch} (cfg : Config) (h : Jpeg.segmentHeader) (buf : list byte)
    : itree readE (Jpeg.loop_state + (panic + result)) :=
  let buf1 := Jpeg.grow buf h in
  match Jpeg.slice_to buf1 (int_sub (to_int (Jpeg.Length h)) 2) with
  | inl p => Ret (inr (inl p))
  | inr n =>
    ask_slice n buf1 (λ '(buf2, err),
    match err with
    | Some e => Ret (inr (inr (cfg, Some e)))
    | None => Ret (inl (Jpeg.mkLoop h buf2))
    end)
  end.

(** The body of the [for] loop. *)
Definition jpeg_segment_step {a : Arch} (cfg : Config) (st : Jpeg.loop_state)
    : itree readE (Jpeg.loop_state + (panic + result)) :=
  ask BigEndian (Jpeg.st_h st) (λ '(h, err),
  match err with
  | Some e => Ret (inr (inr (cfg, Some e)))
  | None =>
    if decide (Jpeg.Sentinel h ≠ Byte.xff) then Ret (inr (inr (cfg, Some Jpeg.ErrInvalid)))
    else if decide (Jpeg.Marker h ∈ Jpeg.SOF) then jpeg_read_frame cfg (λ x, Ret (inr (inr x)))
    else jpeg_skip_segment cfg h (Jpeg.st_buf st)
  end).

(** The [for] loop. *)
Definition jpeg_segments {a : Arch} (cfg : Config)
    : Jpeg.loop_state → itree readE (panic + result) :=
  ITree.iter (jpeg_segment_step cfg).

(** [func DecodeConfig(r io.Reader) (image.Config, error)] *)
Definition jpeg_DecodeConfig {a : Arch} : itree readE (panic + result) :=
  ask LittleEndian (zero : byte_array 2) (λ '(magic, err),
  match err with
  | Some e => Ret (inr (Jpeg.cfg0, Some e))
  | None =>
    if decide (magic ≠ Jpeg.Header) then Ret (inr (Jpeg.cfg0, Some Jpeg.ErrInvalid))
    else jpeg_segments Jpeg.cfg0 Jpeg.st0
  end).

(** ** Trees and functions *)

(** What a call leaves when it returns or panics: the reader and the
    result. *)
Definition settle {R A} (o : outcome R A) : option (R * (panic + A)) :=
  match o with
  | Done v r => Some (r, inr v)
  | Panic p r => Some (r, inl p)
  | _ => None
  end.

Definition settle_step {R} (s : Jpeg.step_result R)
    : option (R * (Jpeg.loop_state + (panic + result))) :=
  match s with
  | Jpeg.Return res => (λ x, (x.1, inr x.2)) <$> settle res
  | Jpeg.Continue st r => Some (r, inl st)
  end.

(** The tree [t], run on any reader, terminates with what the function
    [f] returns. *)
Definition refines {R} `{Stream R} {A} (t : itree readE (panic + A)) (f : R → outcome R A) : Prop :=
  ∀ r, ∃ x, settle (f r) = Some x ∧ run t r ≈ Ret x.

(** ** Callers side by side *)

(** One turn of a call: its next request is answered; a call that has
    returned stays as it is. *)
Definition step1 {R} `{Stream R} {A} (t : itree readE A) (r : R) : itree readE A * R :=
  match observe t with
  | RetF _ => (t, r)
  | TauF t' => (t', r)
  | VisF e k =>
    match e in readE X return (X → itree readE A) → itree readE A * R with
    | ReadFullE n => λ k, (k (readFull n r).1, (readFull n r).2)
    end k
  end.

(** A task: the handle of its reader and what is left of the call. *)
Abbreviation task A := (nat * itree readE A)%type.

(** The turn of task [i]; a task whose handle names no reader waits. *)
Definition turn {R} `{Stream R} {A} (i : nat) (st : list (task A) * list R)
    : list (task A) * list R :=
  match st.1 !! i with
  | Some (h, t) =>
    match st.2 !! h with
    | Some r => (<[i := (h, (step1 t r).1)]> st.1, <[h := (step1 t r).2]> st.2)
    | None => st
    end
  | None => st
  end.

(** A schedule: the tasks in the order of their turns. *)
Definition sched {R} `{Stream R} {A} (σ : list nat) (st : list (task A) * list R)
    : list (task A) * list R :=
  foldl (λ st i, turn i st) st σ.

(** What a task has returned, once it has. *)
Definition result_of {A} (t : itree readE A) : option A :=
  match observe t with RetF v => Some v | _ => None end.

(** [st'] keeps the promises of [st]: the tasks have their handles, and
    what is left of each, run on the reader behind its handle, gives what
    the task was going to give in [st]. *)
Definition keeps {R} `{Stream R} {A} (st st' : list (task A) * list R) : Prop :=
  st'.1.*1 = st.1.*1
  ∧ ∀ j h t r, st.1 !! j = Some (h, t) → st.2 !! h = Some r →
      ∃ t' r', st'.1 !! j = Some (h, t') ∧ st'.2 !! h = Some r' ∧ run t' r' ≈ run t r.


Ltac pieces := cbv beta iota delta [fst snd].

(** ** The trees compute the functions *)

Section run.
Context {R : Type} `{Stream R}.

Lemma run_ret {A} (v : A) (r : R) : run (Ret v) r ≅ Ret (r, v).
Proof. apply interp_state_ret. Qed.

Lemma run_bind {A B} (t : itree readE A) (k : A → itree readE B) (r : R) :
  run (ITree.bind t k) r ≅ ITree.bind (run t r) (λ st, run (k st.2) st.1).
Proof. apply interp_state_bind. Qed.

Lemma run_tau {A} (t : itree readE A) (r : R) : run (Tau t) r ≈ run t r.
Proof. unfold run. by rewrite interp_state_tau, tau_eutt. Qed.

Lemma run_ask {T} `{Binary T} {A} o (data : T) (k : T * option error → itree readE A) (r : R) :
  run (ask o data k) r ≈ run (k (binary_Read o data r).1) (binary_Read o data r).2.
Proof.
  unfold ask, run, binary_Read. rewrite interp_state_vis. cbn. rewrite bind_ret_l, tau_eutt. cbn.
  by destruct (readFull dataSize r) as [[bs|e] r'].
Qed.

Lemma run_ask_slice {A} n buf (k : list byte * option error → itree readE A) (r : R) :
  run (ask_slice n buf k) r ≈ run (k (binary_Read_slice n buf r).1) (binary_Read_slice n buf r).2.
Proof.
  unfold ask_slice, run, binary_Read_slice. rewrite interp_state_vis. cbn.
  rewrite bind_ret_l, tau_eutt. cbn. by destruct (readFull n r) as [[bs|e] r'].
Qed.

Context {a : Arch}.

Lemma run_bmp_read_dims {A} h cfg (k : result → itree readE A) (r : R) :
  run (bmp_read_dims h cfg k) r ≈ run (k (Bmp.read_dims h cfg r).1) (Bmp.read_dims h cfg r).2.
Proof.
  unfold bmp_read_dims, Bmp.read_dims.
  repeat case_decide; [rewrite run_ask; by destruct (binary_Read _ _ r) as [[d err] r']..|done].
Qed.

(** [bmp.DecodeConfig] as a tree returns what the function returns, on
    a reader of any type. *)
Lemma bmp_refines : refines bmp_DecodeConfig (Bmp.DecodeConfig (R:=R)).
Proof.
  intros r. unfold bmp_DecodeConfig, bmp_after_header, Bmp.DecodeConfig.
  destruct (binary_Read LittleEndian (zero : Bmp.bmpHeader) r) as [[h [e|]] r1] eqn:E;
    [|case_decide; [|destruct (Bmp.read_dims h Bmp.cfg0 r1) as [[cfg' err'] r2] eqn:E2]];
    (eexists; split; [reflexivity|]); rewrite run_ask, E; pieces.
  - by rewrite run_ret.
  - rewrite decide_True by done. by rewrite run_ret.
  - rewrite decide_False by auto. rewrite run_bmp_read_dims, E2. pieces. by rewrite run_ret.
Qed.

Lemma run_jpeg_skip_segment cfg h buf (r : R) :
  ∃ x, settle_step (Jpeg.skip_segment cfg h buf r) = Some x
       ∧ run (jpeg_skip_segment cfg h buf) r ≈ Ret x.
Proof.
  unfold jpeg_skip_segment, Jpeg.skip_segment.
  destruct (Jpeg.slice_to _ _) as [p|n]; [eexists; split; [reflexivity|]; by rewrite run_ret|].
  destruct (binary_Read_slice n (Jpeg.grow buf h) r) as [[buf2 [e|]] r'] eqn:E;
    (eexists; split; [reflexivity|]); rewrite run_ask_slice, E; pieces; by rewrite run_ret.
Qed.

Lemma run_jpeg_segment_step cfg st (r : R) :
  ∃ x, settle_step (Jpeg.segment_step cfg st r) = Some x
       ∧ run (jpeg_segment_step cfg st) r ≈ Ret x.
Proof.
  unfold jpeg_segment_step, Jpeg.segment_step, jpeg_read_frame, Jpeg.read_frame.
  destruct (binary_Read BigEndian (Jpeg.st_h st) r) as [[h [e|]] r1] eqn:E.
  { eexists. split; [reflexivity|]. rewrite run_ask, E. pieces. by rewrite run_ret. }
  destruct (run_jpeg_skip_segment cfg h (Jpeg.st_buf st) r1) as (y & Hs & Hk).
  destruct (binary_Read BigEndian (zero : Jpeg.frameDim) r1) as [[d err] r2] eqn:E2.
  repeat case_decide; (eexists; split; [reflexivity || exact Hs|]); rewrite run_ask, E; pieces.
  - rewrite decide_True by done. by rewrite run_ret.
  - rewrite decide_False, decide_True by auto. rewrite run_ask, E2. pieces. by rewrite run_ret.
  - by rewrite !decide_False by auto.
Qed.

Lemma run_jpeg_segments cfg st (r : R) res :
  Jpeg.loops cfg st r res → ∃ x, settle res = Some x ∧ run (jpeg_segments cfg st) r ≈ Ret x.
Proof.
  induction 1 as [st r res Hs|st r st' r' res Hs _ (x & Hx & IH)];
    destruct (run_jpeg_segment_step cfg st r) as (y & Hy & Hr); rewrite Hs in Hy; simpl in Hy.
  - destruct (settle res) as [[r' x]|]; [|done]. injection Hy as <-. eexists. split; [done|].
    unfold jpeg_segments. rewrite unfold_iter, run_bind, Hr, bind_ret_l. pieces. by rewrite run_ret.
  - injection Hy as <-. exists x. split; [done|].
    unfold jpeg_segments. rewrite unfold_iter, run_bind, Hr, bind_ret_l. pieces.
    rewrite run_tau. apply IH.
Qed.

End run.

Section any_reader.
Context {a : Arch} {R : Type} `{StreamLaws R}.

(** The fuelled loop, where it does not run out of fuel, is a run of the
    loop taken as a relation. *)
Lemma segments_loops fuel cfg st (r : R) :
  Jpeg.segments fuel cfg st r ≠ Timeout → Jpeg.loops cfg st r (Jpeg.segments fuel cfg st r).
Proof.
  revert st r. induction fuel as [|fuel IH]; intros st r Ht; [done|]. simpl in *.
  destruct (Jpeg.segment_step cfg st r) as [res|st' r'] eqn:E;
    [by apply Jpeg.loops_return|eapply Jpeg.loops_continue; eauto].
Qed.

Lemma segments_not_Timeout cfg st (r : R) :
  Jpeg.segments (Jpeg.loop_fuel (view r)) cfg st r ≠ Timeout.
Proof.
  intros Ht. apply (Jpeg.walk_not_Timeout cfg (view r)). unfold Jpeg.walk.
  by rewrite <- (Jpeg.segments_scan _ _ st), <- Jpeg.segments_view, Ht.
Qed.

(** C12: the [for] loop of [jpeg.DecodeConfig] without fuel.  The loop
    written with the library's [ITree.iter], which may run for ever, and
    run on a reader of any type that keeps the laws of [Stream], terminates
    from every state on every stream, with the result and the reader that
    the fuelled loop of [JpegConfig] computes with the fuel [DecodeConfig]
    gives it: a result, an error or the panic of the slice expression. *)
Theorem jpeg_loop_tree cfg st (r : R) :
  ∃ x, settle (Jpeg.segments (Jpeg.loop_fuel (view r)) cfg st r) = Some x
       ∧ run (jpeg_segments cfg st) r ≈ Ret x.
Proof. apply run_jpeg_segments, segments_loops, segments_not_Timeout. Qed.

(** [jpeg.DecodeConfig] as a tree returns what the function returns, on
    a reader of any type that keeps the laws of [Stream]. *)
Lemma jpeg_refines : refines jpeg_DecodeConfig (Jpeg.DecodeConfig (R:=R)).
Proof.
  intros r. unfold jpeg_DecodeConfig, Jpeg.DecodeConfig.
  destruct (binary_Read LittleEndian (zero : byte_array 2) r) as [[magic [e|]] r1] eqn:E;
    [|case_decide as Hm].
  - eexists. split; [reflexivity|]. rewrite run_ask, E. pieces. by rewrite run_ret.
  - eexists. split; [reflexivity|]. rewrite run_ask, E. pieces.
    rewrite decide_True by done. by rewrite run_ret.
  - destruct (run_jpeg_segments Jpeg.cfg0 Jpeg.st0 r1 _
      (segments_loops _ _ _ _ (segments_not_Timeout Jpeg.cfg0 Jpeg.st0 r1))) as (x & Hx & Hr).
    exists x. split; [done|]. rewrite run_ask, E. pieces. by rewrite decide_False by auto.
Qed.

End any_reader.

Section sched.
Context {R : Type} `{Stream R} {A : Type}.
Implicit Types (t : itree readE A) (r : R) (st : list (task A) * list R).

(** A turn of a task does not change what the task is going to return. *)
Lemma step1_run t r : run (step1 t r).1 (step1 t r).2 ≈ run t r.
Proof.
  unfold step1, run. rewrite (unfold_interp_state handle t r).
  destruct (observe t) as [v|t'|X e k] eqn:E; cbn.
  - by rewrite unfold_interp_state, E.
  - by rewrite tau_eutt.
  - destruct e. cbn. by rewrite bind_ret_l, tau_eutt.
Qed.

Lemma result_of_run t r v : result_of t = Some v → run t r ≈ Ret (r, v).
Proof.
  unfold result_of, run. intros Hv. rewrite unfold_interp_state.
  destruct (observe t); simplify_eq. reflexivity.
Qed.

#[export] Instance keeps_PreOrder : PreOrder (keeps (R:=R) (A:=A)).
Proof.
  split.
  - intros st. split; [done|]. intros j h t r ? ?. by exists t, r.
  - intros st1 st2 st3 [Hh1 H1] [Hh2 H2]. split; [congruence|]. intros j h t r Hj Hr.
    destruct (H1 j h t r Hj Hr) as (t' & r' & Hj' & Hr' & E1).
    destruct (H2 j h t' r' Hj' Hr') as (t'' & r'' & Hj'' & Hr'' & E2).
    exists t'', r''. split_and!; [done..|]. by rewrite E2.
Qed.

(** With a reader for every task, a turn keeps every promise: the task
    whose turn it is has made a step of its own, and no other task has a
    part in the reader that moved. *)
Lemma turn_keeps i st : NoDup st.1.*1 → keeps st (turn i st).
Proof.
  destruct st as [ts rs]. intros Hn. unfold turn. simpl in *.
  destruct (ts !! i) as [[h0 t0]|] eqn:Hi; [|reflexivity].
  destruct (rs !! h0) as [r0|] eqn:Hr0; [|reflexivity]. split; simpl.
  { rewrite list_fmap_insert. apply list_insert_id. by rewrite list_lookup_fmap, Hi. }
  intros j h t r Hj Hr. destruct (decide (i = j)) as [->|Hij].
  - simplify_eq. eexists _, _. rewrite !list_lookup_insert_eq by eauto using lookup_lt_Some.
    split_and!; [done..|apply step1_run].
  - assert (h0 ≠ h).
    { intros ->. apply Hij. apply (NoDup_lookup _ _ _ h Hn); by rewrite list_lookup_fmap, ?Hi, ?Hj. }
    exists t, r. by rewrite !list_lookup_insert_ne by done.
Qed.

Lemma sched_keeps σ st : NoDup st.1.*1 → keeps st (sched σ st).
Proof.
  revert st. induction σ as [|i σ IH]; intros st Hn; [reflexivity|]. simpl.
  pose proof (turn_keeps i st Hn) as Ht. etrans; [exact Ht|]. apply IH. by rewrite (proj1 Ht).
Qed.


End sched.

Section independent.
Context {R : Type} `{Stream R} {A : Type}.

(** ** Readers of their own *)

End independent.

(** ** One reader for two callers *)

Section shared.
Context {a : Arch}.
Implicit Types (r : Reader) (bs : list byte).

Lemma ReadFull_position n bs e : (ReadFull n (mkReader bs e)).2 = mkReader (drop n bs) e.
Proof.
  unfold ReadFull. simpl. case_decide; [done|]. simpl. by rewrite drop_ge by lia.
Qed.

Lemma read_dims_position h cfg bs e :
  (Bmp.read_dims h cfg (mkReader bs e)).2 = mkReader (drop (Bmp.dims_size h) bs) e.
Proof.
  unfold Bmp.read_dims, Bmp.dims_size, binary_Read. cbn [readFull Reader_Stream].
  repeat case_decide; [..|done];
    match goal with |- context [ReadFull ?n ?r] =>
      pose proof (ReadFull_position n bs e) as Hp; by destruct (ReadFull n r) as [[?|?] ?] end.
Qed.

Lemma step1_ask {T} `{Binary T} {A} o (data : T) (k : T * option error → itree readE A) r :
  step1 (ask o data k) r = (k (binary_Read o data r).1, (binary_Read o data r).2).
Proof.
  unfold step1, ask, binary_Read. cbn. by destruct (ReadFull dataSize r) as [[bs|e] r'].
Qed.

Lemma step1_bmp_read_dims {A} h cfg (k : result → itree readE A) r :
  (∀ x r', step1 (k x) r' = (k x, r')) →
  step1 (bmp_read_dims h cfg k) r = (k (Bmp.read_dims h cfg r).1, (Bmp.read_dims h cfg r).2).
Proof.
  intros Hk. unfold bmp_read_dims, Bmp.read_dims.
  repeat case_decide; [rewrite step1_ask; by destruct (binary_Read _ _ r) as [[d err] r']..|done].
Qed.

(** The first turn of a call: the header is read. *)
Lemma step1_bmp_header bs e :
  (18 ≤ length bs)%nat →
  step1 bmp_DecodeConfig (mkReader bs e)
  = (bmp_after_header (decode LittleEndian (take 18 bs), None), mkReader (drop 18 bs) e).
Proof.
  intros Hl. unfold bmp_DecodeConfig. rewrite step1_ask.
  rewrite <- (take_drop 18 bs) at 1 2. rewrite binary_Read_app; [done|].
  change (length (take 18 bs) = 18%nat). rewrite length_take. lia.
Qed.

(** Its second turn: the dimensions are read from wherever the reader
    stands by then, and the call has returned. *)
Lemma step1_bmp_dims hb r :
  length hb = 18%nat →
  let h : Bmp.bmpHeader := decode LittleEndian hb in
  let s := step1 (bmp_after_header (h, None)) r in
  result_of s.1 = snd <$> settle (Bmp.DecodeConfig (mkReader (hb ++ pending r) (final r)))
  ∧ s.2 = if decide (Bmp.Magic h = Bmp.Header) then (Bmp.read_dims h Bmp.cfg0 r).2 else r.
Proof.
  intros Hl h s. subst s. unfold Bmp.DecodeConfig, bmp_after_header. destruct r as [bs e].
  cbn [pending final]. rewrite binary_Read_app by done. fold h.
  destruct (decide (Bmp.Magic h ≠ Bmp.Header)) as [Hm|Hm%dec_stable].
  - by rewrite decide_False by done.
  - rewrite decide_True by done. rewrite step1_bmp_read_dims by (by intros [??] ?).
    by destruct (Bmp.read_dims h Bmp.cfg0 (mkReader bs e)) as [[cfg' err'] r'].
Qed.

(** C27: two calls of [bmp.DecodeConfig] on one reader.  On a stream
    of at least 36 bytes that starts with a BMP header, in the schedule in
    which both calls read their header before either reads its
    dimensions, the first call returns what [bmp.DecodeConfig] returns on
    the stream without bytes 18 to 35 (the header the second call took),
    and the second what it returns on the stream from byte 18 without the
    dimension block the first call took behind byte 36: each parses
    a stream with a hole in it, and neither is told. *)
Theorem bmp_shared_reader bs e :
  let h : Bmp.bmpHeader := decode LittleEndian (take 18 bs) in
  (36 ≤ length bs)%nat → Bmp.Magic h = Bmp.Header →
  (result_of ∘ snd) <$> (sched [0; 1; 0; 1]%nat
     ([(0%nat, bmp_DecodeConfig); (0%nat, bmp_DecodeConfig)], [mkReader bs e])).1
  = [snd <$> settle (Bmp.DecodeConfig (mkReader (take 18 bs ++ drop 36 bs) e));
     snd <$> settle (Bmp.DecodeConfig
                       (mkReader (take 18 (drop 18 bs) ++ drop (36 + Bmp.dims_size h) bs) e))].
Proof.
  intros h Hl Hm. unfold sched, turn. cbn [foldl fst snd lookup list_lookup insert list_insert].
  rewrite (step1_bmp_header bs e) by lia. cbn [fst snd].
  rewrite (step1_bmp_header (drop 18 bs) e) by (rewrite length_drop; lia). cbn [fst snd].
  rewrite drop_drop. change (18 + 18)%nat with 36%nat. fold h.
  destruct (step1_bmp_dims (take 18 bs) (mkReader (drop 36 bs) e)) as [HA HrA];
    [rewrite length_take; lia|]. fold h in HA, HrA.
  rewrite decide_True, read_dims_position, drop_drop in HrA by done. rewrite HrA.
  destruct (step1_bmp_dims (take 18 (drop 18 bs))
    (mkReader (drop (36 + Bmp.dims_size h) bs) e)) as [HB _];
    [rewrite length_take, length_drop; lia|].
  cbn [fmap list_fmap compose snd]. by rewrite HA, HB.
Qed.

End shared.

(** ** Every call returns *)

Section returns.
Context {a : Arch}.
Implicit Types (r : Reader) (t : itree readE (panic + result)).





End returns.

(** ** The theorems at concrete streams *)

Definition bmp_640x480 : list byte := Bmp.info_file Bmp.info_example 640 480.
Definition bmp_2x3 : list byte := Bmp.core_file Bmp.core_example 2 3.

(** The loop from its first state, on a stream of one comment segment and
    a frame of 3 by 2 handed over three bytes at a time. *)
Lemma jpeg_loop_tree_witness :
  let bs := Jpeg.encode_segments [Jpeg.com_example]
              ++ Jpeg.encode_frame Byte.xc0 17 Byte.x08 2 3 in
  let c := mkChunked [take 3 bs; take 3 (drop 3 bs); drop 6 bs] io_EOF in
  ∃ x, settle (Jpeg.segments (a:=Arch64) (Jpeg.loop_fuel (view c)) Jpeg.cfg0 Jpeg.st0 c) = Some x
       ∧ run (jpeg_segments (a:=Arch64) Jpeg.cfg0 Jpeg.st0) c ≈ Ret x.
Proof. apply (jpeg_loop_tree (a:=Arch64) (R:=Chunked)). Defined.

Lemma bmp_shared_reader_witness :
  let bs := bmp_640x480 ++ replicate 20 Byte.x00 in
  (result_of ∘ snd) <$> (sched [0; 1; 0; 1]%nat
     ([(0%nat, bmp_DecodeConfig (a:=Arch64)); (0%nat, bmp_DecodeConfig (a:=Arch64))],
      [mkReader bs io_EOF])).1
  = [snd <$> settle (Bmp.DecodeConfig (a:=Arch64) (mkReader (take 18 bs ++ drop 36 bs) io_EOF));
     snd <$> settle (Bmp.DecodeConfig (a:=Arch64)
        (mkReader (take 18 (drop 18 bs)
           ++ drop (36 + Bmp.dims_size (decode LittleEndian (take 18 bs))) bs) io_EOF))].
Proof.
  intros bs. apply (bmp_shared_reader (a:=Arch64) bs io_EOF); [vm_compute; lia|by vm_compute].
Defined.

(** The same run in numbers: alone, a call reports 640 by 480; of the
    two calls on one reader, the first reports 0 by 0 and no error, and
    the second finds no BMP. *)
Example shared_reader_example :
  let bs := bmp_640x480 ++ replicate 20 Byte.x00 in
  Bmp.DecodeConfig (a:=Arch64) (mkReader bs io_EOF)
    = Done (mkConfig RGBAModel 640 480, None) (mkReader (replicate 20 Byte.x00) io_EOF)
  ∧ (result_of ∘ snd) <$> (sched [0; 1; 0; 1]%nat
       ([(0%nat, bmp_DecodeConfig (a:=Arch64)); (0%nat, bmp_DecodeConfig (a:=Arch64))],
        [mkReader bs io_EOF])).1
    = [Some (inr (mkConfig RGBAModel 0 0, None)); Some (inr (Bmp.cfg0, Some Bmp.ErrInvalid))].
Proof. by vm_compute. Qed.

(** Two calls of [jpeg.DecodeConfig] on one reader.  Alone, a call
    accepts the stream below (it never looks at the length of the
    start-of-frame segment) and reports 3 by 2.  When the second call
    takes two bytes for its magic between the first call's segment header
    and its payload, the first call skips on into the frame header, reads
    a segment of length 0 out of it, and panics. *)
Example shared_reader_panics :
  let bs := bytes_of [0xff; 0xd8; 0xff; 0xe0; 0; 4; 0xaa; 0xbb;
                      0xff; 0xc0; 0xff; 0xe3; 0; 0; 2; 0; 3] in
  Jpeg.DecodeConfig (a:=Arch64) (NewReader bs)
    = Done (mkConfig RGBAModel 3 2, None) (NewReader [])
  ∧ (result_of ∘ snd) <$> (sched [0; 0; 1; 0; 0; 0]%nat
       ([(0%nat, jpeg_DecodeConfig (a:=Arch64)); (0%nat, jpeg_DecodeConfig (a:=Arch64))],
        [NewReader bs])).1
    = [Some (inl (slice_bounds_out_of_range (-2))); Some (inr (Jpeg.cfg0, Some Jpeg.ErrInvalid))].
Proof. by vm_compute. Qed.


End Tree.
